(** * The ionic transmit/receive data path (ionic_txrx.c), embedded in Rocq

    The C functions of [drivers/linux/eth/ionic/ionic_txrx.c] are written as
    Rocq functions over an explicit state: the kernel-side state the driver
    touches ([world]: page reference counts, live DMA mappings, freed and
    delivered packets, the packet [napi->skb] holds, doorbell writes,
    statistics) and the descriptor ring ([ionic_queue]).  Calls whose outcome the driver cannot decide (page
    allocation, DMA mapping, packet allocation, linearisation, the tail index
    another CPU publishes) read their result from a script kept in [world].

    A function returns [None] when the C code would leave the model: an array
    index outside the allocated ring, or a loop that ran out of fuel.  The
    build modelled is the one without IONIC_DEBUG_STATS, CSUM_DEBUG and
    IONIC_SUPPORTS_BQL. *)

From Stdlib Require Import ZArith Lia Bool List.
From stdpp Require Import base option list gmap.

Local Open Scope Z_scope.

(** ** Partial results

    [None] is the model's way out of a computation; [bind_opt] takes the
    computation first so that a tuple pattern bound to its result is typed
    before the continuation is read. *)

Definition bind_opt {A B : Type} (m : option A) (k : A -> option B) : option B :=
  match m with
  | Some a => k a
  | None => None
  end.

Notation "'let*' x := m 'in' k" := (bind_opt m (fun x => k))
  (at level 10, x pattern, m at level 100, k at level 200, only parsing).

(** ** Machine integers *)

Definition u8 (x : Z) : Z := x mod 2 ^ 8.
Definition u16 (x : Z) : Z := x mod 2 ^ 16.
Definition u32 (x : Z) : Z := x mod 2 ^ 32.
Definition u64 (x : Z) : Z := x mod 2 ^ 64.

(** Conversion of an unsigned 32-bit value to [int]. *)
Definition int_of_u32 (x : Z) : Z :=
  if u32 x <? 2 ^ 31 then u32 x else u32 x - 2 ^ 32.

(** [min_t(u16, a, b)]: both operands are cast to u16 first. *)
Definition min_t_u16 (a b : Z) : Z := Z.min (u16 a) (u16 b).

(** The kernel's [ALIGN(x, a)] at type u32: [(x + (a - 1)) & ~(a - 1)]. *)
Definition ALIGN (x a : Z) : Z :=
  Z.land (u32 (x + (a - 1))) (u32 (Z.lnot (a - 1))).

Definition ENOMEM : Z := 12.
Definition EIO : Z := 5.
Definition EINVAL : Z := 22.
Definition ETH_HLEN : Z := 14.

(** [DMA_MAPPING_ERROR] is the all-ones device address. *)
Definition DMA_MAPPING_ERROR : Z := 2 ^ 64 - 1.
Definition dma_mapping_error (addr : Z) : bool := addr =? DMA_MAPPING_ERROR.

(** ** Constants declared in headers outside this file

    The page macros come from ionic_lif.h and the descriptor and completion
    bit masks from ionic_if.h.  Neither header is part of the embedded
    source, so their values are parameters of the whole development. *)

Class ionic_hdr := {
  IONIC_PAGE_ORDER : Z;
  IONIC_PAGE_SIZE : Z;
  IONIC_PAGE_SPLIT_SZ : Z;
  IONIC_COMP_COLOR_MASK : Z;
  IONIC_RXQ_COMP_PKT_TYPE_MASK : Z;
  IONIC_PKT_TYPE_IPV4 : Z;
  IONIC_PKT_TYPE_IPV6 : Z;
  IONIC_PKT_TYPE_IPV4_TCP : Z;
  IONIC_PKT_TYPE_IPV6_TCP : Z;
  IONIC_PKT_TYPE_IPV4_UDP : Z;
  IONIC_PKT_TYPE_IPV6_UDP : Z;
  IONIC_RXQ_COMP_CSUM_F_CALC : Z;
  IONIC_RXQ_COMP_CSUM_F_TCP_BAD : Z;
  IONIC_RXQ_COMP_CSUM_F_UDP_BAD : Z;
  IONIC_RXQ_COMP_CSUM_F_IP_BAD : Z;
  IONIC_RXQ_COMP_CSUM_F_VLAN : Z;
  IONIC_TXQ_DESC_FLAG_VLAN : Z;
  IONIC_TXQ_DESC_FLAG_ENCAP : Z;
  IONIC_TXQ_DESC_FLAG_TSO_SOT : Z;
  IONIC_TXQ_DESC_FLAG_TSO_EOT : Z;
}.

(** ** Kernel objects *)

(** A [struct page]: its identity and the two attributes the driver reads.
    The reference count lives in [world]. *)
Record struct_page := {
  pg_id : N;
  pg_pfmemalloc : bool;
  pg_nid : Z;
}.

(** An outbound [struct sk_buff], as far as the transmit path reads it. *)
Record sk_buff := {
  skb_id : N;
  skb_len : Z;                (* skb->len *)
  skb_headlen : Z;            (* skb_headlen(skb) *)
  skb_frags : list Z;         (* skb_frag_size of skb_shinfo(skb)->frags[i] *)
  gso_size : Z;               (* skb_shinfo(skb)->gso_size *)
  gso_outer_csum : bool;      (* gso_type & (GRE_CSUM | UDP_TUNNEL_CSUM) *)
  ip_summed_partial : bool;   (* skb->ip_summed == CHECKSUM_PARTIAL *)
  encapsulation : bool;
  vlan_tag_present : bool;
  vlan_tag : Z;
  tcp_hdr_end : Z;            (* skb_transport_offset + tcp_hdrlen *)
  inner_tcp_hdr_end : Z;      (* inner transport offset + inner_tcp_hdrlen *)
  checksum_start_offset : Z;
  skb_csum_offset : Z;
  xmit_more : bool;
  queue_mapping : Z;
  cow_head_err : Z;           (* what skb_cow_head(skb, 0) returns *)
}.

Definition nr_frags (skb : sk_buff) : Z := Z.of_nat (length (skb_frags skb)).
Definition skb_is_gso (skb : sk_buff) : bool := negb (gso_size skb =? 0).

(** [skb_linearize] on success: all data in the linear area, no fragments. *)
Definition linearized (skb : sk_buff) : sk_buff :=
  {| skb_id := skb_id skb; skb_len := skb_len skb; skb_headlen := skb_len skb;
     skb_frags := []; gso_size := gso_size skb;
     gso_outer_csum := gso_outer_csum skb;
     ip_summed_partial := ip_summed_partial skb;
     encapsulation := encapsulation skb;
     vlan_tag_present := vlan_tag_present skb; vlan_tag := vlan_tag skb;
     tcp_hdr_end := tcp_hdr_end skb; inner_tcp_hdr_end := inner_tcp_hdr_end skb;
     checksum_start_offset := checksum_start_offset skb;
     skb_csum_offset := skb_csum_offset skb; xmit_more := xmit_more skb;
     queue_mapping := queue_mapping skb; cow_head_err := cow_head_err skb |}.

(** A page slice attached to a received packet by [skb_add_rx_frag]. *)
Record rx_frag := {
  rf_page : struct_page;
  rf_offset : Z;
  rf_len : Z;
}.

Inductive pkt_hash_type := PKT_HASH_TYPE_L3 | PKT_HASH_TYPE_L4.

(** An inbound packet under construction.  [rx_linear] records the copy made
    by [skb_copy_to_linear_data]: source page, offset and byte count. *)
Record rx_skb := {
  rx_skb_id : N;
  rx_linear : option (struct_page * Z * Z);
  rx_frags : list rx_frag;
  rx_queue : option Z;
  rx_hash : option (Z * pkt_hash_type);
  rx_csum_complete : option Z;
  rx_vlan : option Z;
}.

Definition new_rx_skb (id : N) : rx_skb :=
  {| rx_skb_id := id; rx_linear := None; rx_frags := []; rx_queue := None;
     rx_hash := None; rx_csum_complete := None; rx_vlan := None |}.

Definition rx_skb_with_linear (s : rx_skb) (v : option (struct_page * Z * Z)) :=
  let 'Build_rx_skb a _ c d e f g := s in Build_rx_skb a v c d e f g.
Definition rx_skb_with_frags (s : rx_skb) (v : list rx_frag) :=
  let 'Build_rx_skb a b _ d e f g := s in Build_rx_skb a b v d e f g.
Definition rx_skb_with_queue (s : rx_skb) (v : option Z) :=
  let 'Build_rx_skb a b c _ e f g := s in Build_rx_skb a b c v e f g.
Definition rx_skb_with_hash (s : rx_skb) (v : option (Z * pkt_hash_type)) :=
  let 'Build_rx_skb a b c d _ f g := s in Build_rx_skb a b c d v f g.
Definition rx_skb_with_csum (s : rx_skb) (v : option Z) :=
  let 'Build_rx_skb a b c d e _ g := s in Build_rx_skb a b c d e v g.
Definition rx_skb_with_vlan (s : rx_skb) (v : option Z) :=
  let 'Build_rx_skb a b c d e f _ := s in Build_rx_skb a b c d e f v.

(** ** Statistics *)

Record ionic_rx_stats := {
  rx_pkts : Z;
  rx_bytes : Z;
  rx_dropped : Z;
  rx_alloc_err : Z;
  rx_dma_map_err : Z;
  rx_csum_error : Z;
}.

Record ionic_tx_stats := {
  tx_pkts : Z;
  tx_bytes : Z;
  tx_tso : Z;
  tx_tso_bytes : Z;
  tx_dma_map_err : Z;
  tx_clean : Z;
  tx_linearize : Z;
}.

(** ** The state outside the ring *)

Record world := {
  page_refs : gmap N Z;                        (* page reference counts *)
  dma_maps : list Z;                           (* live DMA mappings *)
  alloc_pages_results : list (option struct_page);
  dma_map_results : list Z;                    (* DMA_MAPPING_ERROR = failure *)
  skb_alloc_results : list (option N);
  linearize_results : list Z;                  (* skb_linearize return values *)
  tail_published : list Z;                     (* tail_idx seen after smp_rmb *)
  freed_skbs : list N;                         (* dev_kfree_skb*, by skb id *)
  gro_received : list rx_skb;                  (* napi_gro_receive/_frags *)
  doorbells : list Z;                          (* ionic_dbell_ring values *)
  subqueue_stopped : gset Z;                   (* stopped tx subqueues *)
  numa_mem_id : Z;
  rxs : ionic_rx_stats;
  txs : ionic_tx_stats;
  napi_skb : option rx_skb;                    (* the packet napi->skb holds *)
}.

Definition set_page_refs (v : gmap N Z) (w : world) : world :=
  let 'Build_world _ b c d e f g h i j k l m n o := w in
  Build_world v b c d e f g h i j k l m n o.
Definition set_dma_maps (v : list Z) (w : world) : world :=
  let 'Build_world a _ c d e f g h i j k l m n o := w in
  Build_world a v c d e f g h i j k l m n o.
Definition set_alloc_pages_results (v : list (option struct_page)) (w : world) :=
  let 'Build_world a b _ d e f g h i j k l m n o := w in
  Build_world a b v d e f g h i j k l m n o.
Definition set_dma_map_results (v : list Z) (w : world) : world :=
  let 'Build_world a b c _ e f g h i j k l m n o := w in
  Build_world a b c v e f g h i j k l m n o.
Definition set_skb_alloc_results (v : list (option N)) (w : world) : world :=
  let 'Build_world a b c d _ f g h i j k l m n o := w in
  Build_world a b c d v f g h i j k l m n o.
Definition set_linearize_results (v : list Z) (w : world) : world :=
  let 'Build_world a b c d e _ g h i j k l m n o := w in
  Build_world a b c d e v g h i j k l m n o.
Definition set_tail_published (v : list Z) (w : world) : world :=
  let 'Build_world a b c d e f _ h i j k l m n o := w in
  Build_world a b c d e f v h i j k l m n o.
Definition set_freed_skbs (v : list N) (w : world) : world :=
  let 'Build_world a b c d e f g _ i j k l m n o := w in
  Build_world a b c d e f g v i j k l m n o.
Definition set_gro_received (v : list rx_skb) (w : world) : world :=
  let 'Build_world a b c d e f g h _ j k l m n o := w in
  Build_world a b c d e f g h v j k l m n o.
Definition set_doorbells (v : list Z) (w : world) : world :=
  let 'Build_world a b c d e f g h i _ k l m n o := w in
  Build_world a b c d e f g h i v k l m n o.
Definition set_subqueue_stopped (v : gset Z) (w : world) : world :=
  let 'Build_world a b c d e f g h i j _ l m n o := w in
  Build_world a b c d e f g h i j v l m n o.
Definition set_rxs (v : ionic_rx_stats) (w : world) : world :=
  let 'Build_world a b c d e f g h i j k l _ n o := w in
  Build_world a b c d e f g h i j k l v n o.
Definition set_txs (v : ionic_tx_stats) (w : world) : world :=
  let 'Build_world a b c d e f g h i j k l m _ o := w in
  Build_world a b c d e f g h i j k l m v o.
Definition set_napi_skb (v : option rx_skb) (w : world) : world :=
  let 'Build_world a b c d e f g h i j k l m n _ := w in
  Build_world a b c d e f g h i j k l m n v.

Definition rx_pkts_add (d : Z) (w : world) : world :=
  let 'Build_ionic_rx_stats a b c e f g := rxs w in
  set_rxs (Build_ionic_rx_stats (a + d) b c e f g) w.
Definition rx_bytes_add (d : Z) (w : world) : world :=
  let 'Build_ionic_rx_stats a b c e f g := rxs w in
  set_rxs (Build_ionic_rx_stats a (b + d) c e f g) w.
Definition rx_dropped_inc (w : world) : world :=
  let 'Build_ionic_rx_stats a b c e f g := rxs w in
  set_rxs (Build_ionic_rx_stats a b (c + 1) e f g) w.
Definition rx_alloc_err_inc (w : world) : world :=
  let 'Build_ionic_rx_stats a b c e f g := rxs w in
  set_rxs (Build_ionic_rx_stats a b c (e + 1) f g) w.
Definition rx_dma_map_err_inc (w : world) : world :=
  let 'Build_ionic_rx_stats a b c e f g := rxs w in
  set_rxs (Build_ionic_rx_stats a b c e (f + 1) g) w.
Definition rx_csum_error_inc (w : world) : world :=
  let 'Build_ionic_rx_stats a b c e f g := rxs w in
  set_rxs (Build_ionic_rx_stats a b c e f (g + 1)) w.

Definition tx_pkts_add (d : Z) (w : world) : world :=
  let 'Build_ionic_tx_stats a b c e f g h := txs w in
  set_txs (Build_ionic_tx_stats (a + d) b c e f g h) w.
Definition tx_bytes_add (d : Z) (w : world) : world :=
  let 'Build_ionic_tx_stats a b c e f g h := txs w in
  set_txs (Build_ionic_tx_stats a (b + d) c e f g h) w.
Definition tx_tso_inc (w : world) : world :=
  let 'Build_ionic_tx_stats a b c e f g h := txs w in
  set_txs (Build_ionic_tx_stats a b (c + 1) e f g h) w.
Definition tx_tso_bytes_add (d : Z) (w : world) : world :=
  let 'Build_ionic_tx_stats a b c e f g h := txs w in
  set_txs (Build_ionic_tx_stats a b c (e + d) f g h) w.
Definition tx_dma_map_err_inc (w : world) : world :=
  let 'Build_ionic_tx_stats a b c e f g h := txs w in
  set_txs (Build_ionic_tx_stats a b c e (f + 1) g h) w.
Definition tx_clean_inc (w : world) : world :=
  let 'Build_ionic_tx_stats a b c e f g h := txs w in
  set_txs (Build_ionic_tx_stats a b c e f (g + 1) h) w.
Definition tx_linearize_inc (w : world) : world :=
  let 'Build_ionic_tx_stats a b c e f g h := txs w in
  set_txs (Build_ionic_tx_stats a b c e f g (h + 1)) w.

(** *** Kernel services *)

Definition page_ref (w : world) (p : struct_page) : Z :=
  default 0 (page_refs w !! pg_id p).

(** [alloc_pages]: the next scripted result; a fresh page holds one
    reference.  An exhausted script means the allocator has nothing left. *)
Definition alloc_pages (w : world) : option struct_page * world :=
  match alloc_pages_results w with
  | Some p :: rest =>
      (Some p, set_page_refs (<[pg_id p := 1]> (page_refs w))
                 (set_alloc_pages_results rest w))
  | None :: rest => (None, set_alloc_pages_results rest w)
  | [] => (None, w)
  end.

(** [get_page], [page_ref_add], [page_ref_sub]. *)
Definition page_ref_add (p : struct_page) (n : Z) (w : world) : world :=
  set_page_refs (<[pg_id p := page_ref w p + n]> (page_refs w)) w.
Definition get_page (p : struct_page) (w : world) : world := page_ref_add p 1 w.
Definition page_ref_sub (p : struct_page) (n : Z) (w : world) : world :=
  page_ref_add p (- n) w.

(** [__free_pages]: drops one reference; the page goes back to the
    allocator when that was the last one. *)
Definition __free_pages (p : struct_page) (w : world) : world :=
  if page_ref w p - 1 <=? 0
  then set_page_refs (delete (pg_id p) (page_refs w)) w
  else page_ref_add p (-1) w.

(** [dma_map_page], [dma_map_single], [skb_frag_dma_map]: the next scripted
    device address, recorded as live unless it is the error cookie. *)
Definition dma_map (w : world) : Z * world :=
  match dma_map_results w with
  | a :: rest =>
      if dma_mapping_error a then (a, set_dma_map_results rest w)
      else (a, set_dma_maps (a :: dma_maps w) (set_dma_map_results rest w))
  | [] => (DMA_MAPPING_ERROR, w)
  end.

Fixpoint remove_first (a : Z) (l : list Z) : list Z :=
  match l with
  | [] => []
  | x :: l' => if x =? a then l' else x :: remove_first a l'
  end.

(** [dma_unmap_page] and [dma_unmap_single]. *)
Definition dma_unmap (addr : Z) (w : world) : world :=
  set_dma_maps (remove_first addr (dma_maps w)) w.

(** [napi_alloc_skb]: a new, empty packet, or NULL. *)
Definition alloc_skb (w : world) : option rx_skb * world :=
  match skb_alloc_results w with
  | Some id :: rest => (Some (new_rx_skb id), set_skb_alloc_results rest w)
  | None :: rest => (None, set_skb_alloc_results rest w)
  | [] => (None, w)
  end.

(** [napi_get_frags]: the packet [napi->skb] holds when there is one;
    otherwise a new packet, which [napi->skb] then holds.  The packet is one
    object that the caller and [napi->skb] both point to: [napi_skb] holds
    its value as of the last time the driver function that wrote to it
    returned. *)
Definition napi_get_frags (w : world) : option rx_skb * world :=
  match napi_skb w with
  | Some skb => (Some skb, w)
  | None => let '(skb, w) := alloc_skb w in (skb, set_napi_skb skb w)
  end.

Definition dev_kfree_skb (id : N) (w : world) : world :=
  set_freed_skbs (freed_skbs w ++ [id]) w.

Definition napi_gro_receive (s : rx_skb) (w : world) : world :=
  set_gro_received (gro_received w ++ [s]) w.

(** [napi_gro_frags]: hands the packet [napi->skb] points to to the stack
    and clears [napi->skb].  [s] is that packet as the caller has left it:
    [ionic_rx_clean] got the pointer from [ionic_rx_frags] and wrote the
    metadata through it. *)
Definition napi_gro_frags (s : rx_skb) (w : world) : world :=
  set_napi_skb None (set_gro_received (gro_received w ++ [s]) w).

Definition ionic_dbell_ring (v : Z) (w : world) : world :=
  set_doorbells (doorbells w ++ [v]) w.

Definition netif_stop_subqueue (qi : Z) (w : world) : world :=
  set_subqueue_stopped ({[qi]} ∪ subqueue_stopped w) w.
Definition netif_wake_subqueue (qi : Z) (w : world) : world :=
  set_subqueue_stopped (subqueue_stopped w ∖ {[qi]}) w.
Definition __netif_subqueue_stopped (qi : Z) (w : world) : bool :=
  bool_decide (qi ∈ subqueue_stopped w).

(** [skb_linearize]: the next scripted return value; an exhausted script
    means no memory. *)
Definition skb_linearize (skb : sk_buff) (w : world) : Z * sk_buff * world :=
  match linearize_results w with
  | e :: rest =>
      if e =? 0 then (0, linearized skb, set_linearize_results rest w)
      else (e, skb, set_linearize_results rest w)
  | [] => (- ENOMEM, skb, w)
  end.

(** The tail index the completion context has published by the time the
    sender passes [smp_rmb]; an exhausted script means nothing changed. *)
Definition smp_rmb_tail (cur : Z) (w : world) : Z * world :=
  match tail_published w with
  | t :: rest => (t, set_tail_published rest w)
  | [] => (cur, w)
  end.

(** ** Buffer fragments *)

Record ionic_buf_info := {
  page : option struct_page;
  page_offset : Z;
  dma_addr : Z;
  pagecnt_bias : Z;
}.

(** ** Descriptors, completions and the ring *)

Inductive ionic_desc_cb := cb_ionic_rx_clean | cb_ionic_tx_clean.

Record ionic_sg_elem := {
  sg_addr : Z;
  sg_len : Z;
}.

Inductive ionic_rxq_desc_opcode :=
  IONIC_RXQ_DESC_OPCODE_SIMPLE | IONIC_RXQ_DESC_OPCODE_SG.

Record ionic_rxq_desc := {
  rxd_opcode : ionic_rxq_desc_opcode;
  rxd_addr : Z;
  rxd_len : Z;
}.

Record ionic_rxq_comp := {
  status : Z;
  num_sg_elems : Z;
  comp_index : Z;
  rss_hash : Z;
  csum : Z;
  vlan_tci : Z;
  len : Z;
  csum_flags : Z;
  pkt_type_color : Z;
}.

Inductive ionic_txq_desc_opcode :=
  | IONIC_TXQ_DESC_OPCODE_CSUM_NONE
  | IONIC_TXQ_DESC_OPCODE_CSUM_PARTIAL
  | IONIC_TXQ_DESC_OPCODE_CSUM_HW
  | IONIC_TXQ_DESC_OPCODE_TSO.

(** The 64-bit command word of a transmit descriptor, kept as the four
    fields [encode_txq_desc_cmd] packs and [decode_txq_desc_cmd] unpacks;
    both functions live in ionic_if.h, outside the embedded source. *)
Record txq_desc_cmd := {
  cmd_opcode : ionic_txq_desc_opcode;
  cmd_flags : Z;
  cmd_nsge : Z;
  cmd_addr : Z;
}.

Definition encode_txq_desc_cmd (opcode : ionic_txq_desc_opcode)
    (flags nsge addr : Z) : txq_desc_cmd :=
  {| cmd_opcode := opcode; cmd_flags := u8 flags; cmd_nsge := u8 nsge;
     cmd_addr := u64 addr |}.

Record ionic_txq_desc := {
  cmd : txq_desc_cmd;
  txd_len : Z;
  txd_vlan_tci : Z;
  txd_hdr_len : Z;
  txd_mss : Z;
  txd_csum_start : Z;
  txd_csum_offset : Z;
}.

Record ionic_txq_comp := {
  txc_comp_index : Z;
  txc_color : Z;
}.

(** Software metadata of one ring slot; [D] is the hardware descriptor the
    slot points to. *)
Record ionic_desc_info (D : Type) := {
  desc : D;
  sg_desc : list ionic_sg_elem;
  index : Z;
  cb : option ionic_desc_cb;
  cb_arg : option sk_buff;
  bufs : list ionic_buf_info;
  npages : Z;
  bytes : Z;
}.
Arguments Build_ionic_desc_info {D}.
Arguments desc {D}.
Arguments sg_desc {D}.
Arguments index {D}.
Arguments cb {D}.
Arguments cb_arg {D}.
Arguments bufs {D}.
Arguments npages {D}.
Arguments bytes {D}.

Definition set_desc {D} (v : D) (di : ionic_desc_info D) :=
  let 'Build_ionic_desc_info _ b c d e f g h := di in
  Build_ionic_desc_info v b c d e f g h.
Definition set_sg_desc {D} (v : list ionic_sg_elem) (di : ionic_desc_info D) :=
  let 'Build_ionic_desc_info a _ c d e f g h := di in
  Build_ionic_desc_info a v c d e f g h.
Definition set_cb {D} (v : option ionic_desc_cb) (di : ionic_desc_info D) :=
  let 'Build_ionic_desc_info a b c _ e f g h := di in
  Build_ionic_desc_info a b c v e f g h.
Definition set_cb_arg {D} (v : option sk_buff) (di : ionic_desc_info D) :=
  let 'Build_ionic_desc_info a b c d _ f g h := di in
  Build_ionic_desc_info a b c d v f g h.
Definition set_bufs {D} (v : list ionic_buf_info) (di : ionic_desc_info D) :=
  let 'Build_ionic_desc_info a b c d e _ g h := di in
  Build_ionic_desc_info a b c d e v g h.
Definition set_npages {D} (v : Z) (di : ionic_desc_info D) :=
  let 'Build_ionic_desc_info a b c d e f _ h := di in
  Build_ionic_desc_info a b c d e f v h.
Definition set_bytes {D} (v : Z) (di : ionic_desc_info D) :=
  let 'Build_ionic_desc_info a b c d e f g _ := di in
  Build_ionic_desc_info a b c d e f g v.

(** The fields of [struct ionic_lif] and of its net_device that the data
    path reads. *)
Record ionic_lif := {
  mtu : Z;
  rx_copybreak : Z;
  IONIC_LIF_F_UP : bool;
  IONIC_LIF_F_QUEUE_RESET : bool;
  is_master_lif : bool;
  NETIF_F_RXHASH : bool;
  NETIF_F_RXCSUM : bool;
  NETIF_F_HW_VLAN_CTAG_RX : bool;
}.

Record ionic_queue (D : Type) := {
  lif : ionic_lif;
  q_index : Z;
  head_idx : Z;
  tail_idx : Z;
  num_descs : Z;
  max_sg_elems : Z;
  info : list (ionic_desc_info D);
  q_stop : Z;
  q_wake : Z;
  q_drop : Z;
  dbval : Z;
}.
Arguments Build_ionic_queue {D}.
Arguments lif {D}.
Arguments q_index {D}.
Arguments head_idx {D}.
Arguments tail_idx {D}.
Arguments num_descs {D}.
Arguments max_sg_elems {D}.
Arguments info {D}.
Arguments q_stop {D}.
Arguments q_wake {D}.
Arguments q_drop {D}.
Arguments dbval {D}.

Definition set_head_idx {D} (v : Z) (q : ionic_queue D) :=
  let 'Build_ionic_queue a b _ d e f g h i j k := q in
  Build_ionic_queue a b v d e f g h i j k.
Definition set_tail_idx {D} (v : Z) (q : ionic_queue D) :=
  let 'Build_ionic_queue a b c _ e f g h i j k := q in
  Build_ionic_queue a b c v e f g h i j k.
Definition set_info {D} (v : list (ionic_desc_info D)) (q : ionic_queue D) :=
  let 'Build_ionic_queue a b c d e f _ h i j k := q in
  Build_ionic_queue a b c d e f v h i j k.
Definition set_q_stop {D} (v : Z) (q : ionic_queue D) :=
  let 'Build_ionic_queue a b c d e f g _ i j k := q in
  Build_ionic_queue a b c d e f g v i j k.
Definition set_q_wake {D} (v : Z) (q : ionic_queue D) :=
  let 'Build_ionic_queue a b c d e f g h _ j k := q in
  Build_ionic_queue a b c d e f g h v j k.
Definition set_q_drop {D} (v : Z) (q : ionic_queue D) :=
  let 'Build_ionic_queue a b c d e f g h i _ k := q in
  Build_ionic_queue a b c d e f g h i v k.

(** [q->info[i]] and the store through a [desc_info] pointer. *)
Definition q_info {D} (q : ionic_queue D) (i : Z) : option (ionic_desc_info D) :=
  if i <? 0 then None else info q !! Z.to_nat i.
Definition q_set_info {D} (i : Z) (di : ionic_desc_info D) (q : ionic_queue D) :=
  set_info (<[Z.to_nat i := di]> (info q)) q.

(** [(idx + 1) & (q->num_descs - 1)], the ring increment the file uses for
    [tail_idx] and for the rewind cursor. *)
Definition ring_next {D} (q : ionic_queue D) (idx : Z) : Z :=
  Z.land (idx + 1) (num_descs q - 1).

(** Modelled from the spec: [ionic_q_space_avail] is defined in ionic_dev.h,
    outside the embedded source.  The spec gives the number of free slots as
    N minus the in-flight count, with the ring considered full one slot
    early. *)
Definition ionic_q_space_avail {D} (q : ionic_queue D) : Z :=
  num_descs q - 1 - (head_idx q - tail_idx q) mod num_descs q.

(** Modelled from the spec: [ionic_q_has_space] is defined in ionic_dev.h;
    the spec calls it the predicate checked before a multi-descriptor
    post. *)
Definition ionic_q_has_space {D} (q : ionic_queue D) (want : Z) : bool :=
  want <=? ionic_q_space_avail q.

(** Modelled from the spec: [ionic_q_post] is defined in ionic_dev.c.  The
    spec has it write the callback and its argument into the slot at [head],
    advance [head], and ring the doorbell when asked; the doorbell value is
    the one [ionic_rx_fill] writes itself, [q->dbval | q->head_idx]. *)
Definition ionic_q_post {D} (w : world) (q : ionic_queue D) (ring_dbell : bool)
    (cb_func : ionic_desc_cb) (arg : option sk_buff)
  : option (world * ionic_queue D) :=
  let* di := q_info q (head_idx q) in
  let q := q_set_info (head_idx q) (set_cb_arg arg (set_cb (Some cb_func) di)) q in
  let q := set_head_idx (ring_next q (head_idx q)) q in
  let w := if ring_dbell then ionic_dbell_ring (Z.lor (dbval q) (head_idx q)) w
           else w in
  Some (w, q).

Record ionic_cq := {
  done_color : bool;
}.

Section Driver.
Context `{ionic_hdr}.

(** Modelled from the spec: [color_match] is defined in ionic_dev.h.  The
    spec: an entry is new exactly when its color bit equals the done color
    the queue currently expects. *)
Definition color_match (color : Z) (done : bool) : bool :=
  Bool.eqb (negb (Z.land color IONIC_COMP_COLOR_MASK =? 0)) done.

Definition ionic_txq_post (w : world) (q : ionic_queue ionic_txq_desc)
    (ring_dbell : bool) (cb_func : ionic_desc_cb) (arg : option sk_buff) :=
  ionic_q_post w q ring_dbell cb_func arg.

Definition ionic_rxq_post (w : world) (q : ionic_queue ionic_rxq_desc)
    (ring_dbell : bool) (cb_func : ionic_desc_cb) (arg : option sk_buff) :=
  ionic_q_post w q ring_dbell cb_func arg.

Definition ionic_rx_buf_reset (buf_info : ionic_buf_info) : ionic_buf_info :=
  {| page := None; page_offset := 0; dma_addr := 0;
     pagecnt_bias := if 0 <? IONIC_PAGE_ORDER then 0
                     else pagecnt_bias buf_info |}.

(** Returns the errno (0 on success), the new world and the fragment. *)
Definition ionic_rx_page_alloc (w : world) (buf_info : ionic_buf_info)
  : Z * world * ionic_buf_info :=
  let '(pg, w) := alloc_pages w in
  match pg with
  | None =>
      (- ENOMEM, rx_alloc_err_inc w,
       {| page := None; page_offset := page_offset buf_info;
          dma_addr := dma_addr buf_info; pagecnt_bias := pagecnt_bias buf_info |})
  | Some p =>
      let '(a, w) := dma_map w in
      let b := {| page := Some p; page_offset := 0; dma_addr := a;
                  pagecnt_bias := pagecnt_bias buf_info |} in
      if dma_mapping_error a
      then (- EIO, rx_dma_map_err_inc (__free_pages p w), ionic_rx_buf_reset b)
      else (0, w, b)
  end.

Definition ionic_rx_page_free (w : world) (buf_info : ionic_buf_info)
  : world * ionic_buf_info :=
  match page buf_info with
  | None => (w, buf_info)
  | Some p =>
      let w := dma_unmap (dma_addr buf_info) w in
      let w := if (0 <? IONIC_PAGE_ORDER) && negb (pagecnt_bias buf_info =? 0)
               then page_ref_sub p (pagecnt_bias buf_info) w else w in
      let w := __free_pages p w in
      (w, ionic_rx_buf_reset buf_info)
  end.

(** [None] stands for the NULL page dereference the callers rule out. *)
Definition ionic_rx_buf_recycle (w : world) (buf_info : ionic_buf_info)
    (used : Z) : option (bool * world * ionic_buf_info) :=
  let* p := page buf_info in
  if pg_pfmemalloc p then Some (false, w, buf_info)
  else if negb (pg_nid p =? numa_mem_id w) then Some (false, w, buf_info)
  else
    let size := ALIGN used IONIC_PAGE_SPLIT_SZ in
    let b := {| page := page buf_info;
                page_offset := u32 (page_offset buf_info + size);
                dma_addr := dma_addr buf_info;
                pagecnt_bias := pagecnt_bias buf_info |} in
    if IONIC_PAGE_SIZE <=? page_offset b then Some (false, w, b)
    else if 0 <? IONIC_PAGE_ORDER
    then Some (true, w,
               {| page := page b; page_offset := page_offset b;
                  dma_addr := dma_addr b; pagecnt_bias := pagecnt_bias b - 1 |})
    else Some (true, get_page p w, b).

(** *** Receive completion *)

Definition skb_add_rx_frag (skb : rx_skb) (p : struct_page) (off size : Z) :=
  rx_skb_with_frags skb
    (rx_frags skb ++ [{| rf_page := p; rf_offset := off; rf_len := size |}]).

(** The do-while loop of [ionic_rx_frags]: [i] iterations left, [j] the
    position of the [buf_info] cursor, [len] the bytes not yet attached.
    The error path frees the packet and leaves [napi->skb] pointing to it,
    with the fragments attached so far. *)
Fixpoint ionic_rx_frags_loop (i : nat) (j : nat) (len : Z) (w : world)
    (bufs : list ionic_buf_info) (skb : rx_skb)
  : option (option rx_skb * world * list ionic_buf_info) :=
  match i with
  | O => Some (Some skb, w, bufs)
  | S i' =>
      let* buf_info := bufs !! j in
      match page buf_info with
      | None =>
          Some (None,
                set_napi_skb (Some skb) (dev_kfree_skb (rx_skb_id skb) w), bufs)
      | Some p =>
          let frag_len :=
            min_t_u16 len (IONIC_PAGE_SIZE - page_offset buf_info) in
          let len := u16 (len - frag_len) in
          let skb := skb_add_rx_frag skb p (page_offset buf_info) frag_len in
          let* (ok, w, b) := ionic_rx_buf_recycle w buf_info frag_len in
          let w := if ok then w else dma_unmap (dma_addr b) w in
          let b := if ok then b else ionic_rx_buf_reset b in
          ionic_rx_frags_loop i' (S j) len w (<[j := b]> bufs) skb
      end
  end.

Definition ionic_rx_frags (w : world) (desc_info : ionic_desc_info ionic_rxq_desc)
    (comp : ionic_rxq_comp)
  : option (option rx_skb * world * ionic_desc_info ionic_rxq_desc) :=
  let '(skb, w) := napi_get_frags w in
  match skb with
  | None => Some (None, rx_alloc_err_inc w, desc_info)
  | Some skb =>
      let* (r, w, bs) := ionic_rx_frags_loop (Z.to_nat (u8 (num_sg_elems comp) + 1))
                      0%nat (u16 (len comp)) w (bufs desc_info) skb in
      let w := match r with
               | Some skb => set_napi_skb (Some skb) w
               | None => w
               end in
      Some (r, w, set_bufs bs desc_info)
  end.

Definition ionic_rx_copybreak (w : world)
    (desc_info : ionic_desc_info ionic_rxq_desc) (comp : ionic_rxq_comp)
  : option (option rx_skb * world * ionic_desc_info ionic_rxq_desc) :=
  let '(skb, w) := alloc_skb w in
  match skb with
  | None => Some (None, rx_alloc_err_inc w, desc_info)
  | Some skb =>
      let* buf_info := bufs desc_info !! 0%nat in
      match page buf_info with
      | None => Some (None, dev_kfree_skb (rx_skb_id skb) w, desc_info)
      | Some p =>
          Some (Some (rx_skb_with_linear skb
                        (Some (p, page_offset buf_info, u16 (len comp)))),
                w, desc_info)
      end
  end.

(** The offload metadata [ionic_rx_clean] copies from the completion. *)
Definition rx_set_hash (l : ionic_lif) (comp : ionic_rxq_comp) (skb : rx_skb) :=
  if NETIF_F_RXHASH l then
    let t := Z.land (pkt_type_color comp) IONIC_RXQ_COMP_PKT_TYPE_MASK in
    if (t =? IONIC_PKT_TYPE_IPV4) || (t =? IONIC_PKT_TYPE_IPV6)
    then rx_skb_with_hash skb (Some (u32 (rss_hash comp), PKT_HASH_TYPE_L3))
    else if (t =? IONIC_PKT_TYPE_IPV4_TCP) || (t =? IONIC_PKT_TYPE_IPV6_TCP)
            || (t =? IONIC_PKT_TYPE_IPV4_UDP) || (t =? IONIC_PKT_TYPE_IPV6_UDP)
    then rx_skb_with_hash skb (Some (u32 (rss_hash comp), PKT_HASH_TYPE_L4))
    else skb
  else skb.

Definition csum_flag (comp : ionic_rxq_comp) (f : Z) : bool :=
  negb (Z.land (csum_flags comp) f =? 0).

Definition rx_set_csum (l : ionic_lif) (comp : ionic_rxq_comp) (skb : rx_skb) :=
  if NETIF_F_RXCSUM l && csum_flag comp IONIC_RXQ_COMP_CSUM_F_CALC
  then rx_skb_with_csum skb (Some (u16 (csum comp)))
  else skb.

Definition rx_count_csum_error (comp : ionic_rxq_comp) (w : world) : world :=
  if csum_flag comp IONIC_RXQ_COMP_CSUM_F_TCP_BAD
     || csum_flag comp IONIC_RXQ_COMP_CSUM_F_UDP_BAD
     || csum_flag comp IONIC_RXQ_COMP_CSUM_F_IP_BAD
  then rx_csum_error_inc w else w.

Definition rx_set_vlan (l : ionic_lif) (comp : ionic_rxq_comp) (skb : rx_skb) :=
  if NETIF_F_HW_VLAN_CTAG_RX l && csum_flag comp IONIC_RXQ_COMP_CSUM_F_VLAN
  then rx_skb_with_vlan skb (Some (u16 (vlan_tci comp)))
  else skb.

(** [ionic_rx_clean] works on the slot [desc_info] points to; the slot is
    named by its position [di] in [q->info]. *)
Definition ionic_rx_clean (w : world) (q : ionic_queue ionic_rxq_desc)
    (di : Z) (comp : ionic_rxq_comp)
  : option (world * ionic_queue ionic_rxq_desc) :=
  let* desc_info := q_info q di in
  if negb (status comp =? 0) then Some (rx_dropped_inc w, q)
  else if IONIC_LIF_F_QUEUE_RESET (lif q) then Some (rx_dropped_inc w, q)
  else if u32 (mtu (lif q) + ETH_HLEN) <? u16 (len comp)
  then Some (rx_dropped_inc w, q)
  else
    let w := rx_bytes_add (u16 (len comp)) (rx_pkts_add 1 w) in
    let* (skb, w, desc_info) := (if u16 (len comp) <=? rx_copybreak (lif q)
        then ionic_rx_copybreak w desc_info comp
        else ionic_rx_frags w desc_info comp) in
    let q := q_set_info di desc_info q in
    match skb with
    | None => Some (rx_dropped_inc w, q)
    | Some skb =>
        let skb := if is_master_lif (lif q)
                   then rx_skb_with_queue skb (Some (q_index q)) else skb in
        let skb := rx_set_hash (lif q) comp skb in
        let skb := rx_set_csum (lif q) comp skb in
        let w := rx_count_csum_error comp w in
        let skb := rx_set_vlan (lif q) comp skb in
        if u16 (len comp) <=? rx_copybreak (lif q)
        then Some (napi_gro_receive skb w, q)
        else Some (napi_gro_frags skb w, q)
    end.

Definition ionic_rx_service (w : world) (cq : ionic_cq)
    (q : ionic_queue ionic_rxq_desc) (comp : ionic_rxq_comp)
  : option (bool * world * ionic_queue ionic_rxq_desc) :=
  if negb (color_match (pkt_type_color comp) (done_color cq))
  then Some (false, w, q)
  else if tail_idx q =? head_idx q then Some (false, w, q)
  else
    let di := tail_idx q in
    let* desc_info := q_info q di in
    if negb (index desc_info =? u16 (comp_index comp)) then Some (false, w, q)
    else
      let q := set_tail_idx (ring_next q (tail_idx q)) q in
      let* (w, q) := ionic_rx_clean w q di comp in
      let* desc_info := q_info q di in
      Some (true, w, q_set_info di (set_cb_arg None (set_cb None desc_info)) q).

(** *** Receive ring fill *)

Definition set_rxd_addr_len (a l : Z) (d : ionic_rxq_desc) : ionic_rxq_desc :=
  {| rxd_opcode := rxd_opcode d; rxd_addr := a; rxd_len := l |}.
Definition set_rxd_opcode (o : ionic_rxq_desc_opcode) (d : ionic_rxq_desc) :=
  {| rxd_opcode := o; rxd_addr := rxd_addr d; rxd_len := rxd_len d |}.

(** The scatter-gather loop of [ionic_rx_fill]: [fuel] bounds the iterations
    left ([max_sg_elems - j]).  The boolean is [true] when the loop ran to
    its end and [false] when an allocation failed and the function
    returns. *)
Fixpoint ionic_rx_fill_sg (fuel : nat) (j : nat) (remain_len nfrags : Z)
    (w : world) (desc_info : ionic_desc_info ionic_rxq_desc)
  : option (bool * Z * world * ionic_desc_info ionic_rxq_desc) :=
  match fuel with
  | O => Some (true, nfrags, w, desc_info)
  | S fuel' =>
      if remain_len <=? 0 then Some (true, nfrags, w, desc_info)
      else
        let* _ := sg_desc desc_info !! j in
        let* buf_info := bufs desc_info !! S j in
        let r : Z * world * ionic_buf_info :=
          match page buf_info with
          | None => ionic_rx_page_alloc w buf_info
          | Some _ => (0, w, buf_info)
          end in
        let '(err, w, buf_info) := r in
        let desc_info := set_bufs (<[S j := buf_info]> (bufs desc_info)) desc_info in
        if negb (err =? 0) then
          Some (false, nfrags, w,
                set_sg_desc (<[j := {| sg_addr := 0; sg_len := 0 |}]>
                               (sg_desc desc_info)) desc_info)
        else
          let frag_len :=
            min_t_u16 remain_len (IONIC_PAGE_SIZE - page_offset buf_info) in
          let elem := {| sg_addr := u64 (dma_addr buf_info + page_offset buf_info);
                         sg_len := frag_len |} in
          let desc_info :=
            set_sg_desc (<[j := elem]> (sg_desc desc_info)) desc_info in
          ionic_rx_fill_sg fuel' (S j) (u32 (remain_len - frag_len))
            (u32 (nfrags + 1)) w desc_info
  end.

(** One iteration of the outer loop: fill and post the slot at [head].  The
    boolean is [false] when the function returns early. *)
Definition ionic_rx_fill_slot (len nsplits : Z) (w : world)
    (q : ionic_queue ionic_rxq_desc)
  : option (bool * world * ionic_queue ionic_rxq_desc) :=
  let* desc_info := q_info q (head_idx q) in
  let* buf_info := bufs desc_info !! 0%nat in
  let r : Z * world * ionic_buf_info :=
    match page buf_info with
    | None =>
        let '(err, w, b) := ionic_rx_page_alloc w buf_info in
        if negb (err =? 0) then (err, w, b)
        else if 0 <? IONIC_PAGE_ORDER then
          let b := {| page := page b; page_offset := page_offset b;
                      dma_addr := dma_addr b; pagecnt_bias := nsplits - 1 |} in
          match page b with
          | Some p =>
              (0, (if negb (pagecnt_bias b =? 0)
                   then page_ref_add p (pagecnt_bias b) w else w), b)
          | None => (0, w, b)
          end
        else (0, w, b)
    | Some _ => (0, w, buf_info)
    end in
  let '(err, w, buf_info) := r in
  let desc_info := set_bufs (<[0%nat := buf_info]> (bufs desc_info)) desc_info in
  if negb (err =? 0) then
    Some (false, w,
          q_set_info (head_idx q)
            (set_desc (set_rxd_addr_len 0 0 (desc desc_info)) desc_info) q)
  else
    let frag_len := min_t_u16 len (IONIC_PAGE_SIZE - page_offset buf_info) in
    let desc_info :=
      set_desc (set_rxd_addr_len
                  (u64 (dma_addr buf_info + page_offset buf_info)) frag_len
                  (desc desc_info)) desc_info in
    let* (ok, nfrags, w, desc_info) := ionic_rx_fill_sg (Z.to_nat (max_sg_elems q)) 0%nat (u32 (len - frag_len))
         1 w desc_info in
    if negb ok then Some (false, w, q_set_info (head_idx q) desc_info q)
    else
      let desc_info :=
        set_desc (set_rxd_opcode (if 1 <? nfrags then IONIC_RXQ_DESC_OPCODE_SG
                                  else IONIC_RXQ_DESC_OPCODE_SIMPLE)
                    (desc desc_info)) desc_info in
      let desc_info := set_npages nfrags desc_info in
      let q := q_set_info (head_idx q) desc_info q in
      let* (w, q) := ionic_rxq_post w q false cb_ionic_rx_clean None in
      Some (true, w, q).

Fixpoint ionic_rx_fill_loop (i : nat) (len nsplits : Z) (w : world)
    (q : ionic_queue ionic_rxq_desc)
  : option (bool * world * ionic_queue ionic_rxq_desc) :=
  match i with
  | O => Some (true, w, q)
  | S i' =>
      let* (ok, w, q) := ionic_rx_fill_slot len nsplits w q in
      if ok then ionic_rx_fill_loop i' len nsplits w q
      else Some (false, w, q)
  end.

Definition ionic_rx_fill (w : world) (q : ionic_queue ionic_rxq_desc)
  : option (world * ionic_queue ionic_rxq_desc) :=
  let len := u32 (mtu (lif q) + ETH_HLEN) in
  let align_len := ALIGN len IONIC_PAGE_SPLIT_SZ in
  if align_len =? 0 then None
  else
    let nsplits := IONIC_PAGE_SIZE / align_len in
    let* (ok, w, q) := ionic_rx_fill_loop (Z.to_nat (ionic_q_space_avail q))
                    len nsplits w q in
    if ok then Some (ionic_dbell_ring (Z.lor (dbval q) (head_idx q)) w, q)
    else Some (w, q).

(** *** Transmit: mapping and completion cleanup *)

Definition ionic_tx_map_single (w : world) : Z * world :=
  let '(a, w) := dma_map w in
  if dma_mapping_error a then (0, tx_dma_map_err_inc w) else (a, w).

Definition ionic_tx_map_frag (w : world) : Z * world :=
  let '(a, w) := dma_map w in
  if dma_mapping_error a then (a, tx_dma_map_err_inc w) else (a, w).

Definition dma_unmap_single (addr : Z) (w : world) : world := dma_unmap addr w.
Definition dma_unmap_page (addr : Z) (w : world) : world := dma_unmap addr w.

Definition is_tso (o : ionic_txq_desc_opcode) : bool :=
  match o with
  | IONIC_TXQ_DESC_OPCODE_TSO => true
  | _ => false
  end.

(** The loop over the slot's scatter-gather elements in [ionic_tx_clean]:
    [n] elements left, [i] the position of the [elem] cursor. *)
Fixpoint tx_clean_elems (n : nat) (i : nat) (elems : list ionic_sg_elem)
    (w : world) : option world :=
  match n with
  | O => Some w
  | S n' =>
      let* e := elems !! i in
      tx_clean_elems n' (S i) elems (dma_unmap_page (u64 (sg_addr e)) w)
  end.

(** [cq_info] is only tested against NULL, so it is a boolean here. *)
Definition ionic_tx_clean (w : world) (q : ionic_queue ionic_txq_desc)
    (di : Z) (cq_info : bool) (arg : option sk_buff)
  : option (world * ionic_queue ionic_txq_desc) :=
  let* desc_info := q_info q di in
  let c := cmd (desc desc_info) in
  let w :=
    if negb (is_tso (cmd_opcode c))
       || negb (Z.land (cmd_flags c) IONIC_TXQ_DESC_FLAG_TSO_SOT =? 0)
    then dma_unmap_single (cmd_addr c) w
    else dma_unmap_page (cmd_addr c) w in
  let* w := tx_clean_elems (Z.to_nat (cmd_nsge c)) 0%nat (sg_desc desc_info) w in
  match arg with
  | None => Some (w, q)
  | Some skb =>
      let qi := u16 (queue_mapping skb) in
      let woke := __netif_subqueue_stopped qi w && cq_info in
      let w := if woke then netif_wake_subqueue qi w else w in
      let q := if woke then set_q_wake (q_wake q + 1) q else q in
      let q := q_set_info di (set_bytes (skb_len skb) desc_info) q in
      Some (tx_clean_inc (dev_kfree_skb (skb_id skb) w), q)
  end.

(** The do-while loop of [ionic_tx_service]; [None] when [fuel] runs out. *)
Fixpoint ionic_tx_service_loop (fuel : nat) (w : world)
    (q : ionic_queue ionic_txq_desc) (comp : ionic_txq_comp)
  : option (world * ionic_queue ionic_txq_desc) :=
  match fuel with
  | O => None
  | S fuel' =>
      let di := tail_idx q in
      let* desc_info := q_info q di in
      let q := q_set_info di (set_bytes 0 desc_info) q in
      let q := set_tail_idx (ring_next q (tail_idx q)) q in
      let* (w, q) := ionic_tx_clean w q di true (cb_arg desc_info) in
      let* desc_info := q_info q di in
      let q := q_set_info di (set_cb_arg None (set_cb None desc_info)) q in
      if index desc_info =? u16 (txc_comp_index comp) then Some (w, q)
      else ionic_tx_service_loop fuel' w q comp
  end.

(** The ring cursor returns to its start after at most [num_descs] steps, so
    that many iterations decide whether the loop ends. *)
Definition ionic_tx_service (w : world) (cq : ionic_cq)
    (q : ionic_queue ionic_txq_desc) (comp : ionic_txq_comp)
  : option (bool * world * ionic_queue ionic_txq_desc) :=
  if negb (color_match (txc_color comp) (done_color cq)) then Some (false, w, q)
  else
    let* (w, q) := ionic_tx_service_loop (Z.to_nat (num_descs q)) w q comp in
    Some (true, w, q).

(** *** Transmit: segmentation offload *)

(** Both pseudo-checksum helpers fail exactly when [skb_cow_head] does; the
    checksum they seed lives in packet bytes the model does not hold. *)
Definition ionic_tx_tcp_inner_pseudo_csum (skb : sk_buff) : Z := cow_head_err skb.
Definition ionic_tx_tcp_pseudo_csum (skb : sk_buff) : Z := cow_head_err skb.

Definition ionic_tx_tso_post (w : world) (q : ionic_queue ionic_txq_desc)
    (skb : sk_buff) (addr nsge len hdrlen mss : Z) (outer_csum : bool)
    (vlan_tci : Z) (has_vlan start done : bool)
  : option (world * ionic_queue ionic_txq_desc) :=
  let* desc_info := q_info q (head_idx q) in
  let flags := 0 in
  let flags := Z.lor flags (if has_vlan then IONIC_TXQ_DESC_FLAG_VLAN else 0) in
  let flags := Z.lor flags (if outer_csum then IONIC_TXQ_DESC_FLAG_ENCAP else 0) in
  let flags := Z.lor flags (if start then IONIC_TXQ_DESC_FLAG_TSO_SOT else 0) in
  let flags := Z.lor flags (if done then IONIC_TXQ_DESC_FLAG_TSO_EOT else 0) in
  let d := desc desc_info in
  let d := {| cmd := encode_txq_desc_cmd IONIC_TXQ_DESC_OPCODE_TSO flags nsge addr;
              txd_len := u16 len; txd_vlan_tci := u16 vlan_tci;
              txd_hdr_len := u16 hdrlen; txd_mss := u16 mss;
              txd_csum_start := txd_csum_start d;
              txd_csum_offset := txd_csum_offset d |} in
  let q := q_set_info (head_idx q) (set_desc d desc_info) q in
  if done then ionic_txq_post w q (negb (xmit_more skb)) cb_ionic_tx_clean (Some skb)
  else ionic_txq_post w q false cb_ionic_tx_clean None.

(** The local variables of [ionic_tx_tso] that the two chopping loops carry.
    [t_elem] is the position of the [elem] cursor in the scatter-gather list
    of the slot at [head]. *)
Record tso_vars := {
  t_left : Z;
  t_offset : Z;
  t_frag_left : Z;
  t_seglen : Z;
  t_desc_addr : Z;
  t_desc_len : Z;
  t_desc_nsge : Z;
  t_start : bool;
  t_nfrags : Z;
  t_elem : nat;
  t_total_pkts : Z;
  t_total_bytes : Z;
}.

(** A chopping loop either runs on with new variables or jumps to
    [err_out_abort]. *)
Inductive tso_outcome :=
  | TsoGo (v : tso_vars) (w : world) (q : ionic_queue ionic_txq_desc)
  | TsoAbort (w : world) (q : ionic_queue ionic_txq_desc).

(** The tail every branch shares once a piece is mapped: [continue] while
    the segment can take more fragment bytes, otherwise post the descriptor
    and move to the next slot.  [seglen'] is the value [seglen] has after a
    post. *)
Definition tso_post_or_continue (skb : sk_buff) (hdrlen len seglen' : Z)
    (v : tso_vars) (w : world) (q : ionic_queue ionic_txq_desc)
  : option tso_outcome :=
  if (0 <? t_nfrags v) && (0 <? t_frag_left v) then Some (TsoGo v w q)
  else
    let done := (t_nfrags v =? 0) && (t_left v =? 0) in
    let* (w, q) :=
      ionic_tx_tso_post w q skb (t_desc_addr v) (t_desc_nsge v) (t_desc_len v)
        hdrlen (gso_size skb) (gso_outer_csum skb) (u16 (vlan_tag skb))
        (vlan_tag_present skb) (t_start v) done in
    Some (TsoGo
            (Build_tso_vars (t_left v) (t_offset v) (t_frag_left v) seglen'
               (t_desc_addr v) (t_desc_len v) (t_desc_nsge v) false (t_nfrags v)
               0%nat (u64 (t_total_pkts v + 1))
               (u64 (t_total_bytes v + (if t_start v then len else len + hdrlen))))
            w q).

(** "Chop skb->data up into desc segments". *)
Fixpoint tso_chop_data (fuel : nat) (skb : sk_buff) (hdrlen : Z) (v : tso_vars)
    (w : world) (q : ionic_queue ionic_txq_desc) : option tso_outcome :=
  if t_left v <=? 0 then Some (TsoGo v w q)
  else
    match fuel with
    | O => None
    | S fuel' =>
        let len := Z.min (t_seglen v) (t_left v) in
        let frag_left := u32 (t_seglen v - len) in
        let '(desc_addr, w) := ionic_tx_map_single w in
        if dma_mapping_error desc_addr then Some (TsoAbort w q)
        else
          let v := Build_tso_vars (u32 (t_left v - len)) (u32 (t_offset v + len))
                     frag_left (t_seglen v) desc_addr (u16 len) 0 (t_start v)
                     (t_nfrags v) (t_elem v) (t_total_pkts v) (t_total_bytes v) in
          let* r := tso_post_or_continue skb hdrlen len (gso_size skb) v w q in
          match r with
          | TsoGo v w q => tso_chop_data fuel' skb hdrlen v w q
          | TsoAbort w q => Some (TsoAbort w q)
          end
    end.

(** The inner [while (left > 0)] loop over one fragment. *)
Fixpoint tso_chop_frag (fuel : nat) (skb : sk_buff) (hdrlen : Z) (v : tso_vars)
    (w : world) (q : ionic_queue ionic_txq_desc) : option tso_outcome :=
  if t_left v <=? 0 then Some (TsoGo v w q)
  else
    match fuel with
    | O => None
    | S fuel' =>
        if 0 <? t_frag_left v then
          let len := Z.min (t_frag_left v) (t_left v) in
          let frag_left := u32 (t_frag_left v - len) in
          let '(a, w) := ionic_tx_map_frag w in
          let* desc_info := q_info q (head_idx q) in
          let* e := sg_desc desc_info !! t_elem v in
          let e := {| sg_addr := a; sg_len := sg_len e |} in
          let q := q_set_info (head_idx q)
                     (set_sg_desc (<[t_elem v := e]> (sg_desc desc_info)) desc_info)
                     q in
          if dma_mapping_error a then Some (TsoAbort w q)
          else
            let e := {| sg_addr := a; sg_len := u16 len |} in
            let q := q_set_info (head_idx q)
                       (set_sg_desc (<[t_elem v := e]> (sg_desc desc_info)) desc_info)
                       q in
            let v := Build_tso_vars (u32 (t_left v - len)) (u32 (t_offset v + len))
                       frag_left (t_seglen v) (t_desc_addr v) (t_desc_len v)
                       (u8 (t_desc_nsge v + 1)) (t_start v) (t_nfrags v)
                       (S (t_elem v)) (t_total_pkts v) (t_total_bytes v) in
            let* r := tso_post_or_continue skb hdrlen len (t_seglen v) v w q in
            match r with
            | TsoGo v w q => tso_chop_frag fuel' skb hdrlen v w q
            | TsoAbort w q => Some (TsoAbort w q)
            end
        else
          let len := Z.min (gso_size skb) (t_left v) in
          let frag_left := u32 (gso_size skb - len) in
          let '(desc_addr, w) := ionic_tx_map_frag w in
          if dma_mapping_error desc_addr then Some (TsoAbort w q)
          else
            let v := Build_tso_vars (u32 (t_left v - len)) (u32 (t_offset v + len))
                       frag_left (t_seglen v) desc_addr (u16 len) 0 (t_start v)
                       (t_nfrags v) (t_elem v) (t_total_pkts v) (t_total_bytes v) in
            let* r := tso_post_or_continue skb hdrlen len (t_seglen v) v w q in
            match r with
            | TsoGo v w q => tso_chop_frag fuel' skb hdrlen v w q
            | TsoAbort w q => Some (TsoAbort w q)
            end
    end.

(** "Chop skb frags into desc segments": the outer [for] loop.  Running off
    the end of the fragment array while [len_left] is not zero leaves the
    model. *)
Fixpoint tso_chop_frags (frags : list Z) (len_left : Z) (skb : sk_buff)
    (hdrlen : Z) (v : tso_vars) (w : world) (q : ionic_queue ionic_txq_desc)
  : option tso_outcome :=
  if len_left =? 0 then Some (TsoGo v w q)
  else
    match frags with
    | [] => None
    | frag :: frags' =>
        let left := u32 frag in
        let v := Build_tso_vars left 0 (t_frag_left v) (t_seglen v)
                   (t_desc_addr v) (t_desc_len v) (t_desc_nsge v) (t_start v)
                   (u32 (t_nfrags v - 1)) (t_elem v) (t_total_pkts v)
                   (t_total_bytes v) in
        let* r := tso_chop_frag (Z.to_nat left) skb hdrlen v w q in
        match r with
        | TsoGo v w q => tso_chop_frags frags' (u32 (len_left - left)) skb hdrlen v w q
        | TsoAbort w q => Some (TsoAbort w q)
        end
    end.

(** The loop at [err_out_abort]. *)
Fixpoint tso_rewind (fuel : nat) (rewind : Z) (w : world)
    (q : ionic_queue ionic_txq_desc)
  : option (world * ionic_queue ionic_txq_desc) :=
  if rewind =? head_idx q then Some (w, q)
  else
    match fuel with
    | O => None
    | S fuel' =>
        let* (w, q) := ionic_tx_clean w q rewind false None in
        tso_rewind fuel' (u16 (ring_next q rewind)) w q
    end.

Definition tso_err_out_abort (abort : Z) (w : world)
    (q : ionic_queue ionic_txq_desc)
  : option (Z * world * ionic_queue ionic_txq_desc) :=
  let* (w, q) := tso_rewind (Z.to_nat (num_descs q)) abort w q in
  Some (- ENOMEM, w, set_head_idx abort q).

(** The two chopping loops in sequence: everything between the header
    length computation and the statistics update. *)
Definition tso_chop (w : world) (q : ionic_queue ionic_txq_desc)
    (skb : sk_buff) (hdrlen : Z) : option tso_outcome :=
  let mss := gso_size skb in
  let len_left := u32 (skb_len skb - skb_headlen skb) in
  let v := Build_tso_vars (u32 (skb_headlen skb)) 0 0 (u32 (hdrlen + mss))
             0 0 0 true (nr_frags skb) 0%nat 0 0 in
  let* r := tso_chop_data (Z.to_nat (t_left v)) skb hdrlen v w q in
  match r with
  | TsoAbort w q => Some (TsoAbort w q)
  | TsoGo v w q => tso_chop_frags (skb_frags skb) len_left skb hdrlen v w q
  end.

Definition tso_hdrlen (skb : sk_buff) : Z :=
  u32 (if encapsulation skb then inner_tcp_hdr_end skb else tcp_hdr_end skb).

Definition ionic_tx_tso (w : world) (q : ionic_queue ionic_txq_desc)
    (skb : sk_buff) : option (Z * world * ionic_queue ionic_txq_desc) :=
  let abort := u16 (head_idx q) in
  let err := if encapsulation skb then ionic_tx_tcp_inner_pseudo_csum skb
             else ionic_tx_tcp_pseudo_csum skb in
  if negb (err =? 0) then Some (err, w, q)
  else
    let* r := tso_chop w q skb (tso_hdrlen skb) in
    match r with
    | TsoAbort w q => tso_err_out_abort abort w q
    | TsoGo v w q =>
        let w := tx_pkts_add (t_total_pkts v) w in
        let w := tx_bytes_add (t_total_bytes v) w in
        let w := tx_tso_inc w in
        let w := tx_tso_bytes_add (t_total_bytes v) w in
        Some (0, w, q)
    end.

(** *** Transmit: one descriptor with scatter-gather elements *)

Definition tx_calc_desc (opcode : ionic_txq_desc_opcode) (with_csum : bool)
    (w : world) (q : ionic_queue ionic_txq_desc) (skb : sk_buff)
  : option (Z * world * ionic_queue ionic_txq_desc) :=
  let* desc_info := q_info q (head_idx q) in
  let has_vlan := vlan_tag_present skb in
  let encap := encapsulation skb in
  let '(dma_addr, w) := ionic_tx_map_single w in
  if dma_mapping_error dma_addr then Some (- ENOMEM, w, q)
  else
    let flags := 0 in
    let flags := Z.lor flags (if has_vlan then IONIC_TXQ_DESC_FLAG_VLAN else 0) in
    let flags := Z.lor flags (if encap then IONIC_TXQ_DESC_FLAG_ENCAP else 0) in
    let d := desc desc_info in
    let d := {| cmd := encode_txq_desc_cmd opcode flags (nr_frags skb) dma_addr;
                txd_len := u16 (skb_headlen skb);
                txd_vlan_tci := if has_vlan then u16 (vlan_tag skb)
                                else txd_vlan_tci d;
                txd_hdr_len := txd_hdr_len d; txd_mss := txd_mss d;
                txd_csum_start := if with_csum then u16 (checksum_start_offset skb)
                                  else txd_csum_start d;
                txd_csum_offset := if with_csum then u16 (skb_csum_offset skb)
                                   else txd_csum_offset d |} in
    Some (0, w, q_set_info (head_idx q) (set_desc d desc_info) q).

Definition ionic_tx_calc_csum := tx_calc_desc IONIC_TXQ_DESC_OPCODE_CSUM_PARTIAL true.
Definition ionic_tx_calc_no_csum := tx_calc_desc IONIC_TXQ_DESC_OPCODE_CSUM_NONE false.

(** The loop of [ionic_tx_skb_frags] over the fragments, on the slot at
    [head]; [e] is the position of the [elem] cursor. *)
Fixpoint ionic_tx_skb_frags_loop (frags : list Z) (e : nat) (len_left : Z)
    (w : world) (desc_info : ionic_desc_info ionic_txq_desc)
  : option (Z * world * ionic_desc_info ionic_txq_desc) :=
  if len_left =? 0 then Some (0, w, desc_info)
  else
    match frags with
    | [] => None
    | frag :: frags' =>
        let len := u16 frag in
        let* elem := sg_desc desc_info !! e in
        let elem := {| sg_addr := sg_addr elem; sg_len := len |} in
        let desc_info :=
          set_sg_desc (<[e := elem]> (sg_desc desc_info)) desc_info in
        let '(dma_addr, w) := ionic_tx_map_frag w in
        if dma_mapping_error dma_addr then Some (- ENOMEM, w, desc_info)
        else
          let elem := {| sg_addr := dma_addr; sg_len := len |} in
          let desc_info :=
            set_sg_desc (<[e := elem]> (sg_desc desc_info)) desc_info in
          ionic_tx_skb_frags_loop frags' (S e) (u32 (len_left - len)) w desc_info
    end.

Definition ionic_tx_skb_frags (w : world) (q : ionic_queue ionic_txq_desc)
    (skb : sk_buff) : option (Z * world * ionic_queue ionic_txq_desc) :=
  let* desc_info := q_info q (head_idx q) in
  let len_left := u32 (skb_len skb - skb_headlen skb) in
  let* (err, w, desc_info) :=
    ionic_tx_skb_frags_loop (skb_frags skb) 0%nat len_left w desc_info in
  Some (err, w, q_set_info (head_idx q) desc_info q).

Definition ionic_tx (w : world) (q : ionic_queue ionic_txq_desc) (skb : sk_buff)
  : option (Z * world * ionic_queue ionic_txq_desc) :=
  let* (err, w, q) :=
    (if ip_summed_partial skb then ionic_tx_calc_csum w q skb
     else ionic_tx_calc_no_csum w q skb) in
  if negb (err =? 0) then Some (err, w, q)
  else
    let* (err, w, q) := ionic_tx_skb_frags w q skb in
    if negb (err =? 0) then Some (err, w, q)
    else
      let w := tx_bytes_add (skb_len skb) (tx_pkts_add 1 w) in
      let* (w, q) :=
        ionic_txq_post w q (negb (xmit_more skb)) cb_ionic_tx_clean (Some skb) in
      Some (0, w, q).

(** *** Transmit: budget, flow control and the send entry point *)

Definition ionic_tx_descs_needed (w : world) (q : ionic_queue ionic_txq_desc)
    (skb : sk_buff) : Z * world * sk_buff :=
  if skb_is_gso skb
  then (int_of_u32 (u32 (skb_len skb) / gso_size skb + 1), w, skb)
  else if nr_frags skb <=? max_sg_elems q then (1, w, skb)
  else
    let '(err, skb, w) := skb_linearize skb w in
    if negb (err =? 0) then (err, w, skb)
    else (1, tx_linearize_inc w, skb).

Definition ionic_maybe_stop_tx (w : world) (q : ionic_queue ionic_txq_desc)
    (ndescs : Z) : Z * world * ionic_queue ionic_txq_desc :=
  if negb (ionic_q_has_space q (u32 ndescs)) then
    let w := netif_stop_subqueue (q_index q) w in
    let q := set_q_stop (q_stop q + 1) q in
    let '(t, w) := smp_rmb_tail (tail_idx q) w in
    let q := set_tail_idx t q in
    if ionic_q_has_space q (u32 ndescs)
    then (0, netif_wake_subqueue (q_index q) w, q)
    else (1, w, q)
  else (0, w, q).

Inductive netdev_tx_t := NETDEV_TX_OK | NETDEV_TX_BUSY.

Definition err_out_drop (w : world) (q : ionic_queue ionic_txq_desc)
    (skb : sk_buff) : netdev_tx_t * world * ionic_queue ionic_txq_desc :=
  (NETDEV_TX_OK, dev_kfree_skb (skb_id skb) w,
   set_q_drop (q_drop q + 1) (set_q_stop (q_stop q + 1) q)).

Definition ionic_start_xmit (w : world) (q : ionic_queue ionic_txq_desc)
    (skb : sk_buff)
  : option (netdev_tx_t * world * ionic_queue ionic_txq_desc) :=
  if negb (IONIC_LIF_F_UP (lif q))
  then Some (NETDEV_TX_OK, dev_kfree_skb (skb_id skb) w, q)
  else
    let '(ndescs, w, skb) := ionic_tx_descs_needed w q skb in
    if ndescs <? 0 then Some (err_out_drop w q skb)
    else
      let '(stopped, w, q) := ionic_maybe_stop_tx w q ndescs in
      if negb (stopped =? 0) then Some (NETDEV_TX_BUSY, w, q)
      else
        let* (err, w, q) :=
          (if skb_is_gso skb then ionic_tx_tso w q skb else ionic_tx w q skb) in
        if negb (err =? 0) then Some (err_out_drop w q skb)
        else
          let '(_, w, q) := ionic_maybe_stop_tx w q 4 in
          Some (NETDEV_TX_OK, w, q).

End Driver.

(** ** Reference notions used in the statements *)

(** [x] rounded up to the next multiple of [a]. *)
Definition round_up (x a : Z) : Z := a * ((x + a - 1) / a).

(** The quotient rounded up. *)
Definition ceil_div (x a : Z) : Z := (x + a - 1) / a.

(** A fragment in the state [ionic_rx_buf_reset] leaves it in. *)
Definition buf_empty (b : ionic_buf_info) : Prop :=
  page b = None ∧ page_offset b = 0 ∧ dma_addr b = 0.

(** A slot whose fill stopped on a failed allocation, in a pass that posts
    frames of [len] bytes.  When the first fragment has no page it is the
    one that failed, and address and length of the descriptor are zeroed.
    Otherwise the descriptor holds address and length of the first
    fragment, and the fragment that failed is the first one without a page:
    address and length of its scatter-gather element are zeroed. *)
Definition fill_stopped_at `{ionic_hdr} (len : Z)
    (di : ionic_desc_info ionic_rxq_desc) : Prop :=
  ∃ b0, bufs di !! 0%nat = Some b0 ∧
    match page b0 with
    | None => rxd_addr (desc di) = 0 ∧ rxd_len (desc di) = 0
    | Some _ =>
        rxd_addr (desc di) = u64 (dma_addr b0 + page_offset b0) ∧
        rxd_len (desc di) = min_t_u16 len (IONIC_PAGE_SIZE - page_offset b0) ∧
        ∃ j b,
          (∀ t, (t ≤ j)%nat → ∃ bt, bufs di !! t = Some bt ∧ page bt ≠ None) ∧
          bufs di !! S j = Some b ∧ page b = None ∧
          sg_desc di !! j = Some {| sg_addr := 0; sg_len := 0 |}
    end.

(** *** Receive: the pages a fill pass asks for

    Whether an allocation fails during a pass is decided by what the pass
    is given: the results the page allocator and the DMA mapping have in
    store, and the fragments of the free slots that still hold a page. *)

(** The number of calls of [ionic_rx_page_alloc] that succeed before the
    first one fails: a call succeeds when [alloc_pages] returns a page and
    [dma_map_page] then returns an address that is no mapping error. *)
Fixpoint pages_ready (al : list (option struct_page)) (dm : list Z) : nat :=
  match al, dm with
  | Some _ :: al', a :: dm' =>
      if dma_mapping_error a then O else S (pages_ready al' dm')
  | _, _ => O
  end.

Definition rx_pages_ready (w : world) : nat :=
  pages_ready (alloc_pages_results w) (dma_map_results w).

(** The fragments without a page that the scatter-gather loop of
    [ionic_rx_fill] comes to when no allocation fails: it visits fragment
    [j + 1] while bytes remain, takes from a fragment with a page what is
    left of the page from its offset on, and a whole page from a new one. *)
Fixpoint fill_sg_needs `{ionic_hdr} (fuel j : nat) (remain_len : Z)
    (bs : list ionic_buf_info) : nat :=
  match fuel with
  | O => O
  | S fuel' =>
      if remain_len <=? 0 then O
      else
        match bs !! S j with
        | None => O
        | Some b =>
            let off := match page b with
                       | None => 0
                       | Some _ => page_offset b
                       end in
            let frag_len := min_t_u16 remain_len (IONIC_PAGE_SIZE - off) in
            ((match page b with None => 1 | Some _ => 0 end)
             + fill_sg_needs fuel' (S j) (u32 (remain_len - frag_len)) bs)%nat
        end
  end.

(** The same for one slot: the first fragment, then the scatter-gather
    loop. *)
Definition fill_slot_needs `{ionic_hdr} (len max_sg : Z)
    (bs : list ionic_buf_info) : nat :=
  match bs !! 0%nat with
  | None => O
  | Some b =>
      let off := match page b with
                 | None => 0
                 | Some _ => page_offset b
                 end in
      let frag_len := min_t_u16 len (IONIC_PAGE_SIZE - off) in
      ((match page b with None => 1 | Some _ => 0 end)
       + fill_sg_needs (Z.to_nat max_sg) 0 (u32 (len - frag_len)) bs)%nat
  end.

(** And for the [i] slots from [idx] on. *)
Fixpoint fill_needs `{ionic_hdr} (i : nat) (len : Z)
    (q : ionic_queue ionic_rxq_desc) (idx : Z) : nat :=
  match i with
  | O => O
  | S i' =>
      ((match q_info q idx with
        | Some di => fill_slot_needs len (max_sg_elems q) (bufs di)
        | None => O
        end)
       + fill_needs i' len q (ring_next q idx))%nat
  end.

(** ** Reference notions for the transmit ring *)

(** The [n] ring positions met from [i] on by the masked increment. *)
Fixpoint ring_walk {D} (q : ionic_queue D) (i : Z) (n : nat) : list Z :=
  match n with
  | O => []
  | S n' => i :: ring_walk q (ring_next q i) n'
  end.

(** The packet a slot holds as callback argument, by identity. *)
Definition slot_skb {D} (q : ionic_queue D) (i : Z) : option N :=
  match q_info q i with
  | Some di => skb_id <$> cb_arg di
  | None => None
  end.

(** The mappings left once everything a transmit slot records has been
    unmapped: the buffer address of its descriptor, then the addresses of
    the scatter-gather elements the descriptor counts. *)
Definition slot_unmap (di : ionic_desc_info ionic_txq_desc) (m : list Z)
  : list Z :=
  foldl (λ m e, remove_first (u64 (sg_addr e)) m)
    (remove_first (cmd_addr (cmd (desc di))) m)
    (take (Z.to_nat (cmd_nsge (cmd (desc di)))) (sg_desc di)).

Definition slot_unmap_at (q : ionic_queue ionic_txq_desc) (m : list Z) (i : Z)
  : list Z :=
  match q_info q i with
  | Some di => slot_unmap di m
  | None => m
  end.

(** The shape [ionic_q_init] gives a ring: a power-of-two size that fits 16
    bits and one slot per descriptor. *)
Definition ring_shape {D} (q : ionic_queue D) : Prop :=
  (∃ k, 0 ≤ k ≤ 16 ∧ num_descs q = 2 ^ k) ∧
  Z.of_nat (length (info q)) = num_descs q.

(** A transmit ring in shape whose every slot counts no more scatter-gather
    elements in its descriptor than its scatter-gather list holds. *)
Definition tx_ring_ok (q : ionic_queue ionic_txq_desc) : Prop :=
  ring_shape q ∧
  ∀ i di, q_info q i = Some di →
    (Z.to_nat (cmd_nsge (cmd (desc di))) ≤ length (sg_desc di))%nat.

(** Every slot carries its own position as sequence index. *)
Definition ring_indexed {D} (q : ionic_queue D) : Prop :=
  ∀ i di, q_info q i = Some di → index di = i.

(** Executable forms of the two ring conditions. *)
Definition tx_ring_okb (q : ionic_queue ionic_txq_desc) : bool :=
  let k := Z.log2 (num_descs q) in
  (0 <? num_descs q) && (num_descs q =? 2 ^ k) && (k <=? 16)
  && (Z.of_nat (length (info q)) =? num_descs q)
  && forallb (λ di, (Z.to_nat (cmd_nsge (cmd (desc di)))
                       <=? length (sg_desc di))%nat) (info q).

Fixpoint indexed_from {D} (i : Z) (l : list (ionic_desc_info D)) : bool :=
  match l with
  | [] => true
  | di :: l' => (index di =? i) && indexed_from (i + 1) l'
  end.

Definition ring_indexedb {D} (q : ionic_queue D) : bool :=
  indexed_from 0 (info q).

(** What the segmentation loops maintain, relative to the ring [q0] and the
    world [w0] they started from: the ring keeps its shape, its size and its
    tail, [head] stays inside the ring, and no packet has been freed. *)
Definition tso_inv (w0 : world) (q0 : ionic_queue ionic_txq_desc)
    (w : world) (q : ionic_queue ionic_txq_desc) : Prop :=
  ring_shape q ∧ num_descs q = num_descs q0 ∧
  0 ≤ head_idx q < num_descs q ∧ tail_idx q = tail_idx q0 ∧
  freed_skbs w = freed_skbs w0.

Definition tso_outcome_ok (w0 : world) (q0 : ionic_queue ionic_txq_desc)
    (r : tso_outcome) : Prop :=
  match r with
  | TsoGo _ w q => tso_inv w0 q0 w q
  | TsoAbort w q => tso_inv w0 q0 w q
  end.

(** ** A concrete build and concrete objects for the examples *)

(** 4 KiB pages split in two, order 0, and the bit assignments of the
    hardware interface. *)
Definition hdr_4k : ionic_hdr :=
  {| IONIC_PAGE_ORDER := 0; IONIC_PAGE_SIZE := 4096; IONIC_PAGE_SPLIT_SZ := 2048;
     IONIC_COMP_COLOR_MASK := 128; IONIC_RXQ_COMP_PKT_TYPE_MASK := 127;
     IONIC_PKT_TYPE_IPV4 := 1; IONIC_PKT_TYPE_IPV6 := 8;
     IONIC_PKT_TYPE_IPV4_TCP := 3; IONIC_PKT_TYPE_IPV6_TCP := 24;
     IONIC_PKT_TYPE_IPV4_UDP := 5; IONIC_PKT_TYPE_IPV6_UDP := 40;
     IONIC_RXQ_COMP_CSUM_F_CALC := 128; IONIC_RXQ_COMP_CSUM_F_TCP_BAD := 2;
     IONIC_RXQ_COMP_CSUM_F_UDP_BAD := 8; IONIC_RXQ_COMP_CSUM_F_IP_BAD := 32;
     IONIC_RXQ_COMP_CSUM_F_VLAN := 64;
     IONIC_TXQ_DESC_FLAG_VLAN := 1; IONIC_TXQ_DESC_FLAG_ENCAP := 2;
     IONIC_TXQ_DESC_FLAG_TSO_SOT := 4; IONIC_TXQ_DESC_FLAG_TSO_EOT := 8 |}.

Definition stats0_rx : ionic_rx_stats := Build_ionic_rx_stats 0 0 0 0 0 0.
Definition stats0_tx : ionic_tx_stats := Build_ionic_tx_stats 0 0 0 0 0 0 0.

(** A quiet world on NUMA node 0: nothing mapped, nothing scripted. *)
Definition world0 : world :=
  {| page_refs := ∅; dma_maps := []; alloc_pages_results := [];
     dma_map_results := []; skb_alloc_results := []; linearize_results := [];
     tail_published := []; freed_skbs := []; gro_received := [];
     doorbells := []; subqueue_stopped := ∅; numa_mem_id := 0;
     rxs := stats0_rx; txs := stats0_tx; napi_skb := None |}.

Definition page1 : struct_page :=
  {| pg_id := 1; pg_pfmemalloc := false; pg_nid := 0 |}.
Definition page2 : struct_page :=
  {| pg_id := 2; pg_pfmemalloc := false; pg_nid := 0 |}.

Definition buf0 : ionic_buf_info :=
  {| page := None; page_offset := 0; dma_addr := 0; pagecnt_bias := 0 |}.

(** A fragment on [page1] whose first half is already in use. *)
Definition buf_half : ionic_buf_info :=
  {| page := Some page1; page_offset := 2048; dma_addr := 65536;
     pagecnt_bias := 0 |}.

Definition world_page1 : world :=
  set_dma_maps [65536] (set_page_refs {[1%N := 1]} world0).

(** A world in which the next page allocation and the next DMA mapping
    succeed. *)
Definition world_fresh : world :=
  set_dma_map_results [65536] (set_alloc_pages_results [Some page1] world0).

Definition lif0 : ionic_lif :=
  {| mtu := 1500; rx_copybreak := 256; IONIC_LIF_F_UP := true;
     IONIC_LIF_F_QUEUE_RESET := false; is_master_lif := true;
     NETIF_F_RXHASH := true; NETIF_F_RXCSUM := true;
     NETIF_F_HW_VLAN_CTAG_RX := true |}.

Definition sg_elem0 : ionic_sg_elem := {| sg_addr := 0; sg_len := 0 |}.

Definition txq_desc0 : ionic_txq_desc :=
  {| cmd := {| cmd_opcode := IONIC_TXQ_DESC_OPCODE_CSUM_NONE; cmd_flags := 0;
               cmd_nsge := 0; cmd_addr := 0 |};
     txd_len := 0; txd_vlan_tci := 0; txd_hdr_len := 0; txd_mss := 0;
     txd_csum_start := 0; txd_csum_offset := 0 |}.

Definition rxq_desc0 : ionic_rxq_desc :=
  {| rxd_opcode := IONIC_RXQ_DESC_OPCODE_SIMPLE; rxd_addr := 0; rxd_len := 0 |}.

(** Slot [i] of a ring as [ionic_q_init] leaves it: its own position as
    sequence index, eight scatter-gather elements, nine empty fragments. *)
Definition slot0 {D} (d : D) (i : nat) : ionic_desc_info D :=
  {| desc := d; sg_desc := replicate 8 sg_elem0; index := Z.of_nat i;
     cb := None; cb_arg := None; bufs := replicate 9 buf0; npages := 0;
     bytes := 0 |}.

(** A ring of [n] fresh slots with the given [head] and [tail]. *)
Definition ring0 {D} (d : D) (l : ionic_lif) (n : nat) (head tail : Z)
  : ionic_queue D :=
  {| lif := l; q_index := 0; head_idx := head; tail_idx := tail;
     num_descs := Z.of_nat n; max_sg_elems := 8;
     info := map (slot0 d) (seq 0 n);
     q_stop := 0; q_wake := 0; q_drop := 0; dbval := 0 |}.

Definition txq8 (head tail : Z) : ionic_queue ionic_txq_desc :=
  ring0 txq_desc0 lif0 8 head tail.
Definition rxq8 (l : ionic_lif) (head tail : Z) : ionic_queue ionic_rxq_desc :=
  ring0 rxq_desc0 l 8 head tail.

(** A plain outbound packet of [len] bytes, [headlen] of them linear. *)
Definition skb0 (id : N) (len headlen : Z) (frags : list Z) (gso : Z) : sk_buff :=
  {| skb_id := id; skb_len := len; skb_headlen := headlen; skb_frags := frags;
     gso_size := gso; gso_outer_csum := false; ip_summed_partial := false;
     encapsulation := false; vlan_tag_present := false; vlan_tag := 0;
     tcp_hdr_end := 54; inner_tcp_hdr_end := 0; checksum_start_offset := 0;
     skb_csum_offset := 0; xmit_more := false; queue_mapping := 0;
     cow_head_err := 0 |}.

(** A whole fresh fragment on [page1], mapped at device address 65536. *)
Definition buf_page1 : ionic_buf_info :=
  {| page := Some page1; page_offset := 0; dma_addr := 65536;
     pagecnt_bias := 0 |}.

(** Slot [i] as [ionic_rx_fill] posts it with the single fragment [b]. *)
Definition rx_slot_posted (i : nat) (b : ionic_buf_info)
  : ionic_desc_info ionic_rxq_desc :=
  {| desc := {| rxd_opcode := IONIC_RXQ_DESC_OPCODE_SIMPLE;
                rxd_addr := dma_addr b + page_offset b; rxd_len := 1514 |};
     sg_desc := replicate 8 sg_elem0; index := Z.of_nat i;
     cb := Some cb_ionic_rx_clean; cb_arg := None;
     bufs := b :: replicate 8 buf0; npages := 1; bytes := 0 |}.

(** A receive ring of eight slots with slot 0 in flight. *)
Definition rxq_one (l : ionic_lif) : ionic_queue ionic_rxq_desc :=
  q_set_info 0 (rx_slot_posted 0 buf_page1) (rxq8 l 1 0).

(** The world that goes with [rxq_one]: [page1] is live and mapped, and the
    next packet allocation succeeds. *)
Definition world_rx : world := set_skb_alloc_results [Some 7%N] world_page1.

(** A clean completion for slot 0 carrying [n] bytes, color bit set. *)
Definition comp0 (n : Z) : ionic_rxq_comp :=
  {| status := 0; num_sg_elems := 0; comp_index := 0; rss_hash := 0; csum := 0;
     vlan_tci := 0; len := n; csum_flags := 0; pkt_type_color := 128 |}.

Definition comp_with_status (st : Z) (c : ionic_rxq_comp) : ionic_rxq_comp :=
  {| status := st; num_sg_elems := num_sg_elems c; comp_index := comp_index c;
     rss_hash := rss_hash c; csum := csum c; vlan_tci := vlan_tci c;
     len := len c; csum_flags := csum_flags c;
     pkt_type_color := pkt_type_color c |}.

Definition comp_with_color (pc : Z) (c : ionic_rxq_comp) : ionic_rxq_comp :=
  {| status := status c; num_sg_elems := num_sg_elems c;
     comp_index := comp_index c; rss_hash := rss_hash c; csum := csum c;
     vlan_tci := vlan_tci c; len := len c; csum_flags := csum_flags c;
     pkt_type_color := pc |}.

Definition cq_done : ionic_cq := {| done_color := true |}.


(** ** Reference notions for the fragment-chain path *)



(** A world in which one page allocation succeeds and the next one fails. *)
Definition world_fill : world :=
  set_dma_map_results [65536] (set_alloc_pages_results [Some page1; None] world0).

(** [lif0] with a 9000-byte MTU, so that a frame needs three fragments. *)
Definition lif_jumbo : ionic_lif :=
  {| mtu := 9000; rx_copybreak := 256; IONIC_LIF_F_UP := true;
     IONIC_LIF_F_QUEUE_RESET := false; is_master_lif := true;
     NETIF_F_RXHASH := true; NETIF_F_RXCSUM := true;
     NETIF_F_HW_VLAN_CTAG_RX := true |}.

(** A transmit ring of eight slots with four descriptors in flight, and a
    segmentation-offload packet whose estimate is five descriptors. *)
Definition txq_busy : ionic_queue ionic_txq_desc := txq8 4 0.

(** A world in which the next six DMA mappings succeed. *)
Definition world_tx : world :=
  set_dma_map_results [4096; 8192; 12288; 16384; 20480; 24576] world0.

(** A segmentation-offload packet: 54 header bytes in the linear area and
    one fragment of three 1448-byte segments. *)
Definition skb_tso3 : sk_buff := skb0 5 4398 54 [4344] 1448.

(** The ring and the world after that packet has been posted on an empty
    ring of eight slots. *)
Definition tso_posted : option (Z * world * ionic_queue ionic_txq_desc) :=
  @ionic_tx_tso hdr_4k world_tx (txq8 0 0) skb_tso3.
Definition world_posted : world :=
  match tso_posted with
  | Some (_, w, _) => w
  | None => world0
  end.
Definition txq_posted : ionic_queue ionic_txq_desc :=
  match tso_posted with
  | Some (_, _, q) => q
  | None => txq8 0 0
  end.

(** The completion for the slot with sequence index [i], color bit set. *)
Definition txcomp (i : Z) : ionic_txq_comp :=
  {| txc_comp_index := i; txc_color := 128 |}.

(** A world in which three DMA mappings succeed and the fourth fails. *)
Definition world_map3 : world :=
  set_dma_map_results [4096; 8192; 12288; DMA_MAPPING_ERROR] world0.

(** The state in which the segmentation of [skb_tso3] jumps to
    [err_out_abort] in that world. *)
Definition tso_fail_point : option tso_outcome :=
  @tso_chop hdr_4k world_map3 (txq8 0 0) skb_tso3 (tso_hdrlen skb_tso3).
Definition world_at_abort : world :=
  match tso_fail_point with
  | Some (TsoAbort w _) => w
  | _ => world0
  end.

(** A packet that is not segmented: 54 linear bytes and five fragments of
    100 bytes. *)
Definition skb_5frags : sk_buff := skb0 6 554 54 [100; 100; 100; 100; 100] 0.

(** A packet with no fragment, 54 bytes in the linear area, and a world in
    which the next mapping fails. *)
Definition skb_linear : sk_buff := skb0 7 54 54 [] 0.
Definition world_map_none : world :=
  set_dma_map_results [DMA_MAPPING_ERROR] world0.

(** ** Ring teardown *)

Section Teardown.
Context `{ionic_hdr}.

(** The [for] loop of [ionic_rx_empty] over the fragments of one slot: [n]
    fragments left, [i] the loop counter. *)
Fixpoint rx_empty_bufs (n : nat) (i : nat) (w : world)
    (bufs : list ionic_buf_info) : option (world * list ionic_buf_info) :=
  match n with
  | O => Some (w, bufs)
  | S n' =>
      let* buf_info := bufs !! i in
      let '(w, buf_info) := ionic_rx_page_free w buf_info in
      rx_empty_bufs n' (S i) w (<[i := buf_info]> bufs)
  end.

(** The [while] loop of [ionic_rx_empty]; [idx] is the u16 cursor.  The
    cursor alone decides the next step and every step reads [q->info[idx]],
    so a run that stays inside the ring and has not met [head] after one
    step more than there are slots never will: [None] then. *)
Fixpoint ionic_rx_empty_loop (fuel : nat) (idx : Z) (w : world)
    (q : ionic_queue ionic_rxq_desc)
  : option (world * ionic_queue ionic_rxq_desc) :=
  if idx =? head_idx q then Some (w, q)
  else
    match fuel with
    | O => None
    | S fuel' =>
        let* desc_info := q_info q idx in
        let desc_info :=
          set_desc (set_rxd_addr_len 0 0 (desc desc_info)) desc_info in
        let* (w, bs) :=
          rx_empty_bufs (Z.to_nat (npages desc_info)) 0%nat w (bufs desc_info) in
        let desc_info := set_cb_arg None (set_bufs bs desc_info) in
        let q := q_set_info idx desc_info q in
        ionic_rx_empty_loop fuel' (u16 (ring_next q idx)) w q
    end.

Definition ionic_rx_empty (w : world) (q : ionic_queue ionic_rxq_desc)
  : option (world * ionic_queue ionic_rxq_desc) :=
  ionic_rx_empty_loop (S (length (info q))) (u16 (tail_idx q)) w q.

(** The [while] loop of [ionic_tx_empty]: every slot from [tail] to [head]
    is cleaned with no completion ([cq_info] is NULL).  Fuel as for
    [ionic_rx_empty_loop], the cursor being [tail_idx]. *)
Fixpoint ionic_tx_empty_loop (fuel : nat) (w : world)
    (q : ionic_queue ionic_txq_desc)
  : option (world * ionic_queue ionic_txq_desc) :=
  if head_idx q =? tail_idx q then Some (w, q)
  else
    match fuel with
    | O => None
    | S fuel' =>
        let di := tail_idx q in
        let* desc_info := q_info q di in
        let q := q_set_info di (set_bytes 0 desc_info) q in
        let q := set_tail_idx (ring_next q (tail_idx q)) q in
        let* (w, q) := ionic_tx_clean w q di false (cb_arg desc_info) in
        let* desc_info := q_info q di in
        let q := q_set_info di (set_cb_arg None (set_cb None desc_info)) q in
        ionic_tx_empty_loop fuel' w q
    end.

Definition ionic_tx_empty (w : world) (q : ionic_queue ionic_txq_desc)
  : option (world * ionic_queue ionic_txq_desc) :=
  ionic_tx_empty_loop (S (length (info q))) w q.

End Teardown.

(** ** Reference notions for the buffer life cycle *)

(** The page the allocator hands out next, if any, carries no reference
    yet. *)
Definition next_page_fresh (w : world) : Prop :=
  match alloc_pages_results w with
  | Some p :: _ => page_refs w !! pg_id p = None
  | _ => True
  end.

(** The next call of [alloc_pages] returns NULL; the next call of
    [dma_map_page] returns an address that [dma_mapping_error] flags.  A
    script that has run out fails like a failing entry. *)
Definition next_alloc_fails (w : world) : Prop :=
  match alloc_pages_results w with
  | Some _ :: _ => False
  | _ => True
  end.
Definition next_map_fails (w : world) : Prop :=
  match dma_map_results w with
  | a :: _ => a = DMA_MAPPING_ERROR
  | [] => True
  end.

(** A world in which the page allocation succeeds and the DMA mapping that
    follows fails, and one in which the page allocation fails. *)
Definition world_map_fails : world :=
  set_dma_map_results [DMA_MAPPING_ERROR]
    (set_alloc_pages_results [Some page1] world0).
Definition world_alloc_fails : world :=
  set_dma_map_results [65536] (set_alloc_pages_results [None] world0).

(** ** Reference notions for the receive accounting *)

(** What the stack and the statistics see of the receive path: the packets
    delivered, and the dropped, packet and byte counters. *)
Definition rx_acct (w : world) : list rx_skb * Z * Z * Z :=
  (gro_received w, rx_dropped (rxs w), rx_pkts (rxs w), rx_bytes (rxs w)).

(** A world in which no packet object can be allocated. *)
Definition world_rx_nomem : world := set_skb_alloc_results [None] world_page1.

(** ** Reference notions for the receive ring *)

(** The bytes a list of scatter-gather elements describes. *)
Definition sum_sg_len (l : list ionic_sg_elem) : Z :=
  foldr (λ e s, sg_len e + s) 0 l.

(** A receive slot as [ionic_rx_fill] posts it for frames of [len] bytes:
    it carries the receive callback and no argument, it counts between one
    fragment and one more than the ring has scatter-gather elements, every
    fragment it counts has a page, the descriptor points at the first
    fragment and each scatter-gather element at the fragment after it, the
    opcode says whether there is more than one fragment, and descriptor and
    elements together describe [len] bytes, or fewer when the elements ran
    out. *)
Definition rx_slot_filled `{ionic_hdr} (len max_sg : Z)
    (di : ionic_desc_info ionic_rxq_desc) : Prop :=
  cb di = Some cb_ionic_rx_clean ∧ cb_arg di = None ∧
  1 ≤ npages di ≤ max_sg + 1 ∧
  (∀ t, (t < Z.to_nat (npages di))%nat →
     ∃ b p, bufs di !! t = Some b ∧ page b = Some p) ∧
  (∃ b, bufs di !! 0%nat = Some b ∧
        rxd_addr (desc di) = u64 (dma_addr b + page_offset b)) ∧
  (∀ t, (S t < Z.to_nat (npages di))%nat →
     ∃ b e, bufs di !! S t = Some b ∧ sg_desc di !! t = Some e ∧
            sg_addr e = u64 (dma_addr b + page_offset b)) ∧
  rxd_opcode (desc di) = (if 1 <? npages di then IONIC_RXQ_DESC_OPCODE_SG
                          else IONIC_RXQ_DESC_OPCODE_SIMPLE) ∧
  ∃ rest, 0 ≤ rest ∧ (rest = 0 ∨ npages di = max_sg + 1) ∧
    rxd_len (desc di)
    + sum_sg_len (take (Z.to_nat (npages di) - 1) (sg_desc di)) + rest = len.

(** A world in which seven page allocations and seven DMA mappings succeed:
    enough to fill an empty receive ring of eight slots with frames that fit
    one page. *)
Definition world_fill7 : world :=
  set_dma_map_results (map (λ i, 65536 * Z.of_nat i) (seq 1 7))
    (set_alloc_pages_results
       (map (λ i, Some {| pg_id := N.of_nat i; pg_pfmemalloc := false;
                          pg_nid := 0 |}) (seq 1 7)) world0).

(** A receive slot as [ionic_rx_empty] leaves it: descriptor address and
    length zeroed, no callback argument, and no page behind any of the
    fragments the slot counts. *)
Definition rx_slot_emptied (di : ionic_desc_info ionic_rxq_desc) : Prop :=
  rxd_addr (desc di) = 0 ∧ rxd_len (desc di) = 0 ∧ cb_arg di = None ∧
  ∀ t, (t < Z.to_nat (npages di))%nat →
    ∃ b, bufs di !! t = Some b ∧ page b = None.

(** A receive ring in shape whose every slot counts no more fragments than
    its fragment array holds. *)
Definition rx_ring_ok (q : ionic_queue ionic_rxq_desc) : Prop :=
  ring_shape q ∧
  Forall (λ di, (Z.to_nat (npages di) ≤ length (bufs di))%nat) (info q).

(** A receive slot with room for the scatter-gather elements the ring
    allows and for one fragment more than that. *)
Definition rx_slot_sized (max_sg : Z) (di : ionic_desc_info ionic_rxq_desc)
  : Prop :=
  (Z.to_nat max_sg ≤ length (sg_desc di))%nat ∧
  (S (Z.to_nat max_sg) ≤ length (bufs di))%nat.

(** A receive ring [ionic_rx_fill] can work on: in shape, [head] and [tail]
    inside it, every slot of full size. *)
Definition rx_fill_ring_ok (q : ionic_queue ionic_rxq_desc) : Prop :=
  ring_shape q ∧
  0 ≤ head_idx q < num_descs q ∧ 0 ≤ tail_idx q < num_descs q ∧
  ∀ i di, q_info q i = Some di → rx_slot_sized (max_sg_elems q) di.

(** The ring and the world after [ionic_rx_fill] has filled an empty ring
    of eight slots. *)
Definition rx_filled : option (world * ionic_queue ionic_rxq_desc) :=
  @ionic_rx_fill hdr_4k world_fill7 (rxq8 lif0 0 0).
Definition world_filled : world :=
  match rx_filled with
  | Some (w, _) => w
  | None => world0
  end.
Definition rxq_filled : ionic_queue ionic_rxq_desc :=
  match rx_filled with
  | Some (_, q) => q
  | None => rxq8 lif0 0 0
  end.

(** ** Reference notions for the transmit path *)

(** One turn of the loops of [ionic_tx_service] and [ionic_tx_empty]: the
    slot at [tail] is popped, cleaned with the callback argument it holds,
    and its callback is cleared.  [cq_info] says whether a completion is
    passed on to [ionic_tx_clean]. *)
Definition tx_pop_clean `{ionic_hdr} (cq_info : bool) (w : world)
    (q : ionic_queue ionic_txq_desc)
  : option (world * ionic_queue ionic_txq_desc) :=
  let di := tail_idx q in
  let* desc_info := q_info q di in
  let q := q_set_info di (set_bytes 0 desc_info) q in
  let q := set_tail_idx (ring_next q (tail_idx q)) q in
  let* (w, q) := ionic_tx_clean w q di cq_info (cb_arg desc_info) in
  let* desc_info := q_info q di in
  Some (w, q_set_info di (set_cb_arg None (set_cb None desc_info)) q).

(** A device address a successful mapping can return: it fits 64 bits and
    is not the error cookie. *)
Definition dma_addr_ok (a : Z) : Prop := 0 ≤ a < 2 ^ 64 - 1.

(** The next [n] DMA mappings succeed. *)
Definition dma_maps_ready (n : nat) (w : world) : Prop :=
  (n ≤ length (dma_map_results w))%nat ∧
  Forall dma_addr_ok (take n (dma_map_results w)).

Definition sum_frags (l : list Z) : Z := foldr Z.add 0 l.

(** A packet that is not segmented and is laid out consistently: its
    fragments are not empty and fit 16 bits each, and the bytes outside the
    linear area are the bytes of the fragments. *)
Definition skb_frags_ok (skb : sk_buff) : Prop :=
  Forall (λ f, 0 < f < 2 ^ 16) (skb_frags skb) ∧
  0 ≤ skb_headlen skb ∧ skb_len skb < 2 ^ 32 ∧
  skb_len skb - skb_headlen skb = sum_frags (skb_frags skb).

(** [n] turns of that loop body in a row. *)
Fixpoint tx_pop_n `{ionic_hdr} (cq_info : bool) (n : nat) (w : world)
    (q : ionic_queue ionic_txq_desc)
  : option (world * ionic_queue ionic_txq_desc) :=
  match n with
  | O => Some (w, q)
  | S n' =>
      let* (w, q) := tx_pop_clean cq_info w q in
      tx_pop_n cq_info n' w q
  end.

(** The world of [world_posted] with the packet's subqueue stopped. *)
Definition world_posted_stopped : world := netif_stop_subqueue 0 world_posted.

(** A packet that is not segmented: 54 linear bytes and two fragments, and
    a world in which the next three DMA mappings succeed. *)
Definition skb_2frags : sk_buff := skb0 8 1254 54 [700; 500] 0.
Definition world_tx3 : world := set_dma_map_results [4096; 8192; 12288] world0.

(** A world in which the completion context has published tail index 3 by
    the time the sender passes the barrier. *)
Definition world_tail3 : world := set_tail_published [3] world0.

(** A packet that is not segmented and has more fragments than the ring has
    scatter-gather elements per descriptor: 54 linear bytes and nine
    fragments of 100 bytes. *)
Definition skb_9frags : sk_buff :=
  skb0 11 954 54 [100; 100; 100; 100; 100; 100; 100; 100; 100] 0.

(** Worlds in which [skb_linearize] fails, and in which it succeeds and the
    next DMA mapping succeeds too. *)
Definition world_lin_fails : world := set_linearize_results [- ENOMEM] world0.
Definition world_lin_ok : world :=
  set_dma_map_results [4096] (set_linearize_results [0] world0).

(** *** Segmentation offload: descriptors posted against the estimate *)

(** A segmentation-offload packet laid out consistently: a segment size, a
    header and segment that fit 32 bits together, a fragment count that fits
    32 bits, and a length that is the linear area plus the fragments. *)
Definition skb_tso_ok (skb : sk_buff) : Prop :=
  0 < gso_size skb ∧ tso_hdrlen skb + gso_size skb < 2 ^ 32 ∧
  0 ≤ skb_headlen skb ∧ Forall (λ f, 0 ≤ f) (skb_frags skb) ∧
  nr_frags skb < 2 ^ 32 ∧
  skb_len skb = skb_headlen skb + sum_frags (skb_frags skb) ∧
  skb_len skb < 2 ^ 31 - 1.

(** The variables of [ionic_tx_tso] right after a piece of [left] has been
    mapped, before the test that posts or continues.  [o] is the number of
    bytes the open descriptor holds, [rem] the bytes of the fragments after
    the current one, [len] the packet length: the posted descriptors hold
    [mss] bytes each or more, a piece that did not fill its descriptor took
    all that was [left]. *)
Definition tso_piece (mss len rem o : Z) (v : tso_vars) : Prop :=
  0 ≤ t_left v < 2 ^ 32 ∧ 0 ≤ t_frag_left v < 2 ^ 32 ∧
  0 ≤ t_total_pkts v ∧ 0 ≤ t_nfrags v ∧ 0 ≤ rem ∧
  (t_nfrags v = 0 → rem = 0) ∧
  0 ≤ o ∧ t_total_pkts v * mss + o + t_left v + rem ≤ len ∧
  mss ≤ o + t_frag_left v ∧
  (0 < t_frag_left v → t_left v = 0).

(** The same at the head of the chopping loops: either the bytes not yet
    consumed leave room for the posted descriptors at [mss] bytes each, and
    an open descriptor can still reach [mss] bytes, or the last descriptor
    has been posted and nothing is left. *)
Definition tso_budget (mss len rem : Z) (v : tso_vars) : Prop :=
  0 ≤ t_left v < 2 ^ 32 ∧ 0 ≤ t_frag_left v < 2 ^ 32 ∧
  0 ≤ t_total_pkts v ∧ 0 ≤ t_nfrags v ∧ 0 ≤ rem ∧
  (t_nfrags v = 0 → rem = 0) ∧
  ((∃ o, 0 ≤ o ∧ t_total_pkts v * mss + o + t_left v + rem ≤ len ∧
         (0 < t_frag_left v → mss ≤ o + t_frag_left v))
   ∨ (t_left v = 0 ∧ t_nfrags v = 0 ∧ (t_total_pkts v - 1) * mss ≤ len)).

(** What a chopping loop that started with variables [v] in world [w] on
    ring [q] has done when it runs on: the budget holds for the bytes [rem]
    still in later fragments, [head] has moved by the descriptors posted,
    and the packet counter is untouched. *)
Definition tso_advance (mss len rem : Z) (v : tso_vars) (w : world)
    (q : ionic_queue ionic_txq_desc) (r : tso_outcome) : Prop :=
  match r with
  | TsoGo v' w' q' =>
      tso_budget mss len rem v' ∧
      t_nfrags v' = t_nfrags v ∧
      num_descs q' = num_descs q ∧
      0 ≤ t_total_pkts v' - t_total_pkts v ∧
      head_idx q' =
        (head_idx q + (t_total_pkts v' - t_total_pkts v)) mod num_descs q ∧
      tx_pkts (txs w') = tx_pkts (txs w)
  | TsoAbort _ _ => True
  end.

(** *** Transmit: where a segmented send attaches the packet *)

(** The ring [q] of a segmented send that started on ring [q0] and has
    posted [t_total_pkts] descriptors: well formed as [q0] was, [head] that
    many slots past the first one, and the [elem] cursor inside the
    scatter-gather list of the slot at [head]. *)
Definition tso_ring (q0 q : ionic_queue ionic_txq_desc) (v : tso_vars) : Prop :=
  tx_ring_ok q ∧ ring_indexed q ∧ num_descs q = num_descs q0 ∧
  tail_idx q = tail_idx q0 ∧
  head_idx q = (head_idx q0 + t_total_pkts v) mod num_descs q0 ∧
  ∃ di, q_info q (head_idx q) = Some di ∧
        (t_elem v ≤ length (sg_desc di))%nat.

(** None of the first [n] slots the send has posted holds a packet. *)
Definition tso_none (q0 q : ionic_queue ionic_txq_desc) (n : Z) : Prop :=
  ∀ i, i ∈ ring_walk q0 (head_idx q0) (Z.to_nat n) → slot_skb q i = None.

(** Right after a piece has been mapped, before the test that posts or
    continues: the element count of the open descriptor is within the
    elements written, and no posted slot holds the packet. *)
Definition tso_open (q0 q : ionic_queue ionic_txq_desc) (v : tso_vars) : Prop :=
  tso_ring q0 q v ∧ 0 ≤ t_desc_nsge v ≤ Z.of_nat (t_elem v) ∧
  tso_none q0 q (t_total_pkts v).

(** At the head of the chopping loops, with [rem] bytes in the fragments
    after the current one: while bytes are left no posted slot holds the
    packet; once none is left the last posted slot holds it and no other
    does. *)
Definition tso_attached (skb : sk_buff) (q0 q : ionic_queue ionic_txq_desc)
    (rem : Z) (v : tso_vars) : Prop :=
  tso_ring q0 q v ∧
  (0 < t_left v + rem →
     (0 < t_frag_left v → 0 ≤ t_desc_nsge v ≤ Z.of_nat (t_elem v)) ∧
     tso_none q0 q (t_total_pkts v)) ∧
  (t_left v + rem = 0 →
     1 ≤ t_total_pkts v ∧
     (t_total_pkts v ≤ num_descs q0 →
        slot_skb q ((head_idx q0 + t_total_pkts v - 1) mod num_descs q0)
          = Some (skb_id skb) ∧
        tso_none q0 q (t_total_pkts v - 1))).

(** *** Receive: the bytes a fragment chain carries *)

(** The bytes the page slices of a packet add up to. *)
Definition rx_frag_bytes (skb : rx_skb) : Z :=
  foldr (λ f s, rf_len f + s) 0 (rx_frags skb).

(** The bytes the fragments [bs] can take from their offsets to the end of
    their pages, as [ionic_rx_frags] computes it at type u16. *)
Definition bufs_room `{ionic_hdr} (bs : list ionic_buf_info) : Z :=
  foldr (λ b s, u16 (IONIC_PAGE_SIZE - page_offset b) + s) 0 bs.

(** A completion for slot 0 that reports 1514 bytes in two fragments, where
    the slot has a page in its first fragment only: [ionic_rx_frags] attaches
    the first fragment, finds no page in the second and gives up.
    [world_stale] and [slot_stale] are the world and the slot it leaves. *)
Definition comp_two_frags : ionic_rxq_comp :=
  {| status := 0; num_sg_elems := 1; comp_index := 0; rss_hash := 0; csum := 0;
     vlan_tci := 0; len := 1514; csum_flags := 0; pkt_type_color := 128 |}.
Definition rx_frags_failed
  : option (option rx_skb * world * ionic_desc_info ionic_rxq_desc) :=
  @ionic_rx_frags hdr_4k world_rx (rx_slot_posted 0 buf_page1) comp_two_frags.
Definition world_stale : world :=
  match rx_frags_failed with
  | Some (_, w, _) => set_skb_alloc_results [Some 8%N] w
  | None => world0
  end.
Definition slot_stale : ionic_desc_info ionic_rxq_desc :=
  match rx_frags_failed with
  | Some (_, _, di) => di
  | None => rx_slot_posted 0 buf_page1
  end.

(** *** Receive: refilling slots that kept their pages *)

(** The fragments [bs] can take [len] bytes without a new page: some first
    fragments of the list all hold a page, and from their offsets to the
    ends of their pages there is room for [len]. *)
Definition frags_backed `{ionic_hdr} (len : Z) (bs : list ionic_buf_info)
  : Prop :=
  ∃ n, Forall (λ b, page b ≠ None) (take n bs) ∧ len ≤ bufs_room (take n bs).

(** [rxq_filled] once [head] has wrapped to slot 0 and the packets of the
    slots 0 to 2 have been received: slots 0 and 1 are free and still hold
    the pages they were posted with. *)
Definition rxq_wrapped : ionic_queue ionic_rxq_desc :=
  set_tail_idx 3 (set_head_idx 0 rxq_filled).

(** * Properties *)

(** Closed arithmetic facts about concrete objects, by evaluation. *)
Ltac by_eval :=
  vm_compute; repeat split; solve [reflexivity | intros ?; discriminate].

(** ** Machine arithmetic *)

Lemma u32_small x : 0 ≤ x < 2 ^ 32 → u32 x = x.
Proof. intros Hx. unfold u32. apply Z.mod_small. lia. Qed.

Lemma u16_small x : 0 ≤ x < 2 ^ 16 → u16 x = x.
Proof. intros Hx. unfold u16. apply Z.mod_small. lia. Qed.

Lemma u16_range x : 0 ≤ u16 x < 2 ^ 16.
Proof. unfold u16. apply Z.mod_pos_bound. lia. Qed.

Lemma u32_range x : 0 ≤ u32 x < 2 ^ 32.
Proof. unfold u32. apply Z.mod_pos_bound. lia. Qed.

Lemma u8_range x : 0 ≤ u8 x < 2 ^ 8.
Proof. unfold u8. apply Z.mod_pos_bound. lia. Qed.

(** [y & (u32)~m] keeps the bits of [y] that [m] does not have, when [y]
    fits 32 bits. *)
Lemma land_u32_lnot y m :
  0 ≤ y < 2 ^ 32 → Z.land y (u32 (Z.lnot m)) = Z.ldiff y m.
Proof.
  intros Hy. apply Z.bits_inj'. intros i Hi.
  rewrite Z.land_spec, Z.ldiff_spec. unfold u32.
  rewrite Z.testbit_mod_pow2 by lia.
  rewrite Z.lnot_spec by lia.
  destruct (Z.ltb_spec i 32) as [Hlt | Hge]; simpl; [reflexivity |].
  rewrite (Z.bits_above_log2 y i).
  - reflexivity.
  - lia.
  - destruct (Z.eq_dec y 0) as [-> | Hne]; [simpl; lia |].
    apply Z.log2_lt_pow2; [lia |].
    apply Z.lt_le_trans with (2 ^ 32); [lia |].
    apply Z.pow_le_mono_r; lia.
Qed.

Lemma ALIGN_zero a : ALIGN 0 a = 0.
Proof.
  unfold ALIGN. rewrite Z.add_0_l, land_u32_lnot by apply u32_range.
  apply Z.bits_inj'. intros i Hi.
  rewrite Z.ldiff_spec, Z.bits_0. unfold u32.
  rewrite Z.testbit_mod_pow2 by lia.
  destruct (i <? 32); simpl; [| reflexivity].
  destruct (Z.testbit (a - 1) i); reflexivity.
Qed.

(** For a power-of-two granularity, [ALIGN] rounds up to the next
    multiple. *)
Lemma ALIGN_round_up k x :
  0 ≤ k → 0 ≤ x → x + 2 ^ k ≤ 2 ^ 32 → ALIGN x (2 ^ k) = round_up x (2 ^ k).
Proof.
  intros Hk Hx Hb. unfold ALIGN, round_up.
  assert (Hp : 0 < 2 ^ k) by (apply Z.pow_pos_nonneg; lia).
  rewrite (u32_small (x + (2 ^ k - 1))) by lia.
  rewrite land_u32_lnot by lia.
  replace (2 ^ k - 1) with (Z.ones k) by (rewrite Z.ones_equiv; lia).
  rewrite Z.ldiff_ones_r by lia.
  rewrite Z.shiftr_div_pow2, Z.shiftl_mul_pow2 by lia.
  rewrite Z.ones_equiv.
  replace (x + Z.pred (2 ^ k)) with (x + 2 ^ k - 1) by lia. lia.
Qed.

Lemma round_up_bounds x a : 0 < a → x ≤ round_up x a < x + a.
Proof.
  intros Ha. unfold round_up.
  pose proof (Z.div_mod (x + a - 1) a ltac:(lia)) as Hdm.
  pose proof (Z.mod_pos_bound (x + a - 1) a Ha) as Hm.
  lia.
Qed.

(** With a power-of-two ring size the masked increment is the increment
    modulo the ring size. *)
Lemma ring_next_mod {D} (q : ionic_queue D) k idx :
  0 ≤ k → num_descs q = 2 ^ k → ring_next q idx = (idx + 1) mod num_descs q.
Proof.
  intros Hk HN. unfold ring_next. rewrite HN.
  replace (2 ^ k - 1) with (Z.ones k) by (rewrite Z.ones_equiv; lia).
  apply Z.land_ones. lia.
Qed.

(** ** Buffer pool: recycle and release *)

Section BufferPool.
Context `{ionic_hdr}.

Lemma page_ref_get_page p w : page_ref (get_page p w) p = page_ref w p + 1.
Proof.
  unfold get_page, page_ref_add, page_ref. destruct w; simpl.
  rewrite lookup_insert_eq. reflexivity.
Qed.

Lemma get_page_dma_maps p w : dma_maps (get_page p w) = dma_maps w.
Proof. destruct w; reflexivity. Qed.

(** C6, amended: [ionic_rx_buf_recycle] refuses exactly when the page was
    allocated under memory pressure, or sits on another NUMA node, or the
    offset advanced by the consumed bytes rounded up to the split size
    reaches or passes the page size; when it accepts, the offset has advanced
    by that amount, the device address is kept, and one page reference is
    taken (or one unit of the bias is spent when pages are of higher
    order). *)
Theorem ionic_rx_buf_recycle_refuses_iff
    (w : world) (b : ionic_buf_info) (p : struct_page) (used k : Z) :
  page b = Some p →
  0 ≤ k → IONIC_PAGE_SPLIT_SZ = 2 ^ k →
  0 ≤ used → used + IONIC_PAGE_SPLIT_SZ ≤ 2 ^ 32 →
  0 ≤ page_offset b →
  page_offset b + round_up used IONIC_PAGE_SPLIT_SZ < 2 ^ 32 →
  ∃ ok w' b',
    ionic_rx_buf_recycle w b used = Some (ok, w', b') ∧
    (ok = false ↔
       pg_pfmemalloc p = true ∨ pg_nid p ≠ numa_mem_id w ∨
       IONIC_PAGE_SIZE ≤ page_offset b + round_up used IONIC_PAGE_SPLIT_SZ) ∧
    (ok = true →
       page b' = page b ∧ dma_addr b' = dma_addr b ∧
       page_offset b' = page_offset b + round_up used IONIC_PAGE_SPLIT_SZ ∧
       if 0 <? IONIC_PAGE_ORDER
       then pagecnt_bias b' = pagecnt_bias b - 1 ∧ w' = w
       else pagecnt_bias b' = pagecnt_bias b ∧ w' = get_page p w ∧
            page_ref w' p = page_ref w p + 1).
Proof.
  intros Hp Hk Hsplit Hused Hfit Hoff Hnowrap.
  assert (Hal : ALIGN used IONIC_PAGE_SPLIT_SZ = round_up used IONIC_PAGE_SPLIT_SZ).
  { rewrite Hsplit in *. apply ALIGN_round_up; lia. }
  pose proof (round_up_bounds used IONIC_PAGE_SPLIT_SZ) as Hru.
  assert (0 < IONIC_PAGE_SPLIT_SZ) by (rewrite Hsplit; apply Z.pow_pos_nonneg; lia).
  unfold ionic_rx_buf_recycle. rewrite Hp. cbn [bind_opt].
  destruct (pg_pfmemalloc p) eqn:Hpf.
  { eexists _, _, _. split; [reflexivity |]. split; [tauto | discriminate]. }
  destruct (pg_nid p =? numa_mem_id w) eqn:Hnid; cbn [negb].
  2:{ apply Z.eqb_neq in Hnid.
      eexists _, _, _. split; [reflexivity |]. split; [tauto | discriminate]. }
  apply Z.eqb_eq in Hnid. cbn [page_offset].
  rewrite Hal, u32_small by lia.
  destruct (Z.leb_spec IONIC_PAGE_SIZE
              (page_offset b + round_up used IONIC_PAGE_SPLIT_SZ)) as [Hge | Hlt].
  { eexists _, _, _. split; [reflexivity |]. split; [tauto | discriminate]. }
  destruct (0 <? IONIC_PAGE_ORDER) eqn:Hord.
  - eexists _, _, _. split; [reflexivity |]. split.
    + split; [discriminate |]. intros [? | [? | ?]]; [congruence | congruence | lia].
    + intros _. cbn. auto.
  - eexists _, _, _. split; [reflexivity |]. split.
    + split; [discriminate |]. intros [? | [? | ?]]; [congruence | congruence | lia].
    + intros _. cbn. repeat split; auto using page_ref_get_page.
Qed.

Lemma ionic_rx_page_free_empty w b :
  page b = None → ionic_rx_page_free w b = (w, b).
Proof. intros Hb. unfold ionic_rx_page_free. rewrite Hb. reflexivity. Qed.

Lemma ionic_rx_buf_reset_empty b : buf_empty (ionic_rx_buf_reset b).
Proof. repeat split. Qed.

Lemma ionic_rx_page_alloc_ok w b w1 b1 :
  ionic_rx_page_alloc w b = (0, w1, b1) →
  ∃ p, page b1 = Some p ∧ page_offset b1 = 0 ∧
       dma_mapping_error (dma_addr b1) = false.
Proof.
  unfold ionic_rx_page_alloc.
  destruct (alloc_pages w) as [[p |] wa]; [| intros [=]].
  destruct (dma_map wa) as [a wm].
  destruct (dma_mapping_error a) eqn:Ha; intros [= <- <-].
  exists p. auto.
Qed.

(** C9: releasing an empty fragment changes nothing; after a release the
    fragment is empty (null page, zero offset, zero device address) and a
    second release changes nothing either; and a freshly allocated fragment
    on a local page that did not come from the emergency reserves is
    recycled with zero consumed bytes successfully, offset and device
    address unchanged. *)
Theorem release_idempotent_recycle_zero_identity :
  0 < IONIC_PAGE_SIZE →
  (∀ w b, page b = None → ionic_rx_page_free w b = (w, b)) ∧
  (∀ w b w1 b1,
     page b ≠ None ∨ buf_empty b →
     ionic_rx_page_free w b = (w1, b1) →
     buf_empty b1 ∧ ionic_rx_page_free w1 b1 = (w1, b1)) ∧
  (∀ w b w1 b1,
     ionic_rx_page_alloc w b = (0, w1, b1) →
     ∃ p, page b1 = Some p ∧ page_offset b1 = 0 ∧
       (pg_pfmemalloc p = false → pg_nid p = numa_mem_id w1 →
        ∃ w2 b2,
          ionic_rx_buf_recycle w1 b1 0 = Some (true, w2, b2) ∧
          dma_addr b2 = dma_addr b1 ∧ page_offset b2 = page_offset b1)).
Proof.
  intros Hsize. split; [exact ionic_rx_page_free_empty |]. split.
  - intros w b w1 b1 Hb Hfree. unfold ionic_rx_page_free in Hfree.
    destruct (page b) as [p |] eqn:Hp.
    + injection Hfree as <- <-. split; [apply ionic_rx_buf_reset_empty |].
      apply ionic_rx_page_free_empty. reflexivity.
    + injection Hfree as <- <-. destruct Hb as [Hb | Hb]; [congruence |].
      split; [exact Hb |]. apply ionic_rx_page_free_empty. exact Hp.
  - intros w b w1 b1 Halloc.
    destruct (ionic_rx_page_alloc_ok _ _ _ _ Halloc) as (p & Hp & Hoff & _).
    exists p. split; [exact Hp |]. split; [exact Hoff |].
    intros Hpf Hnid. unfold ionic_rx_buf_recycle.
    rewrite Hp. cbn [bind_opt]. rewrite Hpf, Hnid, Z.eqb_refl. cbn [negb].
    rewrite ALIGN_zero, Hoff. cbn [page_offset].
    change (u32 (0 + 0)) with 0.
    destruct (Z.leb_spec IONIC_PAGE_SIZE 0) as [Hle | _]; [lia |].
    destruct (0 <? IONIC_PAGE_ORDER); eexists _, _; (split; [reflexivity |]);
      cbn; auto.
Qed.

End BufferPool.

Lemma ionic_rx_buf_recycle_refuses_iff_witness :
  ∃ ok w' b',
    @ionic_rx_buf_recycle hdr_4k world_page1 buf_half 1514 = Some (ok, w', b') ∧
    (ok = false ↔
       pg_pfmemalloc page1 = true ∨ pg_nid page1 ≠ numa_mem_id world_page1 ∨
       4096 ≤ page_offset buf_half + round_up 1514 2048) ∧
    (ok = true →
       page b' = page buf_half ∧ dma_addr b' = dma_addr buf_half ∧
       page_offset b' = page_offset buf_half + round_up 1514 2048 ∧
       pagecnt_bias b' = pagecnt_bias buf_half ∧ w' = get_page page1 world_page1 ∧
       page_ref w' page1 = page_ref world_page1 page1 + 1).
Proof.
  apply (@ionic_rx_buf_recycle_refuses_iff hdr_4k world_page1 buf_half page1 1514 11);
    [reflexivity | lia | reflexivity | lia | simpl; lia | simpl; lia |
     vm_compute; reflexivity].
Defined.

(** C6 as stated fails on a page whose second half is consumed exactly to the
    end: the page is local and not from the reserves, the advanced offset
    4096 does not exceed the page size 4096, and recycling is refused. *)
Lemma recycle_refuses_at_page_end :
  pg_pfmemalloc page1 = false ∧
  pg_nid page1 = numa_mem_id world_page1 ∧
  ¬ (@IONIC_PAGE_SIZE hdr_4k
       < page_offset buf_half + round_up 1514 (@IONIC_PAGE_SPLIT_SZ hdr_4k)) ∧
  ∃ w' b',
    @ionic_rx_buf_recycle hdr_4k world_page1 buf_half 1514 = Some (false, w', b').
Proof.
  split; [reflexivity |]. split; [reflexivity |]. split.
  - vm_compute. intros H. discriminate H.
  - eexists _, _. vm_compute. reflexivity.
Qed.

Lemma release_idempotent_recycle_zero_identity_witness :
  (@ionic_rx_page_free hdr_4k world0 buf0 = (world0, buf0)) ∧
  (∀ w1 b1, @ionic_rx_page_free hdr_4k world_page1 buf_half = (w1, b1) →
     buf_empty b1 ∧ @ionic_rx_page_free hdr_4k w1 b1 = (w1, b1)) ∧
  (let r := @ionic_rx_page_alloc hdr_4k world_fresh buf0 in
   r.1.1 = 0 ∧
   ∃ w2 b2,
     @ionic_rx_buf_recycle hdr_4k r.1.2 r.2 0 = Some (true, w2, b2) ∧
     dma_addr b2 = dma_addr r.2 ∧ page_offset b2 = page_offset r.2).
Proof.
  destruct (@release_idempotent_recycle_zero_identity hdr_4k) as (H1 & H2 & H3).
  - reflexivity.
  - split; [| split].
    + apply H1. reflexivity.
    + intros w1 b1. apply H2. left. discriminate.
    + intros r. split; [reflexivity |].
      destruct (H3 world_fresh buf0 r.1.2 r.2) as (p & Hp & _ & Hrec).
      * reflexivity.
      * injection Hp as <-. apply Hrec; reflexivity.
Defined.

(** ** Transmit descriptor budget *)

Lemma floor_succ_vs_ceil L S :
  0 ≤ L → 0 < S →
  L / S + 1 = if L mod S =? 0 then ceil_div L S + 1 else ceil_div L S.
Proof.
  intros HL HS. unfold ceil_div.
  pose proof (Z.div_mod L S ltac:(lia)) as Hdm.
  pose proof (Z.mod_pos_bound L S HS) as Hm.
  destruct (Z.eqb_spec (L mod S) 0) as [H0 | Hn0].
  - replace (L + S - 1) with (L / S * S + (S - 1)) by lia.
    rewrite Z.div_add_l by lia. rewrite (Z.div_small (S - 1)) by lia. lia.
  - replace (L + S - 1) with ((L / S + 1) * S + (L mod S - 1)) by lia.
    rewrite Z.div_add_l by lia. rewrite (Z.div_small (L mod S - 1)) by lia. lia.
Qed.

(** C2, amended: for a segmentation-offload packet of length L and segment
    size S the estimate is floor(L / S) + 1, which is ceil(L / S) when S does
    not divide L and ceil(L / S) + 1 when it does; for a packet that is not
    segmented and has no more fragments than the ring's scatter-gather limit
    the estimate is 1. *)
Theorem ionic_tx_descs_needed_estimate
    (w : world) (q : ionic_queue ionic_txq_desc) (skb : sk_buff) :
  0 ≤ skb_len skb < 2 ^ 31 - 1 →
  (0 < gso_size skb →
     ionic_tx_descs_needed w q skb
       = (skb_len skb / gso_size skb + 1, w, skb) ∧
     skb_len skb / gso_size skb + 1
       = if skb_len skb mod gso_size skb =? 0
         then ceil_div (skb_len skb) (gso_size skb) + 1
         else ceil_div (skb_len skb) (gso_size skb)) ∧
  (gso_size skb = 0 → nr_frags skb ≤ max_sg_elems q →
     ionic_tx_descs_needed w q skb = (1, w, skb)).
Proof.
  intros HL. split.
  - intros HS. split; [| apply floor_succ_vs_ceil; lia].
    unfold ionic_tx_descs_needed, skb_is_gso.
    destruct (Z.eqb_spec (gso_size skb) 0) as [? | _]; [lia |]. cbn [negb].
    rewrite (u32_small (skb_len skb)) by lia.
    assert (Hq : 0 ≤ skb_len skb / gso_size skb ≤ skb_len skb).
    { split; [apply Z.div_pos; lia |].
      apply Z.div_le_upper_bound; [lia |]. nia. }
    unfold int_of_u32. rewrite u32_small by lia.
    destruct (Z.ltb_spec (skb_len skb / gso_size skb + 1) (2 ^ 31)); [reflexivity | lia].
  - intros HS Hfr. unfold ionic_tx_descs_needed, skb_is_gso.
    rewrite HS. cbn [Z.eqb negb].
    destruct (Z.leb_spec (nr_frags skb) (max_sg_elems q)); [reflexivity | lia].
Qed.

Lemma ionic_tx_descs_needed_estimate_witness :
  ionic_tx_descs_needed world0 (txq8 0 0) (skb0 1 2896 54 [2842] 1448)
    = (3, world0, skb0 1 2896 54 [2842] 1448) ∧
  ionic_tx_descs_needed world0 (txq8 0 0) (skb0 2 1514 54 [1460] 0)
    = (1, world0, skb0 2 1514 54 [1460] 0).
Proof.
  split.
  - apply (ionic_tx_descs_needed_estimate world0 (txq8 0 0)
             (skb0 1 2896 54 [2842] 1448)); by_eval.
  - apply (ionic_tx_descs_needed_estimate world0 (txq8 0 0)
             (skb0 2 1514 54 [1460] 0)); by_eval.
Defined.

(** C2 as stated fails whenever the segment size does not divide the
    length: 3000 bytes in 1448-byte segments are estimated at 3 descriptors,
    not ceil(3000 / 1448) + 1 = 4. *)
Lemma descs_needed_not_ceil_plus_one :
  let skb := skb0 1 3000 54 [2946] 1448 in
  skb_is_gso skb = true ∧
  (ionic_tx_descs_needed world0 (txq8 0 0) skb).1.1 = 3 ∧
  ceil_div (skb_len skb) (gso_size skb) + 1 = 4.
Proof. repeat split. Qed.

(** ** Ring bookkeeping *)

Section Ring.
Context {D : Type}.
Implicit Types (q : ionic_queue D) (di : ionic_desc_info D).

Lemma q_set_info_fields i di q :
  head_idx (q_set_info i di q) = head_idx q ∧
  tail_idx (q_set_info i di q) = tail_idx q ∧
  num_descs (q_set_info i di q) = num_descs q ∧
  lif (q_set_info i di q) = lif q ∧
  length (info (q_set_info i di q)) = length (info q).
Proof. destruct q; cbn. rewrite length_insert. auto. Qed.

Lemma q_info_Some q i di :
  q_info q i = Some di → 0 ≤ i ∧ (Z.to_nat i < length (info q))%nat.
Proof.
  unfold q_info. destruct (Z.ltb_spec i 0); [discriminate |].
  intros Hl. split; [lia |]. eapply lookup_lt_Some; eauto.
Qed.

Lemma q_info_in_range q i :
  0 ≤ i < Z.of_nat (length (info q)) → ∃ di, q_info q i = Some di.
Proof.
  intros Hi. unfold q_info. destruct (Z.ltb_spec i 0); [lia |].
  apply lookup_lt_is_Some_2. lia.
Qed.

Lemma q_info_set_eq q i di di0 :
  q_info q i = Some di0 → q_info (q_set_info i di q) i = Some di.
Proof.
  intros Hq. destruct (q_info_Some _ _ _ Hq) as [Hi Hlt].
  unfold q_info, q_set_info in *. destruct q; cbn in *.
  destruct (Z.ltb_spec i 0); [lia |].
  apply list_lookup_insert_eq. exact Hlt.
Qed.

Lemma q_info_set_ne q i j di :
  0 ≤ i → 0 ≤ j → i ≠ j → q_info (q_set_info i di q) j = q_info q j.
Proof.
  intros Hi Hj Hne. unfold q_info, q_set_info. destruct q; cbn.
  destruct (Z.ltb_spec j 0); [reflexivity |].
  apply list_lookup_insert_ne. lia.
Qed.

Lemma set_tail_idx_fields v q :
  head_idx (set_tail_idx v q) = head_idx q ∧
  tail_idx (set_tail_idx v q) = v ∧
  num_descs (set_tail_idx v q) = num_descs q ∧
  lif (set_tail_idx v q) = lif q ∧
  info (set_tail_idx v q) = info q.
Proof. destruct q; cbn; auto. Qed.

Lemma q_info_set_tail_idx v q i : q_info (set_tail_idx v q) i = q_info q i.
Proof. destruct q; reflexivity. Qed.

Lemma q_info_set_head_idx v q i : q_info (set_head_idx v q) i = q_info q i.
Proof. destruct q; reflexivity. Qed.

Lemma ionic_q_post_quiet w q f a w' q' :
  ionic_q_post w q false f a = Some (w', q') →
  w' = w ∧ head_idx q' = ring_next q (head_idx q).
Proof.
  unfold ionic_q_post. destruct (q_info q (head_idx q)); [| discriminate].
  cbn [bind_opt]. intros [= <- <-]. split; [reflexivity |].
  destruct q; reflexivity.
Qed.

End Ring.

(** ** Receive completion *)

Section Receive.
Context `{ionic_hdr}.
Implicit Types (q : ionic_queue ionic_rxq_desc).

Lemma ionic_rx_buf_recycle_Some w b p used :
  page b = Some p → ∃ ok w' b', ionic_rx_buf_recycle w b used = Some (ok, w', b').
Proof.
  intros Hp. unfold ionic_rx_buf_recycle. rewrite Hp. cbn [bind_opt].
  repeat match goal with
         | |- context [if ?c then _ else _] => destruct c
         end; eauto.
Qed.

Lemma ionic_rx_frags_loop_total i : ∀ j len w bs skb,
  (j + i ≤ length bs)%nat → ∃ r, ionic_rx_frags_loop i j len w bs skb = Some r.
Proof.
  induction i as [| i IH]; intros j len w bs skb Hlen; cbn [ionic_rx_frags_loop].
  - eauto.
  - destruct (lookup_lt_is_Some_2 bs j ltac:(lia)) as [b Hb].
    rewrite Hb. cbn [bind_opt].
    destruct (page b) as [p |] eqn:Hp; [| eauto].
    destruct (ionic_rx_buf_recycle_Some w b p
                (min_t_u16 len (IONIC_PAGE_SIZE - page_offset b)) Hp)
      as (ok & w' & b' & Hrec).
    rewrite Hrec. cbn [bind_opt]. apply IH. rewrite length_insert. lia.
Qed.

Lemma ionic_rx_frags_total w di comp :
  u8 (num_sg_elems comp) + 1 ≤ Z.of_nat (length (bufs di)) →
  ∃ r, ionic_rx_frags w di comp = Some r.
Proof.
  intros Hlen. unfold ionic_rx_frags.
  destruct (napi_get_frags w) as [[skb |] w1]; [| eauto].
  pose proof (u8_range (num_sg_elems comp)).
  destruct (ionic_rx_frags_loop_total
              (Z.to_nat (u8 (num_sg_elems comp) + 1)) 0 (u16 (len comp)) w1
              (bufs di) skb ltac:(lia)) as [[[r w2] bs] Hr].
  rewrite Hr. cbn. eauto.
Qed.

Lemma ionic_rx_copybreak_total w di comp :
  (0 < length (bufs di))%nat → ∃ r, ionic_rx_copybreak w di comp = Some r.
Proof.
  intros Hlen. unfold ionic_rx_copybreak.
  destruct (alloc_skb w) as [[skb |] w1]; [| eauto].
  destruct (lookup_lt_is_Some_2 (bufs di) 0 Hlen) as [b Hb].
  rewrite Hb. cbn [bind_opt]. destruct (page b); eauto.
Qed.

Lemma ionic_rx_clean_total w q i di comp :
  q_info q i = Some di →
  u8 (num_sg_elems comp) + 1 ≤ Z.of_nat (length (bufs di)) →
  ∃ w' q', ionic_rx_clean w q i comp = Some (w', q').
Proof.
  intros Hdi Hlen. unfold ionic_rx_clean. rewrite Hdi. cbn [bind_opt].
  pose proof (u8_range (num_sg_elems comp)).
  destruct (negb (status comp =? 0)); [eauto |].
  destruct (IONIC_LIF_F_QUEUE_RESET (lif q)); [eauto |].
  destruct (u32 (mtu (lif q) + ETH_HLEN) <? u16 (len comp)); [eauto |].
  destruct (u16 (len comp) <=? rx_copybreak (lif q)).
  - destruct (ionic_rx_copybreak_total
                (rx_bytes_add (u16 (len comp)) (rx_pkts_add 1 w)) di comp
                ltac:(lia)) as [[[r w1] d1] Hr].
    rewrite Hr. cbn [bind_opt]. destruct r; [| eauto].
    destruct (_ <=? _); eauto.
  - destruct (ionic_rx_frags_total
                (rx_bytes_add (u16 (len comp)) (rx_pkts_add 1 w)) di comp Hlen)
      as [[[r w1] d1] Hr].
    rewrite Hr. cbn [bind_opt]. destruct r; [| eauto].
    destruct (_ <=? _); eauto.
Qed.

(** [ionic_rx_clean] touches no ring index and changes at most the slot it
    was given. *)
Lemma ionic_rx_clean_frame w q i comp w' q' :
  ionic_rx_clean w q i comp = Some (w', q') →
  head_idx q' = head_idx q ∧ tail_idx q' = tail_idx q ∧
  num_descs q' = num_descs q ∧ lif q' = lif q ∧
  length (info q') = length (info q).
Proof.
  unfold ionic_rx_clean. destruct (q_info q i) as [di |]; [| discriminate].
  cbn [bind_opt].
  destruct (negb (status comp =? 0)); [intros [= <- <-]; auto |].
  destruct (IONIC_LIF_F_QUEUE_RESET (lif q)); [intros [= <- <-]; auto |].
  destruct (u32 (mtu (lif q) + ETH_HLEN) <? u16 (len comp));
    [intros [= <- <-]; auto |].
  match goal with
  | |- context [bind_opt ?m _] => destruct m as [[[r w1] d1] |]; [| discriminate]
  end.
  cbn [bind_opt]. pose proof (q_set_info_fields i d1 q).
  destruct r; [destruct (_ <=? _) |]; intros [= <- <-]; tauto.
Qed.

(** C4: a completion whose color does not match, or that arrives on an empty
    ring, or whose sequence index differs from the one stored in the oldest
    in-flight slot, is no work and leaves world and ring as they were; a
    completion that passes all three checks advances [tail] by one (modulo
    the ring size), has the slot processed by [ionic_rx_clean], and releases
    the slot's callback. *)
Theorem ionic_rx_service_checks
    (w : world) (cq : ionic_cq) (q : ionic_queue ionic_rxq_desc)
    (comp : ionic_rxq_comp) (di : ionic_desc_info ionic_rxq_desc) (k : Z) :
  0 ≤ k → num_descs q = 2 ^ k →
  q_info q (tail_idx q) = Some di →
  u8 (num_sg_elems comp) + 1 ≤ Z.of_nat (length (bufs di)) →
  let pass := color_match (pkt_type_color comp) (done_color cq)
              && negb (tail_idx q =? head_idx q)
              && (index di =? u16 (comp_index comp)) in
  (pass = false → ionic_rx_service w cq q comp = Some (false, w, q)) ∧
  (pass = true →
     ∃ w' q1 di1,
       ionic_rx_clean w (set_tail_idx ((tail_idx q + 1) mod num_descs q) q)
         (tail_idx q) comp = Some (w', q1) ∧
       q_info q1 (tail_idx q) = Some di1 ∧
       let q' := q_set_info (tail_idx q) (set_cb_arg None (set_cb None di1)) q1 in
       ionic_rx_service w cq q comp = Some (true, w', q') ∧
       tail_idx q' = (tail_idx q + 1) mod num_descs q ∧
       head_idx q' = head_idx q).
Proof.
  intros Hk HN Hdi Hlen pass. subst pass. unfold ionic_rx_service.
  rewrite (ring_next_mod q k) by assumption.
  destruct (color_match (pkt_type_color comp) (done_color cq));
    cbn [negb andb]; [| split; [reflexivity | discriminate]].
  destruct (tail_idx q =? head_idx q);
    cbn [negb andb]; [split; [reflexivity | discriminate] |].
  rewrite Hdi. cbn [bind_opt].
  destruct (index di =? u16 (comp_index comp));
    cbn [negb]; [| split; [reflexivity | discriminate]].
  split; [discriminate |]. intros _.
  set (q0 := set_tail_idx ((tail_idx q + 1) mod num_descs q) q).
  assert (Hdi0 : q_info q0 (tail_idx q) = Some di)
    by (unfold q0; rewrite q_info_set_tail_idx; exact Hdi).
  destruct (ionic_rx_clean_total w q0 (tail_idx q) di comp Hdi0 Hlen)
    as (w' & q1 & Hclean).
  destruct (ionic_rx_clean_frame _ _ _ _ _ _ Hclean) as (Hh & Ht & _ & _ & Hl).
  destruct (q_info_Some _ _ _ Hdi0) as [Hi Hlt].
  destruct (q_info_in_range q1 (tail_idx q) ltac:(lia)) as [di1 Hdi1].
  exists w', q1, di1. split; [exact Hclean |]. split; [exact Hdi1 |].
  cbn zeta. rewrite Hclean. cbn [bind_opt]. rewrite Hdi1. cbn [bind_opt].
  split; [reflexivity |].
  destruct (q_set_info_fields (tail_idx q) (set_cb_arg None (set_cb None di1)) q1)
    as (-> & -> & _).
  rewrite Hh, Ht. unfold q0.
  destruct (set_tail_idx_fields ((tail_idx q + 1) mod num_descs q) q)
    as (-> & -> & _).
  auto.
Qed.

(** C7, amended: a completion with a non-zero status, or whose length
    exceeds the MTU plus the 14-byte Ethernet header, is dropped by
    [ionic_rx_clean]: the drop counter goes up by one and nothing else in the
    world or the ring changes, so no packet is delivered; the poll handler
    still counts the completion as work, advances [tail] and releases the
    slot's callback. *)
Theorem ionic_rx_clean_drops_bad_frames
    (w : world) (cq : ionic_cq) (q : ionic_queue ionic_rxq_desc)
    (comp : ionic_rxq_comp) (di : ionic_desc_info ionic_rxq_desc) (k : Z) :
  0 ≤ k → num_descs q = 2 ^ k →
  q_info q (tail_idx q) = Some di →
  color_match (pkt_type_color comp) (done_color cq) = true →
  tail_idx q ≠ head_idx q →
  index di = u16 (comp_index comp) →
  status comp ≠ 0 ∨ u32 (mtu (lif q) + ETH_HLEN) < u16 (len comp) →
  let q0 := set_tail_idx ((tail_idx q + 1) mod num_descs q) q in
  let w' := rx_dropped_inc w in
  ionic_rx_clean w q0 (tail_idx q) comp = Some (w', q0) ∧
  ionic_rx_service w cq q comp
    = Some (true, w',
            q_set_info (tail_idx q) (set_cb_arg None (set_cb None di)) q0) ∧
  rx_dropped (rxs w') = rx_dropped (rxs w) + 1 ∧
  gro_received w' = gro_received w ∧
  dma_maps w' = dma_maps w ∧ page_refs w' = page_refs w ∧
  freed_skbs w' = freed_skbs w.
Proof.
  intros Hk HN Hdi Hcol Hne Hidx Hbad q0 w'.
  assert (Hdi0 : q_info q0 (tail_idx q) = Some di)
    by (unfold q0; rewrite q_info_set_tail_idx; exact Hdi).
  assert (Hclean : ionic_rx_clean w q0 (tail_idx q) comp = Some (w', q0)).
  { unfold ionic_rx_clean. rewrite Hdi0. cbn [bind_opt].
    destruct (Z.eqb_spec (status comp) 0) as [Hst | Hst]; cbn [negb];
      [| reflexivity].
    destruct (IONIC_LIF_F_QUEUE_RESET (lif q0)); [reflexivity |].
    destruct Hbad as [? | Hbig]; [contradiction |].
    replace (lif q0) with (lif q) by (destruct q; reflexivity).
    destruct (Z.ltb_spec (u32 (mtu (lif q) + ETH_HLEN)) (u16 (len comp)));
      [reflexivity | lia]. }
  split; [exact Hclean |]. split.
  - unfold ionic_rx_service. rewrite Hcol. cbn [negb].
    destruct (Z.eqb_spec (tail_idx q) (head_idx q)) as [? | _]; [contradiction |].
    rewrite Hdi. cbn [bind_opt]. rewrite Hidx, Z.eqb_refl. cbn [negb].
    rewrite (ring_next_mod q k) by assumption. fold q0.
    rewrite Hclean. cbn [bind_opt]. rewrite Hdi0. reflexivity.
  - unfold w', rx_dropped_inc. destruct w as [? ? ? ? ? ? ? ? ? ? ? ? [] ? ?].
    cbn. auto.
Qed.

(** *** Copy-break and fragment chain *)





Lemma napi_get_frags_fresh w id rest :
  napi_skb w = None → skb_alloc_results w = Some id :: rest →
  napi_get_frags w
  = (Some (new_rx_skb id),
     set_napi_skb (Some (new_rx_skb id)) (set_skb_alloc_results rest w)).
Proof.
  intros Hc Hs. unfold napi_get_frags, alloc_skb. rewrite Hc, Hs. reflexivity.
Qed.












Lemma q_set_info_id {D} (q : ionic_queue D) i di :
  q_info q i = Some di → q_set_info i di q = q.
Proof.
  unfold q_info, q_set_info. destruct (i <? 0); [discriminate |].
  intros Hl. destruct q; cbn in *. f_equal. apply list_insert_id. exact Hl.
Qed.


End Receive.

Lemma ionic_rx_service_checks_witness :
  @ionic_rx_service hdr_4k world_rx cq_done (rxq_one lif0)
     (comp_with_color 0 (comp0 100))
    = Some (false, world_rx, rxq_one lif0) ∧
  ∃ w' q',
    @ionic_rx_service hdr_4k world_rx cq_done (rxq_one lif0) (comp0 100)
      = Some (true, w', q') ∧
    tail_idx q' = 1 ∧ head_idx q' = 1.
Proof.
  split.
  - apply (@ionic_rx_service_checks hdr_4k world_rx cq_done (rxq_one lif0)
             (comp_with_color 0 (comp0 100)) (rx_slot_posted 0 buf_page1) 3);
      by_eval.
  - destruct (@ionic_rx_service_checks hdr_4k world_rx cq_done (rxq_one lif0)
                (comp0 100) (rx_slot_posted 0 buf_page1) 3) as [_ Hpass];
      [by_eval .. |].
    destruct (Hpass eq_refl) as (w' & q1 & di1 & _ & _ & Hs & Ht & Hh).
    eexists _, _. split; [exact Hs |]. split; [exact Ht | exact Hh].
Defined.

Lemma ionic_rx_clean_drops_bad_frames_witness :
  let comp := comp_with_status 1 (comp0 100) in
  ∃ q',
    @ionic_rx_service hdr_4k world_rx cq_done (rxq_one lif0) comp
      = Some (true, rx_dropped_inc world_rx, q') ∧
    rx_dropped (rxs (rx_dropped_inc world_rx)) = 1 ∧
    gro_received (rx_dropped_inc world_rx) = [].
Proof.
  intros comp.
  destruct (@ionic_rx_clean_drops_bad_frames hdr_4k world_rx cq_done
              (rxq_one lif0) comp (rx_slot_posted 0 buf_page1) 3)
    as (_ & Hs & Hd & Hg & _).
  - by_eval.
  - reflexivity.
  - reflexivity.
  - reflexivity.
  - discriminate.
  - reflexivity.
  - left. discriminate.
  - eexists. split; [exact Hs |]. split; [exact Hd | exact Hg].
Defined.

(** C7 as stated fails for a frame longer than the MTU by no more than the
    Ethernet header: with an MTU of 1500 a 1510-byte frame is counted as a
    good packet and delivered. *)
Lemma frame_over_mtu_is_delivered :
  let comp := comp0 1510 in
  mtu (lif (rxq_one lif0)) < len comp ∧
  ∃ w' q',
    @ionic_rx_clean hdr_4k world_rx (rxq_one lif0) 0 comp = Some (w', q') ∧
    rx_dropped (rxs w') = rx_dropped (rxs world_rx) ∧
    length (gro_received w') = 1%nat.
Proof.
  split; [by_eval |]. eexists _, _.
  split; [vm_compute; reflexivity |]. split; reflexivity.
Qed.



(** ** Receive ring fill *)

Section Fill.
Context `{ionic_hdr}.
Implicit Types (q : ionic_queue ionic_rxq_desc).

Lemma alloc_pages_doorbells w :
  doorbells (alloc_pages w).2 = doorbells w.
Proof.
  unfold alloc_pages. destruct (alloc_pages_results w) as [| [p |] rest];
    destruct w; reflexivity.
Qed.

Lemma dma_map_doorbells w : doorbells (dma_map w).2 = doorbells w.
Proof.
  unfold dma_map. destruct (dma_map_results w) as [| a rest];
    [reflexivity |].
  destruct (dma_mapping_error a); destruct w; reflexivity.
Qed.

Lemma ionic_rx_page_alloc_inv w b err w1 b1 :
  ionic_rx_page_alloc w b = (err, w1, b1) →
  doorbells w1 = doorbells w ∧ (err ≠ 0 → page b1 = None).
Proof.
  unfold ionic_rx_page_alloc.
  pose proof (alloc_pages_doorbells w) as Ha.
  destruct (alloc_pages w) as [[p |] wa]; cbn in Ha.
  - pose proof (dma_map_doorbells wa) as Hm.
    destruct (dma_map wa) as [a wm]; cbn in Hm.
    destruct (dma_mapping_error a); intros [= <- <- <-].
    + split; [| reflexivity]. rewrite <- Ha, <- Hm.
      unfold __free_pages, page_ref_add.
      destruct (_ <=? 0); destruct wm as [? ? ? ? ? ? ? ? ? ? ? ? [] ? ?];
        reflexivity.
    + split; [congruence | intros []; reflexivity].
  - intros [= <- <- <-]. split; [| reflexivity].
    rewrite <- Ha. destruct wa as [? ? ? ? ? ? ? ? ? ? ? ? [] ? ?]; reflexivity.
Qed.

Lemma set_bufs_fields {D} v (di : ionic_desc_info D) :
  bufs (set_bufs v di) = v ∧ sg_desc (set_bufs v di) = sg_desc di ∧
  desc (set_bufs v di) = desc di.
Proof. destruct di; cbn; auto. Qed.

Lemma set_sg_desc_fields {D} v (di : ionic_desc_info D) :
  sg_desc (set_sg_desc v di) = v ∧ bufs (set_sg_desc v di) = bufs di ∧
  desc (set_sg_desc v di) = desc di.
Proof. destruct di; cbn; auto. Qed.

Lemma set_desc_fields {D} v (di : ionic_desc_info D) :
  desc (set_desc v di) = v ∧ bufs (set_desc v di) = bufs di ∧
  sg_desc (set_desc v di) = sg_desc di.
Proof. destruct di; cbn; auto. Qed.

(** The scatter-gather loop leaves the descriptor and the fragments up to
    [j] alone; when it stops on a failed allocation, the fragments it has
    passed hold pages, the one it stopped at holds none, and the element it
    was writing is zeroed. *)
Lemma ionic_rx_fill_sg_inv fuel : ∀ j remain nfrags w di ok nfrags' w' di',
  ionic_rx_fill_sg fuel j remain nfrags w di = Some (ok, nfrags', w', di') →
  doorbells w' = doorbells w ∧ desc di' = desc di ∧
  (∀ t, (t ≤ j)%nat → bufs di' !! t = bufs di !! t) ∧
  (ok = false →
     ∃ j' b, (j ≤ j')%nat ∧
       (∀ t, (j < t ≤ j')%nat →
          ∃ bt, bufs di' !! t = Some bt ∧ page bt ≠ None) ∧
       bufs di' !! S j' = Some b ∧ page b = None ∧
       sg_desc di' !! j' = Some {| sg_addr := 0; sg_len := 0 |}).
Proof.
  induction fuel as [| fuel IH]; intros j remain nfrags w di ok nfrags' w' di';
    cbn [ionic_rx_fill_sg].
  - intros [= <- <- <- <-]. repeat split; auto; discriminate.
  - destruct (remain <=? 0).
    { intros [= <- <- <- <-]. repeat split; auto; discriminate. }
    destruct (sg_desc di !! j) as [e |] eqn:He; [| discriminate].
    cbn [bind_opt].
    destruct (bufs di !! S j) as [b |] eqn:Hb; [| discriminate].
    cbn [bind_opt].
    pose proof (lookup_lt_Some _ _ _ He) as Hjlt.
    pose proof (lookup_lt_Some _ _ _ Hb) as Hblt.
    set (r := match page b with
              | Some _ => (0, w, b)
              | None => ionic_rx_page_alloc w b
              end).
    assert (Hr : doorbells r.1.2 = doorbells w ∧
                 (r.1.1 = 0 → page r.2 ≠ None) ∧
                 (r.1.1 ≠ 0 → page r.2 = None)).
    { subst r. destruct (page b) as [p |] eqn:Hp; cbn.
      - split; [reflexivity |]. split; [rewrite Hp; discriminate | lia].
      - destruct (ionic_rx_page_alloc w b) as [[err w1] b1] eqn:Halloc. cbn.
        destruct (ionic_rx_page_alloc_inv _ _ _ _ _ Halloc) as [Hd Hnone].
        split; [exact Hd |]. split; [| exact Hnone].
        intros ->. apply ionic_rx_page_alloc_ok in Halloc as (p & -> & _).
        discriminate. }
    destruct r as [[err w1] b1]. cbn in Hr. destruct Hr as (Hd & Hsome & Hnone).
    destruct (set_bufs_fields (<[S j := b1]> (bufs di)) di) as (Hb1 & Hs1 & Hd1).
    set (di1 := set_bufs (<[S j := b1]> (bufs di)) di) in *.
    destruct (Z.eqb_spec err 0) as [-> | Herr]; cbn [negb].
    + match goal with
      | |- context [set_sg_desc ?v di1] =>
          destruct (set_sg_desc_fields v di1) as (Hs2 & Hb2 & Hd2);
          set (di2 := set_sg_desc v di1) in *
      end.
      intros Hrec. apply IH in Hrec.
      destruct Hrec as (Hd' & Hdesc & Hframe & Hfail).
      split; [congruence |]. split; [congruence |].
      assert (Hat : bufs di' !! S j = Some b1).
      { rewrite Hframe by lia. rewrite Hb2, Hb1.
        apply list_lookup_insert_eq. exact Hblt. }
      split.
      { intros t Ht. rewrite Hframe by lia. rewrite Hb2, Hb1.
        apply list_lookup_insert_ne. lia. }
      intros Hok. destruct (Hfail Hok) as (j' & b' & Hj' & Hpages & Hbj & Hpj & Hsj).
      exists j', b'. split; [lia |]. split; [| auto].
      intros t Ht. destruct (decide (t = S j)) as [-> | Hne].
      * exists b1. split; [exact Hat | apply Hsome; reflexivity].
      * apply Hpages. lia.
    + match goal with
      | |- context [set_sg_desc ?v di1] =>
          destruct (set_sg_desc_fields v di1) as (Hs2 & Hb2 & Hd2);
          set (di2 := set_sg_desc v di1) in *
      end.
      intros [= <- <- <- <-]. split; [exact Hd |]. split; [congruence |].
      split.
      { intros t Ht. rewrite Hb2, Hb1. apply list_lookup_insert_ne. lia. }
      intros _. exists j, b1. split; [lia |].
      split; [intros t Ht; lia |].
      split; [rewrite Hb2, Hb1; apply list_lookup_insert_eq; exact Hblt |].
      split; [apply Hnone; exact Herr |].
      rewrite Hs2, Hs1. apply list_lookup_insert_eq. exact Hjlt.
Qed.

Lemma page_ref_add_doorbells p n w :
  doorbells (page_ref_add p n w) = doorbells w.
Proof. destruct w; reflexivity. Qed.

(** One slot: when the fill stops in it, [head] stays on it and the slot
    shows which fragment failed. *)
Lemma ionic_rx_fill_slot_inv len nsplits w q ok w' q' :
  ionic_rx_fill_slot len nsplits w q = Some (ok, w', q') →
  doorbells w' = doorbells w ∧
  (ok = false →
     head_idx q' = head_idx q ∧
     ∃ di, q_info q' (head_idx q') = Some di ∧ fill_stopped_at len di).
Proof.
  unfold ionic_rx_fill_slot.
  destruct (q_info q (head_idx q)) as [di |] eqn:Hdi; [| discriminate].
  cbn [bind_opt].
  destruct (bufs di !! 0%nat) as [b |] eqn:Hb; [| discriminate].
  cbn [bind_opt].
  pose proof (lookup_lt_Some _ _ _ Hb) as Hblt.
  set (r := match page b with
            | Some _ => (0, w, b)
            | None => _
            end).
  assert (Hr : doorbells r.1.2 = doorbells w ∧
               (r.1.1 = 0 → page r.2 ≠ None) ∧
               (r.1.1 ≠ 0 → page r.2 = None)).
  { subst r. destruct (page b) as [p |] eqn:Hp;
      [cbn; split; [reflexivity |]; split; [rewrite Hp; discriminate | lia] |].
    destruct (ionic_rx_page_alloc w b) as [[err w1] b1] eqn:Halloc.
    destruct (ionic_rx_page_alloc_inv _ _ _ _ _ Halloc) as [Hd Hnone].
    destruct (Z.eqb_spec err 0) as [-> | Herr]; cbn [negb];
      [| cbn; split; [exact Hd |]; split; [lia | exact Hnone]].
    apply ionic_rx_page_alloc_ok in Halloc as (p & Hp1 & _).
    destruct (0 <? IONIC_PAGE_ORDER);
      [| cbn; split; [exact Hd |]; split; [rewrite Hp1; discriminate | lia]].
    cbn [page]. rewrite Hp1.
    destruct (negb _); cbn; rewrite ?page_ref_add_doorbells;
      (split; [exact Hd |]; split; [discriminate | lia]). }
  destruct r as [[err w1] b1]. cbn in Hr. destruct Hr as (Hd & Hsome & Hnone).
  destruct (set_bufs_fields (<[0%nat := b1]> (bufs di)) di) as (Hb1 & Hs1 & Hd1).
  set (di1 := set_bufs (<[0%nat := b1]> (bufs di)) di) in *.
  destruct (Z.eqb_spec err 0) as [-> | Herr]; cbn [negb].
  - match goal with
    | |- context [set_desc ?v di1] =>
        destruct (set_desc_fields v di1) as (Hd2 & Hb2 & Hs2);
        set (di2 := set_desc v di1) in *
    end.
    match goal with
    | |- context [ionic_rx_fill_sg ?f ?j ?r ?n ?w ?d] =>
        destruct (ionic_rx_fill_sg f j r n w d) as [[[[ok1 nf] w2] di3] |] eqn:Hsg;
          [| discriminate]
    end.
    cbn [bind_opt].
    destruct (ionic_rx_fill_sg_inv _ _ _ _ _ _ _ _ _ _ Hsg)
      as (Hd3 & Hdesc3 & Hframe3 & Hfail).
    destruct ok1; cbn [negb].
    + unfold ionic_rxq_post.
      match goal with
      | |- context [ionic_q_post ?w ?q false ?f ?a] =>
          destruct (ionic_q_post w q false f a) as [[w3 q3] |] eqn:Hpost;
            [| discriminate]
      end.
      cbn [bind_opt]. apply ionic_q_post_quiet in Hpost as [-> _].
      intros [= <- <- <-]. split; [congruence | discriminate].
    + intros [= <- <- <-]. split; [congruence |]. intros _.
      destruct (q_set_info_fields (head_idx q) di3 q) as (Hh & _).
      split; [exact Hh |]. rewrite Hh. exists di3.
      split; [eapply q_info_set_eq; eauto |].
      destruct (Hfail eq_refl) as (j' & b' & _ & Hpages & Hbj & Hpj & Hsj).
      assert (Hb0 : bufs di3 !! 0%nat = Some b1).
      { rewrite Hframe3 by lia. rewrite Hb2, Hb1.
        apply list_lookup_insert_eq. exact Hblt. }
      exists b1. split; [exact Hb0 |].
      destruct (page b1) as [p1 |] eqn:Hp1; [| exfalso; apply Hsome; auto].
      rewrite Hdesc3, Hd2. cbn.
      split; [reflexivity |]. split; [reflexivity |].
      exists j', b'. split; [| auto].
      intros t Ht. destruct t as [| t].
      * exists b1. split; [exact Hb0 | rewrite Hp1; discriminate].
      * apply Hpages. lia.
  - intros [= <- <- <-]. split; [exact Hd |]. intros _.
    match goal with
    | |- context [q_set_info (head_idx q) ?d q] => set (di' := d)
    end.
    destruct (q_set_info_fields (head_idx q) di' q) as (Hh & _).
    split; [exact Hh |]. rewrite Hh. exists di'.
    split; [eapply q_info_set_eq; eauto |].
    subst di'.
    match goal with
    | |- context [set_desc ?v ?d] =>
        destruct (set_desc_fields v d) as (Hd2 & Hb2 & _)
    end.
    exists b1. rewrite Hb2, Hb1.
    split; [apply list_lookup_insert_eq; exact Hblt |].
    rewrite (Hnone Herr), Hd2. cbn. split; reflexivity.
Qed.

Lemma ionic_rx_fill_loop_inv i : ∀ len nsplits w q ok w' q',
  ionic_rx_fill_loop i len nsplits w q = Some (ok, w', q') →
  doorbells w' = doorbells w ∧
  (ok = false →
     ∃ di, q_info q' (head_idx q') = Some di ∧ fill_stopped_at len di).
Proof.
  induction i as [| i IH]; intros len nsplits w q ok w' q';
    cbn [ionic_rx_fill_loop].
  - intros [= <- <- <-]. split; [reflexivity | discriminate].
  - destruct (ionic_rx_fill_slot len nsplits w q) as [[[ok1 w1] q1] |] eqn:Hslot;
      [| discriminate].
    cbn [bind_opt].
    destruct (ionic_rx_fill_slot_inv _ _ _ _ _ _ _ Hslot) as [Hd Hfail].
    destruct ok1.
    + intros Hrec. apply IH in Hrec. destruct Hrec as [Hd' Hfail'].
      split; [congruence | exact Hfail'].
    + intros [= <- <- <-]. split; [exact Hd |]. intros _.
      destruct (Hfail eq_refl) as [_ Hdi]. exact Hdi.
Qed.

End Fill.

(** C10 as stated fails when the allocation that fails is the one for a
    scatter-gather fragment: with a 9000-byte MTU and the second page
    allocation failing, the pass stops without a doorbell, and the slot's
    descriptor keeps the address and length written for its first fragment;
    the zeroed entry is the first scatter-gather element. *)
Lemma sg_alloc_failure_keeps_descriptor :
  ∃ w1 q1 di b,
    @ionic_rx_fill hdr_4k world_fill (rxq8 lif_jumbo 0 0) = Some (w1, q1) ∧
    doorbells w1 = [] ∧
    q_info q1 (head_idx q1) = Some di ∧
    bufs di !! 1%nat = Some b ∧ page b = None ∧
    rxd_addr (desc di) = 65536 ∧ rxd_len (desc di) = 4096 ∧
    sg_desc di !! 0%nat = Some {| sg_addr := 0; sg_len := 0 |}.
Proof.
  eexists _, _, _, _. split; [vm_compute; reflexivity |].
  repeat split; reflexivity.
Qed.

(** ** Transmit: flow control *)

Section FlowControl.
Context `{ionic_hdr}.
Implicit Types (q : ionic_queue ionic_txq_desc).

Lemma ionic_tx_descs_needed_frame w q skb n w1 skb1 :
  ionic_tx_descs_needed w q skb = (n, w1, skb1) →
  dma_maps w1 = dma_maps w ∧ doorbells w1 = doorbells w ∧
  freed_skbs w1 = freed_skbs w ∧ subqueue_stopped w1 = subqueue_stopped w ∧
  tail_published w1 = tail_published w ∧ skb_id skb1 = skb_id skb.
Proof.
  unfold ionic_tx_descs_needed.
  destruct (skb_is_gso skb); [intros [= <- <- <-]; repeat split |].
  destruct (nr_frags skb <=? max_sg_elems q);
    [intros [= <- <- <-]; repeat split |].
  unfold skb_linearize.
  destruct (linearize_results w) as [| e rest]; cbn.
  - intros [= <- <- <-]. repeat split.
  - destruct (Z.eqb_spec e 0) as [-> | He]; cbn.
    + intros [= <- <- <-].
      destruct w as [? ? ? ? ? ? ? ? ? ? ? ? ? [] ?]; cbn. repeat split.
    + destruct (Z.eqb_spec e 0); [contradiction |]. cbn.
      intros [= <- <- <-]. destruct w; cbn. repeat split.
Qed.




End FlowControl.


(** ** Transmit: ring shape and walks *)

Section TxRing.

Lemma tx_ring_okb_sound q : tx_ring_okb q = true → tx_ring_ok q.
Proof.
  unfold tx_ring_okb, tx_ring_ok, ring_shape. intros Hb.
  repeat (apply andb_prop in Hb as [Hb ?]).
  apply Z.ltb_lt in Hb.
  repeat match goal with
         | H : (_ =? _) = true |- _ => apply Z.eqb_eq in H
         | H : (_ <=? _) = true |- _ => apply Z.leb_le in H
         end.
  split; [split |].
  - exists (Z.log2 (num_descs q)). split; [| assumption].
    split; [apply Z.log2_nonneg | assumption].
  - assumption.
  - intros i di Hq. unfold q_info in Hq.
    destruct (i <? 0); [discriminate |].
    match goal with
    | Hf : forallb _ _ = true |- _ => rewrite forallb_forall in Hf;
        specialize (Hf di)
    end.
    apply Nat.leb_le.
    match goal with Hf : _ → _ = true |- _ => apply Hf end.
    apply list_elem_of_In. eapply list_elem_of_lookup_2; eauto.
Qed.

Lemma indexed_from_lookup {D} (l : list (ionic_desc_info D)) : ∀ s n di,
  indexed_from s l = true → l !! n = Some di → index di = s + Z.of_nat n.
Proof.
  induction l as [| d l IH]; intros s n di Hi Hl; [discriminate |].
  cbn in Hi. apply andb_prop in Hi as [Hd Hi]. apply Z.eqb_eq in Hd.
  destruct n as [| n]; cbn in Hl.
  - injection Hl as <-. lia.
  - rewrite (IH _ _ _ Hi Hl). lia.
Qed.

Lemma ring_indexedb_sound {D} (q : ionic_queue D) :
  ring_indexedb q = true → ring_indexed q.
Proof.
  intros Hb i di Hq. destruct (q_info_Some _ _ _ Hq) as [Hi _].
  unfold q_info in Hq. destruct (i <? 0); [discriminate |].
  rewrite (indexed_from_lookup _ _ _ _ Hb Hq). lia.
Qed.

Lemma ring_walk_ext {D} (q q' : ionic_queue D) i n :
  num_descs q' = num_descs q → ring_walk q' i n = ring_walk q i n.
Proof.
  intros HN. revert i. induction n as [| n IH]; intros i; [reflexivity |].
  cbn. unfold ring_next at 1. rewrite HN. fold (ring_next q i).
  rewrite IH. reflexivity.
Qed.

Lemma ring_next_range {D} (q : ionic_queue D) k i :
  0 ≤ k → num_descs q = 2 ^ k → 0 ≤ ring_next q i < num_descs q.
Proof.
  intros Hk HN. rewrite (ring_next_mod q k) by assumption.
  apply Z.mod_pos_bound. rewrite HN. apply Z.pow_pos_nonneg; lia.
Qed.

Lemma ring_next_cases {D} (q : ionic_queue D) k i :
  0 ≤ k → num_descs q = 2 ^ k → 0 ≤ i < num_descs q →
  ring_next q i = if i + 1 <? num_descs q then i + 1 else 0.
Proof.
  intros Hk HN Hi. rewrite (ring_next_mod q k) by assumption.
  destruct (Z.ltb_spec (i + 1) (num_descs q)).
  - apply Z.mod_small. lia.
  - replace (i + 1) with (num_descs q) by lia. apply Z.mod_same. lia.
Qed.

Lemma sub_mod_cases a b n :
  0 ≤ a < n → 0 ≤ b < n →
  (a - b) mod n = if b <=? a then a - b else a - b + n.
Proof.
  intros Ha Hb. destruct (Z.leb_spec b a).
  - apply Z.mod_small. lia.
  - symmetry. apply (Z.mod_unique (a - b) n (-1)); lia.
Qed.

(** The walk of [n] steps from [s] visits [s], [s + 1], ... modulo the ring
    size. *)
Lemma ring_walk_elem {D} (q : ionic_queue D) k n : ∀ s i,
  0 ≤ k → num_descs q = 2 ^ k → 0 ≤ s < num_descs q →
  i ∈ ring_walk q s n →
  ∃ j, 0 ≤ j < Z.of_nat n ∧ i = (s + j) mod num_descs q.
Proof.
  induction n as [| n IH]; intros s i Hk HN Hs Hin; cbn in Hin.
  - apply elem_of_nil in Hin. contradiction.
  - apply elem_of_cons in Hin as [-> | Hin].
    + exists 0. split; [lia |]. rewrite Z.add_0_r. symmetry.
      apply Z.mod_small. lia.
    + apply IH in Hin; [| assumption | assumption |
                         eapply ring_next_range; eassumption].
      destruct Hin as (j & Hj & ->). exists (j + 1). split; [lia |].
      rewrite (ring_next_mod q k) by assumption.
      rewrite Z.add_mod_idemp_l by lia. f_equal. lia.
Qed.

Lemma ring_walk_last {D} (q : ionic_queue D) k n : ∀ s,
  0 ≤ k → num_descs q = 2 ^ k → 0 ≤ s < num_descs q →
  last (ring_walk q s (S n)) = Some ((s + Z.of_nat n) mod num_descs q).
Proof.
  induction n as [| n IH]; intros s Hk HN Hs.
  - cbn. rewrite Z.add_0_r, Z.mod_small by lia. reflexivity.
  - change (ring_walk q s (S (S n)))
      with (s :: ring_walk q (ring_next q s) (S n)).
    rewrite last_cons.
    rewrite IH by (try assumption; eapply ring_next_range; eassumption).
    rewrite (ring_next_mod q k) by assumption.
    rewrite Z.add_mod_idemp_l by lia. do 2 f_equal. lia.
Qed.

End TxRing.

(** ** Transmit: completion cleanup *)

Section TxClean.
Context `{ionic_hdr}.
Implicit Types (q : ionic_queue ionic_txq_desc).

Lemma set_dma_maps_idem v v' w :
  set_dma_maps v (set_dma_maps v' w) = set_dma_maps v w.
Proof. destruct w; reflexivity. Qed.

Lemma set_dma_maps_same w : set_dma_maps (dma_maps w) w = w.
Proof. destruct w; reflexivity. Qed.

Lemma dma_maps_set v w : dma_maps (set_dma_maps v w) = v.
Proof. destruct w; reflexivity. Qed.

Lemma freed_skbs_set_dma_maps v w :
  freed_skbs (set_dma_maps v w) = freed_skbs w.
Proof. destruct w; reflexivity. Qed.

Lemma freed_after_clean id qi (b : bool) w :
  freed_skbs (tx_clean_inc
                (dev_kfree_skb id (if b then netif_wake_subqueue qi w else w)))
  = freed_skbs w ++ [id].
Proof. destruct b; destruct w as [? ? ? ? ? ? ? ? ? ? ? ? ? [] ?]; reflexivity. Qed.

(** Unmapping the scatter-gather elements changes the live mappings and
    nothing else. *)
Lemma tx_clean_elems_spec n : ∀ i elems w,
  (i + n ≤ length elems)%nat →
  tx_clean_elems n i elems w
  = Some (set_dma_maps
            (foldl (λ m e, remove_first (u64 (sg_addr e)) m) (dma_maps w)
               (take n (drop i elems))) w).
Proof.
  induction n as [| n IH]; intros i elems w Hlen; cbn [tx_clean_elems].
  - rewrite take_0. cbn [foldl]. rewrite set_dma_maps_same. reflexivity.
  - destruct (lookup_lt_is_Some_2 elems i ltac:(lia)) as [e He].
    rewrite He. cbn [bind_opt]. rewrite IH by lia.
    rewrite (drop_S elems e i He). cbn [take foldl].
    unfold dma_unmap_page, dma_unmap.
    rewrite set_dma_maps_idem, dma_maps_set. reflexivity.
Qed.

(** Cleanup without a packet argument: the slot's recorded mappings go,
    the ring and the rest of the world stay. *)
Lemma ionic_tx_clean_no_arg w q i di cq_info :
  q_info q i = Some di →
  (Z.to_nat (cmd_nsge (cmd (desc di))) ≤ length (sg_desc di))%nat →
  ionic_tx_clean w q i cq_info None
  = Some (set_dma_maps (slot_unmap di (dma_maps w)) w, q).
Proof.
  intros Hdi Hn. unfold ionic_tx_clean. rewrite Hdi. cbn [bind_opt].
  match goal with
  | |- context [tx_clean_elems ?n ?i ?e ?w0] =>
      rewrite (tx_clean_elems_spec n i e w0) by (cbn; lia)
  end.
  cbn [bind_opt]. unfold slot_unmap, dma_unmap_single, dma_unmap_page, dma_unmap.
  destruct (_ || _); rewrite set_dma_maps_idem, dma_maps_set; reflexivity.
Qed.

(** Cleanup in general: the packet argument, if any, is freed once; the
    ring keeps its indices and sizes, the slot keeps its descriptor,
    scatter-gather list, sequence index and callback, and the other slots
    are not touched. *)
Lemma ionic_tx_clean_spec w q i di cq_info arg :
  q_info q i = Some di →
  (Z.to_nat (cmd_nsge (cmd (desc di))) ≤ length (sg_desc di))%nat →
  ∃ w' q' di',
    ionic_tx_clean w q i cq_info arg = Some (w', q') ∧
    freed_skbs w' = freed_skbs w ++ (match arg with
                                     | Some skb => [skb_id skb]
                                     | None => []
                                     end) ∧
    head_idx q' = head_idx q ∧ tail_idx q' = tail_idx q ∧
    num_descs q' = num_descs q ∧ length (info q') = length (info q) ∧
    (∀ j, 0 ≤ j → j ≠ i → q_info q' j = q_info q j) ∧
    q_info q' i = Some di' ∧
    index di' = index di ∧ desc di' = desc di ∧ sg_desc di' = sg_desc di ∧
    cb di' = cb di ∧ cb_arg di' = cb_arg di.
Proof.
  intros Hdi Hn. destruct arg as [skb |].
  2:{ rewrite (ionic_tx_clean_no_arg w q i di cq_info Hdi Hn).
      eexists _, q, di. split; [reflexivity |].
      rewrite app_nil_r. destruct w; cbn. repeat split; auto. }
  unfold ionic_tx_clean. rewrite Hdi. cbn [bind_opt].
  match goal with
  | |- context [tx_clean_elems ?n ?i ?e ?w0] =>
      rewrite (tx_clean_elems_spec n i e w0) by (cbn; lia)
  end.
  cbn [bind_opt].
  destruct (q_info_Some _ _ _ Hdi) as [Hi Hlt].
  match goal with
  | |- context [Some (?a, q_set_info i ?d ?q0)] =>
      exists a, (q_set_info i d q0), d
  end.
  split; [reflexivity |]. split.
  { rewrite freed_after_clean. f_equal. rewrite freed_skbs_set_dma_maps.
    unfold dma_unmap_single, dma_unmap_page, dma_unmap.
    destruct (_ || _); apply freed_skbs_set_dma_maps. }
  match goal with
  | |- context [q_set_info i ?d ?qq] => set (q0 := qq)
  end.
  assert (Hq0 : head_idx q0 = head_idx q ∧ tail_idx q0 = tail_idx q ∧
                num_descs q0 = num_descs q ∧ info q0 = info q)
    by (subst q0; destruct (_ && _); destruct q; cbn; auto).
  clearbody q0. destruct Hq0 as (Hh & Ht & HN & Hinfo).
  destruct (q_set_info_fields i (set_bytes (skb_len skb) di) q0)
    as (-> & -> & -> & _ & ->).
  rewrite Hinfo. repeat split; auto.
  - intros j Hj Hne. rewrite q_info_set_ne by lia.
    unfold q_info. rewrite Hinfo. reflexivity.
  - apply (q_info_set_eq q0 i _ di). unfold q_info in *. rewrite Hinfo. exact Hdi.
  - destruct di; reflexivity.
  - destruct di; reflexivity.
  - destruct di; reflexivity.
  - destruct di; reflexivity.
  - destruct di; reflexivity.
Qed.

End TxClean.

(** ** Transmit: completion service *)

Section TxService.
Context `{ionic_hdr}.
Implicit Types (q : ionic_queue ionic_txq_desc).

Lemma set_bytes_fields {D} v (di : ionic_desc_info D) :
  index (set_bytes v di) = index di ∧ desc (set_bytes v di) = desc di ∧
  sg_desc (set_bytes v di) = sg_desc di ∧ cb (set_bytes v di) = cb di ∧
  cb_arg (set_bytes v di) = cb_arg di.
Proof. destruct di; cbn; auto. Qed.

Lemma clear_cb_fields {D} (di : ionic_desc_info D) :
  let di' := set_cb_arg None (set_cb None di) in
  cb di' = None ∧ cb_arg di' = None ∧ index di' = index di ∧
  desc di' = desc di ∧ sg_desc di' = sg_desc di.
Proof. destruct di; cbn; auto. Qed.

(** One turn of the do-while loop: the slot at [tail] is popped and cleaned,
    its packet (if it holds one) is freed, its callback is cleared, and the
    loop ends exactly when the slot's sequence index is the completion's. *)
Lemma ionic_tx_service_iter w q comp fuel di :
  tx_ring_ok q → q_info q (tail_idx q) = Some di →
  ∃ w1 q1 di1,
    ionic_tx_service_loop (S fuel) w q comp
      = (if index di =? u16 (txc_comp_index comp) then Some (w1, q1)
         else ionic_tx_service_loop fuel w1 q1 comp) ∧
    freed_skbs w1 = freed_skbs w ++ (match cb_arg di with
                                     | Some s => [skb_id s]
                                     | None => []
                                     end) ∧
    tail_idx q1 = ring_next q (tail_idx q) ∧ head_idx q1 = head_idx q ∧
    num_descs q1 = num_descs q ∧ length (info q1) = length (info q) ∧
    (∀ j, 0 ≤ j → j ≠ tail_idx q → q_info q1 j = q_info q j) ∧
    q_info q1 (tail_idx q) = Some di1 ∧ cb di1 = None ∧ cb_arg di1 = None ∧
    index di1 = index di ∧ desc di1 = desc di ∧ sg_desc di1 = sg_desc di.
Proof.
  intros (_ & Hnsge) Hdi. cbn [ionic_tx_service_loop].
  rewrite Hdi. cbn [bind_opt].
  destruct (q_info_Some _ _ _ Hdi) as [Ht0 _].
  set (qa := q_set_info (tail_idx q) (set_bytes 0 di) q).
  destruct (q_set_info_fields (tail_idx q) (set_bytes 0 di) q)
    as (Hha & Hta & HNa & _ & Hla).
  fold qa in Hha, Hta, HNa, Hla.
  replace (ring_next qa (tail_idx qa)) with (ring_next q (tail_idx q))
    by (unfold ring_next; rewrite HNa, Hta; reflexivity).
  set (qb := set_tail_idx (ring_next q (tail_idx q)) qa).
  destruct (set_bytes_fields 0 di) as (Hi0 & Hd0 & Hs0 & Hc0 & Ha0).
  assert (Hdib : q_info qb (tail_idx q) = Some (set_bytes 0 di)).
  { unfold qb. rewrite q_info_set_tail_idx. eapply q_info_set_eq; eauto. }
  destruct (ionic_tx_clean_spec w qb (tail_idx q) (set_bytes 0 di) true
              (cb_arg di) Hdib)
    as (w1 & qc & dic & Hclean & Hfreed & Hhc & Htc & HNc & Hlc & Hoc & Hdic
        & Hic & Hdc & Hsc & _).
  { rewrite Hd0, Hs0. eapply Hnsge; eauto. }
  rewrite Hclean. cbn [bind_opt]. rewrite Hdic. cbn [bind_opt].
  destruct (clear_cb_fields dic) as (Hcb & Harg & Hi1 & Hd1 & Hs1).
  set (di1 := set_cb_arg None (set_cb None dic)) in *.
  exists w1, (q_set_info (tail_idx q) di1 qc), di1.
  replace (index dic) with (index di) by congruence.
  split; [reflexivity |]. split; [exact Hfreed |].
  destruct (q_set_info_fields (tail_idx q) di1 qc) as (-> & -> & -> & _ & ->).
  destruct (set_tail_idx_fields (ring_next q (tail_idx q)) qa)
    as (Hhb & Htb & HNb & _ & Hib).
  fold qb in Hhb, Htb, HNb, Hib.
  split; [congruence |]. split; [congruence |]. split; [congruence |].
  split; [rewrite Hlc, Hib; exact Hla |].
  split.
  { intros j Hj Hne. rewrite q_info_set_ne by lia. rewrite Hoc by lia.
    unfold qb. rewrite q_info_set_tail_idx. unfold qa.
    apply q_info_set_ne; lia. }
  split; [eapply q_info_set_eq; eauto |].
  repeat split; congruence.
Qed.

Lemma tx_ring_ok_step q q1 i di di1 :
  tx_ring_ok q → q_info q i = Some di →
  num_descs q1 = num_descs q → length (info q1) = length (info q) →
  (∀ j, 0 ≤ j → j ≠ i → q_info q1 j = q_info q j) →
  q_info q1 i = Some di1 → desc di1 = desc di → sg_desc di1 = sg_desc di →
  tx_ring_ok q1.
Proof.
  intros ((Hk & Hlen) & Hnsge) Hdi HN Hl Hother Hdi1 Hd Hs.
  split; [split; [rewrite HN; exact Hk | congruence] |].
  intros j dj Hj. destruct (q_info_Some _ _ _ Hj) as [Hj0 _].
  destruct (Z.eq_dec j i) as [-> | Hne].
  - assert (dj = di1) as -> by congruence. rewrite Hd, Hs. eapply Hnsge; eauto.
  - rewrite Hother in Hj by assumption. eapply Hnsge; eauto.
Qed.

Lemma ring_indexed_step {D} (q q1 : ionic_queue D) i di di1 :
  ring_indexed q → q_info q i = Some di →
  (∀ j, 0 ≤ j → j ≠ i → q_info q1 j = q_info q j) →
  q_info q1 i = Some di1 → index di1 = index di →
  ring_indexed q1.
Proof.
  intros Hidx Hdi Hother Hdi1 Hi j dj Hj.
  destruct (q_info_Some _ _ _ Hj) as [Hj0 _].
  destruct (Z.eq_dec j i) as [-> | Hne].
  - assert (dj = di1) as -> by congruence. rewrite Hi. apply Hidx. exact Hdi.
  - rewrite Hother in Hj by assumption. apply Hidx. exact Hj.
Qed.

Lemma omap_cons_eq {A B} (f : A → option B) x (l : list A) :
  omap f (x :: l) = match f x with
                    | Some y => y :: omap f l
                    | None => omap f l
                    end.
Proof. reflexivity. Qed.

Lemma omap_ext_in {A B} (f g : A → option B) (l : list A) :
  (∀ x, x ∈ l → f x = g x) → omap f l = omap g l.
Proof.
  induction l as [| x l IH]; intros Hfg; [reflexivity |].
  rewrite !omap_cons_eq, (Hfg x) by (apply elem_of_cons; auto).
  rewrite IH by (intros y Hy; apply Hfg, elem_of_cons; auto). reflexivity.
Qed.

(** The loop closes the slots from [tail] up to the one whose sequence index
    the completion names, frees the packets those slots hold, each once and
    in ring order, and leaves [tail] just past the named slot. *)
Lemma ionic_tx_service_loop_closes comp m : ∀ w q fuel,
  tx_ring_ok q → ring_indexed q →
  0 ≤ tail_idx q < num_descs q →
  0 ≤ u16 (txc_comp_index comp) < num_descs q →
  (u16 (txc_comp_index comp) - tail_idx q) mod num_descs q = Z.of_nat m →
  (m < fuel)%nat →
  ∃ w' q',
    ionic_tx_service_loop fuel w q comp = Some (w', q') ∧
    tail_idx q' = (u16 (txc_comp_index comp) + 1) mod num_descs q ∧
    head_idx q' = head_idx q ∧
    freed_skbs w'
      = freed_skbs w ++ omap (slot_skb q) (ring_walk q (tail_idx q) (S m)) ∧
    (∀ i, i ∈ ring_walk q (tail_idx q) (S m) →
       ∃ di, q_info q' i = Some di ∧ cb di = None ∧ cb_arg di = None) ∧
    (∀ j, 0 ≤ j → j ∉ ring_walk q (tail_idx q) (S m) →
       q_info q' j = q_info q j).
Proof.
  set (c := u16 (txc_comp_index comp)).
  induction m as [| m IH]; intros w q fuel Hok Hidx Ht Hc Hm Hfuel;
    (destruct fuel as [| fuel]; [lia |]);
    pose proof Hok as (((k & Hk & HN) & Hlen) & _);
    destruct (q_info_in_range q (tail_idx q) ltac:(lia)) as [di Hdi];
    destruct (ionic_tx_service_iter w q comp fuel di Hok Hdi)
      as (w1 & q1 & di1 & Hloop & Hfreed & Ht1 & Hh1 & HN1 & Hl1 & Hother
          & Hdi1 & Hcb1 & Harg1 & Hi1 & Hd1 & Hs1);
    fold c in Hloop; rewrite (Hidx _ _ Hdi) in Hloop;
    rewrite (sub_mod_cases c (tail_idx q) (num_descs q)) in Hm by lia.
  - assert (Heq : tail_idx q = c) by (destruct (Z.leb_spec (tail_idx q) c); lia).
    rewrite Heq, Z.eqb_refl in Hloop.
    exists w1, q1. split; [exact Hloop |].
    split; [rewrite Ht1, Heq; apply (ring_next_mod q k); lia |].
    split; [exact Hh1 |]. cbn [ring_walk]. split; [| split].
    + rewrite Hfreed, omap_cons_eq. unfold slot_skb at 1. rewrite Hdi.
      destruct (cb_arg di); reflexivity.
    + intros i Hi. apply list_elem_of_singleton in Hi as ->. eauto.
    + intros j Hj Hnot. apply Hother; [exact Hj |].
      intros ->. apply Hnot. apply list_elem_of_singleton. reflexivity.
  - assert (Hne : tail_idx q ≠ c) by (destruct (Z.leb_spec (tail_idx q) c); lia).
    destruct (Z.eqb_spec (tail_idx q) c) as [? | _]; [contradiction |].
    assert (Hok1 : tx_ring_ok q1) by (eapply tx_ring_ok_step; eauto).
    assert (Hidx1 : ring_indexed q1) by (eapply ring_indexed_step; eauto).
    pose proof (ring_next_cases q k (tail_idx q) ltac:(lia) HN Ht) as Hnext.
    destruct (IH w1 q1 fuel Hok1 Hidx1)
      as (w' & q' & Hrec & Ht' & Hh' & Hf' & Hcl' & Hout').
    { rewrite Ht1, HN1. eapply ring_next_range; [| eassumption]. lia. }
    { rewrite HN1. exact Hc. }
    { rewrite Ht1, HN1, Hnext.
      destruct (Z.ltb_spec (tail_idx q + 1) (num_descs q));
        rewrite sub_mod_cases by lia;
        destruct (Z.leb_spec (tail_idx q) c);
        match goal with |- context [?a <=? ?b] => destruct (Z.leb_spec a b) end;
        lia. }
    { lia. }
    rewrite Hrec in Hloop. exists w', q'. split; [exact Hloop |].
    rewrite HN1 in Ht'. split; [exact Ht' |]. split; [congruence |].
    rewrite Ht1 in Hf', Hcl', Hout'.
    rewrite (ring_walk_ext q q1) in Hf', Hcl', Hout' by exact HN1.
    assert (Hfar : ∀ i, i ∈ ring_walk q (ring_next q (tail_idx q)) (S m) →
                        0 ≤ i ∧ i ≠ tail_idx q).
    { intros i Hi.
      apply (ring_walk_elem q k) in Hi;
        [| lia | exact HN | eapply ring_next_range; [| eassumption]; lia].
      destruct Hi as (j & Hj & ->).
      rewrite (ring_next_mod q k) by (lia || assumption).
      rewrite Z.add_mod_idemp_l by lia.
      pose proof (Z.mod_pos_bound (tail_idx q + 1 + j) (num_descs q) ltac:(lia)).
      split; [lia |]. intros Heq.
      pose proof (Z.div_mod (tail_idx q + 1 + j) (num_descs q) ltac:(lia)) as Hdm.
      rewrite Heq in Hdm.
      assert (Hj' : 0 < 1 + j < num_descs q)
        by (destruct (Z.leb_spec (tail_idx q) c); lia).
      set (d := (tail_idx q + 1 + j) / num_descs q) in *.
      assert (Hd : 1 + j = num_descs q * d) by lia.
      destruct (Z.le_gt_cases d 0); nia. }
    change (ring_walk q (tail_idx q) (S (S m)))
      with (tail_idx q :: ring_walk q (ring_next q (tail_idx q)) (S m)).
    split; [| split].
    + rewrite Hf', Hfreed, <- app_assoc. f_equal.
      rewrite omap_cons_eq.
      assert (Hsame : omap (slot_skb q1)
                        (ring_walk q (ring_next q (tail_idx q)) (S m))
                      = omap (slot_skb q)
                          (ring_walk q (ring_next q (tail_idx q)) (S m))).
      { apply omap_ext_in. intros i Hi.
        destruct (Hfar i Hi) as [Hi0 Hine]. unfold slot_skb.
        rewrite Hother by assumption. reflexivity. }
      rewrite Hsame.
      assert (Hs : slot_skb q (tail_idx q) = skb_id <$> cb_arg di)
        by (unfold slot_skb; rewrite Hdi; reflexivity).
      rewrite Hs. destruct (cb_arg di); reflexivity.
    + intros i Hi. apply elem_of_cons in Hi as [-> | Hi]; [| auto].
      exists di1. rewrite Hout'; [auto | lia |].
      intros Hin. destruct (Hfar _ Hin) as [_ Habs]. contradiction.
    + intros j Hj Hnot. rewrite not_elem_of_cons in Hnot.
      destruct Hnot as [Hjt Hjw]. rewrite Hout' by assumption.
      apply Hother; assumption.
Qed.

End TxService.

Section TxGroup.
Context `{ionic_hdr}.
Implicit Types (q : ionic_queue ionic_txq_desc).

Lemma ring_walk_S_r {D} (qq : ionic_queue D) k n : ∀ s,
  0 ≤ k → num_descs qq = 2 ^ k → 0 ≤ s < num_descs qq →
  ring_walk qq s (S n)
  = ring_walk qq s n ++ [(s + Z.of_nat n) mod num_descs qq].
Proof.
  induction n as [| n IH]; intros s Hk HN Hs.
  - cbn. rewrite Z.add_0_r, Z.mod_small by lia. reflexivity.
  - change (ring_walk qq s (S (S n)))
      with (s :: ring_walk qq (ring_next qq s) (S n)).
    rewrite IH by (try assumption; eapply ring_next_range; eassumption).
    cbn [ring_walk app]. do 3 f_equal.
    rewrite (ring_next_mod qq k) by assumption.
    rewrite Z.add_mod_idemp_l by lia. f_equal. lia.
Qed.

(** Within one turn of the ring a walk does not come back to the position
    that follows it. *)
Lemma ring_walk_fresh {D} (qq : ionic_queue D) k n s i :
  0 ≤ k → num_descs qq = 2 ^ k → 0 ≤ s < num_descs qq →
  Z.of_nat n < num_descs qq →
  i ∈ ring_walk qq s n → i ≠ (s + Z.of_nat n) mod num_descs qq.
Proof.
  intros Hk HN Hs Hn Hi.
  destruct (ring_walk_elem qq k n s i Hk HN Hs Hi) as (j & Hj & ->).
  intros Heq.
  pose proof (Z.div_mod (s + j) (num_descs qq) ltac:(lia)) as H1.
  pose proof (Z.div_mod (s + Z.of_nat n) (num_descs qq) ltac:(lia)) as H2.
  rewrite Heq in H1.
  set (a := (s + j) / num_descs qq) in *.
  set (b := (s + Z.of_nat n) / num_descs qq) in *.
  assert (Hd : Z.of_nat n - j = num_descs qq * (b - a)) by lia.
  destruct (Z.le_gt_cases (b - a) 0); nia.
Qed.

(** [ionic_tx_tso_post] hands the packet to the slot it posts exactly when
    the descriptor is the last one of the packet. *)
Lemma ionic_tx_tso_post_arg w q skb addr nsge len hdrlen mss oc vt hv start
    done w' q' :
  ionic_tx_tso_post w q skb addr nsge len hdrlen mss oc vt hv start done
    = Some (w', q') →
  slot_skb q' (head_idx q) = if done then Some (skb_id skb) else None.
Proof.
  unfold ionic_tx_tso_post, ionic_txq_post.
  destruct (q_info q (head_idx q)) as [di |] eqn:Hdi; [| discriminate].
  cbn [bind_opt].
  match goal with
  | |- context [q_set_info (head_idx q) ?d q] => set (qa := q_set_info (head_idx q) d q);
      assert (Hqa : q_info qa (head_idx q) = Some d)
        by (eapply q_info_set_eq; eauto)
  end.
  assert (Hh : head_idx qa = head_idx q) by (destruct q; reflexivity).
  assert (Hpost : ∀ rb arg,
            ionic_q_post w qa rb cb_ionic_tx_clean arg = Some (w', q') →
            slot_skb q' (head_idx q) = skb_id <$> arg).
  { intros rb arg. unfold ionic_q_post. rewrite Hh, Hqa. cbn [bind_opt].
    intros [= _ <-]. unfold slot_skb.
    rewrite q_info_set_head_idx.
    erewrite q_info_set_eq by eauto. destruct di; reflexivity. }
  destruct done; intros Hp; apply Hpost in Hp; exact Hp.
Qed.

End TxGroup.

(** ** Transmit: rollback of a segmented send *)

Section TsoRollback.
Context `{ionic_hdr}.
Implicit Types (q : ionic_queue ionic_txq_desc).

Lemma ring_shape_set_info {D} (qq : ionic_queue D) i di :
  ring_shape qq → ring_shape (q_set_info i di qq).
Proof.
  intros (Hk & Hlen).
  destruct (q_set_info_fields i di qq) as (_ & _ & HN & _ & Hl).
  split; [rewrite HN; exact Hk | congruence].
Qed.

Lemma ring_shape_set_head_idx {D} v (qq : ionic_queue D) :
  ring_shape qq → ring_shape (set_head_idx v qq).
Proof. intros (Hk & Hlen). destruct qq; cbn in *. split; assumption. Qed.

Lemma tso_inv_set_info w0 q0 w q i di :
  tso_inv w0 q0 w q → tso_inv w0 q0 w (q_set_info i di q).
Proof.
  intros (Hs & HN & Hh & Ht & Hf).
  destruct (q_set_info_fields i di q) as (Hh1 & Ht1 & HN1 & _).
  split; [apply ring_shape_set_info; exact Hs |].
  rewrite Hh1, Ht1, HN1. auto.
Qed.

Lemma ionic_tx_map_frame w :
  (freed_skbs (ionic_tx_map_single w).2 = freed_skbs w ∧
   doorbells (ionic_tx_map_single w).2 = doorbells w) ∧
  (freed_skbs (ionic_tx_map_frag w).2 = freed_skbs w ∧
   doorbells (ionic_tx_map_frag w).2 = doorbells w).
Proof.
  unfold ionic_tx_map_single, ionic_tx_map_frag, dma_map.
  destruct (dma_map_results w) as [| a rest].
  - change (dma_mapping_error DMA_MAPPING_ERROR) with true.
    destruct w as [? ? ? ? ? ? ? ? ? ? ? ? ? [] ?]; cbn; auto.
  - destruct (dma_mapping_error a) eqn:Ha; rewrite ?Ha;
      destruct w as [? ? ? ? ? ? ? ? ? ? ? ? ? [] ?]; cbn; auto.
Qed.

Lemma tso_inv_map_single w0 q0 w q :
  tso_inv w0 q0 w q → tso_inv w0 q0 (ionic_tx_map_single w).2 q.
Proof.
  intros (Hs & HN & Hh & Ht & Hf). destruct (ionic_tx_map_frame w) as [[Hm _] _].
  unfold tso_inv. rewrite Hm. auto.
Qed.

Lemma tso_inv_map_frag w0 q0 w q :
  tso_inv w0 q0 w q → tso_inv w0 q0 (ionic_tx_map_frag w).2 q.
Proof.
  intros (Hs & HN & Hh & Ht & Hf). destruct (ionic_tx_map_frame w) as [_ [Hm _]].
  unfold tso_inv. rewrite Hm. auto.
Qed.

Lemma ionic_dbell_ring_freed v w :
  freed_skbs (ionic_dbell_ring v w) = freed_skbs w.
Proof. destruct w; reflexivity. Qed.

(** Posting keeps the ring in shape: the slot at [head] gets the callback,
    [head] moves to the next position, nothing is freed. *)
Lemma ionic_q_post_inv w0 q0 w q rb f arg w' q' :
  tso_inv w0 q0 w q →
  ionic_q_post w q rb f arg = Some (w', q') →
  tso_inv w0 q0 w' q'.
Proof.
  intros Hinv. unfold ionic_q_post.
  destruct (q_info q (head_idx q)) as [di |] eqn:Hdi; [| discriminate].
  cbn [bind_opt].
  set (di' := set_cb_arg arg (set_cb (Some f) di)).
  apply (tso_inv_set_info w0 q0 w q (head_idx q) di') in Hinv.
  set (qa := q_set_info (head_idx q) di' q) in *.
  intros [= <- <-].
  destruct Hinv as (Hs & HN & Hh & Ht & Hf).
  pose proof Hs as ((k & Hk & HNk) & _).
  assert (Hfields : num_descs (set_head_idx (ring_next qa (head_idx qa)) qa)
                      = num_descs qa ∧
                    head_idx (set_head_idx (ring_next qa (head_idx qa)) qa)
                      = ring_next qa (head_idx qa) ∧
                    tail_idx (set_head_idx (ring_next qa (head_idx qa)) qa)
                      = tail_idx qa)
    by (destruct qa; cbn; auto).
  destruct Hfields as (HN2 & Hh2 & Ht2).
  split; [apply ring_shape_set_head_idx; exact Hs |].
  split; [congruence |]. split.
  { rewrite Hh2, HN2. eapply ring_next_range; [| eassumption]. lia. }
  split; [congruence |].
  destruct rb; [rewrite ionic_dbell_ring_freed |]; exact Hf.
Qed.

Lemma ionic_tx_tso_post_inv w0 q0 w q skb addr nsge len hdrlen mss oc vt hv
    start done w' q' :
  tso_inv w0 q0 w q →
  ionic_tx_tso_post w q skb addr nsge len hdrlen mss oc vt hv start done
    = Some (w', q') →
  tso_inv w0 q0 w' q'.
Proof.
  intros Hinv. unfold ionic_tx_tso_post, ionic_txq_post.
  destruct (q_info q (head_idx q)) as [di |] eqn:Hdi; [| discriminate].
  cbn [bind_opt].
  match goal with
  | |- context [q_set_info (head_idx q) ?d q] =>
      apply (tso_inv_set_info w0 q0 w q (head_idx q) d) in Hinv
  end.
  destruct done; intros Hp; eapply ionic_q_post_inv in Hp; eauto.
Qed.

Lemma tso_post_or_continue_inv w0 q0 skb hdrlen len seglen' v w q r :
  tso_inv w0 q0 w q →
  tso_post_or_continue skb hdrlen len seglen' v w q = Some r →
  tso_outcome_ok w0 q0 r.
Proof.
  intros Hinv. unfold tso_post_or_continue.
  destruct (_ && _); [intros [= <-]; exact Hinv |].
  match goal with
  | |- context [ionic_tx_tso_post ?a ?b ?c ?d ?e ?f ?g ?h ?i ?j ?k ?l ?m] =>
      destruct (ionic_tx_tso_post a b c d e f g h i j k l m)
        as [[w1 q1] |] eqn:Hpost; [| discriminate]
  end.
  cbn [bind_opt]. intros [= <-].
  eapply ionic_tx_tso_post_inv in Hpost; eauto.
Qed.

Lemma tso_chop_data_inv w0 q0 skb hdrlen fuel : ∀ v w q r,
  tso_inv w0 q0 w q →
  tso_chop_data fuel skb hdrlen v w q = Some r →
  tso_outcome_ok w0 q0 r.
Proof.
  induction fuel as [| fuel IH]; intros v w q r Hinv; cbn [tso_chop_data];
    (destruct (t_left v <=? 0); [intros [= <-]; exact Hinv |]);
    [discriminate |].
  pose proof (tso_inv_map_single w0 q0 w q Hinv) as Hinv1.
  destruct (ionic_tx_map_single w) as [a w1]. cbn [snd] in Hinv1.
  destruct (dma_mapping_error a); [intros [= <-]; exact Hinv1 |].
  match goal with
  | |- context [tso_post_or_continue ?a ?b ?c ?d ?e ?f ?g] =>
      destruct (tso_post_or_continue a b c d e f g) as [r1 |] eqn:Hpc;
        [| discriminate]
  end.
  cbn [bind_opt]. apply tso_post_or_continue_inv with (w0 := w0) (q0 := q0) in Hpc;
    [| exact Hinv1].
  destruct r1 as [v2 w2 q2 | w2 q2]; cbn in Hpc.
  - apply IH. exact Hpc.
  - intros [= <-]. exact Hpc.
Qed.

Lemma tso_chop_frag_inv w0 q0 skb hdrlen fuel : ∀ v w q r,
  tso_inv w0 q0 w q →
  tso_chop_frag fuel skb hdrlen v w q = Some r →
  tso_outcome_ok w0 q0 r.
Proof.
  induction fuel as [| fuel IH]; intros v w q r Hinv; cbn [tso_chop_frag];
    (destruct (t_left v <=? 0); [intros [= <-]; exact Hinv |]);
    [discriminate |].
  destruct (0 <? t_frag_left v).
  - pose proof (tso_inv_map_frag w0 q0 w q Hinv) as Hinv1.
    destruct (ionic_tx_map_frag w) as [a w1]. cbn [snd] in Hinv1.
    destruct (q_info q (head_idx q)) as [di |]; [| discriminate].
    cbn [bind_opt].
    destruct (sg_desc di !! t_elem v) as [e |]; [| discriminate].
    cbn [bind_opt].
    destruct (dma_mapping_error a).
    + intros [= <-]. apply tso_inv_set_info. exact Hinv1.
    + match goal with
      | |- context [tso_post_or_continue ?a ?b ?c ?d ?e ?f ?g] =>
          destruct (tso_post_or_continue a b c d e f g) as [r1 |] eqn:Hpc;
            [| discriminate]
      end.
      cbn [bind_opt].
      apply tso_post_or_continue_inv with (w0 := w0) (q0 := q0) in Hpc;
        [| do 2 apply tso_inv_set_info; exact Hinv1].
      destruct r1 as [v2 w2 q2 | w2 q2]; cbn in Hpc.
      * apply IH. exact Hpc.
      * intros [= <-]. exact Hpc.
  - pose proof (tso_inv_map_frag w0 q0 w q Hinv) as Hinv1.
    destruct (ionic_tx_map_frag w) as [a w1]. cbn [snd] in Hinv1.
    destruct (dma_mapping_error a); [intros [= <-]; exact Hinv1 |].
    match goal with
    | |- context [tso_post_or_continue ?a ?b ?c ?d ?e ?f ?g] =>
        destruct (tso_post_or_continue a b c d e f g) as [r1 |] eqn:Hpc;
          [| discriminate]
    end.
    cbn [bind_opt].
    apply tso_post_or_continue_inv with (w0 := w0) (q0 := q0) in Hpc;
      [| exact Hinv1].
    destruct r1 as [v2 w2 q2 | w2 q2]; cbn in Hpc.
    + apply IH. exact Hpc.
    + intros [= <-]. exact Hpc.
Qed.

Lemma tso_chop_frags_inv w0 q0 skb hdrlen frags : ∀ len_left v w q r,
  tso_inv w0 q0 w q →
  tso_chop_frags frags len_left skb hdrlen v w q = Some r →
  tso_outcome_ok w0 q0 r.
Proof.
  induction frags as [| frag frags IH]; intros len_left v w q r Hinv;
    cbn [tso_chop_frags];
    (destruct (len_left =? 0); [intros [= <-]; exact Hinv |]);
    [discriminate |].
  match goal with
  | |- context [tso_chop_frag ?a ?b ?c ?d ?e ?f] =>
      destruct (tso_chop_frag a b c d e f) as [r1 |] eqn:Hcf; [| discriminate]
  end.
  cbn [bind_opt].
  apply tso_chop_frag_inv with (w0 := w0) (q0 := q0) in Hcf; [| exact Hinv].
  destruct r1 as [v2 w2 q2 | w2 q2]; cbn in Hcf.
  - apply IH. exact Hcf.
  - intros [= <-]. exact Hcf.
Qed.

(** Whatever the two chopping loops end in, the ring is in shape with its
    size and tail unchanged, [head] is inside the ring, and no packet has
    been freed. *)
Lemma tso_chop_inv w q skb hdrlen r :
  ring_shape q → 0 ≤ head_idx q < num_descs q →
  tso_chop w q skb hdrlen = Some r →
  tso_outcome_ok w q r.
Proof.
  intros Hs Hh. unfold tso_chop.
  assert (Hinv : tso_inv w q w q) by (unfold tso_inv; auto).
  match goal with
  | |- context [tso_chop_data ?a ?b ?c ?d ?e ?f] =>
      destruct (tso_chop_data a b c d e f) as [r1 |] eqn:Hcd; [| discriminate]
  end.
  cbn [bind_opt].
  apply tso_chop_data_inv with (w0 := w) (q0 := q) in Hcd; [| exact Hinv].
  destruct r1 as [v2 w2 q2 | w2 q2]; cbn in Hcd.
  - apply tso_chop_frags_inv. exact Hcd.
  - intros [= <-]. exact Hcd.
Qed.

(** The loop at [err_out_abort] cleans the slots from the saved head up to
    the current one, in ring order: each loses the mappings its descriptor
    records, and nothing else changes. *)
Lemma tso_rewind_spec n : ∀ r w q fuel,
  tx_ring_ok q →
  0 ≤ r < num_descs q → 0 ≤ head_idx q < num_descs q →
  (head_idx q - r) mod num_descs q = Z.of_nat n →
  (n ≤ fuel)%nat →
  tso_rewind fuel r w q
  = Some (set_dma_maps
            (foldl (slot_unmap_at q) (dma_maps w) (ring_walk q r n)) w, q).
Proof.
  induction n as [| n IH]; intros r w q fuel Hok Hr Hh Hn Hfuel;
    pose proof Hok as (((k & Hk & HN) & Hlen) & Hnsge);
    rewrite sub_mod_cases in Hn by lia.
  - assert (r = head_idx q) as -> by (destruct (Z.leb_spec r (head_idx q)); lia).
    destruct fuel; cbn [tso_rewind ring_walk foldl]; rewrite Z.eqb_refl;
      rewrite set_dma_maps_same; reflexivity.
  - assert (Hne : r ≠ head_idx q) by (destruct (Z.leb_spec r (head_idx q)); lia).
    destruct fuel as [| fuel]; [lia |]. cbn [tso_rewind].
    destruct (Z.eqb_spec r (head_idx q)) as [? | _]; [contradiction |].
    destruct (q_info_in_range q r ltac:(lia)) as [di Hdi].
    rewrite (ionic_tx_clean_no_arg w q r di false Hdi (Hnsge _ _ Hdi)).
    cbn [bind_opt].
    pose proof (ring_next_range q k r ltac:(lia) HN) as Hnr.
    assert (Hpow : 2 ^ k ≤ 2 ^ 16) by (apply Z.pow_le_mono_r; lia).
    rewrite (u16_small (ring_next q r)) by lia.
    rewrite IH; [| assumption | lia | lia | | lia].
    + assert (Hat : ∀ m, slot_unmap_at q m r = slot_unmap di m)
        by (intros m; unfold slot_unmap_at; rewrite Hdi; reflexivity).
      cbn [ring_walk foldl].
      rewrite Hat, set_dma_maps_idem, dma_maps_set. reflexivity.
    + rewrite (ring_next_cases q k r ltac:(lia) HN Hr).
      destruct (Z.ltb_spec (r + 1) (num_descs q));
        rewrite sub_mod_cases by lia;
        destruct (Z.leb_spec r (head_idx q));
        match goal with |- context [?a <=? ?b] => destruct (Z.leb_spec a b) end;
        lia.
Qed.

(** A segmented send that hits a mapping failure: every slot between the
    head saved on entry and the head at the point of failure is cleaned
    without a packet argument, and the saved head is put back. *)
Lemma ionic_tx_tso_abort w q skb wf qf :
  ring_shape q → 0 ≤ head_idx q < num_descs q →
  cow_head_err skb = 0 →
  tso_chop w q skb (tso_hdrlen skb) = Some (TsoAbort wf qf) →
  tx_ring_ok qf →
  let walked :=
    ring_walk q (head_idx q)
      (Z.to_nat ((head_idx qf - head_idx q) mod num_descs q)) in
  let w' := set_dma_maps (foldl (slot_unmap_at qf) (dma_maps wf) walked) wf in
  ionic_tx_tso w q skb = Some (- ENOMEM, w', set_head_idx (head_idx q) qf) ∧
  head_idx (set_head_idx (head_idx q) qf) = head_idx q ∧
  tail_idx (set_head_idx (head_idx q) qf) = tail_idx q ∧
  freed_skbs w' = freed_skbs w.
Proof.
  intros Hs Hh Hcow Hchop Hokf walked w'.
  pose proof (tso_chop_inv _ _ _ _ _ Hs Hh Hchop) as (_ & HN & Hhf & Htf & Hff).
  pose proof Hs as ((k & Hk & HNk) & _).
  assert (Hpow : 2 ^ k ≤ 2 ^ 16) by (apply Z.pow_le_mono_r; lia).
  pose proof (Z.mod_pos_bound (head_idx qf - head_idx q) (num_descs q)
                ltac:(lia)) as Hmb.
  split.
  - unfold ionic_tx_tso, ionic_tx_tcp_inner_pseudo_csum, ionic_tx_tcp_pseudo_csum.
    rewrite Hcow. destruct (encapsulation skb); cbn [Z.eqb negb];
      rewrite Hchop; cbn [bind_opt]; unfold tso_err_out_abort;
      rewrite (u16_small (head_idx q)) by lia;
      rewrite (tso_rewind_spec
                 (Z.to_nat ((head_idx qf - head_idx q) mod num_descs q)))
        by (rewrite ?HN; (assumption || lia));
      cbn [bind_opt]; rewrite (ring_walk_ext q qf) by exact HN; reflexivity.
  - split; [destruct qf; reflexivity |].
    split; [rewrite <- Htf; destruct qf; reflexivity |].
    unfold w'. rewrite freed_skbs_set_dma_maps. exact Hff.
Qed.

(** *** The non-segmented path and the send entry point *)

Lemma ionic_tx_skb_frags_loop_frame frags : ∀ e len_left w di err w' di',
  ionic_tx_skb_frags_loop frags e len_left w di = Some (err, w', di') →
  freed_skbs w' = freed_skbs w ∧ doorbells w' = doorbells w ∧
  cb di' = cb di ∧ cb_arg di' = cb_arg di.
Proof.
  induction frags as [| frag frags IH]; intros e len_left w di err w' di';
    cbn [ionic_tx_skb_frags_loop];
    (destruct (len_left =? 0); [intros [= <- <- <-]; auto |]);
    [discriminate |].
  destruct (sg_desc di !! e) as [el |]; [| discriminate]. cbn [bind_opt].
  destruct (ionic_tx_map_frame w) as [_ [Hf Hd]].
  destruct (ionic_tx_map_frag w) as [a w1]. cbn [snd] in Hf, Hd.
  destruct (dma_mapping_error a).
  - intros [= <- <- <-]. destruct di; cbn. auto.
  - intros Hrec. apply IH in Hrec as (Hf' & Hd' & Hc' & Ha').
    destruct di; cbn in *. repeat split; congruence.
Qed.

Lemma slot_skb_set_info_same_arg {D} (qq : ionic_queue D) i di di' j :
  q_info qq i = Some di → cb_arg di' = cb_arg di →
  slot_skb (q_set_info i di' qq) j = slot_skb qq j.
Proof.
  intros Hdi Harg. unfold slot_skb.
  destruct (q_info_Some _ _ _ Hdi) as [Hi _].
  destruct (Z.eq_dec i j) as [<- | Hne].
  - rewrite (q_info_set_eq qq i di' di Hdi), Hdi, Harg. reflexivity.
  - destruct (Z.ltb_spec j 0) as [Hj | Hj].
    + unfold q_info.
      destruct (Z.ltb_spec j 0); [reflexivity | lia].
    + rewrite q_info_set_ne by lia. reflexivity.
Qed.

(** A non-segmented send that fails posts nothing: head, tail, callbacks,
    freed packets and doorbell log are as before. *)
Lemma ionic_tx_failure_posts_nothing w q skb err w' q' :
  ionic_tx w q skb = Some (err, w', q') → err ≠ 0 →
  head_idx q' = head_idx q ∧ tail_idx q' = tail_idx q ∧
  freed_skbs w' = freed_skbs w ∧ doorbells w' = doorbells w ∧
  ∀ j, slot_skb q' j = slot_skb q j.
Proof.
  unfold ionic_tx, ionic_tx_calc_csum, ionic_tx_calc_no_csum.
  assert (Hcalc : ∀ op cs e1 w1 q1,
            tx_calc_desc op cs w q skb = Some (e1, w1, q1) →
            head_idx q1 = head_idx q ∧ tail_idx q1 = tail_idx q ∧
            freed_skbs w1 = freed_skbs w ∧ doorbells w1 = doorbells w ∧
            ∀ j, slot_skb q1 j = slot_skb q j).
  { intros op cs e1 w1 q1. unfold tx_calc_desc.
    destruct (q_info q (head_idx q)) as [di |] eqn:Hdi; [| discriminate].
    cbn [bind_opt].
    destruct (ionic_tx_map_frame w) as [[Hf Hd] _].
    destruct (ionic_tx_map_single w) as [a wa]. cbn [snd] in Hf, Hd.
    destruct (dma_mapping_error a); intros [= <- <- <-]; [auto |].
    match goal with
    | |- context [q_set_info (head_idx q) ?d q] =>
        destruct (q_set_info_fields (head_idx q) d q) as (-> & -> & _);
        pose proof (λ j, slot_skb_set_info_same_arg q (head_idx q) di d j Hdi)
          as Hslot
    end.
    repeat split; try assumption.
    intros j. apply Hslot. destruct di; reflexivity. }
  destruct (if ip_summed_partial skb
            then tx_calc_desc IONIC_TXQ_DESC_OPCODE_CSUM_PARTIAL true w q skb
            else tx_calc_desc IONIC_TXQ_DESC_OPCODE_CSUM_NONE false w q skb)
    as [[[e1 w1] q1] |] eqn:Hc; [| discriminate].
  assert (Hc1 : head_idx q1 = head_idx q ∧ tail_idx q1 = tail_idx q ∧
                freed_skbs w1 = freed_skbs w ∧ doorbells w1 = doorbells w ∧
                ∀ j, slot_skb q1 j = slot_skb q j)
    by (destruct (ip_summed_partial skb); eapply Hcalc; eauto).
  cbn [bind_opt]. destruct (Z.eqb_spec e1 0) as [-> | He1]; cbn [negb].
  2:{ intros [= <- <- <-] _. exact Hc1. }
  unfold ionic_tx_skb_frags.
  destruct (q_info q1 (head_idx q1)) as [di |] eqn:Hdi; [| discriminate].
  cbn [bind_opt].
  match goal with
  | |- context [ionic_tx_skb_frags_loop ?a ?b ?c ?d ?e] =>
      destruct (ionic_tx_skb_frags_loop a b c d e) as [[[e2 w2] di2] |] eqn:Hl;
        [| discriminate]
  end.
  cbn [bind_opt].
  apply ionic_tx_skb_frags_loop_frame in Hl as (Hf2 & Hd2 & _ & Ha2).
  destruct (Z.eqb_spec e2 0) as [-> | He2]; cbn [negb].
  - unfold ionic_txq_post.
    match goal with
    | |- context [ionic_q_post ?a ?b ?c ?d ?e] =>
        destruct (ionic_q_post a b c d e) as [[w3 q3] |]; [| discriminate]
    end.
    cbn [bind_opt]. intros [= <- <- <-] Habs. contradiction.
  - intros [= <- <- <-] _.
    destruct Hc1 as (Hh1 & Ht1 & Hf1 & Hd1 & Hs1).
    destruct (q_set_info_fields (head_idx q1) di2 q1) as (-> & -> & _).
    repeat split; try congruence.
    intros j. rewrite (slot_skb_set_info_same_arg q1 (head_idx q1) di di2 j Hdi Ha2).
    apply Hs1.
Qed.

(** A send whose encoding fails is dropped by the entry point: the packet is
    freed, stop and drop counters go up, and the caller is told OK. *)
Lemma ionic_start_xmit_drops_on_error w q skb ndescs w1 skb1 w2 q2 err w3 q3 :
  IONIC_LIF_F_UP (lif q) = true →
  ionic_tx_descs_needed w q skb = (ndescs, w1, skb1) → 0 ≤ ndescs →
  ionic_maybe_stop_tx w1 q ndescs = (0, w2, q2) →
  (if skb_is_gso skb1 then ionic_tx_tso w2 q2 skb1 else ionic_tx w2 q2 skb1)
    = Some (err, w3, q3) →
  err ≠ 0 →
  ionic_start_xmit w q skb
  = Some (NETDEV_TX_OK, dev_kfree_skb (skb_id skb) w3,
          set_q_drop (q_drop q3 + 1) (set_q_stop (q_stop q3 + 1) q3)).
Proof.
  intros Hup Hneed Hpos Hstop Henc Herr. unfold ionic_start_xmit.
  destruct (ionic_tx_descs_needed_frame _ _ _ _ _ _ Hneed) as (_ & _ & _ & _ & _ & Hid).
  rewrite Hup, Hneed. cbn [negb].
  destruct (Z.ltb_spec ndescs 0); [lia |].
  rewrite Hstop. cbn [Z.eqb negb]. rewrite Henc. cbn [bind_opt].
  destruct (Z.eqb_spec err 0); [contradiction |]. cbn [negb].
  unfold err_out_drop. rewrite Hid. reflexivity.
Qed.

End TsoRollback.

(** C1: at the claim's own scenario, a send that is not segmented and whose
    third of five fragment mappings fails, [ionic_tx] returns -ENOMEM with
    the linear area and the two fragments mapped before the failure still
    mapped, and they are still mapped when the send entry point returns.
    Head is at its old value because nothing was posted, and [ionic_tx] has
    not freed the packet; the send entry point, which owns it, then drops
    it.  The segmented path does what this one misses: on a packet whose
    fourth mapping fails it rewinds, and the mappings of the descriptors it
    had posted are gone when it returns.  A failed mapping of the linear
    area is not seen at all: [ionic_tx_map_single] answers 0, which is no
    mapping error, and the descriptor is posted with address 0. *)
Lemma ionic_tx_map_failure_leaks_mappings :
  ∃ w1 q1 w3 q3 wt qt wl ql dl,
    @ionic_tx hdr_4k world_map3 (txq8 0 0) skb_5frags
      = Some (- ENOMEM, w1, q1) ∧
    dma_maps world_map3 = [] ∧ dma_maps w1 = [12288; 8192; 4096] ∧
    head_idx q1 = head_idx (txq8 0 0) ∧
    freed_skbs w1 = freed_skbs world_map3 ∧
    @ionic_start_xmit hdr_4k world_map3 (txq8 0 0) skb_5frags
      = Some (NETDEV_TX_OK, w3, q3) ∧
    dma_maps w3 = [12288; 8192; 4096] ∧
    head_idx q3 = head_idx (txq8 0 0) ∧
    freed_skbs w3 = [skb_id skb_5frags] ∧
    @ionic_tx_tso hdr_4k world_map3 (txq8 0 0) skb_tso3
      = Some (- ENOMEM, wt, qt) ∧
    dma_maps world_at_abort = [12288; 8192; 4096] ∧ dma_maps wt = [] ∧
    head_idx qt = head_idx (txq8 0 0) ∧
    freed_skbs wt = freed_skbs world_map3 ∧
    @ionic_tx hdr_4k world_map_none (txq8 0 0) skb_linear = Some (0, wl, ql) ∧
    head_idx ql = 1 ∧ doorbells wl = [1] ∧
    q_info ql 0 = Some dl ∧ cmd_addr (cmd (desc dl)) = 0 ∧
    cb_arg dl = Some skb_linear.
Proof.
  eexists _, _, _, _, _, _, _, _, _.
  split; [vm_compute; reflexivity |].
  split; [reflexivity |]. split; [reflexivity |]. split; [reflexivity |].
  split; [reflexivity |].
  split; [vm_compute; reflexivity |].
  split; [reflexivity |]. split; [reflexivity |]. split; [reflexivity |].
  split; [vm_compute; reflexivity |].
  split; [vm_compute; reflexivity |].
  split; [reflexivity |]. split; [reflexivity |]. split; [reflexivity |].
  split; [vm_compute; reflexivity |].
  split; [reflexivity |]. split; [reflexivity |].
  split; [vm_compute; reflexivity |].
  split; reflexivity.
Qed.

(** * Further properties of the data path *)

(** ** Buffer pool: allocation failure and the allocate/release round trip *)

Section BufferLifeCycle.
Context `{ionic_hdr}.

Lemma remove_first_head a l : remove_first a (a :: l) = l.
Proof. cbn. rewrite Z.eqb_refl. reflexivity. Qed.

Lemma free_last_reference p w :
  page_refs w !! pg_id p = Some 1 →
  __free_pages p w = set_page_refs (delete (pg_id p) (page_refs w)) w.
Proof.
  intros Hone. unfold __free_pages, page_ref. rewrite Hone. reflexivity.
Qed.

(** X1: [ionic_rx_page_alloc] fails exactly when the page allocator returns
    no page or the mapping of the page fails, and a failure leaves nothing
    behind.  When the allocator returns no page the result is -ENOMEM,
    [alloc_err] goes up by one, no mapping is attempted, and offset and
    device address of the fragment are left as they were.  When the
    allocator returns a page and its mapping fails the result is -EIO,
    [dma_map_err] goes up by one, the page is given back and the fragment is
    reset.  In both cases the fragment has no page and page references and
    live mappings are as before.  Otherwise the result is 0. *)
Theorem ionic_rx_page_alloc_failure_clean
    (w : world) (b : ionic_buf_info) :
  next_page_fresh w →
  ∃ err w1 b1,
    ionic_rx_page_alloc w b = (err, w1, b1) ∧
    (next_alloc_fails w →
       err = - ENOMEM ∧
       page b1 = None ∧ page_refs w1 = page_refs w ∧ dma_maps w1 = dma_maps w ∧
       rx_alloc_err (rxs w1) = rx_alloc_err (rxs w) + 1 ∧
       rx_dma_map_err (rxs w1) = rx_dma_map_err (rxs w) ∧
       dma_map_results w1 = dma_map_results w ∧
       page_offset b1 = page_offset b ∧ dma_addr b1 = dma_addr b) ∧
    (¬ next_alloc_fails w → next_map_fails w →
       err = - EIO ∧
       page b1 = None ∧ page_refs w1 = page_refs w ∧ dma_maps w1 = dma_maps w ∧
       rx_dma_map_err (rxs w1) = rx_dma_map_err (rxs w) + 1 ∧
       rx_alloc_err (rxs w1) = rx_alloc_err (rxs w) ∧
       buf_empty b1) ∧
    (¬ next_alloc_fails w → ¬ next_map_fails w → err = 0).
Proof.
  intros Hfresh. unfold ionic_rx_page_alloc, alloc_pages, next_alloc_fails,
    next_map_fails.
  unfold next_page_fresh in Hfresh.
  destruct (alloc_pages_results w) as [| [p |] rest] eqn:Hscript.
  - eexists _, _, _. split; [reflexivity |].
    split; [| split; intros Hn; exfalso; apply Hn; exact I].
    intros _. destruct w as [? ? ? ? ? ? ? ? ? ? ? ? [] ? ?]; cbn. auto 10.
  - unfold dma_map.
    destruct w as [refs maps ? dres ? ? ? ? ? ? ? ? [] ? ?]; cbn in *.
    destruct dres as [| a dres]; cbn.
    + eexists _, _, _. split; [reflexivity |].
      split; [intros [] |]. split; [| intros _ Hn; exfalso; apply Hn; exact I].
      intros _ _. cbn.
      rewrite free_last_reference by (cbn; apply lookup_insert_eq). cbn.
      split; [reflexivity |]. split; [reflexivity |].
      split; [apply delete_insert_id; exact Hfresh |].
      split; [reflexivity |]. repeat split.
    + destruct (dma_mapping_error a) eqn:Ha; cbn; rewrite Ha.
      * eexists _, _, _. split; [reflexivity |].
        split; [intros [] |].
        split; [| intros _ Hn; exfalso; apply Hn; apply Z.eqb_eq; exact Ha].
        intros _ _. cbn.
        rewrite free_last_reference by (cbn; apply lookup_insert_eq). cbn.
        split; [reflexivity |]. split; [reflexivity |].
        split; [apply delete_insert_id; exact Hfresh |].
        split; [reflexivity |]. repeat split.
      * eexists _, _, _. split; [reflexivity |].
        split; [intros [] |]. split; [| reflexivity].
        intros _ Hbad. apply Z.eqb_neq in Ha. contradiction.
  - eexists _, _, _. split; [reflexivity |].
    split; [| split; intros Hn; exfalso; apply Hn; exact I].
    intros _. destruct w as [? ? ? ? ? ? ? ? ? ? ? ? [] ? ?]; cbn. auto 10.
Qed.

(** X2: allocating a fragment and releasing it again is a round trip: the page
    reference counts and the live DMA mappings are what they were before
    the allocation, and the fragment is empty.  In a build with pages of
    higher order the fragment starts with no reference bias, as
    [ionic_rx_buf_reset] leaves it. *)
Theorem ionic_rx_page_alloc_free_round_trip
    (w : world) (b : ionic_buf_info) (w1 : world) (b1 : ionic_buf_info) :
  next_page_fresh w →
  (0 < IONIC_PAGE_ORDER → pagecnt_bias b = 0) →
  ionic_rx_page_alloc w b = (0, w1, b1) →
  ∃ p a w2 b2,
    page b1 = Some p ∧ dma_addr b1 = a ∧ dma_maps w1 = a :: dma_maps w ∧
    page_ref w1 p = 1 ∧
    ionic_rx_page_free w1 b1 = (w2, b2) ∧
    buf_empty b2 ∧ page_refs w2 = page_refs w ∧ dma_maps w2 = dma_maps w.
Proof.
  intros Hfresh Hbias Halloc. unfold ionic_rx_page_alloc, alloc_pages in Halloc.
  unfold next_page_fresh in Hfresh.
  destruct (alloc_pages_results w) as [| [p |] rest] eqn:Hscript;
    [discriminate | | discriminate].
  unfold dma_map in Halloc.
  destruct w as [refs maps ? dres ? ? ? ? ? ? ? ? ? ?]; cbn in *.
  destruct dres as [| a dres]; cbn in Halloc; [discriminate |].
  destruct (dma_mapping_error a) eqn:Ha; cbn in Halloc; rewrite Ha in Halloc;
    [discriminate |].
  injection Halloc as <- <-.
  exists p, a. unfold ionic_rx_page_free. cbn [page dma_addr pagecnt_bias].
  eexists _, _. split; [reflexivity |]. split; [reflexivity |].
  split; [reflexivity |]. split.
  { unfold page_ref. cbn. rewrite lookup_insert_eq. reflexivity. }
  split; [reflexivity |]. split; [apply ionic_rx_buf_reset_empty |].
  assert (Hsub : (0 <? IONIC_PAGE_ORDER) && negb (pagecnt_bias b =? 0) = false).
  { destruct (Z.ltb_spec 0 IONIC_PAGE_ORDER) as [Hord | Hord]; [| reflexivity].
    rewrite (Hbias Hord). reflexivity. }
  rewrite Hsub. unfold dma_unmap. cbn.
  rewrite free_last_reference by (cbn; apply lookup_insert_eq). cbn.
  rewrite Z.eqb_refl.
  split; [apply delete_insert_id; exact Hfresh | reflexivity].
Qed.

End BufferLifeCycle.

Lemma ionic_rx_page_alloc_failure_clean_witness :
  (∃ w1 b1,
     @ionic_rx_page_alloc hdr_4k world_alloc_fails buf0 = (- ENOMEM, w1, b1) ∧
     page b1 = None ∧ dma_maps w1 = [] ∧ rx_alloc_err (rxs w1) = 1 ∧
     rx_dma_map_err (rxs w1) = 0 ∧ dma_map_results w1 = [65536]) ∧
  (∃ w1 b1,
     @ionic_rx_page_alloc hdr_4k world_map_fails buf0 = (- EIO, w1, b1) ∧
     page b1 = None ∧ page_refs w1 = page_refs world_map_fails ∧
     dma_maps w1 = dma_maps world_map_fails ∧
     rx_dma_map_err (rxs w1) = 1 ∧ rx_alloc_err (rxs w1) = 0).
Proof.
  split.
  - destruct (@ionic_rx_page_alloc_failure_clean hdr_4k world_alloc_fails buf0)
      as (err & w1 & b1 & Hrun & Hnomem & _); [exact I |].
    destruct (Hnomem I) as (-> & Hp & _ & Hm & Ha & Hd & Hs & _).
    exists w1, b1. split; [exact Hrun |]. split; [exact Hp |].
    split; [exact Hm |]. split; [exact Ha |]. split; [exact Hd | exact Hs].
  - destruct (@ionic_rx_page_alloc_failure_clean hdr_4k world_map_fails buf0)
      as (err & w1 & b1 & Hrun & _ & Hio & _); [reflexivity |].
    destruct (Hio ltac:(intros []) eq_refl) as (-> & Hp & Hr & Hm & Hd & Ha & _).
    exists w1, b1. split; [exact Hrun |]. split; [exact Hp |].
    split; [exact Hr |]. split; [exact Hm |]. split; [exact Hd | exact Ha].
Defined.

Lemma ionic_rx_page_alloc_free_round_trip_witness :
  ∃ w1 b1 w2 b2,
    @ionic_rx_page_alloc hdr_4k world_fresh buf0 = (0, w1, b1) ∧
    dma_maps w1 = [65536] ∧
    @ionic_rx_page_free hdr_4k w1 b1 = (w2, b2) ∧
    buf_empty b2 ∧ page_refs w2 = ∅ ∧ dma_maps w2 = [].
Proof.
  destruct (@ionic_rx_page_alloc_free_round_trip hdr_4k world_fresh buf0 _ _
              ltac:(reflexivity) ltac:(intros _; reflexivity) eq_refl)
    as (p & a & w2 & b2 & Hp & Ha & Hm & Hr & Hfree & He & Hrefs & Hmaps).
  eexists _, _, w2, b2. split; [reflexivity |].
  split; [reflexivity |]. split; [exact Hfree |].
  split; [exact He |]. split; [exact Hrefs | exact Hmaps].
Defined.

(** ** Receive completion: every frame is delivered or counted as dropped *)

Section ReceiveAccounting.
Context `{ionic_hdr}.
Implicit Types (q : ionic_queue ionic_rxq_desc).

Lemma rx_acct_alloc_skb w : rx_acct (alloc_skb w).2 = rx_acct w.
Proof.
  unfold alloc_skb. destruct (skb_alloc_results w) as [| [id |] rest];
    destruct w; reflexivity.
Qed.

Lemma rx_acct_set_napi_skb v w : rx_acct (set_napi_skb v w) = rx_acct w.
Proof. destruct w; reflexivity. Qed.

Lemma rx_acct_get_frags w : rx_acct (napi_get_frags w).2 = rx_acct w.
Proof.
  unfold napi_get_frags. destruct (napi_skb w); [reflexivity |].
  pose proof (rx_acct_alloc_skb w) as Ha.
  destruct (alloc_skb w) as [skb w1]. cbn [snd] in *.
  rewrite rx_acct_set_napi_skb. exact Ha.
Qed.

Lemma rx_acct_recycle w b used ok w1 b1 :
  ionic_rx_buf_recycle w b used = Some (ok, w1, b1) → rx_acct w1 = rx_acct w.
Proof.
  unfold ionic_rx_buf_recycle. destruct (page b) as [p |]; [| discriminate].
  cbn [bind_opt].
  repeat match goal with
         | |- context [if ?c then _ else _] => destruct c
         end; intros [= <- <- <-]; destruct w; reflexivity.
Qed.

Lemma rx_acct_frags_loop i : ∀ j len w bs skb r w' bs',
  ionic_rx_frags_loop i j len w bs skb = Some (r, w', bs') →
  rx_acct w' = rx_acct w.
Proof.
  induction i as [| i IH]; intros j len w bs skb r w' bs';
    cbn [ionic_rx_frags_loop].
  - intros [= <- <- <-]. reflexivity.
  - destruct (bs !! j) as [b |]; [| discriminate]. cbn [bind_opt].
    destruct (page b) as [p |].
    2:{ intros [= <- <- <-]. destruct w; reflexivity. }
    destruct (ionic_rx_buf_recycle w b _) as [[[ok w1] b1] |] eqn:Hrec;
      [| discriminate].
    cbn [bind_opt]. intros Hloop. apply IH in Hloop. rewrite Hloop.
    apply rx_acct_recycle in Hrec. rewrite <- Hrec.
    destruct ok; [reflexivity |]. destruct w1; reflexivity.
Qed.

Lemma rx_acct_alloc_err w : rx_acct (rx_alloc_err_inc w) = rx_acct w.
Proof. destruct w as [? ? ? ? ? ? ? ? ? ? ? ? [] ? ?]; reflexivity. Qed.

Lemma rx_acct_frags w di comp r w' di' :
  ionic_rx_frags w di comp = Some (r, w', di') → rx_acct w' = rx_acct w.
Proof.
  unfold ionic_rx_frags. pose proof (rx_acct_get_frags w) as Ha.
  destruct (napi_get_frags w) as [[skb |] w1]; cbn [snd] in Ha.
  - destruct (ionic_rx_frags_loop _ _ _ _ _ _) as [[[r1 w2] bs] |] eqn:Hloop;
      [| discriminate].
    cbn [bind_opt]. intros [= <- <- <-].
    apply rx_acct_frags_loop in Hloop.
    destruct r1; rewrite ?rx_acct_set_napi_skb, Hloop; exact Ha.
  - intros [= <- <- <-]. rewrite rx_acct_alloc_err. exact Ha.
Qed.

Lemma rx_acct_copybreak w di comp r w' di' :
  ionic_rx_copybreak w di comp = Some (r, w', di') → rx_acct w' = rx_acct w.
Proof.
  unfold ionic_rx_copybreak. pose proof (rx_acct_alloc_skb w) as Ha.
  destruct (alloc_skb w) as [[skb |] w1]; cbn [snd] in Ha.
  - destruct (bufs di !! 0%nat) as [b |]; [| discriminate]. cbn [bind_opt].
    destruct (page b); intros [= <- <- <-]; [exact Ha |].
    rewrite <- Ha. destruct w1; reflexivity.
  - intros [= <- <- <-]. rewrite rx_acct_alloc_err. exact Ha.
Qed.

Lemma rx_acct_counted n w :
  rx_acct (rx_bytes_add n (rx_pkts_add 1 w))
  = (gro_received w, rx_dropped (rxs w), rx_pkts (rxs w) + 1,
     rx_bytes (rxs w) + n).
Proof. destruct w as [? ? ? ? ? ? ? ? ? ? ? ? [] ? ?]; reflexivity. Qed.

Lemma rx_acct_dropped w :
  rx_acct (rx_dropped_inc w)
  = (gro_received w, rx_dropped (rxs w) + 1, rx_pkts (rxs w), rx_bytes (rxs w)).
Proof. destruct w as [? ? ? ? ? ? ? ? ? ? ? ? [] ? ?]; reflexivity. Qed.

Lemma rx_acct_delivered comp skb w :
  rx_acct (napi_gro_receive skb (rx_count_csum_error comp w))
  = (gro_received w ++ [skb], rx_dropped (rxs w), rx_pkts (rxs w),
     rx_bytes (rxs w)).
Proof.
  unfold rx_count_csum_error.
  destruct (_ || _); destruct w as [? ? ? ? ? ? ? ? ? ? ? ? [] ? ?]; reflexivity.
Qed.

Lemma rx_acct_delivered_frags comp skb w :
  rx_acct (napi_gro_frags skb (rx_count_csum_error comp w))
  = (gro_received w ++ [skb], rx_dropped (rxs w), rx_pkts (rxs w),
     rx_bytes (rxs w)).
Proof.
  unfold rx_count_csum_error.
  destruct (_ || _); destruct w as [? ? ? ? ? ? ? ? ? ? ? ? [] ? ?]; reflexivity.
Qed.

(** X3: [ionic_rx_clean] accounts for every completion in exactly one of three
    ways.  A completion with an error status, or arriving while the queues
    are being reset, or longer than MTU plus Ethernet header, is counted as
    dropped and nothing else.  Any other completion is counted as a packet
    with its bytes; it is then either delivered to the stack as one packet,
    or, when no packet object could be built, counted as dropped as well.
    No completion is both delivered and dropped, and none is silently
    lost. *)
Theorem ionic_rx_clean_delivers_or_drops
    (w : world) (q : ionic_queue ionic_rxq_desc) (i : Z)
    (comp : ionic_rxq_comp) (di : ionic_desc_info ionic_rxq_desc) :
  q_info q i = Some di →
  u8 (num_sg_elems comp) + 1 ≤ Z.of_nat (length (bufs di)) →
  let rejected := negb (status comp =? 0) || IONIC_LIF_F_QUEUE_RESET (lif q)
                  || (u32 (mtu (lif q) + ETH_HLEN) <? u16 (len comp)) in
  ∃ w' q',
    ionic_rx_clean w q i comp = Some (w', q') ∧
    if rejected then
      q' = q ∧
      rx_acct w' = (gro_received w, rx_dropped (rxs w) + 1, rx_pkts (rxs w),
                    rx_bytes (rxs w))
    else
      (∃ s, rx_acct w' = (gro_received w ++ [s], rx_dropped (rxs w),
                          rx_pkts (rxs w) + 1,
                          rx_bytes (rxs w) + u16 (len comp))) ∨
      rx_acct w' = (gro_received w, rx_dropped (rxs w) + 1,
                    rx_pkts (rxs w) + 1, rx_bytes (rxs w) + u16 (len comp)).
Proof.
  intros Hdi Hlen rejected.
  destruct (ionic_rx_clean_total w q i di comp Hdi Hlen) as (w' & q' & Hrun).
  exists w', q'. split; [exact Hrun |].
  unfold ionic_rx_clean in Hrun. rewrite Hdi in Hrun. cbn [bind_opt] in Hrun.
  subst rejected.
  destruct (negb (status comp =? 0)).
  { injection Hrun as <- <-. split; [reflexivity | apply rx_acct_dropped]. }
  destruct (IONIC_LIF_F_QUEUE_RESET (lif q)).
  { injection Hrun as <- <-. split; [reflexivity | apply rx_acct_dropped]. }
  destruct (u32 (mtu (lif q) + ETH_HLEN) <? u16 (len comp)).
  { injection Hrun as <- <-. split; [reflexivity | apply rx_acct_dropped]. }
  cbn [orb].
  pose proof (rx_acct_counted (u16 (len comp)) w) as Hcnt.
  set (wc := rx_bytes_add (u16 (len comp)) (rx_pkts_add 1 w)) in *.
  assert (Hpath : ∀ r w1 d1,
            (if u16 (len comp) <=? rx_copybreak (lif q)
             then ionic_rx_copybreak wc di comp
             else ionic_rx_frags wc di comp) = Some (r, w1, d1) →
            rx_acct w1 = rx_acct wc).
  { intros r w1 d1. destruct (_ <=? _);
      [apply rx_acct_copybreak | apply rx_acct_frags]. }
  destruct (if u16 (len comp) <=? rx_copybreak (lif q)
            then ionic_rx_copybreak wc di comp
            else ionic_rx_frags wc di comp) as [[[r w1] d1] |];
    [| discriminate].
  specialize (Hpath r w1 d1 eq_refl). cbn [bind_opt] in Hrun.
  rewrite Hcnt in Hpath. unfold rx_acct in Hpath.
  injection Hpath as Hg Hd Hp Hb.
  destruct r as [s |]; [destruct (_ <=? _) in Hrun |]; injection Hrun as <- <-.
  - left. eexists. rewrite rx_acct_delivered, Hg, Hd, Hp, Hb. reflexivity.
  - left. eexists. rewrite rx_acct_delivered_frags, Hg, Hd, Hp, Hb.
    reflexivity.
  - right. rewrite rx_acct_dropped, Hg, Hd, Hp, Hb. reflexivity.
Qed.

End ReceiveAccounting.

Lemma ionic_rx_clean_delivers_or_drops_witness :
  (∃ w' q' s,
     @ionic_rx_clean hdr_4k world_rx (rxq_one lif0) 0 (comp0 100)
       = Some (w', q') ∧
     rx_acct w' = ([s], 0, 1, 100)) ∧
  (∃ w' q',
     @ionic_rx_clean hdr_4k world_rx_nomem (rxq_one lif0) 0 (comp0 100)
       = Some (w', q') ∧
     rx_acct w' = ([], 1, 1, 100)) ∧
  (∃ w' q',
     @ionic_rx_clean hdr_4k world_rx (rxq_one lif0) 0 (comp0 2000)
       = Some (w', q') ∧
     rx_acct w' = ([], 1, 0, 0)).
Proof.
  split; [| split].
  - destruct (@ionic_rx_clean_delivers_or_drops hdr_4k world_rx (rxq_one lif0)
                0 (comp0 100) _ eq_refl ltac:(vm_compute; discriminate))
      as (w' & q' & Hrun & Hacct).
    cbn in Hacct. destruct Hacct as [[s Hs] | Hd].
    + exists w', q', s. split; [exact Hrun | exact Hs].
    + exfalso. vm_compute in Hrun. injection Hrun as <- <-. discriminate Hd.
  - destruct (@ionic_rx_clean_delivers_or_drops hdr_4k world_rx_nomem
                (rxq_one lif0) 0 (comp0 100) _ eq_refl
                ltac:(vm_compute; discriminate))
      as (w' & q' & Hrun & Hacct).
    cbn in Hacct. destruct Hacct as [[s Hs] | Hd].
    + exfalso. vm_compute in Hrun. injection Hrun as <- <-. discriminate Hs.
    + exists w', q'. split; [exact Hrun | exact Hd].
  - destruct (@ionic_rx_clean_delivers_or_drops hdr_4k world_rx (rxq_one lif0)
                0 (comp0 2000) _ eq_refl ltac:(vm_compute; discriminate))
      as (w' & q' & Hrun & Hacct).
    cbn in Hacct. exists w', q'. split; [exact Hrun | apply Hacct].
Defined.

(** ** Receive ring fill: what a completed pass leaves *)

Section FillSuccess.
Context `{ionic_hdr}.
Implicit Types (q : ionic_queue ionic_rxq_desc).

Lemma min_t_u16_bounds a b : 0 ≤ a → 0 ≤ min_t_u16 a b ≤ a.
Proof.
  intros Ha. unfold min_t_u16. pose proof (u16_range a). pose proof (u16_range b).
  assert (u16 a ≤ a) by (unfold u16; apply Z.mod_le; lia). lia.
Qed.

Lemma sum_sg_len_cons e l : sum_sg_len (e :: l) = sg_len e + sum_sg_len l.
Proof. reflexivity. Qed.

(** The scatter-gather loop of [ionic_rx_fill], when no allocation fails:
    it used [k] elements from position [j] on, each pointing at a fragment
    that has a page, and left everything below position [j] alone. *)
Lemma ionic_rx_fill_sg_ok fuel : ∀ j remain nfrags w di nfrags' w' di',
  ionic_rx_fill_sg fuel j remain nfrags w di = Some (true, nfrags', w', di') →
  nfrags = Z.of_nat (S j) → Z.of_nat (S j + fuel) < 2 ^ 32 →
  0 ≤ remain < 2 ^ 32 →
  ∃ k rest,
    (k ≤ fuel)%nat ∧ nfrags' = Z.of_nat (S j + k) ∧
    0 ≤ rest ∧ (rest = 0 ∨ k = fuel) ∧
    sum_sg_len (take k (drop j (sg_desc di'))) + rest = remain ∧
    (∀ t, (j ≤ t < j + k)%nat →
       ∃ b p e, bufs di' !! S t = Some b ∧ page b = Some p ∧
                sg_desc di' !! t = Some e ∧
                sg_addr e = u64 (dma_addr b + page_offset b)) ∧
    (∀ t, (t ≤ j)%nat → bufs di' !! t = bufs di !! t) ∧
    (∀ t, (t < j)%nat → sg_desc di' !! t = sg_desc di !! t) ∧
    desc di' = desc di ∧ index di' = index di ∧ cb di' = cb di ∧
    cb_arg di' = cb_arg di.
Proof.
  induction fuel as [| fuel IH]; intros j remain nfrags w di nfrags' w' di';
    cbn [ionic_rx_fill_sg].
  - intros [= <- <- <-] Hn _ Hrem. exists 0%nat, remain.
    rewrite take_0, Nat.add_0_r. cbn.
    repeat split; auto; lia.
  - destruct (Z.leb_spec remain 0) as [Hle | Hgt].
    { intros [= <- <- <-] Hn _ Hrem. exists 0%nat, remain.
      rewrite take_0, Nat.add_0_r. cbn.
      repeat split; auto; lia. }
    destruct (sg_desc di !! j) as [e |] eqn:He; [| discriminate].
    cbn [bind_opt].
    destruct (bufs di !! S j) as [b |] eqn:Hb; [| discriminate].
    cbn [bind_opt].
    pose proof (lookup_lt_Some _ _ _ He) as Hjlt.
    pose proof (lookup_lt_Some _ _ _ Hb) as Hblt.
    set (r := match page b with
              | Some _ => (0, w, b)
              | None => ionic_rx_page_alloc w b
              end).
    assert (Hr : r.1.1 = 0 → ∃ p, page r.2 = Some p).
    { subst r. destruct (page b) as [p |] eqn:Hp; cbn; [eauto |].
      destruct (ionic_rx_page_alloc w b) as [[err w1] b1] eqn:Halloc. cbn.
      intros ->. apply ionic_rx_page_alloc_ok in Halloc as (p & Hp1 & _).
      eauto. }
    destruct r as [[err w1] b1]. cbn in Hr.
    destruct (Z.eqb_spec err 0) as [-> | Herr]; cbn [negb]; [| discriminate].
    destruct (Hr eq_refl) as [p Hp1].
    intros Hrec Hn Hfuel Hrem.
    pose proof (min_t_u16_bounds remain (IONIC_PAGE_SIZE - page_offset b1)
                  ltac:(lia)) as Hfl.
    set (frag_len := min_t_u16 remain (IONIC_PAGE_SIZE - page_offset b1)) in *.
    destruct di as [d sg ix c ca bs np by_]. cbn in He, Hb, Hjlt, Hblt, Hrec |- *.
    apply IH in Hrec; [| subst nfrags; rewrite u32_small; lia | lia
                        | rewrite u32_small; lia].
    destruct Hrec as (k & rest & Hk & Hn' & Hrest & Hend & Hsum & Hpages
                      & Hbufs & Hsgs & Hd & Hix & Hc & Hca).
    cbn in Hbufs, Hsgs, Hd, Hix, Hc, Hca.
    assert (Hej : sg_desc di' !! j
                  = Some {| sg_addr := u64 (dma_addr b1 + page_offset b1);
                            sg_len := frag_len |}).
    { rewrite Hsgs by lia. apply list_lookup_insert_eq. exact Hjlt. }
    assert (Hbj : bufs di' !! S j = Some b1).
    { rewrite Hbufs by lia. apply list_lookup_insert_eq. exact Hblt. }
    exists (S k), rest.
    split; [lia |]. split; [lia |]. split; [exact Hrest |].
    split; [destruct Hend; [left | right]; lia |]. split.
    { rewrite (drop_S _ _ _ Hej). cbn [take]. rewrite sum_sg_len_cons. cbn.
      rewrite u32_small in Hsum by lia. lia. }
    split.
    { intros t Ht. destruct (decide (t = j)) as [-> | Hne].
      - eexists b1, p, _. split; [exact Hbj |]. split; [exact Hp1 |].
        split; [exact Hej | reflexivity].
      - apply Hpages. lia. }
    split.
    { intros t Ht. rewrite Hbufs by lia.
      apply list_lookup_insert_ne. lia. }
    split.
    { intros t Ht. rewrite Hsgs by lia.
      apply list_lookup_insert_ne. lia. }
    auto.
Qed.

Lemma ionic_q_post_eq {D} w (qq : ionic_queue D) rb f a w' (qq' : ionic_queue D) :
  ionic_q_post w qq rb f a = Some (w', qq') →
  ∃ di, q_info qq (head_idx qq) = Some di ∧
    qq' = set_head_idx (ring_next qq (head_idx qq))
            (q_set_info (head_idx qq) (set_cb_arg a (set_cb (Some f) di)) qq) ∧
    w' = if rb then ionic_dbell_ring
                      (Z.lor (dbval qq) (ring_next qq (head_idx qq))) w
         else w.
Proof.
  unfold ionic_q_post. destruct (q_info qq (head_idx qq)) as [di |];
    [| discriminate].
  cbn [bind_opt]. intros [= <- <-]. exists di. split; [reflexivity |].
  destruct qq; split; reflexivity.
Qed.

Lemma q_frame_set_head_info {D} (qq : ionic_queue D) v i di :
  let qq' := set_head_idx v (q_set_info i di qq) in
  tail_idx qq' = tail_idx qq ∧ num_descs qq' = num_descs qq ∧
  lif qq' = lif qq ∧ max_sg_elems qq' = max_sg_elems qq ∧
  dbval qq' = dbval qq ∧ q_index qq' = q_index qq ∧
  length (info qq') = length (info qq) ∧ head_idx qq' = v.
Proof. destruct qq; cbn. rewrite length_insert. auto 10. Qed.

(** One slot filled and posted by [ionic_rx_fill]. *)
Lemma ionic_rx_fill_slot_ok len nsplits w q w' q' :
  ionic_rx_fill_slot len nsplits w q = Some (true, w', q') →
  0 ≤ len < 2 ^ 32 → 0 ≤ max_sg_elems q < 2 ^ 32 - 1 → 0 ≤ head_idx q →
  head_idx q' = ring_next q (head_idx q) ∧
  tail_idx q' = tail_idx q ∧ num_descs q' = num_descs q ∧
  lif q' = lif q ∧ max_sg_elems q' = max_sg_elems q ∧
  dbval q' = dbval q ∧ length (info q') = length (info q) ∧
  (∀ j, 0 ≤ j → j ≠ head_idx q → q_info q' j = q_info q j) ∧
  ∃ di', q_info q' (head_idx q) = Some di' ∧
         rx_slot_filled len (max_sg_elems q) di'.
Proof.
  unfold ionic_rx_fill_slot.
  destruct (q_info q (head_idx q)) as [di |] eqn:Hdi; [| discriminate].
  cbn [bind_opt].
  destruct (bufs di !! 0%nat) as [b |] eqn:Hb; [| discriminate].
  cbn [bind_opt].
  pose proof (lookup_lt_Some _ _ _ Hb) as Hblt.
  set (r := match page b with
            | Some _ => (0, w, b)
            | None => _
            end).
  assert (Hr : r.1.1 = 0 → ∃ p, page r.2 = Some p).
  { subst r. destruct (page b) as [p |] eqn:Hp; [cbn; eauto |].
    destruct (ionic_rx_page_alloc w b) as [[err w1] b1] eqn:Halloc.
    destruct (Z.eqb_spec err 0) as [-> | Herr]; cbn [negb]; [| cbn; lia].
    apply ionic_rx_page_alloc_ok in Halloc as (p & Hp1 & _).
    destruct (0 <? IONIC_PAGE_ORDER); [| cbn; eauto].
    cbn [page]. rewrite Hp1. cbn. eauto. }
  destruct r as [[err w1] b1]. cbn in Hr.
  destruct (Z.eqb_spec err 0) as [-> | Herr]; cbn [negb]; [| discriminate].
  destruct (Hr eq_refl) as [p Hp1].
  match goal with
  | |- context [ionic_rx_fill_sg ?f ?j ?r ?n ?w ?d] =>
      destruct (ionic_rx_fill_sg f j r n w d) as [[[[ok1 nf] w2] di2] |] eqn:Hsg;
        [| discriminate]
  end.
  cbn [bind_opt]. destruct ok1; cbn [negb]; [| discriminate].
  unfold ionic_rxq_post.
  match goal with
  | |- context [ionic_q_post ?w ?q false ?f ?a] =>
      destruct (ionic_q_post w q false f a) as [[w3 q3] |] eqn:Hpost;
        [| discriminate]
  end.
  cbn [bind_opt]. intros [= <- <-] Hlen Hmax Hhead.
  pose proof (min_t_u16_bounds len (IONIC_PAGE_SIZE - page_offset b1)
                ltac:(lia)) as Hfl.
  set (frag_len := min_t_u16 len (IONIC_PAGE_SIZE - page_offset b1)) in *.
  apply ionic_rx_fill_sg_ok in Hsg; [| reflexivity | lia | rewrite u32_small; lia].
  destruct Hsg as (k & rest & Hk & Hnf & Hrest & Hend & Hsum & Hpages
                   & Hbufs & _ & Hd & Hix & Hc & Hca).
  rewrite drop_0, u32_small in Hsum by lia.
  apply ionic_q_post_eq in Hpost as (dih & Hdih & -> & ->).
  destruct (q_set_info_fields (head_idx q)
              (set_npages nf
                 (set_desc
                    (set_rxd_opcode
                       (if 1 <? nf then IONIC_RXQ_DESC_OPCODE_SG
                        else IONIC_RXQ_DESC_OPCODE_SIMPLE) (desc di2)) di2)) q)
    as (Hh1 & Ht1 & Hn1 & Hl1 & Hlen1).
  rewrite Hh1 in Hdih |- *.
  rewrite (q_info_set_eq _ _ _ _ Hdi) in Hdih. injection Hdih as <-.
  match goal with
  | |- context [set_head_idx ?v (q_set_info ?i ?d ?qq)] =>
      pose proof (q_frame_set_head_info qq v i d) as Hfr; cbv zeta in Hfr;
      set (dfin := d) in *
  end.
  destruct Hfr as (Hft & Hfn & Hfl' & Hfm & Hfd & _ & Hflen & Hfh).
  assert (Hmaxsg : ∀ i d, max_sg_elems (q_set_info i d q) = max_sg_elems q)
    by (intros; destruct q; reflexivity).
  assert (Hdbval : ∀ i d, dbval (q_set_info i d q) = dbval q)
    by (intros; destruct q; reflexivity).
  split; [rewrite Hfh; unfold ring_next; rewrite Hn1; reflexivity |].
  split; [congruence |]. split; [congruence |]. split; [congruence |].
  split; [rewrite Hfm; apply Hmaxsg |].
  split; [rewrite Hfd; apply Hdbval |].
  split; [congruence |]. split.
  { intros j Hj Hne. rewrite q_info_set_head_idx.
    rewrite !q_info_set_ne by lia. reflexivity. }
  exists dfin. split.
  { rewrite q_info_set_head_idx. eapply q_info_set_eq.
    eapply q_info_set_eq. exact Hdi. }
  subst dfin. destruct di2 as [d2 sg2 ix2 c2 ca2 bs2 np2 by2].
  destruct di as [d0 sg0 ix0 c0 ca0 bs0 np0 by0].
  cbn in Hb, Hblt, Hbufs, Hd, Hix, Hc, Hca, Hpages, Hsum |- *.
  assert (Hb0 : bs2 !! 0%nat = Some b1).
  { rewrite Hbufs by lia. apply list_lookup_insert_eq. exact Hblt. }
  assert (Hnp : Z.to_nat nf = S k) by lia.
  unfold rx_slot_filled. cbn. rewrite Hnp.
  split; [reflexivity |]. split; [reflexivity |].
  split; [lia |]. split.
  { intros t Ht. destruct t as [| t]; [eauto |].
    destruct (Hpages t ltac:(lia)) as (b' & p' & e' & ? & ? & _). eauto. }
  split.
  { exists b1. split; [exact Hb0 |]. subst d2. reflexivity. }
  split.
  { intros t Ht. destruct (Hpages t ltac:(lia)) as (b' & p' & e' & ? & ? & ? & ?).
    eauto. }
  split; [reflexivity |].
  exists rest. split; [exact Hrest |]. split; [destruct Hend; [left | right]; lia |].
  subst d2. cbn [rxd_len set_rxd_addr_len]. clearbody frag_len.
  replace (S k - 1)%nat with k by lia. lia.
Qed.

Lemma ionic_rx_fill_loop_ok k i : ∀ len nsplits w q w' q',
  ionic_rx_fill_loop i len nsplits w q = Some (true, w', q') →
  0 ≤ len < 2 ^ 32 → 0 ≤ max_sg_elems q < 2 ^ 32 - 1 →
  0 ≤ k → num_descs q = 2 ^ k → 0 ≤ head_idx q < num_descs q →
  head_idx q' = (head_idx q + Z.of_nat i) mod num_descs q ∧
  tail_idx q' = tail_idx q ∧ num_descs q' = num_descs q ∧
  lif q' = lif q ∧ max_sg_elems q' = max_sg_elems q ∧
  dbval q' = dbval q ∧ length (info q') = length (info q) ∧
  (∀ j, 0 ≤ j → j ∉ ring_walk q (head_idx q) i → q_info q' j = q_info q j) ∧
  (∀ j, j ∈ ring_walk q (head_idx q) i →
     ∃ di', q_info q' j = Some di' ∧ rx_slot_filled len (max_sg_elems q) di').
Proof.
  induction i as [| i IH]; intros len nsplits w q w' q';
    cbn [ionic_rx_fill_loop].
  - intros [= <- <-] Hlen Hmax Hk HN Hh. rewrite Z.add_0_r, Z.mod_small by lia.
    repeat split; auto. intros j Hj. cbn in Hj. apply elem_of_nil in Hj.
    contradiction.
  - destruct (ionic_rx_fill_slot len nsplits w q) as [[[ok1 w1] q1] |] eqn:Hslot;
      [| discriminate].
    cbn [bind_opt]. destruct ok1; [| discriminate].
    intros Hrec Hlen Hmax Hk HN Hh.
    apply ionic_rx_fill_slot_ok in Hslot; [| lia | lia | lia].
    destruct Hslot as (Hh1 & Ht1 & Hn1 & Hl1 & Hm1 & Hd1 & Hlen1 & Hframe1
                       & di1 & Hdi1 & Hfilled1).
    pose proof (ring_next_range q k (head_idx q) Hk HN) as Hrange.
    apply IH in Hrec; [| lia | lia | lia | congruence | rewrite Hh1, Hn1; lia].
    destruct Hrec as (Hh' & Ht' & Hn' & Hl' & Hm' & Hd' & Hlen' & Hframe'
                      & Hfilled').
    rewrite (ring_walk_ext q q1) in Hframe', Hfilled' by exact Hn1.
    rewrite Hh1 in Hframe', Hfilled'. rewrite Hm1 in Hfilled'.
    split.
    { rewrite Hh', Hh1, Hn1, (ring_next_mod q k) by assumption.
      rewrite Z.add_mod_idemp_l by lia. f_equal. lia. }
    split; [congruence |]. split; [congruence |]. split; [congruence |].
    split; [congruence |]. split; [congruence |]. split; [congruence |].
    change (ring_walk q (head_idx q) (S i))
      with (head_idx q :: ring_walk q (ring_next q (head_idx q)) i).
    split.
    { intros j Hj Hnot. apply not_elem_of_cons in Hnot as [Hne Hnot].
      rewrite Hframe' by assumption. apply Hframe1; assumption. }
    intros j Hin.
    destruct (decide (j ∈ ring_walk q (ring_next q (head_idx q)) i))
      as [Hin' | Hnot]; [apply Hfilled'; exact Hin' |].
    apply elem_of_cons in Hin as [-> | Hin]; [| contradiction].
    exists di1. split; [| exact Hfilled1].
    rewrite Hframe' by (assumption || lia). exact Hdi1.
Qed.

(** What [ionic_rx_fill] did when it rang the doorbell. *)
Lemma ionic_rx_fill_rang w q w' q' :
  ionic_rx_fill w q = Some (w', q') →
  doorbells w' ≠ doorbells w →
  ∃ w1,
    ionic_rx_fill_loop (Z.to_nat (ionic_q_space_avail q))
      (u32 (mtu (lif q) + ETH_HLEN))
      (IONIC_PAGE_SIZE / ALIGN (u32 (mtu (lif q) + ETH_HLEN)) IONIC_PAGE_SPLIT_SZ)
      w q = Some (true, w1, q') ∧
    doorbells w' = doorbells w ++ [Z.lor (dbval q') (head_idx q')].
Proof.
  unfold ionic_rx_fill.
  destruct (ALIGN _ _ =? 0); [discriminate |].
  destruct (ionic_rx_fill_loop _ _ _ _ _) as [[[ok w1] q1] |] eqn:Hloop;
    [| discriminate].
  cbn [bind_opt].
  destruct (ionic_rx_fill_loop_inv _ _ _ _ _ _ _ _ Hloop) as [Hd _].
  destruct ok; intros [= <- <-] Hrang.
  - exists w1. split; [reflexivity |]. rewrite <- Hd. destruct w1; reflexivity.
  - congruence.
Qed.

Lemma space_avail_after_fill (N h t : Z) :
  0 < N → 0 ≤ h < N → 0 ≤ t < N →
  let a := N - 1 - (h - t) mod N in
  0 ≤ a < N ∧ N - 1 - ((h + a) mod N - t) mod N = 0.
Proof.
  intros HN Hh Ht a. pose proof (Z.mod_pos_bound (h - t) N HN) as Hd.
  split; [lia |].
  rewrite Zminus_mod_idemp_l.
  replace (h + a - t) with ((h - t) mod N + (N * ((h - t) / N) + (N - 1 - (h - t) mod N)))
    by (subst a; pose proof (Z.div_mod (h - t) N ltac:(lia)); lia).
  replace ((h - t) mod N + (N * ((h - t) / N) + (N - 1 - (h - t) mod N)))
    with (N - 1 + (h - t) / N * N) by lia.
  rewrite Z.mod_add by lia. rewrite Z.mod_small by lia. lia.
Qed.

(** X4: a pass of [ionic_rx_fill] that rings the doorbell has filled the ring:
    [head] moved on by exactly the number of slots that were free, [tail]
    did not move, no slot is free afterwards, and the one value written to
    the doorbell is [dbval] combined with the new [head]. *)
Theorem ionic_rx_fill_doorbell_means_full
    (w : world) (q : ionic_queue ionic_rxq_desc) (w' : world)
    (q' : ionic_queue ionic_rxq_desc) :
  ring_shape q →
  0 ≤ head_idx q < num_descs q → 0 ≤ tail_idx q < num_descs q →
  0 ≤ max_sg_elems q < 2 ^ 32 - 1 →
  ionic_rx_fill w q = Some (w', q') →
  doorbells w' ≠ doorbells w →
  head_idx q' = (head_idx q + ionic_q_space_avail q) mod num_descs q ∧
  tail_idx q' = tail_idx q ∧ num_descs q' = num_descs q ∧
  ionic_q_space_avail q' = 0 ∧
  doorbells w' = doorbells w ++ [Z.lor (dbval q) (head_idx q')].
Proof.
  intros ((k & Hk & HN) & Hlen) Hh Ht Hmax Hfill Hrang.
  destruct (ionic_rx_fill_rang _ _ _ _ Hfill Hrang) as (w1 & Hloop & Hdb).
  assert (HNpos : 0 < num_descs q) by (rewrite HN; apply Z.pow_pos_nonneg; lia).
  pose proof (space_avail_after_fill (num_descs q) (head_idx q) (tail_idx q)
                HNpos Hh Ht) as Havail. cbv zeta in Havail.
  fold (ionic_q_space_avail q) in Havail. destruct Havail as [Ha Hzero].
  apply (ionic_rx_fill_loop_ok k) in Hloop;
    [| apply u32_range | exact Hmax | lia | exact HN | exact Hh].
  destruct Hloop as (Hh' & Ht' & Hn' & _ & _ & Hd' & _).
  rewrite Z2Nat.id in Hh' by lia.
  split; [exact Hh' |]. split; [exact Ht' |]. split; [exact Hn' |].
  split; [| rewrite Hdb, Hd'; reflexivity].
  unfold ionic_q_space_avail at 1. rewrite Hn', Ht', Hh'. exact Hzero.
Qed.

(** X5: every slot a completed pass of [ionic_rx_fill] has posted is ready for
    the device: it carries the receive callback, every fragment it counts
    has a page, the descriptor and the scatter-gather elements point at
    those fragments, and together they describe one frame of MTU plus
    Ethernet header bytes (fewer only when the scatter-gather elements ran
    out).  Slots outside the posted range are as they were. *)
Theorem ionic_rx_fill_posts_ready_slots
    (w : world) (q : ionic_queue ionic_rxq_desc) (w' : world)
    (q' : ionic_queue ionic_rxq_desc) :
  ring_shape q →
  0 ≤ head_idx q < num_descs q → 0 ≤ tail_idx q < num_descs q →
  0 ≤ max_sg_elems q < 2 ^ 32 - 1 →
  ionic_rx_fill w q = Some (w', q') →
  doorbells w' ≠ doorbells w →
  let posted :=
    ring_walk q (head_idx q) (Z.to_nat (ionic_q_space_avail q)) in
  (∀ j, j ∈ posted →
     ∃ di', q_info q' j = Some di' ∧
            rx_slot_filled (u32 (mtu (lif q) + ETH_HLEN)) (max_sg_elems q) di') ∧
  (∀ j, 0 ≤ j → j ∉ posted → q_info q' j = q_info q j).
Proof.
  intros ((k & Hk & HN) & Hlen) Hh Ht Hmax Hfill Hrang posted.
  destruct (ionic_rx_fill_rang _ _ _ _ Hfill Hrang) as (w1 & Hloop & Hdb).
  apply (ionic_rx_fill_loop_ok k) in Hloop;
    [| apply u32_range | exact Hmax | lia | exact HN | exact Hh].
  destruct Hloop as (_ & _ & _ & _ & _ & _ & _ & Hframe & Hfilled).
  split; [exact Hfilled | exact Hframe].
Qed.

End FillSuccess.

Lemma ionic_rx_fill_doorbell_means_full_witness :
  ∃ w' q',
    @ionic_rx_fill hdr_4k world_fill7 (rxq8 lif0 0 0) = Some (w', q') ∧
    head_idx q' = 7 ∧ tail_idx q' = 0 ∧ ionic_q_space_avail q' = 0 ∧
    doorbells w' = [7].
Proof.
  destruct (@ionic_rx_fill hdr_4k world_fill7 (rxq8 lif0 0 0))
    as [[w' q'] |] eqn:Hfill; [| vm_compute in Hfill; discriminate Hfill].
  exists w', q'. split; [reflexivity |].
  assert (Hshape : ring_shape (rxq8 lif0 0 0)).
  { split; [exists 3; split; [lia | reflexivity] | reflexivity]. }
  destruct (@ionic_rx_fill_doorbell_means_full hdr_4k world_fill7
              (rxq8 lif0 0 0) w' q' Hshape ltac:(by_eval) ltac:(by_eval)
              ltac:(by_eval) Hfill)
    as (Hh & Ht & Hn & Ha & Hd).
  - vm_compute in Hfill. injection Hfill as <- <-. vm_compute. discriminate.
  - vm_compute in Hfill. injection Hfill as <- <-.
    split; [reflexivity |]. split; [reflexivity |]. split; [exact Ha | exact Hd].
Defined.

Lemma ionic_rx_fill_posts_ready_slots_witness :
  ∃ w' q' di',
    @ionic_rx_fill hdr_4k world_fill7 (rxq8 lif0 0 0) = Some (w', q') ∧
    q_info q' 3 = Some di' ∧ @rx_slot_filled hdr_4k 1514 8 di' ∧
    q_info q' 7 = q_info (rxq8 lif0 0 0) 7.
Proof.
  destruct (@ionic_rx_fill hdr_4k world_fill7 (rxq8 lif0 0 0))
    as [[w' q'] |] eqn:Hfill; [| vm_compute in Hfill; discriminate Hfill].
  assert (Hshape : ring_shape (rxq8 lif0 0 0)).
  { split; [exists 3; split; [lia | reflexivity] | reflexivity]. }
  destruct (@ionic_rx_fill_posts_ready_slots hdr_4k world_fill7
              (rxq8 lif0 0 0) w' q' Hshape ltac:(by_eval) ltac:(by_eval)
              ltac:(by_eval) Hfill)
    as (Hposted & Hrest).
  - vm_compute in Hfill. injection Hfill as <- <-. vm_compute. discriminate.
  - destruct (Hposted 3) as (di' & Hdi' & Hfilled).
    { vm_compute. do 3 right. left. }
    exists w', q', di'. split; [reflexivity |]. split; [exact Hdi' |].
    split; [exact Hfilled |]. apply Hrest; [lia |].
    vm_compute. intros Hin.
    repeat (apply elem_of_cons in Hin as [Hin | Hin]; [discriminate Hin |]).
    apply elem_of_nil in Hin. exact Hin.
Defined.

(** ** Receive ring teardown *)

Section RxEmpty.
Context `{ionic_hdr}.
Implicit Types (q : ionic_queue ionic_rxq_desc).

Lemma ionic_rx_page_free_spec w b w1 b1 :
  ionic_rx_page_free w b = (w1, b1) →
  page b1 = None ∧ doorbells w1 = doorbells w ∧
  gro_received w1 = gro_received w ∧ freed_skbs w1 = freed_skbs w.
Proof.
  unfold ionic_rx_page_free. destruct (page b) as [p |] eqn:Hp.
  - intros [= <- <-]. split; [reflexivity |].
    unfold __free_pages, page_ref_sub, page_ref_add, dma_unmap.
    repeat match goal with
           | |- context [if ?c then _ else _] => destruct c
           end; destruct w; auto.
  - intros [= <- <-]. auto.
Qed.

Lemma rx_empty_bufs_spec n : ∀ i w bs,
  (i + n ≤ length bs)%nat →
  ∃ w' bs',
    rx_empty_bufs n i w bs = Some (w', bs') ∧ length bs' = length bs ∧
    (∀ t, (i ≤ t < i + n)%nat → ∃ b, bs' !! t = Some b ∧ page b = None) ∧
    (∀ t, (t < i ∨ i + n ≤ t)%nat → bs' !! t = bs !! t) ∧
    doorbells w' = doorbells w ∧ gro_received w' = gro_received w ∧
    freed_skbs w' = freed_skbs w.
Proof.
  induction n as [| n IH]; intros i w bs Hlen; cbn [rx_empty_bufs].
  - exists w, bs. repeat split; auto. intros t Ht. lia.
  - destruct (lookup_lt_is_Some_2 bs i ltac:(lia)) as [b Hb].
    rewrite Hb. cbn [bind_opt].
    destruct (ionic_rx_page_free w b) as [w1 b1] eqn:Hfree.
    apply ionic_rx_page_free_spec in Hfree as (Hp & Hd & Hg & Hf).
    destruct (IH (S i) w1 (<[i := b1]> bs)) as
      (w' & bs' & Hrun & Hlen' & Hnone & Hsame & Hd' & Hg' & Hf').
    { rewrite length_insert. lia. }
    exists w', bs'. split; [exact Hrun |].
    rewrite length_insert in Hlen'. split; [exact Hlen' |]. split.
    { intros t Ht. destruct (decide (t = i)) as [-> | Hne].
      - exists b1. split; [| exact Hp]. rewrite Hsame by lia.
        apply list_lookup_insert_eq. lia.
      - apply Hnone. lia. }
    split.
    { intros t Ht. rewrite Hsame by lia. apply list_lookup_insert_ne. lia. }
    split; [congruence |]. split; congruence.
Qed.

Lemma rx_empty_bufs_id n : ∀ i w bs,
  (∀ t, (i ≤ t < i + n)%nat → ∃ b, bs !! t = Some b ∧ page b = None) →
  rx_empty_bufs n i w bs = Some (w, bs).
Proof.
  induction n as [| n IH]; intros i w bs Hnone; cbn [rx_empty_bufs];
    [reflexivity |].
  destruct (Hnone i ltac:(lia)) as (b & Hb & Hp).
  rewrite Hb. cbn [bind_opt]. rewrite (ionic_rx_page_free_empty w b Hp).
  rewrite (list_insert_id _ _ _ Hb). apply IH. intros t Ht. apply Hnone. lia.
Qed.

Lemma rx_ring_ok_slot q i di :
  rx_ring_ok q → q_info q i = Some di →
  (Z.to_nat (npages di) ≤ length (bufs di))%nat.
Proof.
  intros [_ Hall] Hq. unfold q_info in Hq. destruct (i <? 0); [discriminate |].
  rewrite Forall_lookup in Hall. exact (Hall _ _ Hq).
Qed.

Lemma rx_ring_ok_set_info q i di di' :
  rx_ring_ok q → q_info q i = Some di →
  (Z.to_nat (npages di') ≤ length (bufs di'))%nat →
  rx_ring_ok (q_set_info i di' q).
Proof.
  intros [Hshape Hall] Hq Hnp. split; [apply ring_shape_set_info; exact Hshape |].
  destruct q; cbn in *. apply Forall_insert; assumption.
Qed.

Lemma ring_distance_step {D} (qq : ionic_queue D) k r h n :
  0 ≤ k → num_descs qq = 2 ^ k → 0 ≤ r < num_descs qq → 0 ≤ h < num_descs qq →
  (h - r) mod num_descs qq = Z.of_nat (S n) →
  r ≠ h ∧ 0 ≤ ring_next qq r < num_descs qq ∧
  (h - ring_next qq r) mod num_descs qq = Z.of_nat n.
Proof.
  intros Hk HN Hr Hh Hn. rewrite sub_mod_cases in Hn by lia.
  split; [destruct (Z.leb_spec r h); lia |].
  split; [eapply ring_next_range; eassumption |].
  rewrite (ring_next_cases qq k r Hk HN Hr).
  destruct (Z.ltb_spec (r + 1) (num_descs qq));
    rewrite sub_mod_cases by lia;
    destruct (Z.leb_spec r h);
    match goal with |- context [?a <=? ?b] => destruct (Z.leb_spec a b) end;
    lia.
Qed.

Lemma ring_distance_zero {D} (qq : ionic_queue D) r h :
  0 ≤ r < num_descs qq → 0 ≤ h < num_descs qq →
  (h - r) mod num_descs qq = 0 → r = h.
Proof.
  intros Hr Hh Hn. rewrite sub_mod_cases in Hn by lia.
  destruct (Z.leb_spec r h); lia.
Qed.

(** The loop of [ionic_rx_empty] over the [n] slots from [idx] to [head]. *)
Lemma ionic_rx_empty_loop_spec n : ∀ idx w q fuel,
  rx_ring_ok q →
  0 ≤ idx < num_descs q → 0 ≤ head_idx q < num_descs q →
  (head_idx q - idx) mod num_descs q = Z.of_nat n →
  (n ≤ fuel)%nat →
  ∃ w' q',
    ionic_rx_empty_loop fuel idx w q = Some (w', q') ∧
    head_idx q' = head_idx q ∧ tail_idx q' = tail_idx q ∧
    num_descs q' = num_descs q ∧ rx_ring_ok q' ∧
    (∀ i, i ∈ ring_walk q idx n →
       ∃ di di', q_info q i = Some di ∧ q_info q' i = Some di' ∧
                 rx_slot_emptied di' ∧ npages di' = npages di ∧
                 index di' = index di ∧ cb di' = cb di) ∧
    (∀ j, 0 ≤ j → j ∉ ring_walk q idx n → q_info q' j = q_info q j) ∧
    doorbells w' = doorbells w ∧ gro_received w' = gro_received w ∧
    freed_skbs w' = freed_skbs w.
Proof.
  induction n as [| n IH]; intros idx w q fuel Hok Hidx Hh Hn Hfuel;
    pose proof Hok as (((k & Hk & HN) & Hlen) & Hall).
  - apply ring_distance_zero in Hn; [| assumption | assumption]. subst idx.
    exists w, q. split.
    { destruct fuel; cbn [ionic_rx_empty_loop]; rewrite Z.eqb_refl; reflexivity. }
    do 3 (split; [reflexivity |]). split; [exact Hok |]. cbn [ring_walk]. split.
    { intros i Hi. apply elem_of_nil in Hi. contradiction. }
    auto.
  - destruct (ring_distance_step q k idx (head_idx q) n ltac:(lia) HN Hidx Hh Hn)
      as (Hne & Hnr & Hn1).
    destruct fuel as [| fuel]; [lia |]. cbn [ionic_rx_empty_loop].
    destruct (Z.eqb_spec idx (head_idx q)) as [? | _]; [contradiction |].
    destruct (q_info_in_range q idx ltac:(lia)) as [di Hdi].
    rewrite Hdi. cbn [bind_opt].
    pose proof (rx_ring_ok_slot q idx di Hok Hdi) as Hnp.
    destruct di as [d sg ix c ca bs np by_]. cbn in Hnp |- *.
    destruct (rx_empty_bufs_spec (Z.to_nat np) 0 w bs ltac:(lia))
      as (w1 & bs1 & Hrun & Hlen1 & Hnone & Hsame & Hd1 & Hg1 & Hf1).
    rewrite Hrun. cbn [bind_opt].
    set (di1 := Build_ionic_desc_info (set_rxd_addr_len 0 0 d) sg ix c None
                  bs1 np by_).
    assert (Hok1 : rx_ring_ok (q_set_info idx di1 q)).
    { eapply rx_ring_ok_set_info; [exact Hok | exact Hdi |]. cbn. lia. }
    destruct (q_set_info_fields idx di1 q) as (Hh1 & Ht1 & HN1 & _ & Hlen1').
    assert (Hpow : 2 ^ k ≤ 2 ^ 16) by (apply Z.pow_le_mono_r; lia).
    assert (Hnext : ring_next (q_set_info idx di1 q) idx = ring_next q idx)
      by (unfold ring_next; rewrite HN1; reflexivity).
    rewrite Hnext, (u16_small (ring_next q idx)) by lia.
    destruct (IH (ring_next q idx) w1 (q_set_info idx di1 q) fuel Hok1)
      as (w' & q' & Hloop & Hh' & Ht' & HN' & Hok' & Hemptied & Hframe
          & Hd' & Hg' & Hf'); [lia | lia | rewrite Hh1, HN1; exact Hn1 | lia |].
    rewrite (ring_walk_ext q (q_set_info idx di1 q)) in Hemptied, Hframe
      by exact HN1.
    exists w', q'. split; [exact Hloop |].
    split; [congruence |]. split; [congruence |]. split; [congruence |].
    split; [exact Hok' |].
    change (ring_walk q idx (S n)) with (idx :: ring_walk q (ring_next q idx) n).
    split.
    { intros i Hi.
      destruct (decide (i ∈ ring_walk q (ring_next q idx) n)) as [Hin | Hnot].
      - destruct (Hemptied i Hin) as (dj & dj' & Hdj & Hdj' & He & Hnpj & Hixj & Hcj).
        destruct (decide (i = idx)) as [-> | Hni].
        + rewrite (q_info_set_eq _ _ _ _ Hdi) in Hdj. injection Hdj as <-.
          eexists _, dj'. split; [exact Hdi |]. split; [exact Hdj' |].
          split; [exact He |]. cbn in *. auto 10.
        + destruct (q_info_Some _ _ _ Hdj) as [Hi0 _].
          rewrite q_info_set_ne in Hdj by lia.
          eexists dj, dj'. auto 10.
      - apply elem_of_cons in Hi as [-> | Hi]; [| contradiction].
        eexists _, di1. split; [exact Hdi |]. split.
        { rewrite Hframe by (assumption || lia).
          eapply q_info_set_eq. exact Hdi. }
        split; [| cbn; auto].
        unfold rx_slot_emptied. subst di1. cbn.
        split; [reflexivity |]. split; [reflexivity |]. split; [reflexivity |].
        intros t Ht. apply Hnone. lia. }
    split.
    { intros j Hj Hnot. apply not_elem_of_cons in Hnot as [Hnj Hnot].
      rewrite Hframe by assumption. apply q_info_set_ne; lia. }
    split; [congruence |]. split; congruence.
Qed.

(** On slots that are already emptied the loop changes nothing. *)
Lemma ionic_rx_empty_loop_id n : ∀ idx w q fuel,
  ring_shape q →
  0 ≤ idx < num_descs q → 0 ≤ head_idx q < num_descs q →
  (head_idx q - idx) mod num_descs q = Z.of_nat n →
  (n ≤ fuel)%nat →
  (∀ i, i ∈ ring_walk q idx n →
     ∃ di, q_info q i = Some di ∧ rx_slot_emptied di) →
  ionic_rx_empty_loop fuel idx w q = Some (w, q).
Proof.
  induction n as [| n IH]; intros idx w q fuel Hshape Hidx Hh Hn Hfuel Hall;
    pose proof Hshape as ((k & Hk & HN) & Hlen).
  - apply ring_distance_zero in Hn; [| assumption | assumption]. subst idx.
    destruct fuel; cbn [ionic_rx_empty_loop]; rewrite Z.eqb_refl; reflexivity.
  - destruct (ring_distance_step q k idx (head_idx q) n ltac:(lia) HN Hidx Hh Hn)
      as (Hne & Hnr & Hn1).
    destruct fuel as [| fuel]; [lia |]. cbn [ionic_rx_empty_loop].
    destruct (Z.eqb_spec idx (head_idx q)) as [? | _]; [contradiction |].
    change (ring_walk q idx (S n))
      with (idx :: ring_walk q (ring_next q idx) n) in Hall.
    destruct (Hall idx ltac:(left)) as (di & Hdi & Ha & Hl & Hca & Hnone).
    rewrite Hdi. cbn [bind_opt].
    destruct di as [[op ad ln] sg ix c ca bs np by_]. cbn in Ha, Hl, Hca, Hnone |- *.
    subst ad ln ca.
    rewrite (rx_empty_bufs_id (Z.to_nat np) 0 w bs)
      by (intros t Ht; apply Hnone; lia).
    cbn [bind_opt]. unfold set_rxd_addr_len. cbn.
    rewrite (q_set_info_id q idx _ Hdi).
    assert (Hpow : 2 ^ k ≤ 2 ^ 16) by (apply Z.pow_le_mono_r; lia).
    rewrite (u16_small (ring_next q idx)) by lia.
    apply IH; try assumption; try lia.
    intros i Hi. apply Hall. right. exact Hi.
Qed.

(** X6: [ionic_rx_empty] releases every slot in flight and moves no index: for
    each slot from [tail] up to [head] the descriptor address and length
    are zeroed, the callback argument is cleared and every fragment the
    slot counts is left without a page; [head] and [tail] stay where they
    were, slots outside that range are untouched, and no doorbell is rung,
    no packet delivered and none freed. *)
Theorem ionic_rx_empty_releases_in_flight
    (w : world) (q : ionic_queue ionic_rxq_desc) :
  rx_ring_ok q →
  0 ≤ head_idx q < num_descs q → 0 ≤ tail_idx q < num_descs q →
  let in_flight :=
    ring_walk q (tail_idx q)
      (Z.to_nat ((head_idx q - tail_idx q) mod num_descs q)) in
  ∃ w' q',
    ionic_rx_empty w q = Some (w', q') ∧
    head_idx q' = head_idx q ∧ tail_idx q' = tail_idx q ∧
    (∀ i, i ∈ in_flight →
       ∃ di di', q_info q i = Some di ∧ q_info q' i = Some di' ∧
                 rx_slot_emptied di' ∧ npages di' = npages di ∧
                 index di' = index di ∧ cb di' = cb di) ∧
    (∀ j, 0 ≤ j → j ∉ in_flight → q_info q' j = q_info q j) ∧
    doorbells w' = doorbells w ∧ gro_received w' = gro_received w ∧
    freed_skbs w' = freed_skbs w.
Proof.
  intros Hok Hh Ht in_flight.
  pose proof Hok as (((k & Hk & HN) & Hlen) & _).
  assert (Hpow : 2 ^ k ≤ 2 ^ 16) by (apply Z.pow_le_mono_r; lia).
  pose proof (Z.mod_pos_bound (head_idx q - tail_idx q) (num_descs q)
                ltac:(lia)) as Hd.
  unfold ionic_rx_empty. rewrite (u16_small (tail_idx q)) by lia.
  destruct (ionic_rx_empty_loop_spec
              (Z.to_nat ((head_idx q - tail_idx q) mod num_descs q))
              (tail_idx q) w q (S (length (info q))) Hok Ht Hh
              ltac:(lia) ltac:(lia))
    as (w' & q' & Hrun & Hh' & Ht' & _ & _ & Hemptied & Hframe & Hrest).
  exists w', q'. auto 10.
Qed.

(** X7: running [ionic_rx_empty] a second time changes nothing: the slots it
    walks are already released. *)
Theorem ionic_rx_empty_idempotent
    (w : world) (q : ionic_queue ionic_rxq_desc) :
  rx_ring_ok q →
  0 ≤ head_idx q < num_descs q → 0 ≤ tail_idx q < num_descs q →
  ∃ w' q',
    ionic_rx_empty w q = Some (w', q') ∧
    ionic_rx_empty w' q' = Some (w', q').
Proof.
  intros Hok Hh Ht.
  pose proof Hok as (((k & Hk & HN) & Hlen) & _).
  assert (Hpow : 2 ^ k ≤ 2 ^ 16) by (apply Z.pow_le_mono_r; lia).
  pose proof (Z.mod_pos_bound (head_idx q - tail_idx q) (num_descs q)
                ltac:(lia)) as Hd.
  unfold ionic_rx_empty. rewrite (u16_small (tail_idx q)) by lia.
  destruct (ionic_rx_empty_loop_spec
              (Z.to_nat ((head_idx q - tail_idx q) mod num_descs q))
              (tail_idx q) w q (S (length (info q))) Hok Ht Hh
              ltac:(lia) ltac:(lia))
    as (w' & q' & Hrun & Hh' & Ht' & HN' & Hok' & Hemptied & _).
  exists w', q'. split; [exact Hrun |].
  pose proof Hok' as ((_ & Hlen') & _).
  rewrite Ht', (u16_small (tail_idx q)) by lia.
  apply (ionic_rx_empty_loop_id
           (Z.to_nat ((head_idx q - tail_idx q) mod num_descs q)));
    [apply Hok' | lia | lia | rewrite Hh', HN'; lia | lia |].
  rewrite (ring_walk_ext q q') by exact HN'.
  intros i Hi. destruct (Hemptied i Hi) as (di & di' & _ & Hdi' & He & _).
  eauto.
Qed.

End RxEmpty.

Lemma rx_ring_ok_rxq_filled : rx_ring_ok rxq_filled.
Proof.
  split; [split; [exists 3; split; [lia | reflexivity] | reflexivity] |].
  unfold rxq_filled.
  match goal with
  | |- Forall ?P ?l =>
      let l' := eval vm_compute in l in change (Forall P l')
  end.
  repeat constructor.
Qed.

Lemma ionic_rx_empty_releases_in_flight_witness :
  head_idx rxq_filled = 7 ∧ tail_idx rxq_filled = 0 ∧
  ∃ w' q' di',
    @ionic_rx_empty hdr_4k world_filled rxq_filled = Some (w', q') ∧
    head_idx q' = 7 ∧ tail_idx q' = 0 ∧
    q_info q' 6 = Some di' ∧ rx_slot_emptied di' ∧
    q_info q' 7 = q_info rxq_filled 7 ∧
    doorbells w' = doorbells world_filled.
Proof.
  split; [reflexivity |]. split; [reflexivity |].
  destruct (@ionic_rx_empty_releases_in_flight hdr_4k world_filled rxq_filled
              rx_ring_ok_rxq_filled ltac:(by_eval) ltac:(by_eval))
    as (w' & q' & Hrun & Hh & Ht & Hemptied & Hframe & Hd & _).
  destruct (Hemptied 6) as (di & di' & _ & Hdi' & He & _).
  { vm_compute. do 6 right. left. }
  exists w', q', di'. split; [exact Hrun |].
  split; [exact Hh |]. split; [exact Ht |]. split; [exact Hdi' |].
  split; [exact He |]. split; [| exact Hd].
  apply Hframe; [lia |]. vm_compute. intros Hin.
  repeat (apply elem_of_cons in Hin as [Hin | Hin]; [discriminate Hin |]).
  apply elem_of_nil in Hin. exact Hin.
Defined.

Lemma ionic_rx_empty_idempotent_witness :
  ∃ w' q',
    @ionic_rx_empty hdr_4k world_filled rxq_filled = Some (w', q') ∧
    dma_maps world_filled ≠ [] ∧ dma_maps w' = [] ∧
    @ionic_rx_empty hdr_4k w' q' = Some (w', q').
Proof.
  destruct (@ionic_rx_empty_idempotent hdr_4k world_filled rxq_filled
              rx_ring_ok_rxq_filled ltac:(by_eval) ltac:(by_eval))
    as (w' & q' & Hrun & Hagain).
  exists w', q'. split; [exact Hrun |]. split; [by_eval |].
  split; [| exact Hagain].
  vm_compute in Hrun. injection Hrun as <- _. reflexivity.
Defined.

(** ** Transmit: what cleanup does to the world *)

Section TxCleanWorld.
Context `{ionic_hdr}.
Implicit Types (q : ionic_queue ionic_txq_desc).

Lemma world_frame_set_dma_maps v w :
  doorbells (set_dma_maps v w) = doorbells w ∧
  subqueue_stopped (set_dma_maps v w) = subqueue_stopped w ∧
  gro_received (set_dma_maps v w) = gro_received w ∧
  page_refs (set_dma_maps v w) = page_refs w ∧
  txs (set_dma_maps v w) = txs w.
Proof. destruct w; cbn. auto. Qed.

Lemma world_frame_freed id w :
  let w' := tx_clean_inc (dev_kfree_skb id w) in
  dma_maps w' = dma_maps w ∧ doorbells w' = doorbells w ∧
  subqueue_stopped w' = subqueue_stopped w.
Proof. destruct w as [? ? ? ? ? ? ? ? ? ? ? ? ? [] ?]; cbn. auto. Qed.

Lemma world_frame_wake qi w :
  dma_maps (netif_wake_subqueue qi w) = dma_maps w ∧
  doorbells (netif_wake_subqueue qi w) = doorbells w ∧
  subqueue_stopped (netif_wake_subqueue qi w) = subqueue_stopped w ∖ {[qi]}.
Proof. destruct w; cbn. auto. Qed.

(** Besides freeing the packet, [ionic_tx_clean] removes the mappings the
    slot records, rings no doorbell, and wakes the packet's subqueue only
    when it was given a completion. *)
Lemma ionic_tx_clean_world w q i di cq_info arg w' q' :
  q_info q i = Some di →
  (Z.to_nat (cmd_nsge (cmd (desc di))) ≤ length (sg_desc di))%nat →
  ionic_tx_clean w q i cq_info arg = Some (w', q') →
  dma_maps w' = slot_unmap di (dma_maps w) ∧
  doorbells w' = doorbells w ∧
  (cq_info = false →
     subqueue_stopped w' = subqueue_stopped w ∧ q_wake q' = q_wake q) ∧
  (cq_info = true → ∀ skb, arg = Some skb →
     u16 (queue_mapping skb) ∉ subqueue_stopped w') ∧
  subqueue_stopped w' ⊆ subqueue_stopped w.
Proof.
  intros Hdi Hn. destruct arg as [skb |].
  2:{ rewrite (ionic_tx_clean_no_arg w q i di cq_info Hdi Hn).
      intros [= <- <-]. rewrite dma_maps_set.
      destruct (world_frame_set_dma_maps (slot_unmap di (dma_maps w)) w)
        as (-> & -> & _).
      split; [reflexivity |]. split; [reflexivity |].
      split; [auto |]. split; [intros _ skb; discriminate | reflexivity]. }
  unfold ionic_tx_clean. rewrite Hdi. cbn [bind_opt].
  match goal with
  | |- context [tx_clean_elems ?n ?i ?e ?w0] =>
      rewrite (tx_clean_elems_spec n i e w0) by (cbn; lia)
  end.
  cbn [bind_opt].
  set (m := foldl _ _ _).
  assert (Hm : m = slot_unmap di (dma_maps w)).
  { subst m. unfold slot_unmap, dma_unmap_single, dma_unmap_page, dma_unmap.
    destruct (_ || _); rewrite dma_maps_set; reflexivity. }
  match goal with
  | |- context [set_dma_maps m ?w0] => set (wu := set_dma_maps m w0)
  end.
  assert (Hwu : dma_maps wu = m ∧ doorbells wu = doorbells w ∧
                subqueue_stopped wu = subqueue_stopped w).
  { subst wu. unfold dma_unmap_single, dma_unmap_page, dma_unmap.
    destruct (_ || _); destruct w; cbn; auto. }
  clearbody wu m. destruct Hwu as (Hmu & Hdu & Hsu).
  unfold __netif_subqueue_stopped. rewrite Hsu.
  set (qi := u16 (queue_mapping skb)).
  intros [= <- <-].
  match goal with
  | |- context [tx_clean_inc (dev_kfree_skb ?id ?wx)] =>
      destruct (world_frame_freed id wx) as (-> & -> & ->)
  end.
  assert (Hwq : ∀ i0 d0 (qq : ionic_queue ionic_txq_desc),
            q_wake (q_set_info i0 d0 qq) = q_wake qq)
    by (intros; destruct qq; reflexivity).
  rewrite Hwq.
  destruct (world_frame_wake qi wu) as (Hwm & Hwd & Hws).
  destruct (bool_decide (qi ∈ subqueue_stopped w)) eqn:Hst;
    destruct cq_info; cbn [andb].
  - rewrite Hwm, Hwd, Hws. split; [congruence |]. split; [congruence |].
    split; [discriminate |]. split.
    + intros _ skb' [= <-]. fold qi.
      apply not_elem_of_difference. right. apply elem_of_singleton. reflexivity.
    + rewrite Hsu. apply subseteq_difference_l. reflexivity.
  - split; [congruence |]. split; [congruence |].
    split; [auto |]. split; [discriminate | rewrite Hsu; reflexivity].
  - apply bool_decide_eq_false in Hst.
    split; [congruence |]. split; [congruence |].
    split; [discriminate |]. split; [| rewrite Hsu; reflexivity].
    intros _ skb' [= <-]. fold qi. congruence.
  - split; [congruence |]. split; [congruence |].
    split; [auto |]. split; [discriminate | rewrite Hsu; reflexivity].
Qed.

(** One turn of the service and teardown loops. *)
Lemma tx_pop_clean_spec cq_info w q di :
  tx_ring_ok q → q_info q (tail_idx q) = Some di →
  ∃ w1 q1 di1,
    tx_pop_clean cq_info w q = Some (w1, q1) ∧
    freed_skbs w1 = freed_skbs w ++ (match cb_arg di with
                                     | Some s => [skb_id s]
                                     | None => []
                                     end) ∧
    dma_maps w1 = slot_unmap di (dma_maps w) ∧
    doorbells w1 = doorbells w ∧
    (cq_info = false →
       subqueue_stopped w1 = subqueue_stopped w ∧ q_wake q1 = q_wake q) ∧
    (cq_info = true → ∀ skb, cb_arg di = Some skb →
       u16 (queue_mapping skb) ∉ subqueue_stopped w1) ∧
    subqueue_stopped w1 ⊆ subqueue_stopped w ∧
    tail_idx q1 = ring_next q (tail_idx q) ∧ head_idx q1 = head_idx q ∧
    num_descs q1 = num_descs q ∧ length (info q1) = length (info q) ∧
    (∀ j, 0 ≤ j → j ≠ tail_idx q → q_info q1 j = q_info q j) ∧
    q_info q1 (tail_idx q) = Some di1 ∧ cb di1 = None ∧ cb_arg di1 = None ∧
    index di1 = index di ∧ desc di1 = desc di ∧ sg_desc di1 = sg_desc di.
Proof.
  intros (_ & Hnsge) Hdi. unfold tx_pop_clean.
  rewrite Hdi. cbn [bind_opt].
  destruct (q_info_Some _ _ _ Hdi) as [Ht0 _].
  set (qa := q_set_info (tail_idx q) (set_bytes 0 di) q).
  destruct (q_set_info_fields (tail_idx q) (set_bytes 0 di) q)
    as (Hha & Hta & HNa & _ & Hla).
  fold qa in Hha, Hta, HNa, Hla.
  replace (ring_next qa (tail_idx qa)) with (ring_next q (tail_idx q))
    by (unfold ring_next; rewrite HNa, Hta; reflexivity).
  set (qb := set_tail_idx (ring_next q (tail_idx q)) qa).
  destruct (set_bytes_fields 0 di) as (Hi0 & Hd0 & Hs0 & Hc0 & Ha0).
  assert (Hdib : q_info qb (tail_idx q) = Some (set_bytes 0 di)).
  { unfold qb. rewrite q_info_set_tail_idx. eapply q_info_set_eq; eauto. }
  assert (Hnb : (Z.to_nat (cmd_nsge (cmd (desc (set_bytes 0 di))))
                 ≤ length (sg_desc (set_bytes 0 di)))%nat).
  { rewrite Hd0, Hs0. eapply Hnsge; eauto. }
  destruct (ionic_tx_clean_spec w qb (tail_idx q) (set_bytes 0 di) cq_info
              (cb_arg di) Hdib Hnb)
    as (w1 & qc & dic & Hclean & Hfreed & Hhc & Htc & HNc & Hlc & Hoc & Hdic
        & Hic & Hdc & Hsc & _).
  destruct (ionic_tx_clean_world _ _ _ _ _ _ _ _ Hdib Hnb Hclean)
    as (Hmaps & Hdb & Hquiet & Hwake & Hmono).
  rewrite Hclean. cbn [bind_opt]. rewrite Hdic. cbn [bind_opt].
  destruct (clear_cb_fields dic) as (Hcb & Harg & Hi1 & Hd1 & Hs1).
  set (di1 := set_cb_arg None (set_cb None dic)) in *.
  exists w1, (q_set_info (tail_idx q) di1 qc), di1.
  split; [reflexivity |]. split; [exact Hfreed |].
  split.
  { rewrite Hmaps. unfold slot_unmap. rewrite Hd0, Hs0. reflexivity. }
  split; [exact Hdb |].
  assert (Hwq : ∀ i0 d0 (qq : ionic_queue ionic_txq_desc),
            q_wake (q_set_info i0 d0 qq) = q_wake qq)
    by (intros; destruct qq; reflexivity).
  assert (Hwb : q_wake qb = q_wake q)
    by (subst qb qa; destruct q; reflexivity).
  split.
  { intros Hcq. destruct (Hquiet Hcq) as [Hs Hw].
    split; [exact Hs | rewrite Hwq; congruence]. }
  split.
  { intros Hcq skb Hskb. apply (Hwake Hcq skb Hskb). }
  split; [exact Hmono |].
  destruct (q_set_info_fields (tail_idx q) di1 qc) as (-> & -> & -> & _ & ->).
  destruct (set_tail_idx_fields (ring_next q (tail_idx q)) qa)
    as (Hhb & Htb & HNb & _ & Hib).
  fold qb in Hhb, Htb, HNb, Hib.
  split; [congruence |]. split; [congruence |]. split; [congruence |].
  split; [rewrite Hlc, Hib; exact Hla |].
  split.
  { intros j Hj Hne. rewrite q_info_set_ne by lia. rewrite Hoc by lia.
    unfold qb. rewrite q_info_set_tail_idx. unfold qa.
    apply q_info_set_ne; lia. }
  split; [eapply q_info_set_eq; eauto |].
  repeat split; congruence.
Qed.

Lemma ionic_tx_service_loop_step w q comp fuel di :
  q_info q (tail_idx q) = Some di →
  ionic_tx_service_loop (S fuel) w q comp
  = match tx_pop_clean true w q with
    | Some (w1, q1) =>
        match q_info q1 (tail_idx q) with
        | Some di1 =>
            if index di1 =? u16 (txc_comp_index comp) then Some (w1, q1)
            else ionic_tx_service_loop fuel w1 q1 comp
        | None => None
        end
    | None => None
    end.
Proof.
  intros Hdi. cbn [ionic_tx_service_loop]. unfold tx_pop_clean.
  rewrite Hdi. cbn [bind_opt].
  destruct (ionic_tx_clean _ _ _ _ _) as [[w1 q1] |]; [| reflexivity].
  cbn [bind_opt].
  destruct (q_info q1 (tail_idx q)) as [d1 |] eqn:Hd1; [| reflexivity].
  cbn [bind_opt].
  rewrite (q_info_set_eq _ _ _ _ Hd1). destruct d1; reflexivity.
Qed.

Lemma ionic_tx_empty_loop_step w q fuel :
  ionic_tx_empty_loop (S fuel) w q
  = if head_idx q =? tail_idx q then Some (w, q)
    else match tx_pop_clean false w q with
         | Some (w1, q1) => ionic_tx_empty_loop fuel w1 q1
         | None => None
         end.
Proof.
  cbn [ionic_tx_empty_loop]. unfold tx_pop_clean.
  destruct (head_idx q =? tail_idx q); [reflexivity |].
  destruct (q_info q (tail_idx q)) as [di |]; [| reflexivity].
  cbn [bind_opt].
  destruct (ionic_tx_clean _ _ _ _ _) as [[w1 q1] |]; [| reflexivity].
  cbn [bind_opt].
  destruct (q_info q1 (tail_idx q)) as [d1 |]; reflexivity.
Qed.

Lemma ring_walk_ahead {D} (qq : ionic_queue D) k n s i :
  0 ≤ k → num_descs qq = 2 ^ k → 0 ≤ s < num_descs qq →
  Z.of_nat n < num_descs qq →
  i ∈ ring_walk qq (ring_next qq s) n → 0 ≤ i ∧ i ≠ s.
Proof.
  intros Hk HN Hs Hn Hi.
  apply (ring_walk_elem qq k) in Hi;
    [| exact Hk | exact HN | eapply ring_next_range; eassumption].
  destruct Hi as (j & Hj & ->).
  rewrite (ring_next_mod qq k) by assumption.
  rewrite Z.add_mod_idemp_l by lia.
  pose proof (Z.mod_pos_bound (s + 1 + j) (num_descs qq) ltac:(lia)).
  split; [lia |]. intros Heq.
  pose proof (Z.div_mod (s + 1 + j) (num_descs qq) ltac:(lia)) as Hdm.
  rewrite Heq in Hdm.
  set (d := (s + 1 + j) / num_descs qq) in *.
  assert (Hd : 1 + j = num_descs qq * d) by lia.
  destruct (Z.le_gt_cases d 0); nia.
Qed.

Lemma foldl_ext_in {A B} (f g : A → B → A) (l : list B) : ∀ a,
  (∀ x m, x ∈ l → f m x = g m x) → foldl f a l = foldl g a l.
Proof.
  induction l as [| x l IH]; intros a Hfg; [reflexivity |].
  cbn [foldl]. rewrite (Hfg x a) by (apply elem_of_cons; auto).
  apply IH. intros y m Hy. apply Hfg. apply elem_of_cons. auto.
Qed.

(** [n] slots popped and cleaned in a row, within one turn of the ring. *)
Lemma tx_pop_n_spec cq_info n : ∀ w q,
  tx_ring_ok q → 0 ≤ tail_idx q < num_descs q → Z.of_nat n ≤ num_descs q →
  ∃ w' q',
    tx_pop_n cq_info n w q = Some (w', q') ∧
    tail_idx q' = (tail_idx q + Z.of_nat n) mod num_descs q ∧
    head_idx q' = head_idx q ∧ num_descs q' = num_descs q ∧
    freed_skbs w'
      = freed_skbs w ++ omap (slot_skb q) (ring_walk q (tail_idx q) n) ∧
    dma_maps w'
      = foldl (slot_unmap_at q) (dma_maps w) (ring_walk q (tail_idx q) n) ∧
    doorbells w' = doorbells w ∧
    subqueue_stopped w' ⊆ subqueue_stopped w ∧
    (cq_info = false →
       subqueue_stopped w' = subqueue_stopped w ∧ q_wake q' = q_wake q) ∧
    (cq_info = true → ∀ i di skb,
       i ∈ ring_walk q (tail_idx q) n → q_info q i = Some di →
       cb_arg di = Some skb →
       u16 (queue_mapping skb) ∉ subqueue_stopped w') ∧
    (∀ i, i ∈ ring_walk q (tail_idx q) n →
       ∃ di di', q_info q i = Some di ∧ q_info q' i = Some di' ∧
                 cb di' = None ∧ cb_arg di' = None ∧ index di' = index di ∧
                 desc di' = desc di ∧ sg_desc di' = sg_desc di) ∧
    (∀ j, 0 ≤ j → j ∉ ring_walk q (tail_idx q) n → q_info q' j = q_info q j).
Proof.
  induction n as [| n IH]; intros w q Hok Ht Hn;
    pose proof Hok as (((k & Hk & HN) & Hlen) & _).
  - exists w, q. cbn [tx_pop_n ring_walk omap foldl].
    rewrite Z.add_0_r, Z.mod_small, app_nil_r by lia.
    split; [reflexivity |]. do 6 (split; [reflexivity |]).
    split; [reflexivity |]. split; [auto |].
    split; [intros _ i di skb Hi; apply elem_of_nil in Hi; contradiction |].
    split; [intros i Hi; apply elem_of_nil in Hi; contradiction | auto].
  - destruct (q_info_in_range q (tail_idx q) ltac:(lia)) as [di Hdi].
    destruct (tx_pop_clean_spec cq_info w q di Hok Hdi)
      as (w1 & q1 & di1 & Hpop & Hfreed & Hmaps & Hdb & Hquiet & Hwake & Hmono
          & Ht1 & Hh1 & HN1 & Hl1 & Hother & Hdi1 & Hcb1 & Harg1 & Hi1 & Hd1
          & Hs1).
    assert (Hok1 : tx_ring_ok q1) by (eapply tx_ring_ok_step; eauto).
    pose proof (ring_next_range q k (tail_idx q) ltac:(lia) HN) as Hnr.
    destruct (IH w1 q1 Hok1 ltac:(rewrite Ht1, HN1; exact Hnr)
                ltac:(rewrite HN1; lia))
      as (w' & q' & Hrun & Ht' & Hh' & HN' & Hf' & Hm' & Hdb' & Hmono'
          & Hquiet' & Hwake' & Hcl' & Hout').
    rewrite Ht1 in Ht', Hf', Hm', Hwake', Hcl', Hout'.
    rewrite (ring_walk_ext q q1) in Hf', Hm', Hwake', Hcl', Hout' by exact HN1.
    assert (Hfar : ∀ i, i ∈ ring_walk q (ring_next q (tail_idx q)) n →
                        0 ≤ i ∧ i ≠ tail_idx q).
    { intros i Hi. eapply (ring_walk_ahead q k n); eauto; lia. }
    exists w', q'. cbn [tx_pop_n]. rewrite Hpop. cbn [bind_opt].
    split; [exact Hrun |].
    split.
    { rewrite Ht', HN1, (ring_next_mod q k) by (lia || assumption).
      rewrite Z.add_mod_idemp_l by lia. f_equal. lia. }
    split; [congruence |]. split; [congruence |].
    change (ring_walk q (tail_idx q) (S n))
      with (tail_idx q :: ring_walk q (ring_next q (tail_idx q)) n).
    split.
    { rewrite Hf', Hfreed, <- app_assoc. f_equal. rewrite omap_cons_eq.
      assert (Hsame : omap (slot_skb q1)
                        (ring_walk q (ring_next q (tail_idx q)) n)
                      = omap (slot_skb q)
                          (ring_walk q (ring_next q (tail_idx q)) n)).
      { apply omap_ext_in. intros i Hi.
        destruct (Hfar i Hi) as [Hi0 Hine]. unfold slot_skb.
        rewrite Hother by assumption. reflexivity. }
      rewrite Hsame.
      assert (Hs : slot_skb q (tail_idx q) = skb_id <$> cb_arg di)
        by (unfold slot_skb; rewrite Hdi; reflexivity).
      rewrite Hs. destruct (cb_arg di); reflexivity. }
    split.
    { rewrite Hm', Hmaps. cbn [foldl].
      assert (Hat : slot_unmap_at q (dma_maps w) (tail_idx q)
                    = slot_unmap di (dma_maps w))
        by (unfold slot_unmap_at; rewrite Hdi; reflexivity).
      rewrite Hat. apply foldl_ext_in. intros i m Hi.
      destruct (Hfar i Hi) as [Hi0 Hine]. unfold slot_unmap_at.
      rewrite Hother by assumption. reflexivity. }
    split; [congruence |].
    split; [etrans; eassumption |].
    split.
    { intros Hcq. destruct (Hquiet Hcq) as [Hs1' Hw1].
      destruct (Hquiet' Hcq) as [Hs2 Hw2]. split; congruence. }
    split.
    { intros Hcq i dj skb Hi Hdj Hskb.
      destruct (decide (i ∈ ring_walk q (ring_next q (tail_idx q)) n))
        as [Hin | Hnot].
      - destruct (Hfar i Hin) as [Hi0 Hine].
        apply (Hwake' Hcq i dj skb Hin); [| exact Hskb].
        rewrite Hother by assumption. exact Hdj.
      - apply elem_of_cons in Hi as [-> | Hi]; [| contradiction].
        assert (dj = di) as -> by congruence.
        intros Hstop. apply (Hwake Hcq skb Hskb). apply Hmono'. exact Hstop. }
    split.
    { intros i Hi.
      destruct (decide (i ∈ ring_walk q (ring_next q (tail_idx q)) n))
        as [Hin | Hnot].
      - destruct (Hfar i Hin) as [Hi0 Hine].
        destruct (Hcl' i Hin) as (dj & dj' & Hdj & Hrest).
        rewrite Hother in Hdj by assumption. eauto.
      - apply elem_of_cons in Hi as [-> | Hi]; [| contradiction].
        exists di, di1. split; [exact Hdi |].
        rewrite Hout' by (assumption || lia). auto 10. }
    intros j Hj Hnot. apply not_elem_of_cons in Hnot as [Hne Hnot].
    rewrite Hout' by assumption. apply Hother; assumption.
Qed.

Lemma ionic_tx_empty_loop_pop n : ∀ w q fuel,
  tx_ring_ok q →
  0 ≤ tail_idx q < num_descs q → 0 ≤ head_idx q < num_descs q →
  (head_idx q - tail_idx q) mod num_descs q = Z.of_nat n →
  (n ≤ fuel)%nat →
  ionic_tx_empty_loop fuel w q = tx_pop_n false n w q.
Proof.
  induction n as [| n IH]; intros w q fuel Hok Ht Hh Hn Hfuel;
    pose proof Hok as (((k & Hk & HN) & Hlen) & _).
  - apply ring_distance_zero in Hn; [| assumption | assumption].
    destruct fuel; cbn [ionic_tx_empty_loop tx_pop_n]; rewrite Hn, Z.eqb_refl;
      reflexivity.
  - destruct (ring_distance_step q k (tail_idx q) (head_idx q) n
                ltac:(lia) HN Ht Hh Hn) as (Hne & Hnr & Hn1).
    destruct fuel as [| fuel]; [lia |].
    rewrite ionic_tx_empty_loop_step.
    destruct (Z.eqb_spec (head_idx q) (tail_idx q)) as [? | _]; [congruence |].
    destruct (q_info_in_range q (tail_idx q) ltac:(lia)) as [di Hdi].
    destruct (tx_pop_clean_spec false w q di Hok Hdi)
      as (w1 & q1 & di1 & Hpop & _ & _ & _ & _ & _ & _
          & Ht1 & Hh1 & HN1 & Hl1 & Hother & Hdi1 & _ & _ & _ & Hd1 & Hs1).
    cbn [tx_pop_n]. rewrite Hpop. cbn [bind_opt].
    apply IH; [eapply tx_ring_ok_step; eauto | | | | lia];
      rewrite ?Ht1, ?Hh1, ?HN1; assumption.
Qed.

Lemma ionic_tx_service_loop_pop comp m : ∀ w q fuel,
  tx_ring_ok q → ring_indexed q →
  0 ≤ tail_idx q < num_descs q →
  0 ≤ u16 (txc_comp_index comp) < num_descs q →
  (u16 (txc_comp_index comp) - tail_idx q) mod num_descs q = Z.of_nat m →
  (m < fuel)%nat →
  ionic_tx_service_loop fuel w q comp = tx_pop_n true (S m) w q.
Proof.
  set (c := u16 (txc_comp_index comp)).
  induction m as [| m IH]; intros w q fuel Hok Hidx Ht Hc Hm Hfuel;
    (destruct fuel as [| fuel]; [lia |]);
    pose proof Hok as (((k & Hk & HN) & Hlen) & _);
    destruct (q_info_in_range q (tail_idx q) ltac:(lia)) as [di Hdi];
    rewrite (ionic_tx_service_loop_step w q comp fuel di Hdi);
    destruct (tx_pop_clean_spec true w q di Hok Hdi)
      as (w1 & q1 & di1 & Hpop & _ & _ & _ & _ & _ & _
          & Ht1 & Hh1 & HN1 & Hl1 & Hother & Hdi1 & _ & _ & Hi1 & Hd1 & Hs1);
    cbn [tx_pop_n]; rewrite Hpop, Hdi1; cbn [bind_opt];
    rewrite Hi1, (Hidx _ _ Hdi); fold c.
  - apply ring_distance_zero in Hm; [| assumption | assumption].
    rewrite Hm, Z.eqb_refl. reflexivity.
  - destruct (ring_distance_step q k (tail_idx q) c m ltac:(lia) HN Ht Hc Hm)
      as (Hne & Hnr & Hm1).
    destruct (Z.eqb_spec (tail_idx q) c) as [? | _]; [contradiction |].
    apply IH; [eapply tx_ring_ok_step; eauto
              | eapply ring_indexed_step; eauto | | | | lia];
      rewrite ?Ht1, ?HN1; assumption.
Qed.

(** X8: [ionic_tx_empty] drains the ring: every slot from [tail] up to [head]
    is cleaned in ring order, the packets those slots hold are freed once
    each, the mappings their descriptors record are removed, their
    callbacks are cleared, and [tail] ends at [head].  No doorbell is rung
    and, no completion being passed to the cleanup, no subqueue is woken
    and the wake counter does not move. *)
Theorem ionic_tx_empty_drains_ring
    (w : world) (q : ionic_queue ionic_txq_desc) :
  tx_ring_ok q →
  0 ≤ tail_idx q < num_descs q → 0 ≤ head_idx q < num_descs q →
  let in_flight :=
    ring_walk q (tail_idx q)
      (Z.to_nat ((head_idx q - tail_idx q) mod num_descs q)) in
  ∃ w' q',
    ionic_tx_empty w q = Some (w', q') ∧
    tail_idx q' = head_idx q ∧ head_idx q' = head_idx q ∧
    freed_skbs w' = freed_skbs w ++ omap (slot_skb q) in_flight ∧
    dma_maps w' = foldl (slot_unmap_at q) (dma_maps w) in_flight ∧
    doorbells w' = doorbells w ∧
    subqueue_stopped w' = subqueue_stopped w ∧ q_wake q' = q_wake q ∧
    (∀ i, i ∈ in_flight →
       ∃ di', q_info q' i = Some di' ∧ cb di' = None ∧ cb_arg di' = None) ∧
    (∀ j, 0 ≤ j → j ∉ in_flight → q_info q' j = q_info q j).
Proof.
  intros Hok Ht Hh in_flight.
  pose proof Hok as (((k & Hk & HN) & Hlen) & _).
  pose proof (Z.mod_pos_bound (head_idx q - tail_idx q) (num_descs q)
                ltac:(lia)) as Hd.
  set (n := Z.to_nat ((head_idx q - tail_idx q) mod num_descs q)) in *.
  unfold ionic_tx_empty.
  rewrite (ionic_tx_empty_loop_pop n) by (assumption || lia).
  destruct (tx_pop_n_spec false n w q Hok Ht ltac:(lia))
    as (w' & q' & Hrun & Ht' & Hh' & _ & Hf & Hm & Hdb & _ & Hquiet & _
        & Hcl & Hout).
  destruct (Hquiet eq_refl) as [Hs Hw].
  exists w', q'. split; [exact Hrun |]. split.
  { rewrite Ht'. subst n. rewrite Z2Nat.id by lia.
    rewrite Z.add_mod_idemp_r by lia.
    replace (tail_idx q + (head_idx q - tail_idx q)) with (head_idx q) by lia.
    apply Z.mod_small. lia. }
  do 6 (split; [assumption |]). split; [| exact Hout].
  intros i Hi. destruct (Hcl i Hi) as (di & di' & _ & Hdi' & Hc & Ha & _).
  eauto.
Qed.

(** X9: besides freeing packets, [ionic_tx_service] removes from the live
    mappings exactly what the descriptors of the slots it closes record,
    rings no doorbell, stops no subqueue, and leaves awake the subqueue of
    every packet it has completed. *)
Theorem ionic_tx_service_unmaps_and_wakes
    (w : world) (cq : ionic_cq) (q : ionic_queue ionic_txq_desc)
    (comp : ionic_txq_comp) :
  tx_ring_ok q → ring_indexed q →
  0 ≤ tail_idx q < num_descs q →
  u16 (txc_comp_index comp) < num_descs q →
  color_match (txc_color comp) (done_color cq) = true →
  let c := u16 (txc_comp_index comp) in
  let closed :=
    ring_walk q (tail_idx q)
      (S (Z.to_nat ((c - tail_idx q) mod num_descs q))) in
  ∃ w' q',
    ionic_tx_service w cq q comp = Some (true, w', q') ∧
    dma_maps w' = foldl (slot_unmap_at q) (dma_maps w) closed ∧
    doorbells w' = doorbells w ∧
    subqueue_stopped w' ⊆ subqueue_stopped w ∧
    (∀ i di skb, i ∈ closed → q_info q i = Some di → cb_arg di = Some skb →
       u16 (queue_mapping skb) ∉ subqueue_stopped w').
Proof.
  intros Hok Hidx Ht Hc Hcolor c closed.
  pose proof Hok as (((k & Hk & HN) & Hlen) & _).
  pose proof (u16_range (txc_comp_index comp)) as Hc0. fold c in Hc0.
  pose proof (Z.mod_pos_bound (c - tail_idx q) (num_descs q) ltac:(lia)) as Hd.
  set (m := Z.to_nat ((c - tail_idx q) mod num_descs q)) in *.
  unfold ionic_tx_service. rewrite Hcolor. cbn [negb].
  rewrite (ionic_tx_service_loop_pop comp m)
    by (try assumption; fold c; lia).
  destruct (tx_pop_n_spec true (S m) w q Hok Ht ltac:(lia))
    as (w' & q' & Hrun & _ & _ & _ & _ & Hm & Hdb & Hmono & _ & Hwake & _).
  rewrite Hrun. cbn [bind_opt]. exists w', q'.
  split; [reflexivity |]. split; [exact Hm |]. split; [exact Hdb |].
  split; [exact Hmono |]. exact (Hwake eq_refl).
Qed.

End TxCleanWorld.

Lemma netif_stop_subqueue_stopped qi w :
  qi ∈ subqueue_stopped (netif_stop_subqueue qi w).
Proof.
  destruct w; cbn. apply elem_of_union_l, elem_of_singleton. reflexivity.
Qed.

Lemma ionic_tx_empty_drains_ring_witness :
  tail_idx txq_posted = 0 ∧ head_idx txq_posted = 3 ∧
  dma_maps world_posted = [16384; 12288; 8192; 4096] ∧
  ∃ w' q',
    @ionic_tx_empty hdr_4k world_posted txq_posted = Some (w', q') ∧
    tail_idx q' = 3 ∧ head_idx q' = 3 ∧
    freed_skbs w' = [5%N] ∧ dma_maps w' = [] ∧
    doorbells w' = doorbells world_posted.
Proof.
  split; [reflexivity |]. split; [reflexivity |]. split; [reflexivity |].
  destruct (@ionic_tx_empty_drains_ring hdr_4k world_posted txq_posted)
    as (w' & q' & Hrun & Ht & Hh & Hf & Hm & Hd & _).
  - apply tx_ring_okb_sound. reflexivity.
  - by_eval.
  - by_eval.
  - exists w', q'. split; [exact Hrun |]. split; [exact Ht |].
    split; [exact Hh |]. split; [exact Hf |]. split; [exact Hm | exact Hd].
Defined.

Lemma ionic_tx_service_unmaps_and_wakes_witness :
  0 ∈ subqueue_stopped world_posted_stopped ∧
  ∃ w' q',
    @ionic_tx_service hdr_4k world_posted_stopped cq_done txq_posted (txcomp 2)
      = Some (true, w', q') ∧
    dma_maps w' = [] ∧ 0 ∉ subqueue_stopped w'.
Proof.
  split; [apply netif_stop_subqueue_stopped |].
  destruct (@ionic_tx_service_unmaps_and_wakes hdr_4k world_posted_stopped
              cq_done txq_posted (txcomp 2))
    as (w' & q' & Hrun & Hm & _ & _ & Hwake).
  - apply tx_ring_okb_sound. reflexivity.
  - apply ring_indexedb_sound. reflexivity.
  - by_eval.
  - by_eval.
  - reflexivity.
  - exists w', q'. split; [exact Hrun |]. split; [exact Hm |].
    destruct (q_info txq_posted 2) as [di |] eqn:Hdi;
      [| vm_compute in Hdi; discriminate Hdi].
    apply (Hwake 2 di skb_tso3); [vm_compute; do 2 right; left | exact Hdi |].
    vm_compute in Hdi. injection Hdi as <-. reflexivity.
Defined.

(** ** Transmit: a packet that is not segmented, from post to completion *)

Section TxPost.
Context `{ionic_hdr}.
Implicit Types (q : ionic_queue ionic_txq_desc).

Lemma dma_addr_ok_no_error a : dma_addr_ok a → dma_mapping_error a = false.
Proof.
  unfold dma_addr_ok, dma_mapping_error, DMA_MAPPING_ERROR. intros Ha.
  apply Z.eqb_neq. lia.
Qed.

Lemma dma_maps_ready_S n w :
  dma_maps_ready (S n) w →
  ∃ a rest,
    dma_map_results w = a :: rest ∧ dma_addr_ok a ∧
    let w1 := set_dma_maps (a :: dma_maps w) (set_dma_map_results rest w) in
    ionic_tx_map_single w = (a, w1) ∧ ionic_tx_map_frag w = (a, w1) ∧
    dma_maps_ready n w1.
Proof.
  intros [Hlen Hall]. unfold ionic_tx_map_single, ionic_tx_map_frag, dma_map.
  destruct (dma_map_results w) as [| a rest] eqn:Hres; [cbn in Hlen; lia |].
  cbn in Hlen, Hall. apply Forall_cons in Hall as [Ha Hall].
  exists a, rest. split; [reflexivity |]. split; [exact Ha |].
  rewrite (dma_addr_ok_no_error a Ha). cbv zeta.
  rewrite (dma_addr_ok_no_error a Ha).
  split; [reflexivity |]. split; [reflexivity |].
  unfold dma_maps_ready. destruct w; cbn in *. split; [lia | exact Hall].
Qed.

Lemma sum_frags_nonneg l : Forall (λ f, 0 < f < 2 ^ 16) l → 0 ≤ sum_frags l.
Proof.
  induction 1 as [| f l Hf _ IH]; cbn; [lia |].
  unfold sum_frags in IH. lia.
Qed.

(** The fragment loop of [ionic_tx_skb_frags] when every mapping succeeds:
    one scatter-gather element per fragment, holding the address the
    mapping returned and the fragment's length. *)
Lemma ionic_tx_skb_frags_loop_ok frags : ∀ e len_left w di,
  Forall (λ f, 0 < f < 2 ^ 16) frags →
  len_left = sum_frags frags → len_left < 2 ^ 32 →
  dma_maps_ready (length frags) w →
  (e + length frags ≤ length (sg_desc di))%nat →
  let addrs := take (length frags) (dma_map_results w) in
  ∃ di',
    ionic_tx_skb_frags_loop frags e len_left w di
    = Some (0, set_dma_maps (rev addrs ++ dma_maps w)
                 (set_dma_map_results
                    (drop (length frags) (dma_map_results w)) w), di') ∧
    length (sg_desc di') = length (sg_desc di) ∧
    take (length frags) (drop e (sg_desc di'))
    = zip_with (λ a f, {| sg_addr := a; sg_len := f |}) addrs frags ∧
    (∀ t, (t < e)%nat → sg_desc di' !! t = sg_desc di !! t) ∧
    desc di' = desc di ∧ index di' = index di ∧ cb di' = cb di ∧
    cb_arg di' = cb_arg di.
Proof.
  induction frags as [| frag frags IH]; intros e len_left w di Hpos Hsum Hlt
    Hready Hlen addrs; cbn [ionic_tx_skb_frags_loop].
  - cbn in Hsum. subst len_left. cbn [Z.eqb]. exists di. subst addrs.
    cbn [length take drop rev app zip_with].
    split; [destruct w; reflexivity |]. rewrite take_0. auto 10.
  - apply Forall_cons in Hpos as [Hfrag Hpos].
    pose proof (sum_frags_nonneg frags Hpos) as Hnn.
    cbn in Hsum. fold (sum_frags frags) in Hsum.
    destruct (Z.eqb_spec len_left 0) as [? | _]; [lia |].
    cbn [length] in Hlen, Hready.
    destruct (lookup_lt_is_Some_2 (sg_desc di) e ltac:(lia)) as [el Hel].
    rewrite Hel. cbn [bind_opt].
    destruct (dma_maps_ready_S _ _ Hready)
      as (a & rest & Hres & Ha & _ & Hmap & Hready1).
    cbv zeta in Hmap, Hready1.
    rewrite Hmap, (dma_addr_ok_no_error a Ha).
    rewrite (u16_small frag) by lia.
    set (w1 := set_dma_maps (a :: dma_maps w) (set_dma_map_results rest w)) in *.
    match goal with
    | |- context [ionic_tx_skb_frags_loop frags (S e) ?l w1 ?d] =>
        destruct (IH (S e) l w1 d Hpos) as (di' & Hrun & Hlen' & Htake & Hkeep
                                            & Hd & Hi & Hc & Ha')
    end.
    { rewrite u32_small by lia. lia. }
    { pose proof (u32_range (len_left - frag)). lia. }
    { exact Hready1. }
    { destruct di; cbn in *. rewrite !length_insert. lia. }
    exists di'. subst addrs. cbn [length]. rewrite Hres. cbn [take drop].
    split.
    { rewrite Hrun. do 2 f_equal. subst w1. destruct w; cbn in *.
      subst. cbn [rev]. rewrite <- app_assoc. reflexivity. }
    assert (Hw1 : dma_map_results w1 = rest) by (subst w1; destruct w; reflexivity).
    rewrite Hw1 in Htake.
    assert (Hej : sg_desc di' !! e = Some {| sg_addr := a; sg_len := frag |}).
    { rewrite Hkeep by lia. destruct di; cbn in *.
      rewrite list_insert_insert_eq. apply list_lookup_insert_eq. lia. }
    split; [destruct di; cbn in *; rewrite Hlen', !length_insert; reflexivity |].
    split.
    { rewrite (drop_S _ _ _ Hej). cbn [take zip_with]. f_equal. exact Htake. }
    split.
    { intros t Ht. rewrite Hkeep by lia. destruct di; cbn in *.
      rewrite !list_lookup_insert_ne by lia. reflexivity. }
    destruct di; cbn in *. auto.
Qed.

Lemma tx_calc_desc_ok op cs w q skb di a rest :
  q_info q (head_idx q) = Some di →
  dma_map_results w = a :: rest → dma_addr_ok a →
  let flags :=
    Z.lor (Z.lor 0 (if vlan_tag_present skb then IONIC_TXQ_DESC_FLAG_VLAN else 0))
      (if encapsulation skb then IONIC_TXQ_DESC_FLAG_ENCAP else 0) in
  ∃ d,
    tx_calc_desc op cs w q skb
    = Some (0, set_dma_maps (a :: dma_maps w) (set_dma_map_results rest w),
            q_set_info (head_idx q) (set_desc d di) q) ∧
    cmd d = encode_txq_desc_cmd op flags (nr_frags skb) a ∧
    txd_len d = u16 (skb_headlen skb).
Proof.
  intros Hdi Hres Ha flags. unfold tx_calc_desc. rewrite Hdi. cbn [bind_opt].
  assert (Hmap : ionic_tx_map_single w
                 = (a, set_dma_maps (a :: dma_maps w)
                         (set_dma_map_results rest w))).
  { unfold ionic_tx_map_single, dma_map. rewrite Hres.
    rewrite (dma_addr_ok_no_error a Ha). cbv zeta.
    rewrite (dma_addr_ok_no_error a Ha). reflexivity. }
  rewrite Hmap. cbv beta iota. rewrite (dma_addr_ok_no_error a Ha).
  eexists. split; [reflexivity |]. split; reflexivity.
Qed.

(** A send that is not segmented, when every mapping succeeds. *)
Lemma ionic_tx_ok w q skb di :
  q_info q (head_idx q) = Some di →
  skb_frags_ok skb →
  dma_maps_ready (S (length (skb_frags skb))) w →
  (length (skb_frags skb) ≤ length (sg_desc di))%nat →
  let flags :=
    Z.lor (Z.lor 0 (if vlan_tag_present skb then IONIC_TXQ_DESC_FLAG_VLAN else 0))
      (if encapsulation skb then IONIC_TXQ_DESC_FLAG_ENCAP else 0) in
  let opcode := if ip_summed_partial skb then IONIC_TXQ_DESC_OPCODE_CSUM_PARTIAL
                else IONIC_TXQ_DESC_OPCODE_CSUM_NONE in
  ∃ w' q' di' a0 addrs,
    take (S (length (skb_frags skb))) (dma_map_results w) = a0 :: addrs ∧
    ionic_tx w q skb = Some (0, w', q') ∧
    head_idx q' = ring_next q (head_idx q) ∧ tail_idx q' = tail_idx q ∧
    num_descs q' = num_descs q ∧ length (info q') = length (info q) ∧
    (∀ j, 0 ≤ j → j ≠ head_idx q → q_info q' j = q_info q j) ∧
    q_info q' (head_idx q) = Some di' ∧
    cb di' = Some cb_ionic_tx_clean ∧ cb_arg di' = Some skb ∧
    index di' = index di ∧
    cmd (desc di') = encode_txq_desc_cmd opcode flags (nr_frags skb) a0 ∧
    txd_len (desc di') = u16 (skb_headlen skb) ∧
    length (sg_desc di') = length (sg_desc di) ∧
    take (length (skb_frags skb)) (sg_desc di')
    = zip_with (λ a f, {| sg_addr := a; sg_len := f |}) addrs (skb_frags skb) ∧
    dma_maps w' = rev addrs ++ a0 :: dma_maps w ∧
    freed_skbs w' = freed_skbs w ∧
    subqueue_stopped w' = subqueue_stopped w ∧
    doorbells w'
    = doorbells w ++ (if xmit_more skb then []
                      else [Z.lor (dbval q) (ring_next q (head_idx q))]) ∧
    tx_pkts (txs w') = tx_pkts (txs w) + 1 ∧
    tx_bytes (txs w') = tx_bytes (txs w) + skb_len skb.
Proof.
  intros Hdi (Hpos & Hhl & Hlen32 & Hsum) Hready Hsg flags opcode.
  destruct (dma_maps_ready_S _ _ Hready)
    as (a0 & rest & Hres & Ha0 & _ & _ & Hready1). cbv zeta in Hready1.
  destruct (tx_calc_desc_ok opcode (ip_summed_partial skb) w q skb di a0 rest
              Hdi Hres Ha0) as (d & Hcalc & Hcmd & Hdlen).
  fold flags in Hcmd.
  set (w1 := set_dma_maps (a0 :: dma_maps w) (set_dma_map_results rest w)) in *.
  set (q1 := q_set_info (head_idx q) (set_desc d di) q) in *.
  destruct (q_set_info_fields (head_idx q) (set_desc d di) q)
    as (Hh1 & Ht1 & HN1 & _ & Hl1). fold q1 in Hh1, Ht1, HN1, Hl1.
  destruct (q_info_Some _ _ _ Hdi) as [Hh0 _].
  assert (Hdi1 : q_info q1 (head_idx q1) = Some (set_desc d di)).
  { rewrite Hh1. eapply q_info_set_eq. exact Hdi. }
  pose proof (sum_frags_nonneg _ Hpos) as Hnn.
  destruct (ionic_tx_skb_frags_loop_ok (skb_frags skb) 0
              (u32 (skb_len skb - skb_headlen skb)) w1 (set_desc d di) Hpos)
    as (di2 & Hloop & Hlen2 & Htake & _ & Hd2 & Hi2 & Hc2 & Hca2).
  { rewrite u32_small by lia. exact Hsum. }
  { apply u32_range. }
  { exact Hready1. }
  { destruct di; cbn in *. lia. }
  rewrite drop_0 in Htake.
  assert (Hw1r : dma_map_results w1 = rest) by (subst w1; destruct w; reflexivity).
  assert (Hw1m : dma_maps w1 = a0 :: dma_maps w)
    by (subst w1; destruct w; reflexivity).
  rewrite Hw1r, Hw1m in Hloop. rewrite Hw1r in Htake.
  set (addrs := take (length (skb_frags skb)) rest) in *.
  set (w2 := set_dma_maps (rev addrs ++ a0 :: dma_maps w) _) in Hloop.
  set (q2 := q_set_info (head_idx q1) di2 q1).
  destruct (q_set_info_fields (head_idx q1) di2 q1)
    as (Hh2 & Ht2 & HN2 & _ & Hl2). fold q2 in Hh2, Ht2, HN2, Hl2.
  assert (Hdi2 : q_info q2 (head_idx q2) = Some di2).
  { rewrite Hh2. eapply q_info_set_eq. exact Hdi1. }
  set (w3 := tx_bytes_add (skb_len skb) (tx_pkts_add 1 w2)).
  set (di3 := set_cb_arg (Some skb) (set_cb (Some cb_ionic_tx_clean) di2)).
  set (q3 := set_head_idx (ring_next q2 (head_idx q2))
               (q_set_info (head_idx q2) di3 q2)).
  set (w4 := if negb (xmit_more skb)
             then ionic_dbell_ring
                    (Z.lor (dbval q2) (ring_next q2 (head_idx q2))) w3
             else w3).
  assert (Hpost : ionic_q_post w3 q2 (negb (xmit_more skb)) cb_ionic_tx_clean
                    (Some skb) = Some (w4, q3)).
  { unfold ionic_q_post. rewrite Hdi2. cbn [bind_opt]. subst w4 q3 di3.
    destruct q2; reflexivity. }
  assert (Hrun : ionic_tx w q skb = Some (0, w4, q3)).
  { unfold ionic_tx, ionic_tx_calc_csum, ionic_tx_calc_no_csum.
    assert (Hsel : (if ip_summed_partial skb
                    then tx_calc_desc IONIC_TXQ_DESC_OPCODE_CSUM_PARTIAL true w q skb
                    else tx_calc_desc IONIC_TXQ_DESC_OPCODE_CSUM_NONE false w q skb)
                   = Some (0, w1, q1)).
    { subst opcode. destruct (ip_summed_partial skb); exact Hcalc. }
    rewrite Hsel. cbn [bind_opt negb Z.eqb].
    unfold ionic_tx_skb_frags. rewrite Hdi1. cbn [bind_opt].
    rewrite Hloop. cbn [bind_opt negb Z.eqb].
    unfold ionic_txq_post. fold q2. fold w3. rewrite Hpost. reflexivity. }
  exists w4, q3, di3, a0, addrs.
  split; [rewrite Hres; reflexivity |]. split; [exact Hrun |].
  destruct (q_frame_set_head_info q2 (ring_next q2 (head_idx q2)) (head_idx q2) di3)
    as (Ht3 & HN3 & _ & _ & _ & _ & Hl3 & Hh3). fold q3 in Ht3, HN3, Hl3, Hh3.
  split; [rewrite Hh3; unfold ring_next; congruence |].
  split; [congruence |]. split; [congruence |]. split; [congruence |].
  split.
  { intros j Hj Hne. subst q3. rewrite q_info_set_head_idx.
    rewrite q_info_set_ne by (rewrite ?Hh2, ?Hh1; lia).
    subst q2. rewrite q_info_set_ne by (rewrite ?Hh1; lia).
    subst q1. apply q_info_set_ne; lia. }
  split.
  { subst q3. rewrite q_info_set_head_idx. rewrite Hh2, Hh1 in *.
    eapply q_info_set_eq. exact Hdi2. }
  assert (Hdb2 : dbval q2 = dbval q) by (subst q2 q1; destruct q; reflexivity).
  assert (Hrn : ring_next q2 (head_idx q2) = ring_next q (head_idx q))
    by (unfold ring_next; congruence).
  subst di3. destruct di2 as [d2' sg2 ix2 c2 ca2 bs2 np2 by2].
  destruct di as [d0 sg0 ix0 c0 ca0 bs0 np0 by0]. cbn in *. subst d2'.
  split; [reflexivity |]. split; [reflexivity |]. split; [congruence |].
  split; [exact Hcmd |]. split; [exact Hdlen |]. split; [exact Hlen2 |].
  split; [exact Htake |].
  subst w4 w3 w2. rewrite Hdb2, Hrn.
  destruct w as [? ? ? ? ? ? ? ? ? ? ? ? ? [] ?]; cbn.
  destruct (xmit_more skb); cbn; rewrite ?app_nil_r; auto 10.
Qed.

(** X10: a send that is not segmented and whose mappings all succeed posts
    exactly one descriptor: the slot at the old [head] gets the transmit
    cleanup as callback and the packet as its argument, its descriptor
    records the address of the linear area, the number of fragments and the
    opcode for the checksum mode, its first scatter-gather elements record
    address and length of each fragment in order, and [head] moves on by
    one.  The live mappings grow by exactly those addresses, the packet and
    byte counters count the packet, the doorbell is rung with the new
    [head] unless more packets are announced, and nothing is freed. *)
Theorem ionic_tx_posts_one_descriptor
    (w : world) (q : ionic_queue ionic_txq_desc) (skb : sk_buff)
    (di : ionic_desc_info ionic_txq_desc) :
  q_info q (head_idx q) = Some di →
  skb_frags_ok skb →
  dma_maps_ready (S (length (skb_frags skb))) w →
  (length (skb_frags skb) ≤ length (sg_desc di))%nat →
  let flags :=
    Z.lor (Z.lor 0 (if vlan_tag_present skb then IONIC_TXQ_DESC_FLAG_VLAN else 0))
      (if encapsulation skb then IONIC_TXQ_DESC_FLAG_ENCAP else 0) in
  let opcode := if ip_summed_partial skb then IONIC_TXQ_DESC_OPCODE_CSUM_PARTIAL
                else IONIC_TXQ_DESC_OPCODE_CSUM_NONE in
  ∃ w' q' di' a0 addrs,
    take (S (length (skb_frags skb))) (dma_map_results w) = a0 :: addrs ∧
    ionic_tx w q skb = Some (0, w', q') ∧
    head_idx q' = ring_next q (head_idx q) ∧ tail_idx q' = tail_idx q ∧
    num_descs q' = num_descs q ∧ length (info q') = length (info q) ∧
    (∀ j, 0 ≤ j → j ≠ head_idx q → q_info q' j = q_info q j) ∧
    q_info q' (head_idx q) = Some di' ∧
    cb di' = Some cb_ionic_tx_clean ∧ cb_arg di' = Some skb ∧
    index di' = index di ∧
    cmd (desc di') = encode_txq_desc_cmd opcode flags (nr_frags skb) a0 ∧
    txd_len (desc di') = u16 (skb_headlen skb) ∧
    length (sg_desc di') = length (sg_desc di) ∧
    take (length (skb_frags skb)) (sg_desc di')
    = zip_with (λ a f, {| sg_addr := a; sg_len := f |}) addrs (skb_frags skb) ∧
    dma_maps w' = rev addrs ++ a0 :: dma_maps w ∧
    freed_skbs w' = freed_skbs w ∧
    subqueue_stopped w' = subqueue_stopped w ∧
    doorbells w'
    = doorbells w ++ (if xmit_more skb then []
                      else [Z.lor (dbval q) (ring_next q (head_idx q))]) ∧
    tx_pkts (txs w') = tx_pkts (txs w) + 1 ∧
    tx_bytes (txs w') = tx_bytes (txs w) + skb_len skb.
Proof. exact (ionic_tx_ok w q skb di). Qed.

Lemma remove_first_perm a l : a ∈ l → a :: remove_first a l ≡ₚ l.
Proof.
  induction l as [| x l IH]; intros Hin; [apply elem_of_nil in Hin; contradiction |].
  cbn. destruct (Z.eqb_spec x a) as [-> | Hne]; [reflexivity |].
  apply elem_of_cons in Hin as [-> | Hin]; [contradiction |].
  rewrite Permutation_swap. f_equiv. apply IH. exact Hin.
Qed.

Lemma unmap_elems_perm (els : list ionic_sg_elem) : ∀ m m0,
  m ≡ₚ map (λ e, u64 (sg_addr e)) els ++ m0 →
  foldl (λ m e, remove_first (u64 (sg_addr e)) m) m els ≡ₚ m0.
Proof.
  induction els as [| e els IH]; intros m m0 Hm; [exact Hm |].
  cbn [foldl]. apply IH. cbn [map app] in Hm.
  assert (Hin : u64 (sg_addr e) ∈ m).
  { rewrite Hm. apply elem_of_cons. auto. }
  apply remove_first_perm in Hin. rewrite <- Hin in Hm.
  eapply Permutation_cons_inv. exact Hm.
Qed.

Lemma u64_small x : 0 ≤ x < 2 ^ 64 → u64 x = x.
Proof. intros Hx. unfold u64. apply Z.mod_small. exact Hx. Qed.

Lemma zip_addrs_map addrs : ∀ frags,
  Forall dma_addr_ok addrs → length addrs = length frags →
  map (λ e, u64 (sg_addr e))
    (zip_with (λ a f, {| sg_addr := a; sg_len := f |}) addrs frags) = addrs.
Proof.
  induction addrs as [| a addrs IH]; intros [| f frags] Hok Hlen;
    try discriminate; [reflexivity |].
  apply Forall_cons in Hok as [Ha Hok]. cbn.
  rewrite u64_small by (unfold dma_addr_ok in Ha; lia).
  rewrite IH by (auto || (cbn in Hlen; lia)). reflexivity.
Qed.

(** X11: post and completion are a round trip: a packet that is not segmented,
    posted on an empty ring and then completed, is freed exactly once, the
    live mappings are what they were before the send (as a collection),
    and the ring is empty again, one slot further on. *)
Theorem ionic_tx_then_service_round_trip
    (w : world) (cq : ionic_cq) (q : ionic_queue ionic_txq_desc)
    (skb : sk_buff) (comp : ionic_txq_comp)
    (di : ionic_desc_info ionic_txq_desc) :
  tx_ring_ok q → ring_indexed q →
  0 ≤ head_idx q < num_descs q → tail_idx q = head_idx q →
  q_info q (head_idx q) = Some di →
  skb_frags_ok skb →
  dma_maps_ready (S (length (skb_frags skb))) w →
  (length (skb_frags skb) ≤ length (sg_desc di))%nat →
  nr_frags skb < 2 ^ 8 →
  u16 (txc_comp_index comp) = head_idx q →
  color_match (txc_color comp) (done_color cq) = true →
  ∃ w1 q1 w2 q2,
    ionic_tx w q skb = Some (0, w1, q1) ∧
    ionic_tx_service w1 cq q1 comp = Some (true, w2, q2) ∧
    freed_skbs w2 = freed_skbs w ++ [skb_id skb] ∧
    dma_maps w2 ≡ₚ dma_maps w ∧
    head_idx q2 = ring_next q (head_idx q) ∧ tail_idx q2 = head_idx q2.
Proof.
  intros Hok Hidx Hh Htail Hdi Hskb Hready Hsg Hnf Hc Hcolor.
  pose proof Hok as (((k & Hk & HN) & Hlen) & Hnsge).
  destruct (ionic_tx_ok w q skb di Hdi Hskb Hready Hsg)
    as (w1 & q1 & di' & a0 & addrs & Htk & Hrun & Hh1 & Ht1 & HN1 & Hl1 & Hother
        & Hdi' & Hcb & Harg & Hix & Hcmd & _ & Hsgl & Htake & Hmaps & Hfreed
        & _).
  destruct Hready as [Hrlen Hrok]. rewrite Htk in Hrok.
  apply Forall_cons in Hrok as [Ha0 Haddrs].
  assert (Hladdrs : length addrs = length (skb_frags skb)).
  { apply (f_equal length) in Htk. rewrite length_take in Htk.
    cbn [length] in Htk. lia. }
  assert (Hn' : Z.to_nat (cmd_nsge (cmd (desc di'))) = length (skb_frags skb)).
  { rewrite Hcmd. cbn. unfold u8. rewrite Z.mod_small by (unfold nr_frags in *; lia).
    unfold nr_frags. lia. }
  assert (Hok1 : tx_ring_ok q1).
  { split; [split; [exists k; split; [exact Hk | congruence] | congruence] |].
    intros j dj Hj. destruct (q_info_Some _ _ _ Hj) as [Hj0 _].
    destruct (Z.eq_dec j (head_idx q)) as [-> | Hne].
    - assert (dj = di') as -> by congruence. rewrite Hn', Hsgl. exact Hsg.
    - rewrite Hother in Hj by assumption. eapply Hnsge; eauto. }
  assert (Hidx1 : ring_indexed q1) by (eapply ring_indexed_step; eauto).
  exists w1, q1.
  unfold ionic_tx_service. rewrite Hcolor. cbn [negb].
  rewrite (ionic_tx_service_loop_pop comp 0)
    by (try assumption; rewrite ?Ht1, ?HN1, ?Hc, ?Htail, ?Z.sub_diag;
        try lia; apply Z.mod_0_l; lia).
  destruct (tx_pop_n_spec true 1 w1 q1 Hok1
              ltac:(rewrite Ht1, HN1, Htail; exact Hh) ltac:(rewrite HN1; lia))
    as (w2 & q2 & Hpop & Ht2 & Hh2 & _ & Hf2 & Hm2 & _).
  rewrite Hpop. cbn [bind_opt]. exists w2, q2.
  split; [exact Hrun |]. split; [reflexivity |].
  cbn [ring_walk omap foldl] in Hf2, Hm2. rewrite Ht1, Htail in Hf2, Hm2.
  split.
  { rewrite Hf2, Hfreed, omap_cons_eq. unfold slot_skb.
    rewrite Hdi', Harg. reflexivity. }
  split.
  { rewrite Hm2. unfold slot_unmap_at. rewrite Hdi'. unfold slot_unmap.
    rewrite Hn', Htake. apply unmap_elems_perm.
    rewrite zip_addrs_map by assumption.
    rewrite Hcmd. cbn [cmd_addr encode_txq_desc_cmd].
    rewrite u64_small by (unfold dma_addr_ok in Ha0; lia).
    rewrite Hmaps.
    assert (Hin : a0 ∈ rev addrs ++ a0 :: dma_maps w).
    { apply elem_of_app. right. apply elem_of_cons. auto. }
    apply remove_first_perm in Hin.
    eapply Permutation_cons_inv. rewrite Hin.
    rewrite <- Permutation_middle. f_equiv. f_equiv. symmetry.
    apply Permutation_rev. }
  split; [congruence |].
  rewrite Ht2, Hh2, Hh1, Ht1, HN1, Htail.
  rewrite (ring_next_mod q k) by (lia || assumption). reflexivity.
Qed.

End TxPost.

Lemma ionic_tx_posts_one_descriptor_witness :
  ∃ w' q' di',
    @ionic_tx hdr_4k world_tx3 (txq8 0 0) skb_2frags = Some (0, w', q') ∧
    head_idx q' = 1 ∧ q_info q' 0 = Some di' ∧
    cb_arg di' = Some skb_2frags ∧
    cmd (desc di')
    = {| cmd_opcode := IONIC_TXQ_DESC_OPCODE_CSUM_NONE; cmd_flags := 0;
         cmd_nsge := 2; cmd_addr := 4096 |} ∧
    take 2 (sg_desc di')
    = [{| sg_addr := 8192; sg_len := 700 |};
       {| sg_addr := 12288; sg_len := 500 |}] ∧
    dma_maps w' = [12288; 8192; 4096] ∧ doorbells w' = [1].
Proof.
  destruct (@ionic_tx_posts_one_descriptor hdr_4k world_tx3 (txq8 0 0)
              skb_2frags _ eq_refl)
    as (w' & q' & di' & a0 & addrs & Htk & Hrun & Hh & _ & _ & _ & _ & Hdi'
        & _ & Harg & _ & Hcmd & _ & _ & Htake & Hmaps & _ & _ & Hdb & _).
  - split; [repeat constructor |]. by_eval.
  - split; [cbn; lia | repeat constructor; by_eval].
  - cbn. lia.
  - injection Htk as <- <-.
    exists w', q', di'. split; [exact Hrun |]. split; [exact Hh |].
    split; [exact Hdi' |]. split; [exact Harg |]. split; [exact Hcmd |].
    split; [exact Htake |]. split; [exact Hmaps | exact Hdb].
Defined.

Lemma ionic_tx_then_service_round_trip_witness :
  ∃ w1 q1 w2 q2,
    @ionic_tx hdr_4k world_tx3 (txq8 0 0) skb_2frags = Some (0, w1, q1) ∧
    dma_maps w1 = [12288; 8192; 4096] ∧
    @ionic_tx_service hdr_4k w1 cq_done q1 (txcomp 0) = Some (true, w2, q2) ∧
    freed_skbs w2 = [8%N] ∧ dma_maps w2 ≡ₚ [] ∧
    head_idx q2 = 1 ∧ tail_idx q2 = 1.
Proof.
  destruct (@ionic_tx_then_service_round_trip hdr_4k world_tx3 cq_done
              (txq8 0 0) skb_2frags (txcomp 0) _
              (tx_ring_okb_sound (txq8 0 0) eq_refl)
              (ring_indexedb_sound (txq8 0 0) eq_refl)
              ltac:(by_eval) eq_refl eq_refl)
    as (w1 & q1 & w2 & q2 & Hrun & Hsvc & Hf & Hm & Hh & Ht).
  - split; [repeat constructor |]. by_eval.
  - split; [cbn; lia | repeat constructor; by_eval].
  - cbn. lia.
  - by_eval.
  - reflexivity.
  - reflexivity.
  - exists w1, q1, w2, q2. split; [exact Hrun |].
    split; [vm_compute in Hrun; injection Hrun as <- _; reflexivity |].
    split; [exact Hsvc |]. split; [exact Hf |]. split; [exact Hm |].
    split; [exact Hh | rewrite Ht; exact Hh].
Defined.

(** ** Transmit: the send entry point *)

Section TxEntry.
Context `{ionic_hdr}.
Implicit Types (q : ionic_queue ionic_txq_desc).

Lemma ionic_maybe_stop_tx_frame w q n r w' q' :
  ionic_maybe_stop_tx w q n = (r, w', q') →
  info q' = info q ∧ head_idx q' = head_idx q ∧ num_descs q' = num_descs q ∧
  lif q' = lif q ∧ q_drop q' = q_drop q ∧ max_sg_elems q' = max_sg_elems q ∧
  dma_maps w' = dma_maps w ∧ doorbells w' = doorbells w ∧
  freed_skbs w' = freed_skbs w ∧ txs w' = txs w ∧
  dma_map_results w' = dma_map_results w.
Proof.
  unfold ionic_maybe_stop_tx, smp_rmb_tail.
  destruct (ionic_q_has_space q (u32 n)); cbn [negb].
  { intros [= <- <- <-]. auto 12. }
  replace (tail_published (netif_stop_subqueue (q_index q) w))
    with (tail_published w) by (destruct w; reflexivity).
  destruct (tail_published w) as [| t rest];
    match goal with
    | |- context [if ?c then _ else _] => destruct c
    end; intros [= <- <- <-]; destruct w, q; cbn; auto 12.
Qed.

(** X12: the verdict of [ionic_maybe_stop_tx].  With room for the descriptors
    it answers 0 and changes nothing.  Without room it stops the subqueue,
    counts the stop, and looks again with the tail index read after the
    barrier: if there is room now it wakes the subqueue and answers 0, the
    stop staying counted; if not it answers 1 and the subqueue stays
    stopped.  So the answer is 1 exactly when the ring it returns has no
    room, and then and only then has the call left the subqueue stopped. *)
Theorem ionic_maybe_stop_tx_verdict
    (w : world) (q : ionic_queue ionic_txq_desc) (n r : Z) (w' : world)
    (q' : ionic_queue ionic_txq_desc) :
  ionic_maybe_stop_tx w q n = (r, w', q') →
  (ionic_q_has_space q (u32 n) = true → r = 0 ∧ w' = w ∧ q' = q) ∧
  (ionic_q_has_space q (u32 n) = false →
     q_stop q' = q_stop q + 1 ∧
     tail_idx q' = (smp_rmb_tail (tail_idx q) w).1 ∧
     ((r = 1 ∧ ionic_q_has_space q' (u32 n) = false ∧
       subqueue_stopped w' = {[q_index q]} ∪ subqueue_stopped w) ∨
      (r = 0 ∧ ionic_q_has_space q' (u32 n) = true ∧
       subqueue_stopped w' = subqueue_stopped w ∖ {[q_index q]}))).
Proof.
  unfold ionic_maybe_stop_tx.
  destruct (ionic_q_has_space q (u32 n)) eqn:Hroom; cbn [negb].
  { intros [= <- <- <-]. split; [auto | discriminate]. }
  intros Hrun. split; [discriminate |]. intros _.
  replace (tail_idx (set_q_stop (q_stop q + 1) q)) with (tail_idx q) in Hrun
    by (destruct q; reflexivity).
  assert (Ht : (smp_rmb_tail (tail_idx q) (netif_stop_subqueue (q_index q) w)).1
               = (smp_rmb_tail (tail_idx q) w).1).
  { unfold smp_rmb_tail.
    replace (tail_published (netif_stop_subqueue (q_index q) w))
      with (tail_published w) by (destruct w; reflexivity).
    destruct (tail_published w); reflexivity. }
  assert (Hs : subqueue_stopped
                 (smp_rmb_tail (tail_idx q)
                    (netif_stop_subqueue (q_index q) w)).2
               = {[q_index q]} ∪ subqueue_stopped w).
  { unfold smp_rmb_tail.
    replace (tail_published (netif_stop_subqueue (q_index q) w))
      with (tail_published w) by (destruct w; reflexivity).
    destruct (tail_published w); destruct w; reflexivity. }
  destruct (smp_rmb_tail (tail_idx q) (netif_stop_subqueue (q_index q) w))
    as [t w2]. cbn [fst snd] in Ht, Hs. subst t.
  set (t := (smp_rmb_tail (tail_idx q) w).1) in *.
  assert (Hqi : q_index (set_tail_idx t (set_q_stop (q_stop q + 1) q)) = q_index q)
    by (destruct q; reflexivity).
  destruct (ionic_q_has_space (set_tail_idx t (set_q_stop (q_stop q + 1) q))
              (u32 n)) eqn:Hagain; injection Hrun as <- <- <-.
  - split; [destruct q; reflexivity |]. split; [destruct q; reflexivity |].
    right. split; [reflexivity |]. split; [exact Hagain |].
    rewrite Hqi. destruct w2; cbn in *. rewrite Hs.
    apply set_eq. intros x. rewrite !elem_of_difference, elem_of_union,
      elem_of_singleton. tauto.
  - split; [destruct q; reflexivity |]. split; [destruct q; reflexivity |].
    left. auto.
Qed.

Lemma slot_skb_info {D} (qq qq' : ionic_queue D) :
  info qq' = info qq → ∀ j, slot_skb qq' j = slot_skb qq j.
Proof. intros Hinfo j. unfold slot_skb, q_info. rewrite Hinfo. reflexivity. Qed.

Lemma slot_skb_set_info_ne {D} (qq : ionic_queue D) i di j :
  0 ≤ i → j ≠ i → slot_skb (q_set_info i di qq) j = slot_skb qq j.
Proof.
  intros Hi Hne. unfold slot_skb.
  destruct (Z.ltb_spec j 0) as [Hj | Hj].
  - unfold q_info. destruct (Z.ltb_spec j 0); [reflexivity | lia].
  - rewrite q_info_set_ne by lia. reflexivity.
Qed.

Lemma tx_calc_desc_frame op cs w q skb e1 w1 q1 :
  tx_calc_desc op cs w q skb = Some (e1, w1, q1) →
  head_idx q1 = head_idx q ∧ freed_skbs w1 = freed_skbs w ∧
  ∀ j, slot_skb q1 j = slot_skb q j.
Proof.
  unfold tx_calc_desc.
  destruct (q_info q (head_idx q)) as [di |] eqn:Hdi; [| discriminate].
  cbn [bind_opt].
  destruct (ionic_tx_map_frame w) as [[Hf Hd] _].
  destruct (ionic_tx_map_single w) as [a wa]. cbn [snd] in Hf, Hd.
  destruct (dma_mapping_error a); intros [= <- <- <-]; [auto |].
  match goal with
  | |- context [q_set_info (head_idx q) ?d q] =>
      destruct (q_set_info_fields (head_idx q) d q) as (-> & _);
      pose proof (λ j, slot_skb_set_info_same_arg q (head_idx q) di d j Hdi)
        as Hslot
  end.
  repeat split; try assumption.
  intros j. apply Hslot. destruct di; reflexivity.
Qed.

Lemma ionic_tx_skb_frags_frame w q skb e w' q' :
  ionic_tx_skb_frags w q skb = Some (e, w', q') →
  head_idx q' = head_idx q ∧ freed_skbs w' = freed_skbs w ∧
  ∀ j, slot_skb q' j = slot_skb q j.
Proof.
  unfold ionic_tx_skb_frags.
  destruct (q_info q (head_idx q)) as [di |] eqn:Hdi; [| discriminate].
  cbn [bind_opt].
  match goal with
  | |- context [ionic_tx_skb_frags_loop ?a ?b ?c ?d ?e] =>
      destruct (ionic_tx_skb_frags_loop a b c d e) as [[[e2 w2] di2] |] eqn:Hl;
        [| discriminate]
  end.
  cbn [bind_opt]. intros [= <- <- <-].
  apply ionic_tx_skb_frags_loop_frame in Hl as (Hf2 & _ & _ & Ha2).
  destruct (q_set_info_fields (head_idx q) di2 q) as (-> & _).
  repeat split; try assumption.
  intros j. apply (slot_skb_set_info_same_arg q (head_idx q) di di2 j Hdi Ha2).
Qed.

(** A send that is not segmented and reports success has handed the packet
    to the slot at the old [head] and to no other, and has freed nothing. *)
Lemma ionic_tx_success_attaches w q skb w' q' :
  ionic_tx w q skb = Some (0, w', q') →
  freed_skbs w' = freed_skbs w ∧
  slot_skb q' (head_idx q) = Some (skb_id skb) ∧
  ∀ j, j ≠ head_idx q → slot_skb q' j = slot_skb q j.
Proof.
  unfold ionic_tx, ionic_tx_calc_csum, ionic_tx_calc_no_csum.
  destruct (if ip_summed_partial skb
            then tx_calc_desc IONIC_TXQ_DESC_OPCODE_CSUM_PARTIAL true w q skb
            else tx_calc_desc IONIC_TXQ_DESC_OPCODE_CSUM_NONE false w q skb)
    as [[[e1 w1] q1] |] eqn:Hc; [| discriminate].
  assert (Hc1 : head_idx q1 = head_idx q ∧ freed_skbs w1 = freed_skbs w ∧
                ∀ j, slot_skb q1 j = slot_skb q j)
    by (destruct (ip_summed_partial skb); eapply tx_calc_desc_frame; eauto).
  destruct Hc1 as (Hh1 & Hf1 & Hs1).
  cbn [bind_opt]. destruct (Z.eqb_spec e1 0) as [-> | He1]; cbn [negb].
  2:{ intros [= ? ? ?]. congruence. }
  destruct (ionic_tx_skb_frags w1 q1 skb) as [[[e2 w2] q2] |] eqn:Hfr;
    [| discriminate].
  apply ionic_tx_skb_frags_frame in Hfr as (Hh2 & Hf2 & Hs2).
  cbn [bind_opt]. destruct (Z.eqb_spec e2 0) as [-> | He2]; cbn [negb].
  2:{ intros [= ? ? ?]. congruence. }
  unfold ionic_txq_post.
  match goal with
  | |- context [ionic_q_post ?a ?b ?c ?d ?e] =>
      destruct (ionic_q_post a b c d e) as [[w3 q3] |] eqn:Hpost; [| discriminate]
  end.
  cbn [bind_opt]. intros [= <- <-].
  apply ionic_q_post_eq in Hpost as (di & Hdi & -> & ->).
  destruct (q_info_Some _ _ _ Hdi) as [Hh0 _].
  rewrite Hh2, Hh1 in *.
  split.
  { destruct (negb (xmit_more skb)); [rewrite ionic_dbell_ring_freed |];
      destruct w2 as [? ? ? ? ? ? ? ? ? ? ? ? ? [] ?]; cbn in *; congruence. }
  split.
  { unfold slot_skb. rewrite q_info_set_head_idx.
    rewrite (q_info_set_eq _ _ _ _ Hdi). destruct di; reflexivity. }
  intros j Hne. unfold slot_skb at 1. rewrite q_info_set_head_idx.
  fold (slot_skb (q_set_info (head_idx q)
                    (set_cb_arg (Some skb) (set_cb (Some cb_ionic_tx_clean) di))
                    q2) j).
  rewrite slot_skb_set_info_ne by assumption. rewrite Hs2. apply Hs1.
Qed.

Lemma ionic_tx_descs_needed_skb w q skb n w1 skb1 :
  ionic_tx_descs_needed w q skb = (n, w1, skb1) →
  gso_size skb1 = gso_size skb ∧ skb_id skb1 = skb_id skb ∧
  freed_skbs w1 = freed_skbs w.
Proof.
  unfold ionic_tx_descs_needed, skb_linearize.
  destruct (skb_is_gso skb); [intros [= <- <- <-]; auto |].
  destruct (nr_frags skb <=? max_sg_elems q); [intros [= <- <- <-]; auto |].
  destruct (linearize_results w) as [| e rest].
  - cbn. intros [= <- <- <-]. auto.
  - destruct (e =? 0) eqn:He; cbn; rewrite ?He; cbn; intros [= <- <- <-];
      destruct w as [? ? ? ? ? ? ? ? ? ? ? ? ? [] ?]; cbn; auto.
Qed.

Lemma slot_skb_counters (qq : ionic_queue ionic_txq_desc) a b j :
  slot_skb (set_q_drop a (set_q_stop b qq)) j = slot_skb qq j.
Proof. apply slot_skb_info. destruct qq; reflexivity. Qed.

(** X13: whatever [ionic_start_xmit] answers for a packet that is not segmented,
    the packet has exactly one owner afterwards.  After BUSY it is still
    the caller's: it was not freed and no slot holds it.  After OK it was
    either freed, once, with no slot holding it (the drop cases: interface
    down, linearisation failed, encoding failed), or it was not freed and
    is the callback argument of the slot at the old [head] and of no other
    slot, to be freed when that slot completes. *)
Theorem ionic_start_xmit_single_owner
    (w : world) (q : ionic_queue ionic_txq_desc) (skb : sk_buff)
    (r : netdev_tx_t) (w' : world) (q' : ionic_queue ionic_txq_desc) :
  gso_size skb = 0 →
  (∀ j, slot_skb q j ≠ Some (skb_id skb)) →
  ionic_start_xmit w q skb = Some (r, w', q') →
  match r with
  | NETDEV_TX_BUSY =>
      freed_skbs w' = freed_skbs w ∧ ∀ j, slot_skb q' j ≠ Some (skb_id skb)
  | NETDEV_TX_OK =>
      (freed_skbs w' = freed_skbs w ++ [skb_id skb] ∧
       ∀ j, slot_skb q' j ≠ Some (skb_id skb)) ∨
      (freed_skbs w' = freed_skbs w ∧
       ∀ j, slot_skb q' j = Some (skb_id skb) ↔ j = head_idx q)
  end.
Proof.
  intros Hgso Hfresh. unfold ionic_start_xmit.
  destruct (IONIC_LIF_F_UP (lif q)); cbn [negb].
  2:{ intros [= <- <- <-]. left. split; [destruct w; reflexivity | exact Hfresh]. }
  destruct (ionic_tx_descs_needed w q skb) as [[nd w1] skb1] eqn:Hneed.
  apply ionic_tx_descs_needed_skb in Hneed as (Hg1 & Hid1 & Hf1).
  destruct (nd <? 0).
  { intros [= <- <- <-]. left. split.
    - rewrite Hid1. destruct w1; cbn in *. congruence.
    - intros j. rewrite slot_skb_counters. apply Hfresh. }
  destruct (ionic_maybe_stop_tx w1 q nd) as [[st w2] q2] eqn:Hstop.
  apply ionic_maybe_stop_tx_frame in Hstop
    as (Hi2 & Hh2 & _ & _ & _ & _ & _ & _ & Hf2 & _).
  pose proof (slot_skb_info q q2 Hi2) as Hs2.
  destruct (negb (st =? 0)).
  { intros [= <- <- <-]. split; [congruence |].
    intros j. rewrite Hs2. apply Hfresh. }
  assert (Hnogso : skb_is_gso skb1 = false)
    by (unfold skb_is_gso; rewrite Hg1, Hgso; reflexivity).
  rewrite Hnogso.
  destruct (ionic_tx w2 q2 skb1) as [[[err w3] q3] |] eqn:Htx; [| discriminate].
  cbn [bind_opt]. destruct (Z.eqb_spec err 0) as [-> | Herr]; cbn [negb].
  - destruct (ionic_maybe_stop_tx w3 q3 4) as [[st4 w4] q4] eqn:Hstop4.
    apply ionic_maybe_stop_tx_frame in Hstop4
      as (Hi4 & _ & _ & _ & _ & _ & _ & _ & Hf4 & _).
    pose proof (slot_skb_info q3 q4 Hi4) as Hs4.
    apply ionic_tx_success_attaches in Htx as (Hf3 & Hat & Hoth).
    intros [= <- <- <-]. right. split; [congruence |].
    intros j. rewrite Hs4, <- Hid1, <- Hh2. split.
    + intros Hj. destruct (Z.eq_dec j (head_idx q2)) as [-> | Hne]; [reflexivity |].
      rewrite Hoth, Hs2, Hid1 in Hj by exact Hne.
      exfalso. exact (Hfresh j Hj).
    + intros ->. exact Hat.
  - apply ionic_tx_failure_posts_nothing in Htx as (_ & _ & Hf3 & _ & Hs3);
      [| exact Herr].
    intros [= <- <- <-]. left. split.
    + rewrite Hid1. destruct w3; cbn in *. congruence.
    + intros j. rewrite slot_skb_counters, Hs3, Hs2. apply Hfresh.
Qed.

Lemma tx_linearize_map w :
  tx_linearize (txs (ionic_tx_map_single w).2) = tx_linearize (txs w) ∧
  tx_linearize (txs (ionic_tx_map_frag w).2) = tx_linearize (txs w).
Proof.
  unfold ionic_tx_map_single, ionic_tx_map_frag, dma_map.
  destruct (dma_map_results w) as [| a rest].
  - change (dma_mapping_error DMA_MAPPING_ERROR) with true. cbv iota beta.
    destruct w as [? ? ? ? ? ? ? ? ? ? ? ? ? [] ?]; cbn; auto.
  - destruct (dma_mapping_error a) eqn:Ha; cbv iota beta zeta; rewrite Ha;
      destruct w as [? ? ? ? ? ? ? ? ? ? ? ? ? [] ?]; cbn; auto.
Qed.

Lemma tx_linearize_frags_loop frags : ∀ e len_left w di err w' di',
  ionic_tx_skb_frags_loop frags e len_left w di = Some (err, w', di') →
  tx_linearize (txs w') = tx_linearize (txs w).
Proof.
  induction frags as [| frag frags IH]; intros e len_left w di err w' di';
    cbn [ionic_tx_skb_frags_loop];
    (destruct (len_left =? 0); [intros [= <- <- <-]; auto |]);
    [discriminate |].
  destruct (sg_desc di !! e) as [el |]; [| discriminate]. cbn [bind_opt].
  destruct (tx_linearize_map w) as [_ Hl].
  destruct (ionic_tx_map_frag w) as [a w1]. cbn [snd] in Hl.
  destruct (dma_mapping_error a).
  - intros [= <- <- <-]. exact Hl.
  - intros Hrec. apply IH in Hrec. congruence.
Qed.

Lemma tx_linearize_ionic_tx w q skb err w' q' :
  ionic_tx w q skb = Some (err, w', q') →
  tx_linearize (txs w') = tx_linearize (txs w).
Proof.
  unfold ionic_tx, ionic_tx_calc_csum, ionic_tx_calc_no_csum.
  assert (Hcalc : ∀ op cs e1 w1 q1,
            tx_calc_desc op cs w q skb = Some (e1, w1, q1) →
            tx_linearize (txs w1) = tx_linearize (txs w)).
  { intros op cs e1 w1 q1. unfold tx_calc_desc.
    destruct (q_info q (head_idx q)) as [di |]; [| discriminate].
    cbn [bind_opt]. destruct (tx_linearize_map w) as [Hl _].
    destruct (ionic_tx_map_single w) as [a wa]. cbn [snd] in Hl.
    destruct (dma_mapping_error a); intros [= <- <- <-]; exact Hl. }
  destruct (if ip_summed_partial skb
            then tx_calc_desc IONIC_TXQ_DESC_OPCODE_CSUM_PARTIAL true w q skb
            else tx_calc_desc IONIC_TXQ_DESC_OPCODE_CSUM_NONE false w q skb)
    as [[[e1 w1] q1] |] eqn:Hc; [| discriminate].
  assert (Hl1 : tx_linearize (txs w1) = tx_linearize (txs w))
    by (destruct (ip_summed_partial skb); eapply Hcalc; eauto).
  cbn [bind_opt]. destruct (negb (e1 =? 0)); [intros [= <- <- <-]; exact Hl1 |].
  unfold ionic_tx_skb_frags.
  destruct (q_info q1 (head_idx q1)) as [di |]; [| discriminate].
  cbn [bind_opt].
  match goal with
  | |- context [ionic_tx_skb_frags_loop ?a ?b ?c ?d ?e] =>
      destruct (ionic_tx_skb_frags_loop a b c d e) as [[[e2 w2] di2] |] eqn:Hl;
        [| discriminate]
  end.
  apply tx_linearize_frags_loop in Hl.
  cbn [bind_opt]. destruct (negb (e2 =? 0)); [intros [= <- <- <-]; congruence |].
  unfold ionic_txq_post.
  match goal with
  | |- context [ionic_q_post ?a ?b ?c ?d ?e] =>
      destruct (ionic_q_post a b c d e) as [[w3 q3] |] eqn:Hpost; [| discriminate]
  end.
  cbn [bind_opt]. intros [= <- <- <-].
  apply ionic_q_post_eq in Hpost as (dih & _ & _ & ->).
  rewrite <- Hl1, <- Hl.
  destruct (negb (xmit_more skb));
    destruct w2 as [? ? ? ? ? ? ? ? ? ? ? ? ? [] ?]; reflexivity.
Qed.

(** X14: a packet that is not segmented and has more fragments than a
    descriptor has scatter-gather elements is linearised first.  When
    [skb_linearize] fails the packet is dropped: it is freed, the stop and
    drop counters go up by one, the caller is told OK, and nothing is
    mapped, posted or signalled.  When it succeeds, and the ring has room
    and the mapping succeeds, the packet goes out as one buffer: the
    linearise counter goes up by one, a single mapping is added, and the
    slot at the old [head] holds the packet with a descriptor that counts
    no scatter-gather element and covers the whole packet. *)
Theorem ionic_start_xmit_linearizes
    (w : world) (q : ionic_queue ionic_txq_desc) (skb : sk_buff)
    (e : Z) (rest : list Z) (di : ionic_desc_info ionic_txq_desc) :
  IONIC_LIF_F_UP (lif q) = true →
  gso_size skb = 0 → max_sg_elems q < nr_frags skb →
  linearize_results w = e :: rest →
  q_info q (head_idx q) = Some di →
  (e < 0 →
     ionic_start_xmit w q skb
     = Some (NETDEV_TX_OK,
             dev_kfree_skb (skb_id skb) (set_linearize_results rest w),
             set_q_drop (q_drop q + 1) (set_q_stop (q_stop q + 1) q))) ∧
  (e = 0 → 0 ≤ skb_len skb < 2 ^ 32 →
   ionic_q_has_space q 1 = true → dma_maps_ready 1 w →
   ∃ w' q' di' a0 rest',
     ionic_start_xmit w q skb = Some (NETDEV_TX_OK, w', q') ∧
     dma_map_results w = a0 :: rest' ∧
     dma_maps w' = a0 :: dma_maps w ∧ freed_skbs w' = freed_skbs w ∧
     tx_linearize (txs w') = tx_linearize (txs w) + 1 ∧
     head_idx q' = ring_next q (head_idx q) ∧
     q_info q' (head_idx q) = Some di' ∧
     cb_arg di' = Some (linearized skb) ∧
     cmd_nsge (cmd (desc di')) = 0 ∧ cmd_addr (cmd (desc di')) = a0 ∧
     txd_len (desc di') = u16 (skb_len skb)).
Proof.
  intros Hup Hgso Hmany Hres Hdi.
  assert (Hneed : ionic_tx_descs_needed w q skb
                  = if e =? 0
                    then (1, tx_linearize_inc (set_linearize_results rest w),
                          linearized skb)
                    else (e, set_linearize_results rest w, skb)).
  { unfold ionic_tx_descs_needed, skb_is_gso, skb_linearize.
    rewrite Hgso, Hres. cbn [Z.eqb negb].
    destruct (Z.leb_spec (nr_frags skb) (max_sg_elems q)); [lia |].
    destruct (e =? 0) eqn:He; cbn; rewrite ?He; reflexivity. }
  split.
  - intros He. unfold ionic_start_xmit. rewrite Hup, Hneed. cbn [negb].
    destruct (Z.eqb_spec e 0); [lia |].
    destruct (Z.ltb_spec e 0); [| lia]. reflexivity.
  - intros -> Hlen Hroom Hready. cbn [Z.eqb] in Hneed.
    set (w1 := tx_linearize_inc (set_linearize_results rest w)) in *.
    assert (Hready1 : dma_maps_ready (S (length (skb_frags (linearized skb)))) w1).
    { subst w1. destruct Hready as [Hl Hall]. split;
        destruct w as [? ? ? ? ? ? ? ? ? ? ? ? ? [] ?]; cbn in *; assumption. }
    destruct (ionic_tx_ok w1 q (linearized skb) di Hdi)
      as (w2 & q2 & di' & a0 & addrs & Htk & Hrun & Hh2 & _ & _ & _ & _ & Hdi'
          & _ & Harg & _ & Hcmd & Hdlen & _ & _ & Hmaps & Hfreed & _).
    { split; [constructor |]. cbn. unfold sum_frags. cbn. lia. }
    { exact Hready1. }
    { cbn. lia. }
    cbn [linearized skb_frags length take] in Htk, Hmaps.
    destruct (ionic_maybe_stop_tx w2 q2 4) as [[st4 w4] q4] eqn:Hstop4.
    pose proof (ionic_maybe_stop_tx_frame _ _ _ _ _ _ Hstop4)
      as (Hi4 & Hh4 & _ & _ & _ & _ & Hm4 & _ & Hf4 & Ht4 & _).
    assert (Hw1 : dma_map_results w1 = dma_map_results w ∧
                  dma_maps w1 = dma_maps w ∧ freed_skbs w1 = freed_skbs w ∧
                  tx_linearize (txs w1) = tx_linearize (txs w) + 1).
    { subst w1. destruct w as [? ? ? ? ? ? ? ? ? ? ? ? ? [] ?]; cbn. auto. }
    destruct Hw1 as (Hr1 & Hm1 & Hf1 & Hl1).
    destruct (dma_map_results w) as [| a rest'] eqn:Hscript;
      [rewrite Hr1 in Htk; discriminate Htk |].
    rewrite Hr1 in Htk. cbn [take] in Htk. rewrite take_0 in Htk.
    injection Htk as <- <-. cbn [rev app] in Hmaps.
    exists w4, q4, di', a, rest'. split.
    { unfold ionic_start_xmit. rewrite Hup, Hneed. cbn [negb Z.ltb Z.compare].
      assert (Hstop : ionic_maybe_stop_tx w1 q 1 = (0, w1, q)).
      { unfold ionic_maybe_stop_tx. change (u32 1) with 1. rewrite Hroom.
        reflexivity. }
      rewrite Hstop. cbn [Z.eqb negb].
      assert (Hnogso : skb_is_gso (linearized skb) = false)
        by (unfold skb_is_gso; cbn; rewrite Hgso; reflexivity).
      rewrite Hnogso, Hrun. cbn [bind_opt Z.eqb negb]. rewrite Hstop4.
      reflexivity. }
    split; [reflexivity |]. split; [congruence |]. split; [congruence |].
    split.
    { rewrite Ht4, (tx_linearize_ionic_tx _ _ _ _ _ _ Hrun). exact Hl1. }
    split; [congruence |].
    split; [unfold q_info in *; rewrite Hi4; exact Hdi' |].
    split; [exact Harg |].
    destruct Hready as [_ Hok]. rewrite Hscript in Hok. cbn [take] in Hok.
    apply Forall_cons in Hok as [Ha _]. unfold dma_addr_ok in Ha.
    rewrite Hcmd. cbn [cmd_nsge cmd_addr encode_txq_desc_cmd].
    split; [reflexivity |]. split; [apply u64_small; lia | exact Hdlen].
Qed.

End TxEntry.

Lemma slot_skb_none_all {D} (q : ionic_queue D) id :
  Forall (λ di, cb_arg di = None) (info q) → ∀ j, slot_skb q j ≠ Some id.
Proof.
  intros Hall j. unfold slot_skb, q_info. destruct (j <? 0); [discriminate |].
  destruct (info q !! Z.to_nat j) as [di |] eqn:Hdi; [| discriminate].
  rewrite Forall_lookup in Hall. rewrite (Hall _ _ Hdi). discriminate.
Qed.

Lemma ionic_maybe_stop_tx_verdict_witness :
  ionic_q_has_space txq_busy 5 = false ∧
  ∃ w' q',
    ionic_maybe_stop_tx world_tail3 txq_busy 5 = (0, w', q') ∧
    q_stop q' = 1 ∧ tail_idx q' = 3 ∧ ionic_q_has_space q' 5 = true ∧
    subqueue_stopped w' = subqueue_stopped world_tail3 ∖ {[0]}.
Proof.
  split; [reflexivity |].
  destruct (ionic_maybe_stop_tx world_tail3 txq_busy 5) as [[r w'] q'] eqn:Hrun.
  destruct (ionic_maybe_stop_tx_verdict world_tail3 txq_busy 5 r w' q' Hrun)
    as [_ Hfull].
  destruct (Hfull eq_refl) as (Hstop & Ht & [(-> & Hno & _) | (-> & Hyes & Hs)]).
  - exfalso. vm_compute in Hrun. injection Hrun as _ _ <-. discriminate Hno.
  - exists w', q'. split; [reflexivity |]. split; [exact Hstop |].
    split; [exact Ht |]. split; [exact Hyes | exact Hs].
Defined.

Lemma ionic_start_xmit_single_owner_witness :
  (∃ w' q',
     @ionic_start_xmit hdr_4k world_tx3 (txq8 0 0) skb_2frags
       = Some (NETDEV_TX_OK, w', q') ∧
     freed_skbs w' = [] ∧ slot_skb q' 0 = Some 8%N ∧ slot_skb q' 1 ≠ Some 8%N) ∧
  (∃ w' q',
     @ionic_start_xmit hdr_4k world_map3 (txq8 0 0) skb_5frags
       = Some (NETDEV_TX_OK, w', q') ∧
     freed_skbs w' = [6%N] ∧ slot_skb q' 0 ≠ Some 6%N).
Proof.
  assert (Hnone : ∀ id j, slot_skb (txq8 0 0) j ≠ Some id).
  { intros id. apply slot_skb_none_all. repeat constructor. }
  split.
  - destruct (@ionic_start_xmit hdr_4k world_tx3 (txq8 0 0) skb_2frags)
      as [[[r w'] q'] |] eqn:Hrun; [| vm_compute in Hrun; discriminate Hrun].
    pose proof (@ionic_start_xmit_single_owner hdr_4k world_tx3 (txq8 0 0)
                  skb_2frags r w' q' eq_refl (Hnone _) Hrun) as Hown.
    assert (r = NETDEV_TX_OK) as ->
      by (vm_compute in Hrun; injection Hrun as <- _ _; reflexivity).
    destruct Hown as [[Hf _] | [Hf Hat]].
    + exfalso. vm_compute in Hrun. injection Hrun as <- _. discriminate Hf.
    + exists w', q'. split; [reflexivity |]. split; [exact Hf |].
      split; [apply Hat; reflexivity |]. intros H1. apply Hat in H1.
      discriminate H1.
  - destruct (@ionic_start_xmit hdr_4k world_map3 (txq8 0 0) skb_5frags)
      as [[[r w'] q'] |] eqn:Hrun; [| vm_compute in Hrun; discriminate Hrun].
    pose proof (@ionic_start_xmit_single_owner hdr_4k world_map3 (txq8 0 0)
                  skb_5frags r w' q' eq_refl (Hnone _) Hrun) as Hown.
    assert (r = NETDEV_TX_OK) as ->
      by (vm_compute in Hrun; injection Hrun as <- _ _; reflexivity).
    destruct Hown as [[Hf Hno] | [Hf _]].
    + exists w', q'. split; [reflexivity |]. split; [exact Hf | apply Hno].
    + exfalso. vm_compute in Hrun. injection Hrun as <- _. discriminate Hf.
Defined.

Lemma ionic_start_xmit_linearizes_witness :
  (∃ w' q',
     @ionic_start_xmit hdr_4k world_lin_fails (txq8 0 0) skb_9frags
       = Some (NETDEV_TX_OK, w', q') ∧
     freed_skbs w' = [11%N] ∧ q_drop q' = 1 ∧ head_idx q' = 0 ∧
     dma_maps w' = []) ∧
  (∃ w' q' di',
     @ionic_start_xmit hdr_4k world_lin_ok (txq8 0 0) skb_9frags
       = Some (NETDEV_TX_OK, w', q') ∧
     dma_maps w' = [4096] ∧ freed_skbs w' = [] ∧
     tx_linearize (txs w') = 1 ∧ head_idx q' = 1 ∧
     q_info q' 0 = Some di' ∧ cmd_nsge (cmd (desc di')) = 0 ∧
     txd_len (desc di') = 954).
Proof.
  split.
  - destruct (@ionic_start_xmit_linearizes hdr_4k world_lin_fails (txq8 0 0)
                skb_9frags (- ENOMEM) [] _ eq_refl eq_refl ltac:(by_eval)
                eq_refl eq_refl) as [Hfail _].
    eexists _, _. split; [apply Hfail; by_eval |].
    repeat split; reflexivity.
  - destruct (@ionic_start_xmit_linearizes hdr_4k world_lin_ok (txq8 0 0)
                skb_9frags 0 [] _ eq_refl eq_refl ltac:(by_eval)
                eq_refl eq_refl) as [_ Hok].
    destruct (Hok eq_refl ltac:(by_eval) eq_refl)
      as (w' & q' & di' & a0 & rest' & Hrun & Hres & Hm & Hf & Hl & Hh & Hdi'
          & _ & Hn & _ & Hlen).
    + split; [cbn; lia | repeat constructor; by_eval].
    + injection Hres as <- <-.
      exists w', q', di'. split; [exact Hrun |]. split; [exact Hm |].
      split; [exact Hf |]. split; [exact Hl |]. split; [exact Hh |].
      split; [exact Hdi' |]. split; [exact Hn | exact Hlen].
Defined.

(** ** Segmentation offload: descriptors posted against the estimate *)

Section TsoBudget.
Context `{ionic_hdr}.

Lemma tx_pkts_map w :
  tx_pkts (txs (ionic_tx_map_single w).2) = tx_pkts (txs w) ∧
  tx_pkts (txs (ionic_tx_map_frag w).2) = tx_pkts (txs w).
Proof.
  unfold ionic_tx_map_single, ionic_tx_map_frag, dma_map.
  destruct (dma_map_results w) as [| a rest].
  - change (dma_mapping_error DMA_MAPPING_ERROR) with true. cbv iota beta.
    destruct w as [? ? ? ? ? ? ? ? ? ? ? ? ? [] ?]; cbn; auto.
  - destruct (dma_mapping_error a) eqn:Ha; cbv iota beta zeta; rewrite Ha;
      destruct w as [? ? ? ? ? ? ? ? ? ? ? ? ? [] ?]; cbn; auto.
Qed.

Lemma ionic_tx_tso_post_head w q skb addr nsge len hdrlen mss oc vt hv start
    done w' q' k :
  0 ≤ k → num_descs q = 2 ^ k →
  ionic_tx_tso_post w q skb addr nsge len hdrlen mss oc vt hv start done
    = Some (w', q') →
  num_descs q' = num_descs q ∧
  head_idx q' = (head_idx q + 1) mod num_descs q ∧
  tx_pkts (txs w') = tx_pkts (txs w).
Proof.
  intros Hk HN. unfold ionic_tx_tso_post, ionic_txq_post.
  destruct (q_info q (head_idx q)) as [di |]; [| discriminate].
  cbn [bind_opt].
  match goal with
  | |- context [q_set_info (head_idx q) ?d q] =>
      destruct (q_set_info_fields (head_idx q) d q) as (Hh1 & _ & HN1 & _);
      set (q1 := q_set_info (head_idx q) d q) in *
  end.
  assert (Hgo : ∀ rb a, ionic_q_post w q1 rb cb_ionic_tx_clean a = Some (w', q') →
    num_descs q' = num_descs q ∧
    head_idx q' = (head_idx q + 1) mod num_descs q ∧
    tx_pkts (txs w') = tx_pkts (txs w)).
  { intros rb a Hp. apply ionic_q_post_eq in Hp as (di' & _ & -> & ->).
    match goal with
    | |- context [set_head_idx ?v (q_set_info ?i ?d q1)] =>
        destruct (q_frame_set_head_info q1 v i d)
          as (_ & HN2 & _ & _ & _ & _ & _ & Hh2)
    end.
    rewrite HN2, Hh2, HN1, Hh1. split; [reflexivity |]. split.
    - rewrite (ring_next_mod q1 k) by (rewrite ?HN1; assumption).
      rewrite HN1. reflexivity.
    - destruct rb; [destruct w |]; reflexivity. }
  destruct done; apply Hgo.
Qed.

Lemma tso_post_or_continue_budget skb hdrlen len seglen' v w q r k L rem o :
  0 < gso_size skb → L < 2 ^ 32 →
  0 ≤ k → num_descs q = 2 ^ k → 0 ≤ head_idx q < num_descs q →
  tso_piece (gso_size skb) L rem o v →
  tso_post_or_continue skb hdrlen len seglen' v w q = Some r →
  tso_advance (gso_size skb) L rem v w q r ∧
  match r with
  | TsoGo v' _ _ =>
      t_left v' = t_left v ∧
      (t_seglen v' = t_seglen v ∨ t_seglen v' = seglen')
  | TsoAbort _ _ => True
  end.
Proof.
  intros Hmss HL Hk HN Hh (Hl & Hf & HP & Hn & Hr & Hn0 & Ho & Hsum & Hcap & Hall).
  unfold tso_post_or_continue.
  destruct (0 <? t_nfrags v) eqn:En; destruct (0 <? t_frag_left v) eqn:Ef;
    cbn [andb].
  1: { intros [= <-]. cbn [tso_advance]. rewrite Z.sub_diag, Z.add_0_r.
       rewrite Z.mod_small by exact Hh.
       split; [| split; [reflexivity | left; reflexivity]].
       split; [| split; [reflexivity | split; [reflexivity | split; [lia | split; reflexivity]]]].
       unfold tso_budget. split; [exact Hl |]. split; [exact Hf |].
       split; [exact HP |]. split; [exact Hn |]. split; [exact Hr |].
       split; [exact Hn0 |]. left. exists o. split; [exact Ho |].
       split; [exact Hsum |]. intros _. exact Hcap. }
  all: match goal with
    | |- context [ionic_tx_tso_post ?a ?b ?c ?d ?e ?f ?g ?h ?i ?j ?k ?l ?m] =>
        destruct (ionic_tx_tso_post a b c d e f g h i j k l m)
          as [[w1 q1] |] eqn:Hpost; [| discriminate]
    end;
    cbn [bind_opt]; intros [= <-];
    apply (ionic_tx_tso_post_head _ _ _ _ _ _ _ _ _ _ _ _ _ _ _ k Hk HN) in Hpost
      as (HN1 & Hh1 & Hw1);
    assert (HPL : t_total_pkts v * gso_size skb ≤ L) by lia;
    assert (HPb : t_total_pkts v ≤ L) by nia;
    assert (Hu : u64 (t_total_pkts v + 1) = t_total_pkts v + 1)
      by (apply u64_small; lia);
    assert (Hmul : (t_total_pkts v + 1) * gso_size skb
                   = t_total_pkts v * gso_size skb + gso_size skb) by ring;
    cbn [tso_advance]; unfold tso_budget;
    cbn [t_left t_frag_left t_total_pkts t_nfrags t_seglen];
    rewrite Hu;
    replace (t_total_pkts v + 1 - t_total_pkts v) with 1 by lia;
    (split; [| split; [reflexivity | right; reflexivity]]);
    (split; [| split; [reflexivity | split; [exact HN1 | split; [lia | split; [exact Hh1 | exact Hw1]]]]]);
    (split; [exact Hl |]); (split; [exact Hf |]); (split; [lia |]);
    (split; [exact Hn |]); (split; [exact Hr |]); (split; [exact Hn0 |]).
  - (* more fragments to come, the descriptor is full *)
    left. exists 0. apply Z.ltb_ge in Ef. rewrite Hmul.
    split; [lia |]. split; [lia |]. intros; lia.
  - (* no fragment left, the descriptor is not full: the last one *)
    apply Z.ltb_ge in En. apply Z.ltb_lt in Ef.
    assert (Hn1 : t_nfrags v = 0) by lia.
    right. split; [auto |]. split; [exact Hn1 |].
    replace (t_total_pkts v + 1 - 1) with (t_total_pkts v) by lia. exact HPL.
  - (* no fragment left, the descriptor is full *)
    left. exists 0. apply Z.ltb_ge in Ef. rewrite Hmul.
    split; [lia |]. split; [lia |]. intros; lia.
Qed.

Lemma tso_advance_trans mss L rem' v v1 w w1 q q1 r k :
  0 ≤ k → num_descs q = 2 ^ k →
  num_descs q1 = num_descs q →
  t_nfrags v1 = t_nfrags v →
  0 ≤ t_total_pkts v1 - t_total_pkts v →
  head_idx q1 = (head_idx q + (t_total_pkts v1 - t_total_pkts v)) mod num_descs q →
  tx_pkts (txs w1) = tx_pkts (txs w) →
  tso_advance mss L rem' v1 w1 q1 r →
  tso_advance mss L rem' v w q r.
Proof.
  intros Hk HN HN1 Hn1 Hd1 Hh1 Hw1. destruct r as [v2 w2 q2 | w2 q2]; [| auto].
  cbn [tso_advance]. intros (Hb & Hn2 & HN2 & Hd2 & Hh2 & Hw2).
  split; [exact Hb |]. split; [congruence |]. split; [congruence |].
  split; [lia |]. split; [| congruence].
  rewrite Hh2, Hh1, HN1, Zplus_mod_idemp_l. f_equal. lia.
Qed.

Lemma tso_head_range {D} (qq qq1 : ionic_queue D) k d :
  0 ≤ k → num_descs qq = 2 ^ k → num_descs qq1 = num_descs qq →
  head_idx qq1 = (head_idx qq + d) mod num_descs qq →
  0 ≤ head_idx qq1 < num_descs qq1.
Proof.
  intros Hk HN HN1 ->. rewrite HN1. apply Z.mod_pos_bound. rewrite HN.
  apply Z.pow_pos_nonneg; lia.
Qed.

Lemma tso_chop_data_budget skb hdrlen L rem k fuel : ∀ v w q r,
  0 < gso_size skb → L < 2 ^ 32 →
  0 ≤ k → num_descs q = 2 ^ k → 0 ≤ head_idx q < num_descs q →
  tso_budget (gso_size skb) L rem v →
  gso_size skb ≤ t_seglen v < 2 ^ 32 →
  tso_chop_data fuel skb hdrlen v w q = Some r →
  tso_advance (gso_size skb) L rem v w q r ∧
  match r with TsoGo v' _ _ => t_left v' = 0 | TsoAbort _ _ => True end.
Proof.
  induction fuel as [| fuel IH]; intros v w q r Hmss HL Hk HN Hh Hb Hseg;
    cbn [tso_chop_data]; destruct (t_left v <=? 0) eqn:El.
  1, 3: intros [= <-]; cbn [tso_advance]; rewrite Z.sub_diag, Z.add_0_r,
      Z.mod_small by exact Hh; apply Z.leb_le in El;
      destruct Hb as (Hl & Hrest);
      (split; [| lia]); (split; [exact (conj Hl Hrest) |]); auto 10 with lia.
  1: discriminate.
  apply Z.leb_gt in El.
  destruct Hb as (Hl & Hf & HP & Hn & Hr & Hn0 & [(o & Ho & Hsum & _) | (Hz & _)]);
    [| lia].
  pose proof (tx_pkts_map w) as (Hw1 & _).
  destruct (ionic_tx_map_single w) as [a w1]. cbn [snd] in Hw1.
  destruct (dma_mapping_error a); [intros [= <-]; cbn; auto |].
  set (len := Z.min (t_seglen v) (t_left v)).
  assert (Hlen : 0 < len ≤ t_left v ∧ len ≤ t_seglen v ∧
                 (len = t_left v ∨ len = t_seglen v)) by (unfold len; lia).
  match goal with
  | |- context [tso_post_or_continue ?a ?b ?c ?d ?e ?f ?g] =>
      destruct (tso_post_or_continue a b c d e f g) as [r1 |] eqn:Hpc;
        [| discriminate];
      apply (tso_post_or_continue_budget a b c d e f g r1 k L rem len
               Hmss HL Hk HN Hh) in Hpc
  end.
  2: { unfold tso_piece.
       cbn [t_left t_frag_left t_total_pkts t_nfrags].
       rewrite !u32_small by lia. repeat split; lia. }
  cbn [bind_opt]. destruct Hpc as (Hadv & Hrest).
  destruct r1 as [v2 w2 q2 | w2 q2]; [| intros [= <-]; cbn; auto].
  cbn [tso_advance] in Hadv.
  destruct Hadv as (Hb2 & Hn2 & HN2 & Hd2 & Hh2 & Hw2).
  cbn [t_nfrags t_total_pkts t_seglen] in Hn2, Hd2, Hh2, Hrest.
  destruct Hrest as (_ & Hseg2).
  intros Hrec. apply IH in Hrec; try assumption.
  - destruct Hrec as (Hadv3 & Hl3). split; [| exact Hl3].
    apply (tso_advance_trans _ _ rem v v2 w w2 q q2 r k); try assumption.
    congruence.
  - congruence.
  - apply (tso_head_range q q2 k (t_total_pkts v2 - t_total_pkts v));
      assumption.
  - destruct Hseg2 as [-> | ->]; lia.
Qed.

Lemma tso_chop_frag_budget skb hdrlen L rem k fuel : ∀ v w q r,
  0 < gso_size skb < 2 ^ 32 → L < 2 ^ 32 →
  0 ≤ k → num_descs q = 2 ^ k → 0 ≤ head_idx q < num_descs q →
  tso_budget (gso_size skb) L rem v →
  tso_chop_frag fuel skb hdrlen v w q = Some r →
  tso_advance (gso_size skb) L rem v w q r ∧
  match r with TsoGo v' _ _ => t_left v' = 0 | TsoAbort _ _ => True end.
Proof.
  induction fuel as [| fuel IH]; intros v w q r Hmss HL Hk HN Hh Hb;
    cbn [tso_chop_frag]; destruct (t_left v <=? 0) eqn:El.
  1, 3: intros [= <-]; cbn [tso_advance]; rewrite Z.sub_diag, Z.add_0_r,
      Z.mod_small by exact Hh; apply Z.leb_le in El;
      destruct Hb as (Hl & Hrest);
      (split; [| lia]); (split; [exact (conj Hl Hrest) |]); auto 10 with lia.
  1: discriminate.
  apply Z.leb_gt in El.
  destruct Hb as (Hl & Hf & HP & Hn & Hr & Hn0 & [(o & Ho & Hsum & Hcap) | (Hz & _)]);
    [| lia].
  assert (Htail : ∀ v1 w1 q1 r1,
    t_nfrags v1 = t_nfrags v → t_total_pkts v1 = t_total_pkts v →
    num_descs q1 = num_descs q → head_idx q1 = head_idx q →
    tx_pkts (txs w1) = tx_pkts (txs w) →
    (tso_advance (gso_size skb) L rem v1 w1 q1 r1 ∧
     match r1 with
     | TsoGo v' _ _ => t_left v' = t_left v1 ∧
         (t_seglen v' = t_seglen v1 ∨ t_seglen v' = t_seglen v)
     | TsoAbort _ _ => True
     end) →
    match r1 with
    | TsoGo v w q => tso_chop_frag fuel skb hdrlen v w q
    | TsoAbort w q => Some (TsoAbort w q)
    end = Some r →
    tso_advance (gso_size skb) L rem v w q r ∧
    match r with TsoGo v' _ _ => t_left v' = 0 | TsoAbort _ _ => True end).
  { intros v1 w1 q1 r1 Hn1 HP1 HN1 Hh1 Hw1 (Hadv & _).
    destruct r1 as [v2 w2 q2 | w2 q2]; [| intros [= <-]; cbn; auto].
    cbn [tso_advance] in Hadv.
    destruct Hadv as (Hb2 & Hn2 & HN2 & Hd2 & Hh2 & Hw2).
    rewrite HN1, Hh1, HP1 in *.
    intros Hrec. apply IH in Hrec; try assumption.
    - destruct Hrec as (Hadv3 & Hl3). split; [| exact Hl3].
      apply (tso_advance_trans _ _ rem v v2 w w2 q q2 r k); try assumption;
        congruence.
    - congruence.
    - apply (tso_head_range q q2 k (t_total_pkts v2 - t_total_pkts v));
        assumption. }
  destruct (0 <? t_frag_left v) eqn:Ef.
  - apply Z.ltb_lt in Ef. specialize (Hcap Ef).
    set (len := Z.min (t_frag_left v) (t_left v)).
    assert (Hlen : 0 < len ≤ t_left v ∧ len ≤ t_frag_left v ∧
                   (len = t_left v ∨ len = t_frag_left v)) by (unfold len; lia).
    pose proof (tx_pkts_map w) as (_ & Hw1).
    destruct (ionic_tx_map_frag w) as [a w1]. cbn [snd] in Hw1.
    destruct (q_info q (head_idx q)) as [di |]; [| discriminate].
    cbn [bind_opt].
    destruct (sg_desc di !! t_elem v) as [e |]; [| discriminate].
    cbn [bind_opt].
    destruct (dma_mapping_error a); [intros [= <-]; cbn; auto |].
    match goal with
    | |- context [q_set_info (head_idx q) ?d q] =>
        destruct (q_set_info_fields (head_idx q) d q) as (Hh1 & _ & HN1 & _);
        set (q1 := q_set_info (head_idx q) d q) in *
    end.
    match goal with
    | |- context [q_set_info (head_idx q1) ?d q1] =>
        destruct (q_set_info_fields (head_idx q1) d q1) as (Hh2 & _ & HN2 & _);
        set (q2 := q_set_info (head_idx q1) d q1) in *
    end.
    match goal with
    | |- context [tso_post_or_continue ?a ?b ?c ?d ?e ?f ?g] =>
        destruct (tso_post_or_continue a b c d e f g) as [r1 |] eqn:Hpc;
          [| discriminate];
        apply (tso_post_or_continue_budget a b c d e f g r1 k L rem (o + len))
          in Hpc; try lia
    end.
    + cbn [bind_opt]. revert Hpc. apply Htail; try reflexivity; congruence.
    + unfold tso_piece. cbn [t_left t_frag_left t_total_pkts t_nfrags].
      rewrite !u32_small by lia. repeat split; lia.
  - apply Z.ltb_ge in Ef.
    set (len := Z.min (gso_size skb) (t_left v)).
    assert (Hlen : 0 < len ≤ t_left v ∧ len ≤ gso_size skb ∧
                   (len = t_left v ∨ len = gso_size skb)) by (unfold len; lia).
    pose proof (tx_pkts_map w) as (_ & Hw1).
    destruct (ionic_tx_map_frag w) as [a w1]. cbn [snd] in Hw1.
    destruct (dma_mapping_error a); [intros [= <-]; cbn; auto |].
    match goal with
    | |- context [tso_post_or_continue ?a ?b ?c ?d ?e ?f ?g] =>
        destruct (tso_post_or_continue a b c d e f g) as [r1 |] eqn:Hpc;
          [| discriminate];
        apply (tso_post_or_continue_budget a b c d e f g r1 k L rem len)
          in Hpc; try lia; try assumption
    end.
    + cbn [bind_opt]. revert Hpc. apply Htail; try reflexivity. exact Hw1.
    + unfold tso_piece. cbn [t_left t_frag_left t_total_pkts t_nfrags].
      rewrite !u32_small by lia. repeat split; lia.
Qed.

Lemma sum_frags_nonneg0 l : Forall (λ f, 0 ≤ f) l → 0 ≤ sum_frags l.
Proof.
  induction 1 as [| f l Hf _ IH]; cbn; [lia |].
  unfold sum_frags in IH. lia.
Qed.

Lemma tso_budget_total mss L rem v :
  0 < mss → tso_budget mss L rem v → (t_total_pkts v - 1) * mss ≤ L.
Proof.
  intros Hmss (Hl & _ & HP & _ & Hr & _ & [(o & Ho & Hsum & _) | (_ & _ & Hfin)]);
    [nia | exact Hfin].
Qed.

Lemma tso_chop_frags_budget skb hdrlen L k frags : ∀ len_left v w q r,
  0 < gso_size skb < 2 ^ 32 → L < 2 ^ 32 →
  0 ≤ k → num_descs q = 2 ^ k → 0 ≤ head_idx q < num_descs q →
  Forall (λ f, 0 ≤ f) frags → sum_frags frags < 2 ^ 32 →
  Z.of_nat (length frags) < 2 ^ 32 →
  len_left = sum_frags frags →
  t_nfrags v = Z.of_nat (length frags) → t_left v = 0 →
  tso_budget (gso_size skb) L (sum_frags frags) v →
  tso_chop_frags frags len_left skb hdrlen v w q = Some r →
  match r with
  | TsoGo v' w' q' =>
      (t_total_pkts v' - 1) * gso_size skb ≤ L ∧
      num_descs q' = num_descs q ∧
      0 ≤ t_total_pkts v' - t_total_pkts v ∧
      head_idx q' =
        (head_idx q + (t_total_pkts v' - t_total_pkts v)) mod num_descs q ∧
      tx_pkts (txs w') = tx_pkts (txs w)
  | TsoAbort _ _ => True
  end.
Proof.
  induction frags as [| frag frags IH];
    intros len_left v w q r Hmss HL Hk HN Hh Hfr Hsum Hcnt Hll Hn Hl0 Hb;
    cbn [tso_chop_frags]; destruct (len_left =? 0) eqn:El.
  1, 3: intros [= <-]; rewrite Z.sub_diag, Z.add_0_r, Z.mod_small by exact Hh;
      (split; [apply (tso_budget_total _ _ _ _ (proj1 Hmss) Hb) |]);
      auto 10 with lia.
  1: discriminate.
  apply Forall_cons in Hfr as (Hf0 & Hfr).
  pose proof (sum_frags_nonneg0 _ Hfr) as Hs0.
  change (sum_frags (frag :: frags)) with (frag + sum_frags frags) in *.
  cbn [length] in Hcnt, Hn.
  assert (Hu : u32 frag = frag) by (apply u32_small; lia).
  rewrite Hu.
  destruct Hb as (Hl & Hf & HP & Hnn & Hr & Hn0 & Hdis).
  match goal with
  | |- context [tso_chop_frag ?a ?b ?c ?d ?e ?f] =>
      destruct (tso_chop_frag a b c d e f) as [r1 |] eqn:Hfrag;
        [| discriminate];
      apply (tso_chop_frag_budget b c L (sum_frags frags) k a d e f r1
               Hmss HL Hk HN Hh) in Hfrag
  end.
  2: { unfold tso_budget. cbn [t_left t_frag_left t_total_pkts t_nfrags].
       rewrite u32_small by lia.
       split; [lia |]. split; [exact Hf |]. split; [exact HP |].
       split; [lia |]. split; [exact Hs0 |]. split.
       - intros Hz. assert (Hlen : length frags = 0%nat) by lia.
         destruct frags; [reflexivity | discriminate].
       - left. destruct Hdis as [(o & Ho & Hsm & Hcap) | (_ & Hz & _)]; [| lia].
         exists o. split; [exact Ho |]. split; [lia | exact Hcap]. }
  cbn [bind_opt]. destruct Hfrag as (Hadv & Hl1).
  destruct r1 as [v1 w1 q1 | w1 q1]; [| intros [= <-]; exact I].
  cbn [tso_advance] in Hadv.
  destruct Hadv as (Hb1 & Hn1 & HN1 & Hd1 & Hh1 & Hw1).
  cbn [t_nfrags t_total_pkts] in Hn1, Hd1, Hh1.
  rewrite u32_small in Hn1 by lia.
  intros Hrec. apply IH in Hrec; try assumption; try lia.
  - destruct r as [v2 w2 q2 | w2 q2]; [| exact I].
    destruct Hrec as (Hfin & HN2 & Hd2 & Hh2 & Hw2).
    split; [exact Hfin |]. split; [congruence |]. split; [lia |].
    split; [| congruence].
    rewrite Hh2, Hh1, HN1, Zplus_mod_idemp_l. f_equal. lia.
  - apply (tso_head_range q q1 k (t_total_pkts v1 - t_total_pkts v));
      assumption.
  - rewrite Hll. replace (frag + sum_frags frags - frag) with (sum_frags frags)
      by lia. apply u32_small. lia.
Qed.

Lemma tso_chop_budget w q skb r :
  ring_shape q → 0 ≤ head_idx q < num_descs q → skb_tso_ok skb →
  tso_chop w q skb (tso_hdrlen skb) = Some r →
  match r with
  | TsoGo v' w' q' =>
      0 ≤ t_total_pkts v' ∧
      (t_total_pkts v' - 1) * gso_size skb ≤ skb_len skb ∧
      num_descs q' = num_descs q ∧
      head_idx q' = (head_idx q + t_total_pkts v') mod num_descs q ∧
      tx_pkts (txs w') = tx_pkts (txs w)
  | TsoAbort _ _ => True
  end.
Proof.
  intros ((k & Hk & HN) & _) Hh (Hmss & Hseg & Hhl & Hfr & Hcnt & Hlen & Hmax).
  assert (Hhdr : 0 ≤ tso_hdrlen skb) by (unfold tso_hdrlen; apply u32_range).
  pose proof (sum_frags_nonneg0 _ Hfr) as Hs0.
  unfold nr_frags in Hcnt.
  unfold tso_chop.
  replace (skb_len skb - skb_headlen skb) with (sum_frags (skb_frags skb))
    by lia.
  rewrite !u32_small by lia.
  match goal with
  | |- context [tso_chop_data ?a ?b ?c ?d ?e ?f] =>
      destruct (tso_chop_data a b c d e f) as [r1 |] eqn:Hdata;
        [| discriminate];
      apply (tso_chop_data_budget b c (skb_len skb) (sum_frags (skb_frags skb))
               k a d e f r1) in Hdata;
        try lia; try assumption
  end.
  2: { unfold tso_budget, nr_frags.
       cbn [t_left t_frag_left t_total_pkts t_nfrags].
       split; [lia |]. split; [lia |]. split; [lia |]. split; [lia |].
       split; [exact Hs0 |]. split.
       - intros Hz. assert (Hl0 : length (skb_frags skb) = 0%nat) by lia.
         destruct (skb_frags skb); [reflexivity | discriminate].
       - left. exists 0. split; [lia |]. split; [lia |]. intros; lia. }
  2: { cbn [t_seglen]. lia. }
  cbn [bind_opt]. destruct Hdata as (Hadv & Hl1).
  destruct r1 as [v1 w1 q1 | w1 q1]; [| intros [= <-]; exact I].
  cbn [tso_advance] in Hadv.
  destruct Hadv as (Hb1 & Hn1 & HN1 & Hd1 & Hh1 & Hw1).
  cbn [t_nfrags t_total_pkts] in Hn1, Hd1, Hh1. unfold nr_frags in Hn1.
  rewrite Z.sub_0_r in Hd1, Hh1.
  intros Hfrags.
  apply (tso_chop_frags_budget skb (tso_hdrlen skb) (skb_len skb) k) in Hfrags;
    try lia; try assumption.
  - destruct r as [v2 w2 q2 | w2 q2]; [| exact I].
    destruct Hfrags as (Hfin & HN2 & Hd2 & Hh2 & Hw2).
    split; [lia |]. split; [exact Hfin |]. split; [congruence |].
    split; [| congruence].
    rewrite Hh2, Hh1, HN1, Zplus_mod_idemp_l. f_equal. lia.
  - apply (tso_head_range q q1 k (t_total_pkts v1));
      solve [assumption | lia].
Qed.

(** X15: a segmented send that succeeds has posted as many descriptors as
    it adds to the packet counter, [head] has moved by that number round the
    ring, and that number is never more than the estimate
    [ionic_tx_descs_needed] makes for the packet, one more than its length
    divided by the segment size. *)
Theorem ionic_tx_tso_within_estimate w q skb w' q' :
  ring_shape q → 0 ≤ head_idx q < num_descs q → skb_tso_ok skb →
  ionic_tx_tso w q skb = Some (0, w', q') →
  let n := tx_pkts (txs w') - tx_pkts (txs w) in
  0 ≤ n ≤ (ionic_tx_descs_needed w q skb).1.1 ∧
  head_idx q' = (head_idx q + n) mod num_descs q.
Proof.
  intros Hs Hh Hok.
  pose proof Hok as (Hmss & Hseg & Hhl & Hfr & Hcnt & Hlen & Hmax).
  pose proof (sum_frags_nonneg0 _ Hfr) as Hs0.
  unfold ionic_tx_tso, ionic_tx_tcp_inner_pseudo_csum, ionic_tx_tcp_pseudo_csum.
  replace (if encapsulation skb then cow_head_err skb else cow_head_err skb)
    with (cow_head_err skb) by (destruct (encapsulation skb); reflexivity).
  destruct (cow_head_err skb =? 0) eqn:Ecow; cbn [negb].
  2: { intros [= He _ _]. rewrite He in Ecow. discriminate. }
  destruct (tso_chop w q skb (tso_hdrlen skb)) as [r |] eqn:Hchop;
    [| discriminate].
  apply tso_chop_budget in Hchop; try assumption.
  cbn [bind_opt]. destruct r as [v2 w2 q2 | w2 q2].
  2: { unfold tso_err_out_abort. destruct (tso_rewind _ _ _ _) as [[w3 q3] |];
         cbn [bind_opt]; [| discriminate].
       intros [=]. }
  destruct Hchop as (HP & Hfin & HN2 & Hh2 & Hw2).
  intros [= <- <-].
  assert (Hpk : tx_pkts (txs (tx_tso_bytes_add (t_total_bytes v2)
                   (tx_tso_inc (tx_bytes_add (t_total_bytes v2)
                      (tx_pkts_add (t_total_pkts v2) w2)))))
                = tx_pkts (txs w2) + t_total_pkts v2)
    by (destruct w2 as [? ? ? ? ? ? ? ? ? ? ? ? ? [] ?]; reflexivity).
  cbv zeta. rewrite Hpk, Hw2.
  replace (tx_pkts (txs w) + t_total_pkts v2 - tx_pkts (txs w))
    with (t_total_pkts v2) by lia.
  split; [| exact Hh2]. split; [exact HP |].
  unfold ionic_tx_descs_needed, skb_is_gso.
  replace (gso_size skb =? 0) with false by (symmetry; apply Z.eqb_neq; lia).
  cbn [negb fst].
  rewrite (u32_small (skb_len skb)) by lia.
  assert (Hdiv : t_total_pkts v2 - 1 ≤ skb_len skb / gso_size skb)
    by (apply Z.div_le_lower_bound; lia).
  assert (Hup : skb_len skb / gso_size skb ≤ skb_len skb)
    by (apply Z.div_le_upper_bound; nia).
  assert (Hlo : 0 ≤ skb_len skb / gso_size skb)
    by (apply Z.div_pos; lia).
  unfold int_of_u32. rewrite u32_small by lia.
  replace (skb_len skb / gso_size skb + 1 <? 2 ^ 31) with true
    by (symmetry; apply Z.ltb_lt; lia).
  lia.
Qed.
End TsoBudget.

Lemma ionic_tx_tso_within_estimate_witness :
  ∃ w' q',
    @ionic_tx_tso hdr_4k world_tx (txq8 0 0) skb_tso3 = Some (0, w', q') ∧
    tx_pkts (txs w') - tx_pkts (txs world_tx) = 3 ∧
    (ionic_tx_descs_needed world_tx (txq8 0 0) skb_tso3).1.1 = 4 ∧
    head_idx q' = 3.
Proof.
  destruct (@ionic_tx_tso hdr_4k world_tx (txq8 0 0) skb_tso3)
    as [[[e w'] q'] |] eqn:Hrun; [| vm_compute in Hrun; discriminate Hrun].
  assert (He : e = 0)
    by (vm_compute in Hrun; injection Hrun as <- _ _; reflexivity).
  subst e.
  pose proof (@ionic_tx_tso_within_estimate hdr_4k world_tx (txq8 0 0)
                skb_tso3 w' q'
                (proj1 (tx_ring_okb_sound (txq8 0 0) eq_refl))) as Hthm.
  exists w', q'. split; [reflexivity |].
  destruct Hthm as (Hn & Hhead).
  - by_eval.
  - unfold skb_tso_ok. split; [reflexivity |]. split; [reflexivity |].
    split; [discriminate |]. split; [repeat constructor; discriminate |].
    split; [reflexivity |]. split; reflexivity.
  - exact Hrun.
  - vm_compute in Hrun. injection Hrun as <- <-. by_eval.
Defined.

(** ** Receive: the bytes a fragment chain carries *)

Section RxFragBytes.
Context `{ionic_hdr}.

Lemma rx_frag_bytes_add skb p off size :
  rx_frag_bytes (skb_add_rx_frag skb p off size) = rx_frag_bytes skb + size.
Proof.
  unfold rx_frag_bytes, skb_add_rx_frag. destruct skb as [? ? fr ? ? ? ?].
  cbn [rx_skb_with_frags rx_frags]. induction fr as [| f fr IH]; cbn; lia.
Qed.

Lemma bufs_room_nonneg bs : 0 ≤ bufs_room bs.
Proof.
  induction bs as [| b bs IH]; cbn; [lia |].
  pose proof (u16_range (IONIC_PAGE_SIZE - page_offset b)).
  unfold bufs_room in IH. lia.
Qed.

(** The fragment loop hands [len] bytes out over the fragments it visits:
    what it attaches and what it could not place add up to [len], and
    nothing is left over when the fragments have room for [len]. *)
Lemma ionic_rx_frags_loop_bytes i : ∀ j len w bs skb skb' w' bs',
  0 ≤ len < 2 ^ 16 →
  ionic_rx_frags_loop i j len w bs skb = Some (Some skb', w', bs') →
  ∃ rest, 0 ≤ rest ≤ len ∧
    rx_frag_bytes skb' + rest = rx_frag_bytes skb + len ∧
    (len ≤ bufs_room (take i (drop j bs)) → rest = 0).
Proof.
  induction i as [| i IH]; intros j len w bs skb skb' w' bs' Hlen Hloop;
    cbn [ionic_rx_frags_loop] in Hloop.
  - injection Hloop as <- <- <-. exists len. rewrite take_0.
    split; [lia |]. split; [reflexivity | cbn; lia].
  - destruct (bs !! j) as [b |] eqn:Hb; [| discriminate]. cbn [bind_opt] in Hloop.
    destruct (page b) as [p |] eqn:Hp; [| discriminate].
    set (frag_len := min_t_u16 len (IONIC_PAGE_SIZE - page_offset b)) in *.
    destruct (ionic_rx_buf_recycle w b frag_len)
      as [[[ok w1] b1] |] eqn:Hrec; [| discriminate].
    cbn [bind_opt] in Hloop.
    pose proof (u16_range (IONIC_PAGE_SIZE - page_offset b)) as Hroom.
    assert (Hfl : frag_len = Z.min len (u16 (IONIC_PAGE_SIZE - page_offset b))).
    { unfold frag_len, min_t_u16. rewrite (u16_small len) by exact Hlen.
      reflexivity. }
    assert (Hu : u16 (len - frag_len) = len - frag_len)
      by (apply u16_small; lia).
    rewrite Hu in Hloop. apply IH in Hloop; [| lia].
    destruct Hloop as (rest & Hrest & Hsum & Hzero).
    rewrite rx_frag_bytes_add in Hsum.
    exists rest. split; [lia |]. split; [lia |].
    rewrite (drop_S bs b j Hb). cbn [take bufs_room foldr].
    fold (bufs_room (take i (drop (S j) bs))).
    intros Hfit. apply Hzero.
    rewrite drop_insert_lt by lia.
    pose proof (bufs_room_nonneg (take i (drop (S j) bs))). lia.
Qed.

(** X16: [ionic_rx_frags] adds to the packet [napi_get_frags] hands it at
    most the bytes the completion reports, and exactly that many when the
    fragments the completion counts have room for them.  A packet built on
    an empty [napi->skb] so carries at most the reported bytes; one built on
    a packet that an earlier failed call left in [napi->skb] carries that
    packet's bytes as well. *)
Theorem ionic_rx_frags_attaches_reported_bytes w di comp skb' w' di' :
  ionic_rx_frags w di comp = Some (Some skb', w', di') →
  let base := match napi_skb w with
              | Some s => rx_frag_bytes s
              | None => 0
              end in
  base ≤ rx_frag_bytes skb' ≤ base + u16 (len comp) ∧
  (u16 (len comp)
   ≤ bufs_room (take (Z.to_nat (u8 (num_sg_elems comp) + 1)) (bufs di)) →
   rx_frag_bytes skb' = base + u16 (len comp)).
Proof.
  unfold ionic_rx_frags, napi_get_frags.
  assert (Hgo : ∀ s0 w0,
    (let* (r, w, bs) :=
       ionic_rx_frags_loop (Z.to_nat (u8 (num_sg_elems comp) + 1)) 0
         (u16 (len comp)) w0 (bufs di) s0 in
     let w := match r with
              | Some skb => set_napi_skb (Some skb) w
              | None => w
              end in
     Some (r, w, set_bufs bs di)) = Some (Some skb', w', di') →
    rx_frag_bytes s0 ≤ rx_frag_bytes skb' ≤ rx_frag_bytes s0 + u16 (len comp) ∧
    (u16 (len comp)
     ≤ bufs_room (take (Z.to_nat (u8 (num_sg_elems comp) + 1)) (bufs di)) →
     rx_frag_bytes skb' = rx_frag_bytes s0 + u16 (len comp))).
  { intros s0 w0.
    destruct (ionic_rx_frags_loop _ _ _ _ _ _) as [[[r w1] bs1] |] eqn:Hloop;
      [| discriminate].
    cbn [bind_opt]. intros [= -> _ _].
    apply ionic_rx_frags_loop_bytes in Hloop; [| apply u16_range].
    destruct Hloop as (rest' & Hrest & Hsum & Hzero).
    rewrite drop_0 in Hzero.
    split; [lia |]. intros Hfit. specialize (Hzero Hfit). lia. }
  destruct (napi_skb w) as [s0 |]; [apply Hgo |].
  unfold alloc_skb.
  destruct (skb_alloc_results w) as [| [id |] rest];
    [discriminate | | discriminate].
  intros Hrun. apply Hgo in Hrun.
  change (rx_frag_bytes (new_rx_skb id)) with 0 in Hrun. exact Hrun.
Qed.
End RxFragBytes.

Lemma ionic_rx_frags_attaches_reported_bytes_witness :
  (∃ skb' w' di',
     @ionic_rx_frags hdr_4k world_rx (rx_slot_posted 0 buf_page1) (comp0 1514)
     = Some (Some skb', w', di') ∧
     rx_frag_bytes skb' = 1514) ∧
  (∃ skb' w' di',
     @ionic_rx_frags hdr_4k world_stale slot_stale (comp0 100)
     = Some (Some skb', w', di') ∧
     rx_frag_bytes skb' = 1614 ∧ length (rx_frags skb') = 2%nat).
Proof.
  split.
  - destruct (@ionic_rx_frags hdr_4k world_rx (rx_slot_posted 0 buf_page1)
                (comp0 1514))
      as [[[[skb' |] w'] di'] |] eqn:Hrun;
      [| vm_compute in Hrun; discriminate Hrun
       | vm_compute in Hrun; discriminate Hrun].
    exists skb', w', di'. split; [reflexivity |].
    destruct (@ionic_rx_frags_attaches_reported_bytes hdr_4k world_rx
                (rx_slot_posted 0 buf_page1) (comp0 1514) skb' w' di' Hrun)
      as (_ & Hall).
    apply Hall. vm_compute. discriminate.
  - destruct (@ionic_rx_frags hdr_4k world_stale slot_stale (comp0 100))
      as [[[[skb' |] w'] di'] |] eqn:Hrun;
      [| vm_compute in Hrun; discriminate Hrun
       | vm_compute in Hrun; discriminate Hrun].
    exists skb', w', di'. split; [reflexivity |].
    destruct (@ionic_rx_frags_attaches_reported_bytes hdr_4k world_stale
                slot_stale (comp0 100) skb' w' di' Hrun)
      as (_ & Hall).
    split; [apply Hall; vm_compute; discriminate |].
    vm_compute in Hrun. injection Hrun as <- _ _. reflexivity.
Defined.

(** ** Receive: refilling slots that kept their pages *)

Section FillReuse.
Context `{ionic_hdr}.

Lemma frags_backed_cons len bs :
  0 < len → frags_backed len bs →
  ∃ b rest p, bs = b :: rest ∧ page b = Some p ∧
    (∀ used, 0 ≤ used → used = Z.min len (u16 (IONIC_PAGE_SIZE - page_offset b)) →
       frags_backed (len - used) rest).
Proof.
  intros Hlen (n & Hpages & Hroom).
  destruct n as [| n]; [rewrite take_0 in Hroom; cbn in Hroom; lia |].
  destruct bs as [| b rest]; [cbn in Hroom; lia |].
  cbn [take] in Hpages, Hroom. apply Forall_cons in Hpages as (Hp & Hpages).
  destruct (page b) as [p |] eqn:Epage; [| contradiction].
  exists b, rest, p. split; [reflexivity |]. split; [exact Epage |].
  intros used Hused ->. exists n. split; [exact Hpages |].
  cbn [bufs_room foldr] in Hroom. fold (bufs_room (take n rest)) in Hroom.
  pose proof (bufs_room_nonneg (take n rest)). lia.
Qed.

(** With its further fragments backed, the scatter-gather loop of
    [ionic_rx_fill] runs to its end, leaves the world alone and keeps the
    fragments as they are. *)
Lemma ionic_rx_fill_sg_reuse fuel : ∀ j remain nfrags w di ok nfrags' w' di',
  0 ≤ remain < 2 ^ 16 →
  frags_backed remain (drop (S j) (bufs di)) →
  ionic_rx_fill_sg fuel j remain nfrags w di = Some (ok, nfrags', w', di') →
  ok = true ∧ w' = w ∧ bufs di' = bufs di.
Proof.
  induction fuel as [| fuel IH];
    intros j remain nfrags w di ok nfrags' w' di' Hrem Hback;
    cbn [ionic_rx_fill_sg]; [intros [= <- _ <- <-]; auto |].
  destruct (remain <=? 0) eqn:Ez; [intros [= <- _ <- <-]; auto |].
  apply Z.leb_gt in Ez.
  destruct (frags_backed_cons _ _ Ez Hback) as (b & rest & p & Hdrop & Hp & Hnext).
  assert (Hb : bufs di !! S j = Some b).
  { rewrite <- (Nat.add_0_r (S j)), <- lookup_drop, Hdrop. reflexivity. }
  destruct (sg_desc di !! j) as [e |]; [| discriminate].
  cbn [bind_opt]. rewrite Hb. cbn [bind_opt]. rewrite Hp.
  cbv iota beta. change (negb (0 =? 0)) with false. cbv iota.
  pose proof (u16_range (IONIC_PAGE_SIZE - page_offset b)) as Hroom.
  assert (Hfl : min_t_u16 remain (IONIC_PAGE_SIZE - page_offset b)
                = Z.min remain (u16 (IONIC_PAGE_SIZE - page_offset b))).
  { unfold min_t_u16. rewrite (u16_small remain) by exact Hrem. reflexivity. }
  rewrite Hfl. rewrite (u32_small (remain - _)) by lia.
  intros Hrec. apply IH in Hrec; [| lia |].
  - destruct Hrec as (Hok & Hw & Hbufs). split; [exact Hok |].
    split; [exact Hw |]. rewrite Hbufs. destruct di; cbn in *.
    apply list_insert_id. exact Hb.
  - assert (Hsame : bufs (set_sg_desc
                       (<[j := {| sg_addr := u64 (dma_addr b + page_offset b);
                                  sg_len := Z.min remain
                                   (u16 (IONIC_PAGE_SIZE - page_offset b)) |}]>
                          (sg_desc (set_bufs (<[S j := b]> (bufs di)) di)))
                       (set_bufs (<[S j := b]> (bufs di)) di))
                    = bufs di).
    { destruct di; cbn in *. apply list_insert_id. exact Hb. }
    rewrite Hsame.
    replace (drop (S (S j)) (bufs di)) with rest.
    + apply Hnext; [lia | reflexivity].
    + rewrite <- (Nat.add_1_r (S j)), <- drop_drop, Hdrop. reflexivity.
Qed.

(** One turn of the outer loop on a slot whose fragments are backed: the
    slot is posted, the world is left alone, and every slot keeps its
    fragments. *)
Lemma ionic_rx_fill_slot_reuse len nsplits w q ok w' q' :
  0 < len < 2 ^ 16 →
  (∀ di, q_info q (head_idx q) = Some di → frags_backed len (bufs di)) →
  ionic_rx_fill_slot len nsplits w q = Some (ok, w', q') →
  ok = true ∧ w' = w ∧
  head_idx q' = ring_next q (head_idx q) ∧ num_descs q' = num_descs q ∧
  dbval q' = dbval q ∧
  (∀ j di', q_info q' j = Some di' →
     ∃ di, q_info q j = Some di ∧ bufs di' = bufs di).
Proof.
  intros Hlen Hback. unfold ionic_rx_fill_slot.
  destruct (q_info q (head_idx q)) as [di |] eqn:Hdi; [| discriminate].
  cbn [bind_opt]. specialize (Hback di eq_refl).
  destruct (q_info_Some _ _ _ Hdi) as [Hh0 _].
  destruct (frags_backed_cons _ _ (proj1 Hlen) Hback)
    as (b & rest & p & Hbs & Hp & Hnext).
  assert (Hb0 : bufs di !! 0%nat = Some b) by (rewrite Hbs; reflexivity).
  rewrite Hb0. cbn [bind_opt]. rewrite Hp. cbv iota beta.
  change (negb (0 =? 0)) with false. cbv iota.
  pose proof (u16_range (IONIC_PAGE_SIZE - page_offset b)) as Hroom.
  assert (Hfl : min_t_u16 len (IONIC_PAGE_SIZE - page_offset b)
                = Z.min len (u16 (IONIC_PAGE_SIZE - page_offset b))).
  { unfold min_t_u16. rewrite (u16_small len) by lia. reflexivity. }
  rewrite Hfl. rewrite (u32_small (len - _)) by lia.
  assert (Hid : set_bufs (<[0%nat := b]> (bufs di)) di = di).
  { rewrite list_insert_id by exact Hb0. destruct di; reflexivity. }
  rewrite Hid.
  match goal with
  | |- context [ionic_rx_fill_sg ?a ?j ?c ?d ?e ?f] =>
      destruct (ionic_rx_fill_sg a j c d e f) as [[[[ok1 nf] w1] di1] |] eqn:Hsg;
        [| discriminate];
      apply ionic_rx_fill_sg_reuse in Hsg; [| lia |]
  end.
  2: { replace (bufs _) with (b :: rest) by (rewrite <- Hbs; destruct di; reflexivity).
       cbn [drop]. apply Hnext; [lia | reflexivity]. }
  destruct Hsg as (-> & -> & Hbufs1).
  assert (Hbufs : bufs di1 = bufs di) by (rewrite Hbufs1; destruct di; reflexivity).
  clear Hbufs1. cbn [bind_opt negb]. unfold ionic_rxq_post.
  match goal with
  | |- context [ionic_q_post w ?qq ?rb ?f ?a] =>
      destruct (ionic_q_post w qq rb f a) as [[w2 q2] |] eqn:Hpost;
        [| discriminate];
      apply ionic_q_post_eq in Hpost as (di2 & Hdi2 & -> & ->)
  end.
  cbn [bind_opt]. intros [= <- <- <-].
  match type of Hdi2 with
  | q_info (q_set_info (head_idx q) ?d q) _ = _ =>
      destruct (q_set_info_fields (head_idx q) d q) as (Hh1 & _ & HN1 & _);
      pose proof (q_info_set_eq q (head_idx q) d di Hdi) as Heq1;
      set (d3 := d) in *; set (q1 := q_set_info (head_idx q) d3 q) in *
  end.
  assert (Hd3 : bufs d3 = bufs di) by (subst d3; destruct di1; exact Hbufs).
  rewrite Hh1 in Hdi2. rewrite Heq1 in Hdi2. injection Hdi2 as <-.
  match goal with
  | |- context [set_head_idx ?v (q_set_info ?i ?d q1)] =>
      destruct (q_frame_set_head_info q1 v i d)
        as (_ & HN2 & _ & _ & Hdb2 & _ & _ & Hh2);
      pose proof (q_info_set_eq q1 i d d3) as Heq2;
      set (d4 := d) in *
  end.
  assert (Hd4 : bufs d4 = bufs di) by (subst d4; destruct d3; exact Hd3).
  rewrite Hh1 in *.
  split; [reflexivity |]. split; [reflexivity |].
  split; [rewrite Hh2; unfold ring_next; rewrite HN1; reflexivity |].
  split; [rewrite HN2; exact HN1 |].
  split; [rewrite Hdb2; subst q1; destruct q; reflexivity |].
  intros j di' Hj. rewrite q_info_set_head_idx in Hj.
  destruct (q_info_Some _ _ _ Hj) as [Hj0 _].
  destruct (decide (j = head_idx q)) as [-> | Hne].
  - rewrite (Heq2 Heq1) in Hj. injection Hj as <-.
    exists di. split; [exact Hdi | exact Hd4].
  - rewrite q_info_set_ne in Hj by (try assumption; congruence).
    subst q1. rewrite q_info_set_ne in Hj by (try assumption; congruence).
    exists di'. split; [exact Hj | reflexivity].
Qed.

Lemma ionic_rx_fill_loop_reuse i : ∀ len nsplits w q ok w' q',
  0 < len < 2 ^ 16 →
  (∀ j di, j ∈ ring_walk q (head_idx q) i → q_info q j = Some di →
     frags_backed len (bufs di)) →
  ionic_rx_fill_loop i len nsplits w q = Some (ok, w', q') →
  ok = true ∧ w' = w ∧ dbval q' = dbval q ∧
  (∀ j di', q_info q' j = Some di' →
     ∃ di, q_info q j = Some di ∧ bufs di' = bufs di).
Proof.
  induction i as [| i IH]; intros len nsplits w q ok w' q' Hlen Hback;
    cbn [ionic_rx_fill_loop].
  - intros [= <- <- <-]. repeat split; eauto.
  - destruct (ionic_rx_fill_slot len nsplits w q) as [[[ok1 w1] q1] |] eqn:Hslot;
      [| discriminate].
    cbn [bind_opt].
    apply ionic_rx_fill_slot_reuse in Hslot; [| exact Hlen |].
    2: { intros di Hdi. apply (Hback (head_idx q)); [| exact Hdi].
         cbn [ring_walk]. apply elem_of_cons. left. reflexivity. }
    destruct Hslot as (-> & -> & Hh1 & HN1 & Hdb1 & Hframe1).
    intros Hrec. apply IH in Hrec; [| exact Hlen |].
    + destruct Hrec as (Hok & Hw & Hdb & Hframe).
      split; [exact Hok |]. split; [exact Hw |]. split; [congruence |].
      intros j di' Hj. destruct (Hframe j di' Hj) as (di1 & Hj1 & Hb1).
      destruct (Hframe1 j di1 Hj1) as (di & Hj0 & Hb0).
      exists di. split; [exact Hj0 | congruence].
    + intros j di1 Hj Hq1. destruct (Hframe1 j di1 Hq1) as (di & Hj0 & Hb0).
      rewrite Hb0. apply (Hback j); [| exact Hj0].
      cbn [ring_walk]. apply elem_of_cons. right.
      rewrite (ring_walk_ext q q1) in Hj by exact HN1.
      rewrite Hh1 in Hj. exact Hj.
Qed.

(** X17: when every slot [ionic_rx_fill] is about to post still holds pages
    with room for a frame of MTU plus Ethernet header bytes, the pass
    allocates nothing and maps nothing: it changes the world by its one
    doorbell only, and every slot keeps the fragments it had. *)
Theorem ionic_rx_fill_reuses_pages w q w' q' :
  0 < mtu (lif q) + ETH_HLEN < 2 ^ 16 →
  (∀ j di,
     j ∈ ring_walk q (head_idx q) (Z.to_nat (ionic_q_space_avail q)) →
     q_info q j = Some di →
     frags_backed (mtu (lif q) + ETH_HLEN) (bufs di)) →
  ionic_rx_fill w q = Some (w', q') →
  w' = ionic_dbell_ring (Z.lor (dbval q) (head_idx q')) w ∧
  (∀ j di', q_info q' j = Some di' →
     ∃ di, q_info q j = Some di ∧ bufs di' = bufs di).
Proof.
  intros Hlen Hback. unfold ionic_rx_fill.
  rewrite (u32_small (mtu (lif q) + ETH_HLEN)) by lia.
  destruct (ALIGN _ _ =? 0); [discriminate |].
  match goal with
  | |- context [ionic_rx_fill_loop ?a ?b ?c ?d ?e] =>
      destruct (ionic_rx_fill_loop a b c d e) as [[[ok w1] q1] |] eqn:Hloop;
        [| discriminate];
      apply ionic_rx_fill_loop_reuse in Hloop; [| exact Hlen | exact Hback]
  end.
  destruct Hloop as (-> & -> & Hdb & Hframe).
  cbn [bind_opt]. intros [= <- <-]. rewrite Hdb. split; [reflexivity | exact Hframe].
Qed.
End FillReuse.

Lemma ionic_rx_fill_reuses_pages_witness :
  ∃ w' q',
    @ionic_rx_fill hdr_4k world_filled rxq_wrapped = Some (w', q') ∧
    head_idx q' = 2 ∧
    dma_maps w' = dma_maps world_filled ∧
    page_refs w' = page_refs world_filled ∧
    doorbells w' = doorbells world_filled ++ [2].
Proof.
  destruct (@ionic_rx_fill hdr_4k world_filled rxq_wrapped)
    as [[w' q'] |] eqn:Hfill; [| vm_compute in Hfill; discriminate Hfill].
  exists w', q'. split; [reflexivity |].
  destruct (@ionic_rx_fill_reuses_pages hdr_4k world_filled rxq_wrapped w' q')
    as (Hw & _).
  - vm_compute. split; reflexivity.
  - intros j di Hj Hq.
    assert (Hwalk : ring_walk rxq_wrapped (head_idx rxq_wrapped)
                      (Z.to_nat (ionic_q_space_avail rxq_wrapped)) = [0; 1])
      by (vm_compute; reflexivity).
    rewrite Hwalk in Hj.
    apply elem_of_cons in Hj as [-> | Hj];
      [| apply elem_of_cons in Hj as [-> | Hj];
         [| apply elem_of_nil in Hj; contradiction]];
      vm_compute in Hq; injection Hq as <-;
      (exists 1%nat; split; [repeat constructor; discriminate |
                             vm_compute; discriminate]).
  - exact Hfill.
  - assert (Hh : head_idx q' = 2)
      by (vm_compute in Hfill; injection Hfill as _ <-; reflexivity).
    split; [exact Hh |]. rewrite Hw, Hh.
    split; [reflexivity |]. split; reflexivity.
Defined.

(** ** Transmit: a segmented packet is attached to its last descriptor *)

Section TsoAttach.
Context `{ionic_hdr}.

(** What [ionic_tx_tso_post] does to the ring: the slot at [head] gets the
    element count and, with [done], the packet; its scatter-gather list and
    every other slot stay as they are. *)
Lemma ionic_tx_tso_post_slot w q skb addr nsge len hdrlen mss oc vt hv start
    done w' q' di :
  q_info q (head_idx q) = Some di →
  ionic_tx_tso_post w q skb addr nsge len hdrlen mss oc vt hv start done
    = Some (w', q') →
  ∃ di', q_info q' (head_idx q) = Some di' ∧
    cb_arg di' = (if done then Some skb else None) ∧
    cmd_nsge (cmd (desc di')) = u8 nsge ∧
    sg_desc di' = sg_desc di ∧ index di' = index di ∧
    tail_idx q' = tail_idx q ∧ num_descs q' = num_descs q ∧
    length (info q') = length (info q) ∧
    head_idx q' = ring_next q (head_idx q) ∧
    (∀ j, 0 ≤ j → j ≠ head_idx q → q_info q' j = q_info q j).
Proof.
  intros Hdi. unfold ionic_tx_tso_post, ionic_txq_post.
  rewrite Hdi. cbn [bind_opt].
  destruct (q_info_Some _ _ _ Hdi) as [Hh0 _].
  match goal with
  | |- context [q_set_info (head_idx q) ?d q] =>
      destruct (q_set_info_fields (head_idx q) d q)
        as (Hh1 & Ht1 & HN1 & _ & Hl1);
      pose proof (q_info_set_eq q (head_idx q) d di Hdi) as Hd1;
      pose proof (λ j, q_info_set_ne q (head_idx q) j d) as Ho1;
      set (q1 := q_set_info (head_idx q) d q) in *
  end.
  assert (Hgo : ∀ rb a, ionic_q_post w q1 rb cb_ionic_tx_clean a = Some (w', q') →
    ∃ di', q_info q' (head_idx q) = Some di' ∧
      cb_arg di' = a ∧
      cmd_nsge (cmd (desc di')) = u8 nsge ∧
      sg_desc di' = sg_desc di ∧ index di' = index di ∧
      tail_idx q' = tail_idx q ∧ num_descs q' = num_descs q ∧
      length (info q') = length (info q) ∧
      head_idx q' = ring_next q (head_idx q) ∧
      (∀ j, 0 ≤ j → j ≠ head_idx q → q_info q' j = q_info q j)).
  { intros rb a Hp. apply ionic_q_post_eq in Hp as (di1 & Hq1 & -> & _).
    rewrite Hh1 in Hq1. rewrite ?Hh1. rewrite Hd1 in Hq1. injection Hq1 as <-.
    match goal with
    | |- context [set_head_idx ?v (q_set_info ?i ?d q1)] =>
        destruct (q_frame_set_head_info q1 v i d)
          as (Ht2 & HN2 & _ & _ & _ & _ & Hl2 & Hh2);
        exists d
    end.
    rewrite q_info_set_head_idx.
    split; [eapply q_info_set_eq; exact Hd1 |].
    split; [destruct di; reflexivity |].
    split; [destruct di; reflexivity |].
    split; [destruct di; reflexivity |].
    split; [destruct di; reflexivity |].
    split; [congruence |]. split; [congruence |]. split; [congruence |].
    split; [rewrite Hh2; unfold ring_next; rewrite HN1; reflexivity |].
    intros j Hj Hne. rewrite q_info_set_head_idx.
    rewrite q_info_set_ne by (assumption || auto). apply Ho1; auto. }
  destruct done; apply Hgo.
Qed.

Lemma slot_skb_negative {D} (qq : ionic_queue D) i : i < 0 → slot_skb qq i = None.
Proof.
  intros Hi. unfold slot_skb, q_info.
  destruct (Z.ltb_spec i 0); [reflexivity | lia].
Qed.

(** A piece mapped and then posted or continued: the invariant of the
    loops holds again.  The descriptor posted takes the packet exactly when
    no byte is left in this fragment or a later one. *)
Lemma tso_post_or_continue_attached skb q0 hdrlen len seglen' v w q r k L rem o :
  0 < gso_size skb → L < 2 ^ 32 →
  0 ≤ k → num_descs q0 = 2 ^ k → 0 ≤ head_idx q0 < num_descs q0 →
  tso_piece (gso_size skb) L rem o v →
  (rem = 0 → t_nfrags v = 0) →
  tso_open q0 q v →
  tso_post_or_continue skb hdrlen len seglen' v w q = Some r →
  match r with
  | TsoGo v' _ q' => tso_attached skb q0 q' rem v'
  | TsoAbort _ _ => True
  end.
Proof.
  intros Hmss HL Hk HN0 Hh0
    (Hl & Hf & HP & Hn & Hr & Hn0 & Ho & Hsum & Hcap & Hall) Hrn
    (Hring0 & Hnsge & Hnone).
  pose proof Hring0 as (Hok & Hidx & HN & Ht & Hh & di & Hdi & Hel).
  pose proof Hok as ((Hkk & Hlen) & Hsg).
  assert (HNpos : 0 < num_descs q0) by (rewrite HN0; apply Z.pow_pos_nonneg; lia).
  unfold tso_post_or_continue.
  destruct (0 <? t_nfrags v) eqn:En; destruct (0 <? t_frag_left v) eqn:Ef;
    cbn [andb].
  1: { intros [= <-]. split; [exact Hring0 |].
       apply Z.ltb_lt in En. split.
       - intros _. split; [intros _; exact Hnsge | exact Hnone].
       - intros HR. assert (rem = 0) by lia. specialize (Hrn ltac:(assumption)).
         lia. }
  all: match goal with
    | |- context [ionic_tx_tso_post ?a ?b ?c ?d ?e ?f ?g ?h ?i ?j ?k ?l ?m] =>
        destruct (ionic_tx_tso_post a b c d e f g h i j k l m)
          as [[w1 q1] |] eqn:Hpost; [| discriminate];
        set (done := m) in *
    end;
    cbn [bind_opt]; intros [= <-];
    destruct (ionic_tx_tso_post_slot _ _ _ _ _ _ _ _ _ _ _ _ _ _ _ di Hdi Hpost)
      as (di' & Hdi' & Harg & Hcnt & Hsgd & Hix & Ht1 & HN1 & Hl1 & Hh1 & Hother);
    assert (HPL : t_total_pkts v * gso_size skb ≤ L) by lia;
    assert (HPb : t_total_pkts v ≤ L) by nia;
    assert (Hu : u64 (t_total_pkts v + 1) = t_total_pkts v + 1)
      by (apply u64_small; lia);
    assert (Hhead : head_idx q1 = (head_idx q0 + (t_total_pkts v + 1)) mod num_descs q0)
      by (rewrite Hh1, (ring_next_mod q k) by (rewrite ?HN; assumption);
          rewrite Hh, HN, Z.add_mod_idemp_l by lia; f_equal; lia);
    assert (Hslot : ∀ i, i ≠ head_idx q → slot_skb q1 i = slot_skb q i)
      by (intros i Hne; destruct (Z.ltb_spec i 0);
          [rewrite !slot_skb_negative by assumption; reflexivity
          | unfold slot_skb; rewrite Hother by assumption; reflexivity]);
    assert (Hslot_h : slot_skb q1 (head_idx q) = skb_id <$> cb_arg di')
      by (unfold slot_skb; rewrite Hdi'; reflexivity);
    assert (Hring : tso_ring q0 q1
              (Build_tso_vars (t_left v) (t_offset v) (t_frag_left v) seglen'
                 (t_desc_addr v) (t_desc_len v) (t_desc_nsge v) false (t_nfrags v)
                 0%nat (t_total_pkts v + 1)
                 (u64 (t_total_bytes v + (if t_start v then len else len + hdrlen)))))
      by (unfold tso_ring; cbn [t_total_pkts t_elem];
          split;
          [ split; [split; [rewrite HN1; exact Hkk | congruence] |];
            intros j dj Hj; destruct (q_info_Some _ _ _ Hj) as [Hj0 _];
            destruct (Z.eq_dec j (head_idx q)) as [-> | Hne];
            [ assert (dj = di') as -> by congruence;
              rewrite Hcnt, Hsgd;
              pose proof (u8_range (t_desc_nsge v)) as Hu8;
              assert (u8 (t_desc_nsge v) ≤ t_desc_nsge v)
                by (unfold u8; apply Z.mod_le; lia);
              lia
            | rewrite Hother in Hj by assumption; eapply Hsg; eauto ]
          | split; [eapply ring_indexed_step; eauto |];
            split; [congruence |]; split; [congruence |];
            split; [exact Hhead |];
            destruct (q_info_in_range q1 (head_idx q1)) as [dn Hdn];
            [ rewrite Hhead, Hl1, Hlen, HN; apply Z.mod_pos_bound; lia
            | exists dn; split; [exact Hdn | lia] ] ]);
    rewrite Hu; split; [exact Hring |];
    cbn [t_left t_frag_left t_total_pkts t_nfrags t_desc_nsge t_elem];
    assert (Hwalk : ring_walk q0 (head_idx q0) (Z.to_nat (t_total_pkts v + 1))
              = ring_walk q0 (head_idx q0) (Z.to_nat (t_total_pkts v))
                  ++ [head_idx q])
      by (replace (Z.to_nat (t_total_pkts v + 1))
            with (S (Z.to_nat (t_total_pkts v))) by lia;
          rewrite (ring_walk_S_r q0 k) by assumption;
          rewrite Z2Nat.id by lia; rewrite Hh; reflexivity);
    (split;
     [ intros HR;
       assert (Hdone : done = false)
         by (unfold done; destruct (Z.eqb_spec (t_nfrags v) 0) as [Hz | _];
             [ specialize (Hn0 Hz); cbn [andb]; apply Z.eqb_neq; lia
             | reflexivity ]);
       rewrite Hdone in Harg; rewrite Harg in Hslot_h;
       split;
       [ intros Hfl; apply Z.ltb_lt in Hfl; specialize (Hall ltac:(lia));
         first [ rewrite Hfl in Ef; discriminate
               | apply Z.ltb_ge in En; specialize (Hn0 ltac:(lia)); lia ]
       | unfold tso_none; rewrite Hwalk; intros i Hi;
         apply elem_of_app in Hi as [Hi | Hi];
         [ destruct (Z.eq_dec i (head_idx q)) as [-> | Hne];
           [ exact Hslot_h | rewrite Hslot by assumption; apply Hnone; exact Hi ]
         | apply list_elem_of_singleton in Hi as ->; exact Hslot_h ] ]
     | intros HR;
       assert (Hdone : done = true)
         by (unfold done; rewrite Hrn by lia;
             replace (t_left v) with 0 by lia; reflexivity);
       rewrite Hdone in Harg; rewrite Harg in Hslot_h;
       split; [lia |]; intros HPN;
       replace (head_idx q0 + (t_total_pkts v + 1) - 1)
         with (head_idx q0 + t_total_pkts v) by lia;
       rewrite <- Hh;
       split; [exact Hslot_h |];
       replace (t_total_pkts v + 1 - 1) with (t_total_pkts v) by lia;
       intros i Hi; rewrite Hslot;
       [ apply Hnone; exact Hi
       | rewrite Hh;
         assert (Hlt : Z.of_nat (Z.to_nat (t_total_pkts v)) < num_descs q0)
           by lia;
         pose proof (ring_walk_fresh q0 k (Z.to_nat (t_total_pkts v))
                       (head_idx q0) i Hk HN0 Hh0 Hlt Hi) as Hfr;
         rewrite Z2Nat.id in Hfr by lia; exact Hfr ] ]).
Qed.

(** A slot at [head] rewritten with the same descriptor, index and
    callback argument and a scatter-gather list of the same length. *)
Lemma tso_write_sg q di di' :
  q_info q (head_idx q) = Some di →
  desc di' = desc di → index di' = index di → cb_arg di' = cb_arg di →
  length (sg_desc di') = length (sg_desc di) →
  let q' := q_set_info (head_idx q) di' q in
  (tx_ring_ok q → tx_ring_ok q') ∧ (ring_indexed q → ring_indexed q') ∧
  num_descs q' = num_descs q ∧ tail_idx q' = tail_idx q ∧
  head_idx q' = head_idx q ∧ q_info q' (head_idx q') = Some di' ∧
  (∀ i, slot_skb q' i = slot_skb q i).
Proof.
  intros Hdi Hd Hi Ha Hl q'.
  destruct (q_set_info_fields (head_idx q) di' q) as (Hh1 & Ht1 & HN1 & _ & Hl1).
  fold q' in Hh1, Ht1, HN1, Hl1.
  destruct (q_info_Some _ _ _ Hdi) as [Hh0 _].
  pose proof (q_info_set_eq q (head_idx q) di' di Hdi) as Hq'. fold q' in Hq'.
  assert (Hother : ∀ j, 0 ≤ j → j ≠ head_idx q → q_info q' j = q_info q j)
    by (intros j Hj Hne; apply q_info_set_ne; auto).
  split.
  { intros ((Hkk & Hlen) & Hsg).
    split; [split; [rewrite HN1; exact Hkk | congruence] |].
    intros j dj Hj. destruct (q_info_Some _ _ _ Hj) as [Hj0 _].
    destruct (Z.eq_dec j (head_idx q)) as [-> | Hne].
    - assert (dj = di') as -> by congruence. rewrite Hd, Hl. eapply Hsg; eauto.
    - rewrite Hother in Hj by assumption. eapply Hsg; eauto. }
  split; [intros Hidx; eapply ring_indexed_step; eauto |].
  split; [exact HN1 |]. split; [exact Ht1 |]. split; [exact Hh1 |].
  split; [rewrite Hh1; exact Hq' |].
  intros i. apply (slot_skb_set_info_same_arg q (head_idx q) di di' i Hdi Ha).
Qed.

Lemma tso_ring_head_range q0 q v k :
  0 ≤ k → num_descs q0 = 2 ^ k → tso_ring q0 q v →
  num_descs q = 2 ^ k ∧ 0 ≤ head_idx q < num_descs q.
Proof.
  intros Hk HN0 (_ & _ & HN & _ & Hh & _).
  split; [congruence |]. rewrite Hh, HN. apply Z.mod_pos_bound.
  rewrite HN0. apply Z.pow_pos_nonneg; lia.
Qed.

Lemma tso_chop_data_attached skb q0 hdrlen L rem k fuel : ∀ v w q r,
  0 < gso_size skb → L < 2 ^ 32 →
  0 ≤ k → num_descs q0 = 2 ^ k → 0 ≤ head_idx q0 < num_descs q0 →
  tso_budget (gso_size skb) L rem v →
  gso_size skb ≤ t_seglen v < 2 ^ 32 →
  (rem = 0 → t_nfrags v = 0) →
  tso_attached skb q0 q rem v →
  tso_chop_data fuel skb hdrlen v w q = Some r →
  match r with
  | TsoGo v' _ q' => tso_attached skb q0 q' rem v'
  | TsoAbort _ _ => True
  end.
Proof.
  induction fuel as [| fuel IH];
    intros v w q r Hmss HL Hk HN0 Hh0 Hb Hseg Hrn Hatt;
    cbn [tso_chop_data]; destruct (t_left v <=? 0) eqn:El.
  1, 3: intros [= <-]; exact Hatt.
  1: discriminate.
  apply Z.leb_gt in El.
  destruct Hb as (Hl & Hf & HP & Hn & Hr & Hn0 & [(o & Ho & Hsum & _) | (Hz & _)]);
    [| lia].
  destruct Hatt as (Hring & Hopen & _).
  destruct (Hopen ltac:(lia)) as (_ & Hnone).
  destruct (tso_ring_head_range q0 q v k Hk HN0 Hring) as (HN & Hh).
  destruct (ionic_tx_map_single w) as [a w1].
  destruct (dma_mapping_error a); [intros [= <-]; exact I |].
  set (len := Z.min (t_seglen v) (t_left v)).
  assert (Hlen : 0 < len ≤ t_left v ∧ len ≤ t_seglen v ∧
                 (len = t_left v ∨ len = t_seglen v)) by (unfold len; lia).
  match goal with
  | |- context [tso_post_or_continue ?a ?b ?c ?d ?e ?f ?g] =>
      destruct (tso_post_or_continue a b c d e f g) as [r1 |] eqn:Hpc;
        [| discriminate];
      assert (Hpiece : tso_piece (gso_size skb) L rem len e)
        by (unfold tso_piece; cbn [t_left t_frag_left t_total_pkts t_nfrags];
            rewrite !u32_small by lia; repeat split; lia);
      pose proof (tso_post_or_continue_budget a b c d e f g r1 k L rem len
                    Hmss HL Hk HN Hh Hpiece Hpc) as (Hadv & Hrest);
      assert (Hopen1 : tso_open q0 q e)
        by (split; [exact Hring |];
            split; [cbn [t_desc_nsge t_elem]; lia | exact Hnone]);
      pose proof (tso_post_or_continue_attached a q0 b c d e f g r1 k L rem len
                    Hmss HL Hk HN0 Hh0 Hpiece Hrn Hopen1 Hpc) as Hatt1
  end.
  cbn [bind_opt].
  destruct r1 as [v2 w2 q2 | w2 q2]; [| intros [= <-]; exact I].
  cbn [tso_advance] in Hadv.
  destruct Hadv as (Hb2 & Hn2 & _).
  cbn [t_nfrags t_seglen] in Hn2, Hrest.
  destruct Hrest as (_ & Hseg2).
  apply IH; try assumption.
  - destruct Hseg2 as [-> | ->]; lia.
  - rewrite Hn2. exact Hrn.
Qed.

Lemma tso_chop_frag_attached skb q0 hdrlen L rem k fuel : ∀ v w q r,
  0 < gso_size skb < 2 ^ 32 → L < 2 ^ 32 →
  0 ≤ k → num_descs q0 = 2 ^ k → 0 ≤ head_idx q0 < num_descs q0 →
  tso_budget (gso_size skb) L rem v →
  (rem = 0 → t_nfrags v = 0) →
  tso_attached skb q0 q rem v →
  tso_chop_frag fuel skb hdrlen v w q = Some r →
  match r with
  | TsoGo v' _ q' => tso_attached skb q0 q' rem v'
  | TsoAbort _ _ => True
  end.
Proof.
  induction fuel as [| fuel IH];
    intros v w q r Hmss HL Hk HN0 Hh0 Hb Hrn Hatt;
    cbn [tso_chop_frag]; destruct (t_left v <=? 0) eqn:El.
  1, 3: intros [= <-]; exact Hatt.
  1: discriminate.
  apply Z.leb_gt in El.
  destruct Hb as (Hl & Hf & HP & Hn & Hr & Hn0 & [(o & Ho & Hsum & Hcap) | (Hz & _)]);
    [| lia].
  destruct Hatt as (Hring & Hopen & _).
  destruct (Hopen ltac:(lia)) as (Hcnt & Hnone).
  destruct (tso_ring_head_range q0 q v k Hk HN0 Hring) as (HN & Hh).
  assert (Htail : ∀ r1,
    match r1 with
    | TsoGo v2 _ _ =>
        tso_budget (gso_size skb) L rem v2 ∧ t_nfrags v2 = t_nfrags v
    | TsoAbort _ _ => True
    end →
    match r1 with
    | TsoGo v' _ q' => tso_attached skb q0 q' rem v'
    | TsoAbort _ _ => True
    end →
    match r1 with
    | TsoGo v w q => tso_chop_frag fuel skb hdrlen v w q
    | TsoAbort w q => Some (TsoAbort w q)
    end = Some r →
    match r with
    | TsoGo v' _ q' => tso_attached skb q0 q' rem v'
    | TsoAbort _ _ => True
    end).
  { intros r1 Hbn Hatt1.
    destruct r1 as [v2 w2 q2 | w2 q2]; [| intros [= <-]; exact I].
    destruct Hbn as (Hb2 & Hn2).
    apply IH; try assumption. rewrite Hn2. exact Hrn. }
  destruct (0 <? t_frag_left v) eqn:Ef.
  - apply Z.ltb_lt in Ef. specialize (Hcap Ef). specialize (Hcnt Ef).
    set (len := Z.min (t_frag_left v) (t_left v)).
    assert (Hlen : 0 < len ≤ t_left v ∧ len ≤ t_frag_left v ∧
                   (len = t_left v ∨ len = t_frag_left v)) by (unfold len; lia).
    pose proof (tx_pkts_map w) as (_ & Hw1).
    destruct (ionic_tx_map_frag w) as [a w1]. cbn [snd] in Hw1.
    destruct (q_info q (head_idx q)) as [di |] eqn:Hdi; [| discriminate].
    cbn [bind_opt].
    destruct (sg_desc di !! t_elem v) as [e |] eqn:He; [| discriminate].
    cbn [bind_opt].
    destruct (dma_mapping_error a); [intros [= <-]; exact I |].
    apply lookup_lt_Some in He.
    pose proof Hring as (Hok & Hidx & _ & Ht & Hhd & _).
    match goal with
    | |- context [q_set_info (head_idx q) ?d q] =>
        destruct (tso_write_sg q di d Hdi)
          as (Hok1 & Hidx1 & HN1 & Ht1 & Hh1 & Hdi1 & Hs1);
          [ destruct di; reflexivity | destruct di; reflexivity
          | destruct di; reflexivity
          | destruct di; cbn; rewrite length_insert; reflexivity |];
        set (d1 := d) in *
    end.
    set (q1 := q_set_info (head_idx q) d1 q) in *.
    match goal with
    | |- context [q_set_info (head_idx q1) ?d q1] =>
        destruct (tso_write_sg q1 d1 d Hdi1)
          as (Hok2 & Hidx2 & HN2 & Ht2 & Hh2 & Hdi2 & Hs2);
          [ destruct di; reflexivity | destruct di; reflexivity
          | destruct di; reflexivity
          | destruct di; cbn; rewrite !length_insert; reflexivity |];
        set (d2 := d) in *
    end.
    set (q2 := q_set_info (head_idx q1) d2 q1) in *.
    assert (Hlen2 : length (sg_desc d2) = length (sg_desc di))
      by (unfold d2; destruct di; cbn; rewrite length_insert; reflexivity).
    match goal with
    | |- context [tso_post_or_continue ?a ?b ?c ?d ?e ?f ?g] =>
        destruct (tso_post_or_continue a b c d e f g) as [r1 |] eqn:Hpc;
          [| discriminate];
        assert (Hpiece : tso_piece (gso_size skb) L rem (o + len) e)
          by (unfold tso_piece; cbn [t_left t_frag_left t_total_pkts t_nfrags];
              rewrite !u32_small by lia; repeat split; lia);
        assert (Hopen1 : tso_open q0 q2 e)
          by (split;
              [ unfold tso_ring; cbn [t_total_pkts t_elem];
                split; [auto |]; split; [auto |]; split; [congruence |];
                split; [congruence |]; split; [congruence |];
                exists d2; split; [exact Hdi2 | rewrite Hlen2; lia]
              | split;
                [ cbn [t_desc_nsge t_elem];
                  pose proof (u8_range (t_desc_nsge v + 1));
                  assert (u8 (t_desc_nsge v + 1) ≤ t_desc_nsge v + 1)
                    by (unfold u8; apply Z.mod_le; lia);
                  lia
                | intros i Hi; cbn [t_total_pkts] in Hi;
                  rewrite Hs2, Hs1; apply Hnone; exact Hi ] ]);
        pose proof (tso_post_or_continue_budget a b c d e f g r1 k L rem (o + len)
                      ltac:(lia) HL Hk ltac:(congruence) ltac:(lia) Hpiece Hpc)
          as Hbud;
        pose proof (tso_post_or_continue_attached a q0 b c d e f g r1 k L rem
                      (o + len) ltac:(lia) HL Hk HN0 Hh0 Hpiece Hrn Hopen1 Hpc)
          as Hatt1
    end.
    cbn [bind_opt]. apply (Htail r1); [| exact Hatt1].
    destruct r1 as [v2 w2 q2' |]; [| exact I].
    destruct Hbud as ((Hb2 & Hn2 & _) & _). split; [exact Hb2 | exact Hn2].
  - apply Z.ltb_ge in Ef.
    set (len := Z.min (gso_size skb) (t_left v)).
    assert (Hlen : 0 < len ≤ t_left v ∧ len ≤ gso_size skb ∧
                   (len = t_left v ∨ len = gso_size skb)) by (unfold len; lia).
    destruct (ionic_tx_map_frag w) as [a w1].
    destruct (dma_mapping_error a); [intros [= <-]; exact I |].
    match goal with
    | |- context [tso_post_or_continue ?a ?b ?c ?d ?e ?f ?g] =>
        destruct (tso_post_or_continue a b c d e f g) as [r1 |] eqn:Hpc;
          [| discriminate];
        assert (Hpiece : tso_piece (gso_size skb) L rem len e)
          by (unfold tso_piece; cbn [t_left t_frag_left t_total_pkts t_nfrags];
              rewrite !u32_small by lia; repeat split; lia);
        assert (Hopen1 : tso_open q0 q e)
          by (split; [exact Hring |];
              split; [cbn [t_desc_nsge t_elem]; lia | exact Hnone]);
        pose proof (tso_post_or_continue_budget a b c d e f g r1 k L rem len
                      ltac:(lia) HL Hk HN Hh Hpiece Hpc) as Hbud;
        pose proof (tso_post_or_continue_attached a q0 b c d e f g r1 k L rem
                      len ltac:(lia) HL Hk HN0 Hh0 Hpiece Hrn Hopen1 Hpc)
          as Hatt1
    end.
    cbn [bind_opt]. apply (Htail r1); [| exact Hatt1].
    destruct r1 as [v2 w2 q2' |]; [| exact I].
    destruct Hbud as ((Hb2 & Hn2 & _) & _). split; [exact Hb2 | exact Hn2].
Qed.

Lemma sum_frags_pos_nil l :
  Forall (λ f, 0 < f) l → sum_frags l = 0 → l = [].
Proof.
  intros Hl. destruct Hl as [| f l Hf Hl]; [reflexivity |].
  assert (Hnn : Forall (λ f, 0 ≤ f) l)
    by (eapply Forall_impl; [exact Hl | cbn; intros; lia]).
  pose proof (sum_frags_nonneg0 _ Hnn) as Hs.
  change (sum_frags (f :: l)) with (f + sum_frags l). lia.
Qed.

Lemma tso_chop_frags_attached skb q0 hdrlen L k frags : ∀ len_left v w q r,
  0 < gso_size skb < 2 ^ 32 → L < 2 ^ 32 →
  0 ≤ k → num_descs q0 = 2 ^ k → 0 ≤ head_idx q0 < num_descs q0 →
  Forall (λ f, 0 < f) frags → sum_frags frags < 2 ^ 32 →
  Z.of_nat (length frags) < 2 ^ 32 →
  len_left = sum_frags frags →
  t_nfrags v = Z.of_nat (length frags) → t_left v = 0 →
  tso_budget (gso_size skb) L (sum_frags frags) v →
  tso_attached skb q0 q (sum_frags frags) v →
  tso_chop_frags frags len_left skb hdrlen v w q = Some r →
  match r with
  | TsoGo v' _ q' => tso_attached skb q0 q' 0 v' ∧ t_left v' = 0
  | TsoAbort _ _ => True
  end.
Proof.
  induction frags as [| frag frags IH];
    intros len_left v w q r Hmss HL Hk HN0 Hh0 Hfr Hsum Hcnt Hll Hn Hl0 Hb Hatt;
    cbn [tso_chop_frags]; destruct (len_left =? 0) eqn:El.
  1: { intros [= <-]. split; [exact Hatt | exact Hl0]. }
  1: discriminate.
  1: { apply Z.eqb_eq in El. rewrite El in Hll. symmetry in Hll.
       apply (sum_frags_pos_nil _ Hfr) in Hll. discriminate. }
  pose proof Hfr as Hfr0.
  apply Forall_cons in Hfr as (Hf0 & Hfr).
  assert (Hnn : Forall (λ f, 0 ≤ f) frags)
    by (eapply Forall_impl; [exact Hfr | cbn; intros; lia]).
  pose proof (sum_frags_nonneg0 _ Hnn) as Hs0.
  change (sum_frags (frag :: frags)) with (frag + sum_frags frags) in *.
  cbn [length] in Hcnt, Hn.
  assert (Hu : u32 frag = frag) by (apply u32_small; lia).
  rewrite Hu.
  destruct Hb as (Hl & Hf & HP & Hnn' & Hr & Hn0 & Hdis).
  destruct Hatt as (Hring & Hopen & _).
  destruct (Hopen ltac:(lia)) as (Hnsge & Hnone).
  destruct (tso_ring_head_range q0 q v k Hk HN0 Hring) as (HN & Hh).
  match goal with
  | |- context [tso_chop_frag ?a ?b ?c ?d ?e ?f] =>
      destruct (tso_chop_frag a b c d e f) as [r1 |] eqn:Hfrag;
        [| discriminate];
      assert (Hb1 : tso_budget (gso_size skb) L (sum_frags frags) d)
        by (unfold tso_budget; cbn [t_left t_frag_left t_total_pkts t_nfrags];
            rewrite u32_small by lia;
            split; [lia |]; split; [exact Hf |]; split; [exact HP |];
            split; [lia |]; split; [exact Hs0 |]; split;
            [ intros Hz; assert (Hlen : length frags = 0%nat) by lia;
              destruct frags; [reflexivity | discriminate]
            | left; destruct Hdis as [(o & Ho & Hsm & Hcap) | (_ & Hz & _)];
              [| lia];
              exists o; split; [exact Ho |]; split; [lia | exact Hcap] ]);
      assert (Hrn1 : sum_frags frags = 0 → t_nfrags d = 0)
        by (intros Hz; apply (sum_frags_pos_nil _ Hfr) in Hz; subst frags;
            cbn [t_nfrags length] in *; rewrite Hn; reflexivity);
      assert (Hatt0 : tso_attached skb q0 q (sum_frags frags) d)
        by (split; [exact Hring |]; cbn [t_left t_frag_left t_total_pkts
                                         t_desc_nsge t_elem];
            split; [intros _; split; [exact Hnsge | exact Hnone] | intros; lia]);
      pose proof (tso_chop_frag_budget b c L (sum_frags frags) k a d e f r1
                    Hmss HL Hk HN Hh Hb1 Hfrag) as (Hadv & Hl1);
      pose proof (tso_chop_frag_attached b q0 c L (sum_frags frags) k a d e f r1
                    Hmss HL Hk HN0 Hh0 Hb1 Hrn1 Hatt0 Hfrag) as Hatt1
  end.
  cbn [bind_opt].
  destruct r1 as [v1 w1 q1 | w1 q1]; [| intros [= <-]; exact I].
  cbn [tso_advance] in Hadv.
  destruct Hadv as (Hb2 & Hn1 & _).
  cbn [t_nfrags] in Hn1. rewrite u32_small in Hn1 by lia.
  apply IH; try assumption; try lia.
  rewrite Hll. replace (frag + sum_frags frags - frag) with (sum_frags frags)
    by lia. apply u32_small. lia.
Qed.

(** The two chopping loops, on a packet whose fragments are not empty: when
    they run to the end, at least one descriptor has been posted, the last
    one posted holds the packet and no earlier one does. *)
Lemma tso_chop_attached w q skb r :
  tx_ring_ok q → ring_indexed q → 0 ≤ head_idx q < num_descs q →
  skb_tso_ok skb → Forall (λ f, 0 < f) (skb_frags skb) → 0 < skb_len skb →
  tso_chop w q skb (tso_hdrlen skb) = Some r →
  match r with
  | TsoGo v' _ q' => tso_attached skb q q' 0 v' ∧ t_left v' = 0
  | TsoAbort _ _ => True
  end.
Proof.
  intros Hok Hidx Hh (Hmss & Hseg & Hhl & Hfr & Hcnt & Hlen & Hmax) Hpos Hskb.
  pose proof Hok as (((k & Hk & HN) & Hilen) & _).
  assert (Hhdr : 0 ≤ tso_hdrlen skb) by (unfold tso_hdrlen; apply u32_range).
  pose proof (sum_frags_nonneg0 _ Hfr) as Hs0.
  unfold nr_frags in Hcnt.
  unfold tso_chop.
  replace (skb_len skb - skb_headlen skb) with (sum_frags (skb_frags skb))
    by lia.
  rewrite !u32_small by lia.
  destruct (q_info_in_range q (head_idx q) ltac:(lia)) as [di0 Hdi0].
  match goal with
  | |- context [tso_chop_data ?a ?b ?c ?d ?e ?f] =>
      destruct (tso_chop_data a b c d e f) as [r1 |] eqn:Hdata;
        [| discriminate];
      assert (Hb0 : tso_budget (gso_size skb) (skb_len skb)
                      (sum_frags (skb_frags skb)) d)
        by (unfold tso_budget, nr_frags;
            cbn [t_left t_frag_left t_total_pkts t_nfrags];
            split; [lia |]; split; [lia |]; split; [lia |]; split; [lia |];
            split; [exact Hs0 |]; split;
            [ intros Hz; assert (Hl0 : length (skb_frags skb) = 0%nat) by lia;
              destruct (skb_frags skb); [reflexivity | discriminate]
            | left; exists 0; split; [lia |]; split; [lia |]; intros; lia ]);
      assert (Hrn0 : sum_frags (skb_frags skb) = 0 → t_nfrags d = 0)
        by (intros Hz; apply (sum_frags_pos_nil _ Hpos) in Hz;
            cbn [t_nfrags]; unfold nr_frags; rewrite Hz; reflexivity);
      assert (Hatt0 : tso_attached skb q q (sum_frags (skb_frags skb)) d)
        by (split;
            [ unfold tso_ring; cbn [t_total_pkts t_elem];
              split; [exact Hok |]; split; [exact Hidx |];
              split; [reflexivity |]; split; [reflexivity |];
              split; [rewrite Z.add_0_r, Z.mod_small by lia; reflexivity |];
              exists di0; split; [exact Hdi0 | lia]
            | cbn [t_left t_frag_left t_total_pkts t_desc_nsge t_elem];
              split;
              [ intros _; split; [lia |];
                intros i Hi; cbn in Hi; apply elem_of_nil in Hi; contradiction
              | intros; lia ] ]);
      pose proof (tso_chop_data_budget b c (skb_len skb)
                    (sum_frags (skb_frags skb)) k a d e f r1
                    Hmss ltac:(lia) (proj1 Hk) HN Hh Hb0
                    ltac:(cbn [t_seglen]; lia) Hdata) as (Hadv & Hl1);
      pose proof (tso_chop_data_attached b q c (skb_len skb)
                    (sum_frags (skb_frags skb)) k a d e f r1
                    Hmss ltac:(lia) (proj1 Hk) HN Hh Hb0
                    ltac:(cbn [t_seglen]; lia) Hrn0 Hatt0 Hdata) as Hatt1
  end.
  cbn [bind_opt].
  destruct r1 as [v1 w1 q1 | w1 q1]; [| intros [= <-]; exact I].
  cbn [tso_advance] in Hadv.
  destruct Hadv as (Hb1 & Hn1 & _).
  cbn [t_nfrags] in Hn1. unfold nr_frags in Hn1.
  apply (tso_chop_frags_attached skb q (tso_hdrlen skb) (skb_len skb) k);
    try assumption; try lia.
Qed.

End TsoAttach.

(** ** Transmit: one completion closes a group, and frees its packet once *)

Section TxGroupSend.
Context `{ionic_hdr}.

Lemma omap_all_none {A B} (f : A → option B) (l : list A) :
  (∀ x, x ∈ l → f x = None) → omap f l = [].
Proof.
  induction l as [| x l IH]; intros Hl; [reflexivity |].
  rewrite omap_cons_eq, Hl by (apply elem_of_cons; auto).
  apply IH. intros y Hy. apply Hl. apply elem_of_cons. auto.
Qed.

Lemma ring_walk_mono {D} (qq : ionic_queue D) a : ∀ b s i,
  (a ≤ b)%nat → i ∈ ring_walk qq s a → i ∈ ring_walk qq s b.
Proof.
  induction a as [| a IH]; intros b s i Hab Hi; cbn in Hi.
  - apply elem_of_nil in Hi. contradiction.
  - destruct b as [| b]; [lia |]. cbn.
    apply elem_of_cons in Hi as [-> | Hi]; apply elem_of_cons; [auto |].
    right. apply IH; [lia | exact Hi].
Qed.

(** The slots a matching completion closes, and what closing does to them:
    the packets they hold are freed in ring order, and everything their
    descriptors record is unmapped. *)
Lemma ionic_tx_service_closes w cq q comp :
  tx_ring_ok q → ring_indexed q →
  0 ≤ tail_idx q < num_descs q →
  u16 (txc_comp_index comp) < num_descs q →
  color_match (txc_color comp) (done_color cq) = true →
  let c := u16 (txc_comp_index comp) in
  let closed :=
    ring_walk q (tail_idx q)
      (S (Z.to_nat ((c - tail_idx q) mod num_descs q))) in
  ∃ w' q',
    ionic_tx_service w cq q comp = Some (true, w', q') ∧
    last closed = Some c ∧
    tail_idx q' = (c + 1) mod num_descs q ∧ head_idx q' = head_idx q ∧
    freed_skbs w' = freed_skbs w ++ omap (slot_skb q) closed ∧
    dma_maps w' = foldl (slot_unmap_at q) (dma_maps w) closed ∧
    (∀ i, i ∈ closed →
       ∃ di di', q_info q i = Some di ∧ q_info q' i = Some di' ∧
                 cb di' = None ∧ cb_arg di' = None ∧
                 desc di' = desc di ∧ sg_desc di' = sg_desc di) ∧
    (∀ j, 0 ≤ j → j ∉ closed → q_info q' j = q_info q j).
Proof.
  intros Hok Hidx Ht Hc Hcol c closed.
  pose proof Hok as (((k & Hk & HN) & Hlen) & _).
  pose proof (u16_range (txc_comp_index comp)) as Hc0. fold c in Hc0, Hc.
  set (m := Z.to_nat ((c - tail_idx q) mod num_descs q)) in *.
  pose proof (Z.mod_pos_bound (c - tail_idx q) (num_descs q) ltac:(lia)) as Hmb.
  assert (Hm : (c - tail_idx q) mod num_descs q = Z.of_nat m) by (unfold m; lia).
  assert (Hlastc : (tail_idx q + Z.of_nat m) mod num_descs q = c).
  { rewrite <- Hm, sub_mod_cases by lia.
    destruct (Z.leb_spec (tail_idx q) c).
    - rewrite Z.mod_small by lia. lia.
    - replace (tail_idx q + (c - tail_idx q + num_descs q))
        with (c + 1 * num_descs q) by lia.
      rewrite Z.mod_add by lia. apply Z.mod_small. lia. }
  unfold ionic_tx_service. rewrite Hcol. cbn [negb].
  rewrite (ionic_tx_service_loop_pop comp m)
    by (try assumption; fold c; lia).
  destruct (tx_pop_n_spec true (S m) w q Hok Ht ltac:(lia))
    as (w' & q' & Hpop & Ht' & Hh' & _ & Hf' & Hm' & _ & _ & _ & _ & Hcl & Hout).
  fold closed in Hf', Hm', Hcl, Hout.
  rewrite Hpop. cbn [bind_opt]. exists w', q'.
  split; [reflexivity |].
  split.
  { unfold closed. rewrite (ring_walk_S_r q k m) by (lia || assumption).
    rewrite Hlastc. apply last_snoc. }
  split.
  { rewrite Ht', <- Hlastc, Z.add_mod_idemp_l by lia. f_equal. lia. }
  split; [exact Hh' |]. split; [exact Hf' |]. split; [exact Hm' |].
  split; [| exact Hout].
  intros i Hi. destruct (Hcl i Hi) as (di & di' & H1 & H2 & H3 & H4 & _ & H5 & H6).
  exists di, di'. auto 10.
Qed.

(** C5: a transmit completion whose color matches makes the handler pop and
    clean the oldest in-flight slots one after another, stopping at the slot
    whose stored sequence index is the completion's: it closes every slot
    from [tail] to that one, frees each packet a closed slot holds, in ring
    order, unmaps what the descriptors of the closed slots record, and
    clears their callbacks.  A segmented send that succeeds posts a group
    of at least one descriptor and attaches the packet to the last one
    posted and to no other; so on a ring that was empty before the send,
    the completion that names the last slot of the group closes the group
    and frees the packet exactly once, and a completion that names an
    earlier slot of the group frees nothing. *)
Theorem ionic_tx_service_closes_group :
  (∀ w cq q comp,
     tx_ring_ok q → ring_indexed q →
     0 ≤ tail_idx q < num_descs q →
     u16 (txc_comp_index comp) < num_descs q →
     color_match (txc_color comp) (done_color cq) = true →
     let c := u16 (txc_comp_index comp) in
     let closed :=
       ring_walk q (tail_idx q)
         (S (Z.to_nat ((c - tail_idx q) mod num_descs q))) in
     ∃ w' q',
       ionic_tx_service w cq q comp = Some (true, w', q') ∧
       last closed = Some c ∧
       tail_idx q' = (c + 1) mod num_descs q ∧ head_idx q' = head_idx q ∧
       freed_skbs w' = freed_skbs w ++ omap (slot_skb q) closed ∧
       dma_maps w' = foldl (slot_unmap_at q) (dma_maps w) closed ∧
       (∀ i, i ∈ closed →
          ∃ di di', q_info q i = Some di ∧ q_info q' i = Some di' ∧
                    cb di' = None ∧ cb_arg di' = None ∧
                    desc di' = desc di ∧ sg_desc di' = sg_desc di) ∧
       (∀ j, 0 ≤ j → j ∉ closed → q_info q' j = q_info q j)) ∧
  (∀ w0 q0 skb w q,
     tx_ring_ok q0 → ring_indexed q0 → 0 ≤ head_idx q0 < num_descs q0 →
     skb_tso_ok skb → Forall (λ f, 0 < f) (skb_frags skb) → 0 < skb_len skb →
     ionic_q_has_space q0 (ionic_tx_descs_needed w0 q0 skb).1.1 = true →
     ionic_tx_tso w0 q0 skb = Some (0, w, q) →
     ∃ n,
       1 ≤ n ≤ (ionic_tx_descs_needed w0 q0 skb).1.1 ∧ n < num_descs q0 ∧
       n = tx_pkts (txs w) - tx_pkts (txs w0) ∧
       head_idx q = (head_idx q0 + n) mod num_descs q0 ∧
       tail_idx q = tail_idx q0 ∧ freed_skbs w = freed_skbs w0 ∧
       let group := ring_walk q0 (head_idx q0) (Z.to_nat n) in
       let last_slot := (head_idx q0 + n - 1) mod num_descs q0 in
       last group = Some last_slot ∧
       slot_skb q last_slot = Some (skb_id skb) ∧
       (∀ i, i ∈ group → i ≠ last_slot → slot_skb q i = None) ∧
       (tail_idx q0 = head_idx q0 →
        ∀ cq comp,
          color_match (txc_color comp) (done_color cq) = true →
          (u16 (txc_comp_index comp) = last_slot →
           ∃ w' q',
             ionic_tx_service w cq q comp = Some (true, w', q') ∧
             tail_idx q' = head_idx q ∧ head_idx q' = head_idx q ∧
             freed_skbs w' = freed_skbs w ++ [skb_id skb] ∧
             dma_maps w' = foldl (slot_unmap_at q) (dma_maps w) group) ∧
          (∀ j, 0 ≤ j < n - 1 →
             u16 (txc_comp_index comp) = (head_idx q0 + j) mod num_descs q0 →
             ∃ w' q',
               ionic_tx_service w cq q comp = Some (true, w', q') ∧
               freed_skbs w' = freed_skbs w))).
Proof.
  split; [intros; apply ionic_tx_service_closes; assumption |].
  intros w0 q0 skb w q Hok Hidx Hh0 Hskb Hpos Hlen0 Hspace.
  pose proof Hok as (((k & Hk & HN) & Hilen) & _).
  pose proof Hskb as (Hmss & Hseg & Hhl & Hfr & Hcnt & Hlen & Hmax).
  unfold ionic_tx_tso, ionic_tx_tcp_inner_pseudo_csum, ionic_tx_tcp_pseudo_csum.
  replace (if encapsulation skb then cow_head_err skb else cow_head_err skb)
    with (cow_head_err skb) by (destruct (encapsulation skb); reflexivity).
  destruct (cow_head_err skb =? 0) eqn:Ecow; cbn [negb].
  2: { intros [= He _ _]. rewrite He in Ecow. discriminate. }
  destruct (tso_chop w0 q0 skb (tso_hdrlen skb)) as [r |] eqn:Hchop;
    [| discriminate].
  pose proof (tso_chop_budget w0 q0 skb r (proj1 Hok) Hh0 Hskb Hchop) as Hbud.
  pose proof (tso_chop_attached w0 q0 skb r Hok Hidx Hh0 Hskb Hpos Hlen0 Hchop)
    as Hatt.
  pose proof (tso_chop_inv w0 q0 skb _ r (proj1 Hok) Hh0 Hchop) as Hinv.
  cbn [bind_opt]. destruct r as [v2 w2 q2 | w2 q2].
  2: { unfold tso_err_out_abort. destruct (tso_rewind _ _ _ _) as [[w3 q3] |];
         cbn [bind_opt]; [| discriminate].
       intros [=]. }
  destruct Hbud as (HP & Hfin & HN2 & Hh2 & Hw2).
  destruct Hatt as ((Hring & _ & Hlast) & Hl2).
  destruct (Hlast ltac:(lia)) as (HP1 & Hgrp).
  cbn [tso_outcome_ok] in Hinv. destruct Hinv as (_ & _ & _ & _ & Hfreed).
  pose proof Hring as (Hok2 & Hidx2 & _ & Ht2 & _ & _).
  intros [= <- <-].
  assert (Hpk : tx_pkts (txs (tx_tso_bytes_add (t_total_bytes v2)
                   (tx_tso_inc (tx_bytes_add (t_total_bytes v2)
                      (tx_pkts_add (t_total_pkts v2) w2)))))
                = tx_pkts (txs w2) + t_total_pkts v2)
    by (destruct w2 as [? ? ? ? ? ? ? ? ? ? ? ? ? [] ?]; reflexivity).
  assert (Hfr2 : freed_skbs (tx_tso_bytes_add (t_total_bytes v2)
                   (tx_tso_inc (tx_bytes_add (t_total_bytes v2)
                      (tx_pkts_add (t_total_pkts v2) w2))))
                 = freed_skbs w2)
    by (destruct w2 as [? ? ? ? ? ? ? ? ? ? ? ? ? [] ?]; reflexivity).
  assert (Hdm2 : dma_maps (tx_tso_bytes_add (t_total_bytes v2)
                   (tx_tso_inc (tx_bytes_add (t_total_bytes v2)
                      (tx_pkts_add (t_total_pkts v2) w2))))
                 = dma_maps w2)
    by (destruct w2 as [? ? ? ? ? ? ? ? ? ? ? ? ? [] ?]; reflexivity).
  set (wf := tx_tso_bytes_add (t_total_bytes v2)
               (tx_tso_inc (tx_bytes_add (t_total_bytes v2)
                  (tx_pkts_add (t_total_pkts v2) w2)))) in *.
  set (n := t_total_pkts v2) in *.
  assert (Hest : n ≤ (ionic_tx_descs_needed w0 q0 skb).1.1).
  { unfold ionic_tx_descs_needed, skb_is_gso.
    replace (gso_size skb =? 0) with false by (symmetry; apply Z.eqb_neq; lia).
    cbn [negb fst].
    rewrite (u32_small (skb_len skb)) by lia.
    assert (Hdiv : n - 1 ≤ skb_len skb / gso_size skb)
      by (apply Z.div_le_lower_bound; lia).
    assert (Hup : skb_len skb / gso_size skb ≤ skb_len skb)
      by (apply Z.div_le_upper_bound; nia).
    assert (Hlo : 0 ≤ skb_len skb / gso_size skb)
      by (apply Z.div_pos; lia).
    unfold int_of_u32. rewrite u32_small by lia.
    replace (skb_len skb / gso_size skb + 1 <? 2 ^ 31) with true
      by (symmetry; apply Z.ltb_lt; lia).
    lia. }
  assert (HnN : n < num_descs q0).
  { unfold ionic_q_has_space, ionic_q_space_avail in Hspace.
    apply Z.leb_le in Hspace.
    pose proof (Z.mod_pos_bound (head_idx q0 - tail_idx q0) (num_descs q0)
                  ltac:(lia)).
    lia. }
  destruct (Hgrp ltac:(lia)) as (Hheld & Hnone).
  assert (Hwalk : ring_walk q0 (head_idx q0) (Z.to_nat n)
                  = ring_walk q0 (head_idx q0) (Z.to_nat (n - 1))
                      ++ [(head_idx q0 + n - 1) mod num_descs q0]).
  { replace (Z.to_nat n) with (S (Z.to_nat (n - 1))) by lia.
    rewrite (ring_walk_S_r q0 k) by (lia || assumption).
    rewrite Z2Nat.id by lia. do 3 f_equal. lia. }
  exists n.
  split; [lia |]. split; [exact HnN |].
  split; [rewrite Hpk, Hw2; lia |].
  split; [exact Hh2 |]. split; [exact Ht2 |].
  split; [rewrite Hfr2; exact Hfreed |].
  cbv zeta.
  split; [rewrite Hwalk; apply last_snoc |].
  split; [exact Hheld |].
  split.
  { intros i Hi Hne. rewrite Hwalk in Hi.
    apply elem_of_app in Hi as [Hi | Hi]; [apply Hnone; exact Hi |].
    apply list_elem_of_singleton in Hi. contradiction. }
  intros Hempty cq comp Hcol.
  assert (Htr : 0 ≤ tail_idx q2 < num_descs q2) by (rewrite Ht2, HN2; lia).
  assert (Hdist : ∀ j, 0 ≤ j < n →
            Z.to_nat ((((head_idx q0 + j) mod num_descs q0) - tail_idx q2)
                        mod num_descs q2) = Z.to_nat j).
  { intros j Hj. rewrite Ht2, HN2, Hempty, Zminus_mod_idemp_l.
    replace (head_idx q0 + j - head_idx q0) with j by lia.
    rewrite Z.mod_small by lia. reflexivity. }
  split.
  - intros Hc.
    destruct (ionic_tx_service_closes wf cq q2 comp Hok2 Hidx2 Htr)
      as (w' & q' & Hs & _ & Ht' & Hh' & Hf' & Hm' & _);
      [ rewrite Hc, HN2; apply Z.mod_pos_bound; lia | exact Hcol |].
    rewrite Hc in Ht', Hf', Hm'.
    replace (head_idx q0 + n - 1) with (head_idx q0 + (n - 1)) in Ht', Hf', Hm'
      by lia.
    rewrite (Hdist (n - 1)) in Hf', Hm' by lia.
    replace (S (Z.to_nat (n - 1))) with (Z.to_nat n) in Hf', Hm' by lia.
    rewrite Ht2, Hempty, (ring_walk_ext q0 q2) in Hf', Hm' by exact HN2.
    exists w', q'. split; [exact Hs |].
    split.
    { rewrite Ht', HN2, Z.add_mod_idemp_l, Hh2 by lia. f_equal. lia. }
    split; [exact Hh' |]. split; [| exact Hm'].
    rewrite Hf', Hwalk, omap_app, omap_all_none by exact Hnone.
    rewrite omap_cons_eq, Hheld. reflexivity.
  - intros j Hj Hc.
    destruct (ionic_tx_service_closes wf cq q2 comp Hok2 Hidx2 Htr)
      as (w' & q' & Hs & _ & _ & _ & Hf' & _);
      [ rewrite Hc, HN2; apply Z.mod_pos_bound; lia | exact Hcol |].
    rewrite Hc, (Hdist j) in Hf' by lia.
    rewrite Ht2, Hempty, (ring_walk_ext q0 q2) in Hf' by exact HN2.
    exists w', q'. split; [exact Hs |].
    rewrite Hf', omap_all_none, app_nil_r; [reflexivity |].
    intros i Hi. apply Hnone.
    apply (ring_walk_mono q0 (S (Z.to_nat j))); [lia | exact Hi].
Qed.

End TxGroupSend.

Lemma ionic_tx_service_closes_group_witness :
  ∃ w q w' q' w1 q1,
    @ionic_tx_tso hdr_4k world_tx (txq8 0 0) skb_tso3 = Some (0, w, q) ∧
    tail_idx q = 0 ∧ head_idx q = 3 ∧
    slot_skb q 0 = None ∧ slot_skb q 1 = None ∧ slot_skb q 2 = Some 5%N ∧
    length (dma_maps w) = 4%nat ∧
    @ionic_tx_service hdr_4k w cq_done q (txcomp 2) = Some (true, w', q') ∧
    tail_idx q' = 3 ∧ freed_skbs w' = [5%N] ∧ dma_maps w' = [] ∧
    @ionic_tx_service hdr_4k w cq_done q (txcomp 0) = Some (true, w1, q1) ∧
    tail_idx q1 = 1 ∧ freed_skbs w1 = [] ∧ length (dma_maps w1) = 2%nat.
Proof.
  assert (Hrun : @ionic_tx_tso hdr_4k world_tx (txq8 0 0) skb_tso3
                 = Some (0, world_posted, txq_posted))
    by (vm_compute; reflexivity).
  destruct (@ionic_tx_service_closes_group hdr_4k) as (Hsvc & Hsend).
  destruct (Hsend world_tx (txq8 0 0) skb_tso3 world_posted txq_posted)
    as (n & _ & _ & Hn & Hhead & Htail & _ & _ & Hheld & Hnone & Hdone).
  - apply tx_ring_okb_sound. reflexivity.
  - apply ring_indexedb_sound. reflexivity.
  - by_eval.
  - unfold skb_tso_ok. split; [reflexivity |]. split; [reflexivity |].
    split; [discriminate |]. split; [repeat constructor; discriminate |].
    split; [reflexivity |]. split; reflexivity.
  - repeat constructor.
  - reflexivity.
  - reflexivity.
  - exact Hrun.
  - assert (Hn3 : n = 3) by (rewrite Hn; reflexivity). subst n.
    destruct (Hdone eq_refl cq_done (txcomp 2) eq_refl) as (Hlast & _).
    destruct (Hlast eq_refl) as (w' & q' & Hs & Ht' & _ & Hf' & Hm').
    destruct (Hsvc world_posted cq_done txq_posted (txcomp 0))
      as (w1 & q1 & Hs1 & _ & Ht1 & _ & Hf1 & Hm1 & _).
    + apply tx_ring_okb_sound. reflexivity.
    + apply ring_indexedb_sound. reflexivity.
    + by_eval.
    + reflexivity.
    + reflexivity.
    + exists world_posted, txq_posted, w', q', w1, q1.
      split; [exact Hrun |]. split; [reflexivity |]. split; [reflexivity |].
      split; [reflexivity |]. split; [reflexivity |]. split; [reflexivity |].
      split; [reflexivity |]. split; [exact Hs |].
      split; [rewrite Ht'; reflexivity |].
      split; [rewrite Hf'; reflexivity |].
      split; [rewrite Hm'; reflexivity |].
      split; [exact Hs1 |]. split; [rewrite Ht1; reflexivity |].
      split; [rewrite Hf1; reflexivity | rewrite Hm1; reflexivity].
Defined.

(** ** Receive: a fill pass that runs out of pages *)

Section FillFailure.
Context `{ionic_hdr}.
Implicit Types (q : ionic_queue ionic_rxq_desc).

Lemma ring_next_set_info {D} (qq : ionic_queue D) i d x :
  ring_next (q_set_info i d qq) x = ring_next qq x.
Proof. destruct qq; reflexivity. Qed.

Lemma head_idx_set_info {D} (qq : ionic_queue D) i d :
  head_idx (q_set_info i d qq) = head_idx qq.
Proof. destruct qq; reflexivity. Qed.

Lemma rx_pages_ready_page_ref_add p n w :
  rx_pages_ready (page_ref_add p n w) = rx_pages_ready w.
Proof. destruct w; reflexivity. Qed.

(** [ionic_rx_page_alloc] fails exactly when no page is ready, and a call
    that succeeds uses up one. *)
Lemma ionic_rx_page_alloc_ready w b :
  ∃ err w1 b1,
    ionic_rx_page_alloc w b = (err, w1, b1) ∧
    match rx_pages_ready w with
    | O => err ≠ 0
    | S n => err = 0 ∧ rx_pages_ready w1 = n
    end.
Proof.
  unfold ionic_rx_page_alloc, alloc_pages, dma_map, rx_pages_ready.
  destruct w as [refs maps al dm ? ? ? ? ? ? ? ? [] ? ?]; cbn.
  destruct al as [| [p |] al]; cbn.
  - eexists _, _, _. split; [reflexivity |]. destruct dm; discriminate.
  - destruct dm as [| a dm]; cbn.
    + eexists _, _, _. split; [reflexivity | discriminate].
    + destruct (dma_mapping_error a) eqn:Ha; cbn; rewrite Ha;
        eexists _, _, _; (split; [reflexivity |]);
        [discriminate | split; reflexivity].
  - eexists _, _, _. split; [reflexivity |]. destruct dm; discriminate.
Qed.

(** The count for the scatter-gather loop reads the fragments after [j]
    only. *)
Lemma fill_sg_needs_insert fuel : ∀ j remain bs t b',
  (t ≤ j)%nat →
  fill_sg_needs fuel j remain (<[t := b']> bs) = fill_sg_needs fuel j remain bs.
Proof.
  induction fuel as [| fuel IH]; intros j remain bs t b' Ht; [reflexivity |].
  cbn [fill_sg_needs]. destruct (remain <=? 0); [reflexivity |].
  rewrite list_lookup_insert_ne by lia.
  destruct (bs !! S j) as [b |]; [| reflexivity].
  rewrite IH by lia. reflexivity.
Qed.

(** The scatter-gather loop on a slot of full size returns, and it runs to
    its end exactly when the pages ready cover the fragments without a page
    that it comes to. *)
Lemma ionic_rx_fill_sg_ready fuel : ∀ j remain nfrags w di,
  (j + fuel ≤ length (sg_desc di))%nat →
  (S j + fuel ≤ length (bufs di))%nat →
  ∃ ok nf w' di',
    ionic_rx_fill_sg fuel j remain nfrags w di = Some (ok, nf, w', di') ∧
    length (sg_desc di') = length (sg_desc di) ∧
    length (bufs di') = length (bufs di) ∧
    index di' = index di ∧
    let need := fill_sg_needs fuel j remain (bufs di) in
    ((need ≤ rx_pages_ready w)%nat →
       ok = true ∧ rx_pages_ready w' = (rx_pages_ready w - need)%nat) ∧
    ((rx_pages_ready w < need)%nat → ok = false).
Proof.
  induction fuel as [| fuel IH]; intros j remain nfrags w di Hsg Hbs;
    cbn [ionic_rx_fill_sg fill_sg_needs].
  - exists true, nfrags, w, di. cbv zeta.
    repeat split; [lia | intros; lia].
  - destruct (remain <=? 0).
    { exists true, nfrags, w, di. cbv zeta.
      repeat split; [lia | intros; lia]. }
    destruct (lookup_lt_is_Some_2 (sg_desc di) j ltac:(lia)) as [e He].
    destruct (lookup_lt_is_Some_2 (bufs di) (S j) ltac:(lia)) as [b Hb].
    rewrite He, Hb. cbn [bind_opt].
    destruct (page b) as [p |] eqn:Hp.
    + cbn [negb Z.eqb].
      match goal with
      | |- context [ionic_rx_fill_sg fuel (S j) ?r ?n w ?d] =>
          destruct (IH (S j) r n w d) as (ok & nf & w' & di' & Hrun & Hl1 & Hl2
                                          & Hix & Hle & Hlt);
            [ destruct di; cbn in *; rewrite length_insert; lia
            | destruct di; cbn in *; rewrite length_insert; lia |];
          rewrite Hrun
      end.
      exists ok, nf, w', di'. split; [reflexivity |].
      split; [rewrite Hl1; destruct di; cbn; rewrite length_insert; reflexivity |].
      split; [rewrite Hl2; destruct di; cbn; rewrite length_insert; reflexivity |].
      split; [rewrite Hix; destruct di; reflexivity |].
      assert (Hbufs : bufs (set_sg_desc
                 (<[j := {| sg_addr := u64 (dma_addr b + page_offset b);
                            sg_len := min_t_u16 remain
                                        (IONIC_PAGE_SIZE - page_offset b) |}]>
                    (sg_desc (set_bufs (<[S j := b]> (bufs di)) di)))
                 (set_bufs (<[S j := b]> (bufs di)) di)) = bufs di)
        by (destruct di; cbn in *; apply list_insert_id; exact Hb).
      rewrite Hbufs in Hle, Hlt. cbv zeta in *.
      rewrite Nat.add_0_l. split; [exact Hle | exact Hlt].
    + destruct (ionic_rx_page_alloc_ready w b) as (err & w1 & b1 & Halloc & Hcase).
      rewrite Halloc.
      destruct (rx_pages_ready w) as [| n] eqn:Hready.
      * destruct (Z.eqb_spec err 0) as [? | _]; [contradiction |]. cbn [negb].
        eexists false, _, _, _. split; [reflexivity |].
        split; [destruct di; cbn; rewrite !length_insert; reflexivity |].
        split; [destruct di; cbn; rewrite !length_insert; reflexivity |].
        split; [destruct di; reflexivity |].
        cbv zeta. split; [intros; lia | reflexivity].
      * destruct Hcase as (-> & Hn). cbn [negb Z.eqb].
        destruct (ionic_rx_page_alloc_ok _ _ _ _ Halloc) as (p1 & Hp1 & Hoff & _).
        match goal with
        | |- context [ionic_rx_fill_sg fuel (S j) ?r ?n w1 ?d] =>
            destruct (IH (S j) r n w1 d) as (ok & nf & w' & di' & Hrun & Hl1 & Hl2
                                             & Hix & Hle & Hlt);
              [ destruct di; cbn in *; rewrite length_insert; lia
              | destruct di; cbn in *; rewrite length_insert; lia |];
            rewrite Hrun
        end.
        exists ok, nf, w', di'. split; [reflexivity |].
        split; [rewrite Hl1; destruct di; cbn; rewrite length_insert; reflexivity |].
        split; [rewrite Hl2; destruct di; cbn; rewrite length_insert; reflexivity |].
        split; [rewrite Hix; destruct di; reflexivity |].
        assert (Hbufs : bufs (set_sg_desc
                   (<[j := {| sg_addr := u64 (dma_addr b1 + page_offset b1);
                              sg_len := min_t_u16 remain
                                          (IONIC_PAGE_SIZE - page_offset b1) |}]>
                      (sg_desc (set_bufs (<[S j := b1]> (bufs di)) di)))
                   (set_bufs (<[S j := b1]> (bufs di)) di))
                 = <[S j := b1]> (bufs di))
          by (destruct di; reflexivity).
        rewrite Hbufs, fill_sg_needs_insert, Hoff, Hn in Hle, Hlt by lia.
        cbv zeta in *. split.
        -- intros Hneed. destruct Hle as [-> ->]; [lia |]. split; [reflexivity | lia].
        -- intros Hneed. apply Hlt. lia.
Qed.

(** One slot of full size: [ionic_rx_fill_slot] returns, touches no other
    slot, and posts the slot exactly when the pages ready cover the
    fragments without a page that it comes to. *)
Lemma ionic_rx_fill_slot_ready len nsplits w q di :
  q_info q (head_idx q) = Some di →
  rx_slot_sized (max_sg_elems q) di →
  ∃ ok w' q' di',
    ionic_rx_fill_slot len nsplits w q = Some (ok, w', q') ∧
    num_descs q' = num_descs q ∧ tail_idx q' = tail_idx q ∧ lif q' = lif q ∧
    max_sg_elems q' = max_sg_elems q ∧ dbval q' = dbval q ∧
    length (info q') = length (info q) ∧
    q_info q' (head_idx q) = Some di' ∧
    length (sg_desc di') = length (sg_desc di) ∧
    length (bufs di') = length (bufs di) ∧
    (∀ j, 0 ≤ j → j ≠ head_idx q → q_info q' j = q_info q j) ∧
    let need := fill_slot_needs len (max_sg_elems q) (bufs di) in
    ((need ≤ rx_pages_ready w)%nat →
       ok = true ∧ rx_pages_ready w' = (rx_pages_ready w - need)%nat ∧
       head_idx q' = ring_next q (head_idx q)) ∧
    ((rx_pages_ready w < need)%nat → ok = false ∧ head_idx q' = head_idx q).
Proof.
  intros Hdi (Hsz_sg & Hsz_b).
  destruct (q_info_Some _ _ _ Hdi) as [Hh0 _].
  unfold ionic_rx_fill_slot, fill_slot_needs. rewrite Hdi. cbn [bind_opt].
  destruct (lookup_lt_is_Some_2 (bufs di) 0 ltac:(lia)) as [b Hb].
  rewrite Hb. cbn [bind_opt].
  set (new := match page b with None => 1%nat | Some _ => 0%nat end).
  set (off := match page b with None => 0 | Some _ => page_offset b end).
  set (r := match page b with
            | Some _ => (0, w, b)
            | None => _
            end).
  assert (Hr : ((new ≤ rx_pages_ready w)%nat →
                  r.1.1 = 0 ∧
                  rx_pages_ready r.1.2 = (rx_pages_ready w - new)%nat ∧
                  page_offset r.2 = off) ∧
               ((rx_pages_ready w < new)%nat → r.1.1 ≠ 0)).
  { subst r new off. destruct (page b) as [p |] eqn:Hp.
    - cbn. split; [intros _; split; [reflexivity |]; split; [lia | reflexivity]
                  | intros; lia].
    - destruct (ionic_rx_page_alloc_ready w b) as (err & w1 & b1 & Halloc & Hcase).
      rewrite Halloc.
      destruct (rx_pages_ready w) as [| n] eqn:Hready.
      + destruct (Z.eqb_spec err 0) as [? | _]; [contradiction |]. cbn.
        split; [intros; lia | intros _; exact Hcase].
      + destruct Hcase as (-> & Hn). cbn [negb Z.eqb].
        destruct (ionic_rx_page_alloc_ok _ _ _ _ Halloc) as (p1 & Hp1 & Hoff & _).
        split; [intros _ | intros; lia].
        destruct (0 <? IONIC_PAGE_ORDER); cbn [page]; [rewrite Hp1 |];
          [destruct (negb _) |]; cbn;
          rewrite ?rx_pages_ready_page_ref_add, Hn;
          (split; [reflexivity |]; split; [lia | exact Hoff]). }
  destruct r as [[err w1] b1]. cbn in Hr. destruct Hr as (Hr_ok & Hr_fail).
  destruct (set_bufs_fields (<[0%nat := b1]> (bufs di)) di) as (Hb1 & Hs1 & Hd1).
  set (di1 := set_bufs (<[0%nat := b1]> (bufs di)) di) in *.
  assert (Hfr : ∀ d v, let qq := q_set_info (head_idx q) d q in
            num_descs qq = num_descs q ∧ tail_idx qq = tail_idx q ∧
            lif qq = lif q ∧ max_sg_elems qq = max_sg_elems q ∧
            dbval qq = dbval q ∧ length (info qq) = length (info q) ∧
            head_idx qq = head_idx q ∧
            q_info qq (head_idx q) = Some d ∧
            (∀ j, 0 ≤ j → j ≠ head_idx q → q_info qq j = q_info q j) ∧
            num_descs (set_head_idx v qq) = num_descs q).
  { intros d v qq. subst qq. split; [destruct q; reflexivity |].
    split; [destruct q; reflexivity |]. split; [destruct q; reflexivity |].
    split; [destruct q; reflexivity |]. split; [destruct q; reflexivity |].
    split; [destruct q; cbn; rewrite length_insert; reflexivity |].
    split; [destruct q; reflexivity |].
    split; [eapply q_info_set_eq; exact Hdi |].
    split; [intros j Hj Hne; apply q_info_set_ne; auto |].
    destruct q; reflexivity. }
  destruct (Z.eqb_spec err 0) as [-> | Herr]; cbn [negb].
  - assert (Hnew : (new ≤ rx_pages_ready w)%nat).
    { destruct (Nat.le_gt_cases new (rx_pages_ready w)) as [? | Hgt];
        [assumption |]. exfalso. apply (Hr_fail Hgt). reflexivity. }
    destruct (Hr_ok Hnew) as (_ & Hready1 & Hoff).
    match goal with
    | |- context [set_desc ?v di1] =>
        destruct (set_desc_fields v di1) as (Hd2 & Hb2 & Hs2);
        set (di2 := set_desc v di1) in *
    end.
    match goal with
    | |- context [ionic_rx_fill_sg ?f ?j ?rm ?n ?ww ?d] =>
        destruct (ionic_rx_fill_sg_ready f j rm n ww d)
          as (ok1 & nf & w2 & di3 & Hsg & Hl1 & Hl2 & _ & Hle & Hlt);
          [ rewrite Hs2, Hs1; lia
          | rewrite Hb2, Hb1, length_insert; lia |];
        rewrite Hsg
    end.
    cbn [bind_opt].
    rewrite Hb2, Hb1, fill_sg_needs_insert, Hoff in Hle, Hlt by lia.
    rewrite Hs2, Hs1 in Hl1. rewrite Hb2, Hb1, length_insert in Hl2.
    cbv zeta in Hle, Hlt.
    destruct ok1; cbn [negb].
    + match goal with
      | |- context [q_set_info (head_idx q) ?d q] =>
          destruct (Hfr d (ring_next (q_set_info (head_idx q) d q)
                             (head_idx (q_set_info (head_idx q) d q))))
            as (HN1 & Ht1 & Hlif1 & Hmx1 & Hdb1 & Hlen1 & Hh1 & Hq1 & Ho1 & _);
          set (di4 := d) in *;
          set (q1 := q_set_info (head_idx q) di4 q) in *
      end.
      unfold ionic_rxq_post, ionic_q_post. rewrite Hh1, Hq1. cbn [bind_opt].
      match goal with
      | |- context [set_head_idx ?v (q_set_info ?i ?d q1)] =>
          destruct (q_frame_set_head_info q1 v i d)
            as (Ht2 & HN2 & Hlif2 & Hmx2 & Hdb2 & _ & Hlen2 & Hh2);
          pose proof (q_info_set_eq q1 i d di4 Hq1) as Hq2;
          pose proof (λ j, q_info_set_ne q1 i j d) as Ho2;
          set (q2 := set_head_idx v (q_set_info i d q1)) in *;
          exists true, w2, q2, d
      end.
      split; [reflexivity |].
      split; [congruence |]. split; [congruence |]. split; [congruence |].
      split; [congruence |]. split; [congruence |]. split; [congruence |].
      split; [unfold q2; rewrite q_info_set_head_idx; exact Hq2 |].
      split; [subst di4; destruct di3; cbn in *; congruence |].
      split; [subst di4; destruct di3; cbn in *; congruence |].
      split.
      { intros j Hj Hne. unfold q2. rewrite q_info_set_head_idx.
        rewrite Ho2 by auto. apply Ho1; auto. }
      cbv zeta. fold new. fold off. split.
      * intros Hneed.
        destruct (Nat.le_gt_cases
                    (fill_sg_needs (Z.to_nat (max_sg_elems q)) 0
                       (u32 (len - min_t_u16 len (IONIC_PAGE_SIZE - off)))
                       (bufs di)) (rx_pages_ready w1)) as [Hc | Hc];
          [| specialize (Hlt Hc); discriminate].
        destruct (Hle Hc) as (_ & Hrd).
        split; [reflexivity |]. split; [lia |].
        rewrite Hh2. unfold q1.
        rewrite !ring_next_set_info, !head_idx_set_info. reflexivity.
      * intros Hneed. exfalso.
        assert (Hc : (rx_pages_ready w1
                      < fill_sg_needs (Z.to_nat (max_sg_elems q)) 0
                          (u32 (len - min_t_u16 len (IONIC_PAGE_SIZE - off)))
                          (bufs di))%nat) by lia.
        specialize (Hlt Hc). discriminate.
    + destruct (Hfr di3 0)
        as (HN1 & Ht1 & Hlif1 & Hmx1 & Hdb1 & Hlen1 & Hh1 & Hq1 & Ho1 & _).
      exists false, w2, (q_set_info (head_idx q) di3 q), di3.
      split; [reflexivity |].
      do 6 (split; [assumption |]). split; [exact Hq1 |].
      split; [congruence |]. split; [congruence |]. split; [exact Ho1 |].
      cbv zeta. fold new. fold off. split.
      * intros Hneed. exfalso.
        assert (Hc : (fill_sg_needs (Z.to_nat (max_sg_elems q)) 0
                        (u32 (len - min_t_u16 len (IONIC_PAGE_SIZE - off)))
                        (bufs di) ≤ rx_pages_ready w1)%nat) by lia.
        destruct (Hle Hc) as (Hbad & _). discriminate.
      * intros _. split; [reflexivity | exact Hh1].
  - match goal with
    | |- context [q_set_info (head_idx q) ?d q] =>
        destruct (Hfr d 0)
          as (HN1 & Ht1 & Hlif1 & Hmx1 & Hdb1 & Hlen1 & Hh1 & Hq1 & Ho1 & _);
        exists false, w1, (q_set_info (head_idx q) d q), d
    end.
    split; [reflexivity |].
    do 6 (split; [assumption |]). split; [exact Hq1 |].
    split; [destruct di; cbn in *; rewrite ?length_insert; reflexivity |].
    split; [destruct di; cbn in *; rewrite ?length_insert; reflexivity |].
    split; [exact Ho1 |].
    cbv zeta. fold new. fold off. split.
    + intros Hneed. exfalso.
      destruct (Hr_ok ltac:(lia)) as (Hbad & _). contradiction.
    + intros _. split; [reflexivity | exact Hh1].
Qed.

Lemma fill_needs_ext i : ∀ len q q' idx,
  num_descs q' = num_descs q → max_sg_elems q' = max_sg_elems q →
  (∀ j, j ∈ ring_walk q idx i → q_info q' j = q_info q j) →
  fill_needs i len q' idx = fill_needs i len q idx.
Proof.
  induction i as [| i IH]; intros len q q' idx HN Hmx Hsame; [reflexivity |].
  cbn [fill_needs]. cbn [ring_walk] in Hsame.
  rewrite Hsame, Hmx by (apply elem_of_cons; auto).
  replace (ring_next q' idx) with (ring_next q idx)
    by (unfold ring_next; rewrite HN; reflexivity).
  rewrite (IH len q q' (ring_next q idx) HN Hmx); [reflexivity |].
  intros j Hj. apply Hsame. apply elem_of_cons. auto.
Qed.

(** The loop over the free slots, at most one turn of the ring: it returns,
    it runs to its end exactly when the pages ready cover what the slots
    need, and otherwise it stops at the first slot they do not cover and
    touches no slot after that one. *)
Lemma ionic_rx_fill_loop_ready k i : ∀ len nsplits w q,
  0 ≤ k → num_descs q = 2 ^ k → Z.of_nat (length (info q)) = num_descs q →
  0 ≤ head_idx q < num_descs q →
  Z.of_nat i < num_descs q →
  (∀ j di, q_info q j = Some di → rx_slot_sized (max_sg_elems q) di) →
  ∃ ok w' q',
    ionic_rx_fill_loop i len nsplits w q = Some (ok, w', q') ∧
    num_descs q' = num_descs q ∧ tail_idx q' = tail_idx q ∧
    dbval q' = dbval q ∧
    ((fill_needs i len q (head_idx q) ≤ rx_pages_ready w)%nat →
       ok = true ∧
       head_idx q' = (head_idx q + Z.of_nat i) mod num_descs q) ∧
    ((rx_pages_ready w < fill_needs i len q (head_idx q))%nat →
       ok = false ∧
       ∃ s, (s < i)%nat ∧
         (fill_needs s len q (head_idx q) ≤ rx_pages_ready w
          < fill_needs (S s) len q (head_idx q))%nat ∧
         head_idx q' = (head_idx q + Z.of_nat s) mod num_descs q ∧
         (∀ j, 0 ≤ j → j ∉ ring_walk q (head_idx q) (S s) →
            q_info q' j = q_info q j)).
Proof.
  induction i as [| i IH]; intros len nsplits w q Hk HN Hlen Hh Hi Hsized;
    cbn [ionic_rx_fill_loop].
  - exists true, w, q. split; [reflexivity |]. do 3 (split; [reflexivity |]).
    cbn [fill_needs]. split; [| intros; lia].
    intros _. split; [reflexivity |].
    rewrite Z.add_0_r, Z.mod_small by lia. reflexivity.
  - destruct (q_info_in_range q (head_idx q) ltac:(lia)) as [di Hdi].
    destruct (ionic_rx_fill_slot_ready len nsplits w q di Hdi (Hsized _ _ Hdi))
      as (ok1 & w1 & q1 & di' & Hslot & HN1 & Ht1 & _ & Hmx1 & Hdb1 & Hlen1
          & Hdi' & Hlsg & Hlb & Hother & Hle & Hlt).
    rewrite Hslot. cbn [bind_opt].
    cbv zeta in Hle, Hlt.
    set (need0 := fill_slot_needs len (max_sg_elems q) (bufs di)) in *.
    assert (Hneeds : ∀ n, fill_needs (S n) len q (head_idx q)
              = (need0 + fill_needs n len q (ring_next q (head_idx q)))%nat)
      by (intros n; cbn [fill_needs]; rewrite Hdi; reflexivity).
    destruct ok1.
    + assert (Hc : (need0 ≤ rx_pages_ready w)%nat).
      { destruct (Nat.le_gt_cases need0 (rx_pages_ready w)) as [? | Hgt];
          [assumption |]. destruct (Hlt Hgt) as (Hbad & _). discriminate. }
      destruct (Hle Hc) as (_ & Hready1 & Hh1).
      assert (Hh1r : 0 ≤ head_idx q1 < num_descs q1)
        by (rewrite Hh1, HN1; eapply ring_next_range; eassumption).
      destruct (IH len nsplits w1 q1 Hk ltac:(congruence) ltac:(congruence)
                  Hh1r ltac:(lia)) as (ok & w' & q' & Hloop & HN' & Ht' & Hdb'
                                       & Hle' & Hlt').
      { intros j dj Hj. rewrite Hmx1.
        destruct (q_info_Some _ _ _ Hj) as [Hj0 _].
        destruct (Z.eq_dec j (head_idx q)) as [-> | Hne].
        - assert (dj = di') as -> by congruence.
          destruct (Hsized _ _ Hdi) as (Hs1 & Hs2).
          split; [rewrite Hlsg; exact Hs1 | rewrite Hlb; exact Hs2].
        - rewrite Hother in Hj by assumption. eapply Hsized; eauto. }
      assert (Hext : ∀ n, (n ≤ i)%nat →
                fill_needs n len q1 (head_idx q1)
                = fill_needs n len q (ring_next q (head_idx q))).
      { intros n Hn. rewrite Hh1. apply fill_needs_ext; [exact HN1 | exact Hmx1 |].
        intros j Hj.
        destruct (ring_walk_ahead q k n (head_idx q) j Hk HN Hh ltac:(lia) Hj)
          as (Hj0 & Hne).
        apply Hother; assumption. }
      rewrite (Hext i) in Hle', Hlt' by lia.
      assert (Hstep : ∀ n, (head_idx q1 + Z.of_nat n) mod num_descs q1
                           = (head_idx q + Z.of_nat (S n)) mod num_descs q).
      { intros n. rewrite Hh1, HN1, (ring_next_mod q k) by assumption.
        rewrite Z.add_mod_idemp_l by lia. f_equal. lia. }
      exists ok, w', q'. split; [exact Hloop |].
      split; [congruence |]. split; [congruence |]. split; [congruence |].
      rewrite (Hneeds i). split.
      * intros Hneed. destruct (Hle' ltac:(lia)) as (-> & Hh').
        split; [reflexivity |]. rewrite Hh'. apply Hstep.
      * intros Hneed.
        destruct (Hlt' ltac:(lia)) as (-> & s & Hs & Hbound & Hh' & Hframe).
        split; [reflexivity |]. exists (S s). split; [lia |].
        rewrite (Hext s), (Hext (S s)) in Hbound by lia.
        split; [rewrite (Hneeds s), (Hneeds (S s)); lia |].
        split; [rewrite Hh'; apply Hstep |].
        intros j Hj Hnin.
        change (ring_walk q (head_idx q) (S (S s)))
          with (head_idx q :: ring_walk q (ring_next q (head_idx q)) (S s))
          in Hnin.
        apply not_elem_of_cons in Hnin as (Hne & Hnin).
        rewrite Hframe; [apply Hother; assumption | exact Hj |].
        rewrite (ring_walk_ext q q1) by exact HN1. rewrite Hh1. exact Hnin.
    + assert (Hc : (rx_pages_ready w < need0)%nat).
      { destruct (Nat.le_gt_cases need0 (rx_pages_ready w)) as [Hle0 | ?];
          [| assumption]. destruct (Hle Hle0) as (Hbad & _). discriminate. }
      destruct (Hlt Hc) as (_ & Hh1).
      exists false, w1, q1. split; [reflexivity |].
      split; [exact HN1 |]. split; [exact Ht1 |]. split; [exact Hdb1 |].
      rewrite (Hneeds i). split; [intros; lia |].
      intros _. split; [reflexivity |]. exists 0%nat. split; [lia |].
      split; [rewrite (Hneeds 0%nat); cbn [fill_needs]; lia |].
      split; [rewrite Hh1, Z.add_0_r, Z.mod_small by lia; reflexivity |].
      intros j Hj Hnin. cbn [ring_walk] in Hnin.
      apply not_elem_of_cons in Hnin as (Hne & _). apply Hother; assumption.
Qed.

(** C10, amended: whether an allocation or mapping fails during a fill pass
    is decided by what the pass is given: the pages ready (the calls of
    [ionic_rx_page_alloc] that succeed before the first page allocation or
    DMA mapping that fails) against the fragments without a page that the
    free slots need.  On a ring of full-size slots the pass returns.  When
    the pages ready do not cover the need, it stops at the first slot they
    do not cover: the doorbell log is exactly as before the pass, so nothing
    posted earlier in the pass is signalled; [head] stays on that slot; no
    slot after it is touched; and what is zeroed is the entry being written
    for the fragment that failed, address and length of the main descriptor
    when it is the first fragment, address and length of its scatter-gather
    element when it is a later one, the descriptor then keeping address and
    length of the first fragment.  When the pages ready cover the need, the
    pass goes round all free slots and rings the doorbell once, with the
    new [head]. *)
Theorem ionic_rx_fill_failure_skips_doorbell
    (w : world) (q : ionic_queue ionic_rxq_desc) :
  rx_fill_ring_ok q →
  let len := u32 (mtu (lif q) + ETH_HLEN) in
  ALIGN len IONIC_PAGE_SPLIT_SZ ≠ 0 →
  let avail := Z.to_nat (ionic_q_space_avail q) in
  ∃ w' q',
    ionic_rx_fill w q = Some (w', q') ∧
    ((rx_pages_ready w < fill_needs avail len q (head_idx q))%nat →
       doorbells w' = doorbells w ∧
       ∃ s di, (s < avail)%nat ∧
         (fill_needs s len q (head_idx q) ≤ rx_pages_ready w
          < fill_needs (S s) len q (head_idx q))%nat ∧
         head_idx q' = (head_idx q + Z.of_nat s) mod num_descs q ∧
         q_info q' (head_idx q') = Some di ∧ fill_stopped_at len di ∧
         (∀ j, 0 ≤ j → j ∉ ring_walk q (head_idx q) (S s) →
            q_info q' j = q_info q j)) ∧
    ((fill_needs avail len q (head_idx q) ≤ rx_pages_ready w)%nat →
       head_idx q' = (head_idx q + Z.of_nat avail) mod num_descs q ∧
       doorbells w' = doorbells w ++ [Z.lor (dbval q) (head_idx q')]).
Proof.
  intros (((k & Hk & HN) & Hlen) & Hh & Ht & Hsized) len Hal avail.
  assert (HNpos : 0 < num_descs q) by (rewrite HN; apply Z.pow_pos_nonneg; lia).
  assert (Hav : Z.of_nat avail < num_descs q).
  { unfold avail, ionic_q_space_avail.
    pose proof (Z.mod_pos_bound (head_idx q - tail_idx q) (num_descs q) HNpos).
    lia. }
  destruct (ionic_rx_fill_loop_ready k avail len
              (IONIC_PAGE_SIZE / ALIGN len IONIC_PAGE_SPLIT_SZ) w q
              (proj1 Hk) HN Hlen Hh Hav Hsized)
    as (ok & w1 & q1 & Hloop & HN1 & Ht1 & Hdb1 & Hle & Hlt).
  destruct (ionic_rx_fill_loop_inv _ _ _ _ _ _ _ _ Hloop) as [Hd Hstop].
  unfold ionic_rx_fill. fold len.
  destruct (Z.eqb_spec (ALIGN len IONIC_PAGE_SPLIT_SZ) 0) as [? | _];
    [contradiction |].
  fold avail. rewrite Hloop. cbn [bind_opt].
  destruct ok.
  - eexists _, q1. split; [reflexivity |]. split.
    + intros Hneed. destruct (Hlt Hneed) as (Hbad & _). discriminate.
    + intros Hneed. destruct (Hle Hneed) as (_ & Hh1).
      split; [exact Hh1 |]. rewrite Hdb1, <- Hd. destruct w1; reflexivity.
  - exists w1, q1. split; [reflexivity |]. split.
    + intros Hneed. split; [exact Hd |].
      destruct (Hlt Hneed) as (_ & s & Hs & Hbound & Hh1 & Hframe).
      destruct (Hstop eq_refl) as (di & Hdi & Hst).
      exists s, di. auto 10.
    + intros Hneed. destruct (Hle Hneed) as (Hbad & _). discriminate.
Qed.

End FillFailure.

Lemma rxq8_sized l i di :
  q_info (rxq8 l 0 0) i = Some di →
  rx_slot_sized (max_sg_elems (rxq8 l 0 0)) di.
Proof.
  unfold q_info. destruct (i <? 0); [discriminate |]. intros Hq.
  assert (Hall : Forall (rx_slot_sized (max_sg_elems (rxq8 l 0 0)))
                   (info (rxq8 l 0 0)))
    by (repeat constructor).
  eapply Forall_lookup_1; eauto.
Qed.

Lemma ionic_rx_fill_failure_skips_doorbell_witness :
  rx_pages_ready world_fill = 1%nat ∧
  @fill_needs hdr_4k 7 1514 (rxq8 lif0 0 0) 0 = 7%nat ∧
  @fill_needs hdr_4k 7 9014 (rxq8 lif_jumbo 0 0) 0 = 21%nat ∧
  (∃ w' q' di,
     @ionic_rx_fill hdr_4k world_fill (rxq8 lif0 0 0) = Some (w', q') ∧
     doorbells w' = [] ∧ head_idx q' = 1 ∧
     q_info q' (head_idx q') = Some di ∧ @fill_stopped_at hdr_4k 1514 di) ∧
  (∃ w' q' di,
     @ionic_rx_fill hdr_4k world_fill (rxq8 lif_jumbo 0 0) = Some (w', q') ∧
     doorbells w' = [] ∧ head_idx q' = 0 ∧
     q_info q' (head_idx q') = Some di ∧ @fill_stopped_at hdr_4k 9014 di).
Proof.
  split; [reflexivity |]. split; [reflexivity |]. split; [reflexivity |].
  split.
  - destruct (@ionic_rx_fill_failure_skips_doorbell hdr_4k world_fill
                (rxq8 lif0 0 0))
      as (w' & q' & Hfill & Hfail & _).
    + split; [split; [exists 3; split; [lia | reflexivity] | reflexivity] |].
      split; [by_eval |]. split; [by_eval |]. apply rxq8_sized.
    + by_eval.
    + destruct Hfail as (Hd & s & di & _ & _ & _ & Hdi & Hstop & _);
        [vm_compute; lia |].
      exists w', q', di. split; [exact Hfill |]. split; [exact Hd |].
      split; [| split; [exact Hdi | exact Hstop]].
      vm_compute in Hfill. injection Hfill as _ <-. reflexivity.
  - destruct (@ionic_rx_fill_failure_skips_doorbell hdr_4k world_fill
                (rxq8 lif_jumbo 0 0))
      as (w' & q' & Hfill & Hfail & _).
    + split; [split; [exists 3; split; [lia | reflexivity] | reflexivity] |].
      split; [by_eval |]. split; [by_eval |]. apply rxq8_sized.
    + by_eval.
    + destruct Hfail as (Hd & s & di & _ & _ & _ & Hdi & Hstop & _);
        [vm_compute; lia |].
      exists w', q', di. split; [exact Hfill |]. split; [exact Hd |].
      split; [| split; [exact Hdi | exact Hstop]].
      vm_compute in Hfill. injection Hfill as _ <-. reflexivity.
Defined.
